(** * Nexus-Lite consumer: circuit breaker, retry executor, liquidity gate,
      validation and broadcast hub

    A shallow embedding of the Go sources of the consumer service:
    - [circuit_breaker.go]: [CircuitBreaker], [RetryWithBackoff];
    - [main.go] of the consumer: [validateTransaction], [checkLiquidity],
      [processMessages], [broadcastTransactionToWS];
    - [websocket.go]: [WebSocketHub.Run], [BroadcastMessage].

    Machine integers are [Z] with the wrap-around written out, the atomics of
    [sync/atomic] are functions on the cell they act on, time is a reading
    of the wall clock passed in explicitly, and channels are bounded
    buffers. *)

From Stdlib Require Import ZArith Floats DecimalString.
From stdpp Require Import base numbers list strings gmap.

Local Open Scope Z_scope.

(** ** Machine integers *)

Definition min_int32 : Z := - 2 ^ 31.
Definition max_int32 : Z := 2 ^ 31 - 1.
Definition min_int64 : Z := - 2 ^ 63.
Definition max_int64 : Z := 2 ^ 63 - 1.

(** Two's complement wrap-around of a [w]-bit signed integer. *)
Definition wrap (w : Z) (x : Z) : Z :=
  (x + 2 ^ (w - 1)) mod 2 ^ w - 2 ^ (w - 1).

Definition wrap32 (x : Z) : Z := wrap 32 x.
Definition wrap64 (x : Z) : Z := wrap 64 x.

(** [time.Duration] arithmetic of [Time.Sub] saturates instead of wrapping. *)
Definition saturate64 (x : Z) : Z := Z.max min_int64 (Z.min max_int64 x).

(** ** sync/atomic

    Each operation acts on the current content of one cell and returns the
    new content together with the operation's result. *)

Module atomic.

Definition LoadInt32 (cell : Z) : Z := cell.
Definition LoadInt64 (cell : Z) : Z := cell.

(** [AddInt32(&cell, delta)] stores and returns the wrapped sum. *)
Definition AddInt32 (cell delta : Z) : Z := wrap32 (cell + delta).

(** [CompareAndSwapInt32(&cell, old, new)]: new content, and whether the
    swap happened. *)
Definition CompareAndSwapInt32 (cell old new : Z) : Z * bool :=
  if cell =? old then (new, true) else (cell, false).

End atomic.

(** ** time *)

(** [time.Since(time.Unix(0, t))] when the wall clock reads [now]
    nanoseconds since the epoch. *)
Definition time_Since (now t : Z) : Z := saturate64 (now - t).

Definition Millisecond : Z := 1000000.
Definition Second : Z := 1000 * Millisecond.

(** ** circuit_breaker.go *)

(** [type CircuitState int32], with the [iota] constants of the source. *)
Definition StateClosed : Z := 0.
Definition StateHalfOpen : Z := 1.
Definition StateOpen : Z := 2.

Definition CircuitState_String (s : Z) : string :=
  if s =? StateClosed then "closed"
  else if s =? StateHalfOpen then "half-open"
  else if s =? StateOpen then "open"
  else "unknown".

Record CircuitBreaker := mkCircuitBreaker {
  name : string;
  maxFailures : Z;
  resetTimeout : Z;
  halfOpenSuccess : Z;
  state : Z;
  failures : Z;
  lastFailureTime : Z;
  halfOpenSuccesses : Z
}.

Definition set_state (v : Z) (cb : CircuitBreaker) : CircuitBreaker :=
  mkCircuitBreaker (name cb) (maxFailures cb) (resetTimeout cb)
    (halfOpenSuccess cb) v (failures cb) (lastFailureTime cb)
    (halfOpenSuccesses cb).

Definition set_failures (v : Z) (cb : CircuitBreaker) : CircuitBreaker :=
  mkCircuitBreaker (name cb) (maxFailures cb) (resetTimeout cb)
    (halfOpenSuccess cb) (state cb) v (lastFailureTime cb)
    (halfOpenSuccesses cb).

Definition set_lastFailureTime (v : Z) (cb : CircuitBreaker) : CircuitBreaker :=
  mkCircuitBreaker (name cb) (maxFailures cb) (resetTimeout cb)
    (halfOpenSuccess cb) (state cb) (failures cb) v (halfOpenSuccesses cb).

Definition set_halfOpenSuccesses (v : Z) (cb : CircuitBreaker) : CircuitBreaker :=
  mkCircuitBreaker (name cb) (maxFailures cb) (resetTimeout cb)
    (halfOpenSuccess cb) (state cb) (failures cb) (lastFailureTime cb) v.

(** The lines the breaker and the retry loop print on standard output. *)
Inductive LogLine :=
  | LogToHalfOpen (breaker : string)
  | LogOpening (breaker : string) (failures : Z)
  | LogReopening (breaker : string)
  | LogClosing (breaker : string) (successes : Z)
  | LogRetry (attempt maxAttempts : Z) (err : string) (delay : Z).

Definition NewCircuitBreaker (name : string) (maxFailures resetTimeout
    halfOpenSuccess : Z) : CircuitBreaker :=
  {| name := name; maxFailures := maxFailures; resetTimeout := resetTimeout;
     halfOpenSuccess := halfOpenSuccess; state := StateClosed; failures := 0;
     lastFailureTime := 0; halfOpenSuccesses := 0 |}.

(** [canExecute] after its first line has loaded [st] from [cb.state].
    Between that load and the compare-and-swap other goroutines may run,
    so [st] need not be the state of [cb] any more. *)
Definition canExecute_loaded (st : Z) (now : Z) (cb : CircuitBreaker)
  : bool * CircuitBreaker * list LogLine :=
  if st =? StateClosed then (true, cb, [])
  else if st =? StateOpen then
    let lastFailure := atomic.LoadInt64 (lastFailureTime cb) in
    if time_Since now lastFailure >? resetTimeout cb then
      let '(s', swapped) :=
        atomic.CompareAndSwapInt32 (state cb) StateOpen StateHalfOpen in
      if swapped then
        (true, set_halfOpenSuccesses 0 (set_state s' cb),
         [LogToHalfOpen (name cb)])
      else (true, cb, [])
    else (false, cb, [])
  else if st =? StateHalfOpen then (true, cb, [])
  else (false, cb, []).

Definition canExecute (now : Z) (cb : CircuitBreaker)
  : bool * CircuitBreaker * list LogLine :=
  canExecute_loaded (atomic.LoadInt32 (state cb)) now cb.

(** [recordFailure]; [now] is what [time.Now().UnixNano()] returns. *)
Definition recordFailure (now : Z) (cb : CircuitBreaker)
  : CircuitBreaker * list LogLine :=
  let st := atomic.LoadInt32 (state cb) in
  let failures := atomic.AddInt32 (failures cb) 1 in
  let cb := set_failures failures cb in
  let cb := set_lastFailureTime now cb in
  if st =? StateClosed then
    if failures >=? maxFailures cb then
      let '(s', swapped) :=
        atomic.CompareAndSwapInt32 (state cb) StateClosed StateOpen in
      if swapped then (set_state s' cb, [LogOpening (name cb) failures])
      else (cb, [])
    else (cb, [])
  else if st =? StateHalfOpen then
    let '(s', swapped) :=
      atomic.CompareAndSwapInt32 (state cb) StateHalfOpen StateOpen in
    if swapped then
      (set_failures 0 (set_state s' cb), [LogReopening (name cb)])
    else (cb, [])
  else (cb, []).

Definition recordSuccess (cb : CircuitBreaker)
  : CircuitBreaker * list LogLine :=
  let st := atomic.LoadInt32 (state cb) in
  if st =? StateClosed then (set_failures 0 cb, [])
  else if st =? StateHalfOpen then
    let successes := atomic.AddInt32 (halfOpenSuccesses cb) 1 in
    let cb := set_halfOpenSuccesses successes cb in
    if successes >=? halfOpenSuccess cb then
      let '(s', swapped) :=
        atomic.CompareAndSwapInt32 (state cb) StateHalfOpen StateClosed in
      if swapped then
        (set_halfOpenSuccesses 0 (set_failures 0 (set_state s' cb)),
         [LogClosing (name cb) successes])
      else (cb, [])
    else (cb, [])
  else (cb, []).

Definition GetState (cb : CircuitBreaker) : Z := atomic.LoadInt32 (state cb).
Definition GetFailureCount (cb : CircuitBreaker) : Z :=
  atomic.LoadInt32 (failures cb).

(** ** Errors

    A Go [error] value is [option error], [None] being [nil].  The two
    package-level sentinels are constructors of their own; [ErrForeign]
    stands for any error value made outside this package (what the
    operation returns, what [ctx.Err()] returns, a transport error);
    [fmt_Errorf text w] is [fmt.Errorf(text + "%w", w)]. *)
#[warnings="-register-all"]
Inductive error :=
  | ErrCircuitOpen
  | ErrTooManyFailures
  | ErrForeign (text : string)
  | fmt_Errorf (text : string) (wrapped : option error).

Definition itoa (z : Z) : string := NilZero.string_of_int (Z.to_int z).

Fixpoint error_Error (e : error) : string :=
  match e with
  | ErrCircuitOpen => "circuit breaker is open"
  | ErrTooManyFailures => "too many consecutive failures"
  | ErrForeign text => text
  | fmt_Errorf text (Some w) => text +:+ error_Error w
  | fmt_Errorf text None => text +:+ "%!w(<nil>)"
  end.

(** [errors.Unwrap]. *)
Definition errors_Unwrap (e : error) : option error :=
  match e with
  | fmt_Errorf _ w => w
  | _ => None
  end.

(** ** Retry with backoff *)

(** [float64(d)]: the nearest binary64 number, ties to even. *)
Definition float64_of_int64 (d : Z) : float :=
  SF2Prim (binary_normalize prec emax d 0 false).

(** [int64(f)]: truncation toward zero.  Where the value does not fit the
    Go specification leaves the result to the implementation; amd64 gives
    the smallest int64. *)
Definition int64_of_float64 (f : float) : Z :=
  match Prim2SF f with
  | S754_zero _ => 0
  | S754_finite s m e =>
      let mag :=
        if 0 <=? e then Z.pos m * 2 ^ e else Z.pos m / 2 ^ (- e) in
      let v := if s then - mag else mag in
      if (min_int64 <=? v) && (v <=? max_int64) then v else min_int64
  | S754_infinity _ | S754_nan => min_int64
  end.

Record RetryConfig := mkRetryConfig {
  MaxAttempts : Z;
  InitialDelay : Z;
  MaxDelay : Z;
  Multiplier : float;
  CircuitBreaker_ : option CircuitBreaker
}.

Definition DefaultRetryConfig (name : string) : RetryConfig :=
  {| MaxAttempts := 3;
     InitialDelay := 50 * Millisecond;
     MaxDelay := 500 * Millisecond;
     Multiplier := 2.0%float;
     CircuitBreaker_ := Some (NewCircuitBreaker name 5 (30 * Second) 2) |}.

(** The two statements that compute the next delay. *)
Definition nextDelay (config : RetryConfig) (delay : Z) : Z :=
  let delay :=
    int64_of_float64 (float64_of_int64 delay * Multiplier config)%float in
  if delay >? MaxDelay config then MaxDelay config else delay.

(** What a run of the executor does, in order. *)
Inductive Event :=
  | EvCanExecute (allowed : bool)
  | EvCall (attempt : Z) (err : option error)
  | EvRecordSuccess
  | EvRecordFailure
  | EvPrint (line : LogLine)
  | EvSleep (delay : Z)
  | EvCancelled (delay : Z).

Section Retry.

(** The operation is a closure over a state of its own.  The wall clock and
    the caller's context are oracles: [wallclock k] is the [k]-th reading of
    the clock, [ctxDone k] tells whether at the [k]-th wait [ctx.Done()]
    fires before the timer does. *)
Context {S : Type}.
Variable fn : S → option error * S.
Variable wallclock : nat → Z.
Variable ctxDone : nat → bool.
Variable ctxErr : error.

Record World := mkWorld {
  fnState : S;
  clockReads : nat;
  waits : nat;
  trace : list Event
}.

Definition emit (evs : list Event) (w : World) : World :=
  mkWorld (fnState w) (clockReads w) (waits w) (trace w ++ evs).

Definition tick (w : World) : World :=
  mkWorld (fnState w) (Datatypes.S (clockReads w)) (waits w) (trace w).

Definition waited (w : World) : World :=
  mkWorld (fnState w) (clockReads w) (Datatypes.S (waits w)) (trace w).

Definition set_fnState (s : S) (w : World) : World :=
  mkWorld s (clockReads w) (waits w) (trace w).

(** The breaker's methods as the executor calls them on the bound breaker:
    a method reads the clock where the source does. *)
Definition do_canExecute (cb : CircuitBreaker) (w : World)
  : bool * CircuitBreaker * World :=
  let reads := state cb =? StateOpen in
  let '(ok, cb', out) := canExecute (wallclock (clockReads w)) cb in
  let w := if reads then tick w else w in
  (ok, cb', emit (EvCanExecute ok :: map EvPrint out) w).

Definition do_recordSuccess (cb : CircuitBreaker) (w : World)
  : CircuitBreaker * World :=
  let '(cb', out) := recordSuccess cb in
  (cb', emit (EvRecordSuccess :: map EvPrint out) w).

Definition do_recordFailure (cb : CircuitBreaker) (w : World)
  : CircuitBreaker * World :=
  let '(cb', out) := recordFailure (wallclock (clockReads w)) cb in
  (cb', emit (EvRecordFailure :: map EvPrint out) (tick w)).

(** [CircuitBreaker.Call]. *)
Definition Call (cb : CircuitBreaker) (w : World)
  : option error * CircuitBreaker * World :=
  let '(ok, cb, w) := do_canExecute cb w in
  if negb ok then (Some ErrCircuitOpen, cb, w)
  else
    let '(err, s) := fn (fnState w) in
    let w := set_fnState s w in
    match err with
    | Some e => let '(cb, w) := do_recordFailure cb w in (Some e, cb, w)
    | None => let '(cb, w) := do_recordSuccess cb w in (None, cb, w)
    end.

(** The three places where the executor touches the breaker, each under
    [if config.CircuitBreaker != nil]. *)
Definition checkBreaker (cb : option CircuitBreaker) (w : World)
  : bool * option CircuitBreaker * World :=
  match cb with
  | Some b => let '(ok, b, w) := do_canExecute b w in (ok, Some b, w)
  | None => (true, None, w)
  end.

Definition noteSuccess (cb : option CircuitBreaker) (w : World)
  : option CircuitBreaker * World :=
  match cb with
  | Some b => let '(b, w) := do_recordSuccess b w in (Some b, w)
  | None => (None, w)
  end.

Definition noteFailure (cb : option CircuitBreaker) (w : World)
  : option CircuitBreaker * World :=
  match cb with
  | Some b => let '(b, w) := do_recordFailure b w in (Some b, w)
  | None => (None, w)
  end.

Definition errBreakerOpen : error :=
  fmt_Errorf "circuit breaker open: " (Some ErrCircuitOpen).

Definition errCancelled : error :=
  fmt_Errorf "retry cancelled: " (Some ctxErr).

(** The statement after the loop. *)
Definition exceeded (config : RetryConfig) (lastErr : option error) : error :=
  fmt_Errorf ("max retries (" +:+ itoa (MaxAttempts config) +:+ ") exceeded: ")
    lastErr.

(** The [for] loop of [RetryWithBackoff], one unfolding per iteration.  The
    result is the returned error, the bound breaker as the run leaves it and
    the world; [None] only when [fuel] iterations were not enough. *)
Fixpoint retryLoop (config : RetryConfig) (fuel : nat) (attempt delay : Z)
    (lastErr : option error) (cb : option CircuitBreaker) (w : World)
  : option (option error * option CircuitBreaker * World) :=
  match fuel with
  | O => None
  | Datatypes.S fuel =>
    if attempt <=? MaxAttempts config then
      let '(allowed, cb, w) := checkBreaker cb w in
      if negb allowed then Some (Some errBreakerOpen, cb, w)
      else
        let '(err, s) := fn (fnState w) in
        let w := emit [EvCall attempt err] (set_fnState s w) in
        match err with
        | None =>
          let '(cb, w) := noteSuccess cb w in
          Some (None, cb, w)
        | Some e =>
          let lastErr := Some e in
          let '(cb, w) := noteFailure cb w in
          if attempt >=? MaxAttempts config then
            Some (Some (exceeded config lastErr), cb, w)
          else
            let w :=
              emit [EvPrint (LogRetry attempt (MaxAttempts config)
                               (error_Error e) delay)] w in
            if ctxDone (waits w) then
              Some (Some errCancelled, cb, emit [EvCancelled delay] (waited w))
            else
              let w := emit [EvSleep delay] (waited w) in
              retryLoop config fuel (wrap64 (attempt + 1))
                (nextDelay config delay) lastErr cb w
        end
    else Some (Some (exceeded config lastErr), cb, w)
  end.

Definition RetryWithBackoff (config : RetryConfig) (w : World)
  : option (option error * option CircuitBreaker * World) :=
  retryLoop config (Datatypes.S (Z.to_nat (MaxAttempts config))) 1
    (InitialDelay config) None (CircuitBreaker_ config) w.

End Retry.

(** ** The pacs.008 document

    The structs of the consumer, with the fields its functions read. *)

Record FinancialInstitution := { BICFI : string }.
Record Agent := { FinInstnId : FinancialInstitution }.
Record PostalAddr := { Ctry : string }.
Record Party := { Nm : string; PstlAdr : PostalAddr }.
Record PaymentID := { InstrId : string; EndToEndId : string; UETR : string }.
Record Amount := { Ccy : string; Value : string }.
Record SettlementInfo := { SttlmMtd : string }.

Record TransactionInfo := {
  PmtId : PaymentID;
  IntrBkSttlmAmt : Amount;
  IntrBkSttlmDt : string;
  ChrgBr : string;
  Dbtr : Party;
  DbtrAgt : Agent;
  CdtrAgt : Agent;
  Cdtr : Party
}.

Record GroupHeader := {
  MsgId : string;
  NbOfTxs : Z;
  SttlmInf : SettlementInfo
}.

Record CreditTransfer := {
  GrpHdr : GroupHeader;
  CdtTrfTxInf : list TransactionInfo
}.

Record Document := { FIToFICstmrCdtTrf : CreditTransfer }.

Record ValidationResult := mkValidationResult {
  Valid : bool;
  ErrorCode : string;
  ErrorMsg : string;
  ResultMsgId : string;
  Timestamp : Z;
  Latency : Z
}.

Definition set_invalid (code msg : string) (r : ValidationResult)
  : ValidationResult :=
  mkValidationResult false code msg (ResultMsgId r) (Timestamp r) (Latency r).

Definition set_MsgId (id : string) (r : ValidationResult) : ValidationResult :=
  mkValidationResult (Valid r) (ErrorCode r) (ErrorMsg r) id (Timestamp r)
    (Latency r).

Definition set_Latency (d : Z) (r : ValidationResult) : ValidationResult :=
  mkValidationResult (Valid r) (ErrorCode r) (ErrorMsg r) (ResultMsgId r)
    (Timestamp r) d.

(** [len(s)] of a Go string, as an [int]. *)
Definition len (s : string) : Z := Z.of_nat (String.length s).

(** A [map[string]bool] literal whose values are all [true], read at [k]. *)
Definition set_lookup (keys : list string) (k : string) : bool :=
  bool_decide (k ∈ keys).

Definition validSttlmMethods : list string := ["CLRG"; "INDA"; "INGA"; "COVE"].
Definition validChrgBr : list string := ["DEBT"; "CRED"; "SHAR"; "SLEV"].

(** The checks on the group header and on the list of transactions. *)
Definition validateHeader (doc : Document) (result : ValidationResult)
  : ValidationResult :=
  let hdr := GrpHdr (FIToFICstmrCdtTrf doc) in
  let txs := CdtTrfTxInf (FIToFICstmrCdtTrf doc) in
  let result :=
    if String.eqb (MsgId hdr) ""
    then set_invalid "MISSING_MSG_ID" "Message ID is required" result
    else set_MsgId (MsgId hdr) result in
  let result :=
    if NbOfTxs hdr <=? 0
    then set_invalid "INVALID_TX_COUNT"
           "Transaction count must be greater than 0" result
    else result in
  let sttlmMtd := SttlmMtd (SttlmInf hdr) in
  let result :=
    if negb (set_lookup validSttlmMethods sttlmMtd)
    then set_invalid "INVALID_STTLM_MTD"
           "Settlement Method must be one of: CLRG, INDA, INGA, COVE" result
    else result in
  let result :=
    if Z.of_nat (length txs) =? 0
    then set_invalid "NO_TRANSACTIONS" "At least one transaction is required"
           result
    else result in
  result.

(** The two BIC checks, on the first transaction when there is one. *)
Definition validateBICs (doc : Document) (result : ValidationResult)
  : ValidationResult :=
  match CdtTrfTxInf (FIToFICstmrCdtTrf doc) with
  | [] => result
  | tx0 :: _ =>
    let dbtrBIC := BICFI (FinInstnId (DbtrAgt tx0)) in
    let result :=
      if (len dbtrBIC <? 8) || (len dbtrBIC >? 11)
      then set_invalid "INVALID_DBTR_BIC"
             "Debtor BIC must be 8 or 11 characters" result
      else result in
    let cdtrBIC := BICFI (FinInstnId (CdtrAgt tx0)) in
    let result :=
      if (len cdtrBIC <? 8) || (len cdtrBIC >? 11)
      then set_invalid "INVALID_CDTR_BIC"
             "Creditor BIC must be 8 or 11 characters" result
      else result in
    result
  end.

(** The body of the loop over the transactions, at index [i]. *)
Definition validateTx (i : Z) (tx : TransactionInfo) (result : ValidationResult)
  : ValidationResult :=
  let result :=
    if String.eqb (InstrId (PmtId tx)) ""
    then set_invalid ("MISSING_PMT_ID_TX" +:+ itoa i)
           ("Payment ID (InstrId) is required for transaction " +:+ itoa i)
           result
    else result in
  let result :=
    if String.eqb (Ccy (IntrBkSttlmAmt tx)) ""
    then set_invalid ("MISSING_CURRENCY_TX" +:+ itoa i)
           ("Currency is required for transaction " +:+ itoa i) result
    else result in
  let result :=
    if String.eqb (Value (IntrBkSttlmAmt tx)) ""
    then set_invalid ("MISSING_AMOUNT_TX" +:+ itoa i)
           ("Amount is required for transaction " +:+ itoa i) result
    else result in
  let result :=
    if String.eqb (IntrBkSttlmDt tx) ""
    then set_invalid ("MISSING_STTLM_DT_TX" +:+ itoa i)
           ("Interbank Settlement Date is required for transaction " +:+ itoa i)
           result
    else result in
  let result :=
    if negb (set_lookup validChrgBr (ChrgBr tx))
    then set_invalid ("INVALID_CHRG_BR_TX" +:+ itoa i)
           ("Charge Bearer must be one of: DEBT, CRED, SHAR, SLEV for transaction "
              +:+ itoa i) result
    else result in
  result.

(** [for i, tx := range txs], entered at index [i]. *)
Fixpoint validateTxs (i : Z) (txs : list TransactionInfo)
    (result : ValidationResult) : ValidationResult :=
  match txs with
  | [] => result
  | tx :: txs => validateTxs (i + 1) txs (validateTx i tx result)
  end.

(** [validateTransaction] once the document is unmarshalled. *)
Definition validateDocument (doc : Document) (result : ValidationResult)
  : ValidationResult :=
  let result := validateHeader doc result in
  let result := validateBICs doc result in
  validateTxs 0 (CdtTrfTxInf (FIToFICstmrCdtTrf doc)) result.

(** ** Channels

    A buffered channel: its queued elements (oldest first), its capacity
    and whether it has been closed. *)
Record Chan (A : Type) := mkChan {
  buf : list A;
  cap : nat;
  closed : bool
}.
Arguments mkChan {A}.
Arguments buf {A}.
Arguments cap {A}.
Arguments closed {A}.

Definition make_chan {A} (n : nat) : Chan A :=
  {| buf := []; cap := n; closed := false |}.

(** What a goroutine step leads to. *)
Inductive outcome (A : Type) :=
  | Ok (a : A)
  | Panic (reason : string)
  | NotReady.
Arguments Ok {A}.
Arguments Panic {A}.
Arguments NotReady {A}.

(** [select { case c <- x: ... default: ... }]: [Ok (Some c')] when the
    element was queued, [Ok None] when the default branch ran.  The
    channels the program offers to this way are made with capacity 256, so
    a send is possible exactly when the buffer has room. *)
Definition trySend {A} (x : A) (c : Chan A) : outcome (option (Chan A)) :=
  if closed c then Panic "send on closed channel"
  else if (length (buf c) <? cap c)%nat
       then Ok (Some (mkChan (buf c ++ [x]) (cap c) false))
       else Ok None.

(** [close(c)]. *)
Definition close {A} (c : Chan A) : outcome (Chan A) :=
  if closed c then Panic "close of closed channel"
  else Ok (mkChan (buf c) (cap c) true).

(** ** websocket.go *)

Record TransactionMessage := {
  tm_ID : string;
  tm_MsgID : string;
  tm_Source : string;
  tm_SourceCountry : string;
  tm_Destination : string;
  tm_DestCountry : string;
  tm_Amount : float;
  tm_Currency : string;
  tm_Status : string;
  tm_ErrorCode : string;
  tm_ErrorMsg : string;
  tm_Timestamp : Z;
  tm_XML : string;
  tm_Latency : Z
}.

Record StatusMessage := { sm_Status : string; sm_Message : string }.

(** The [interface{}] payload of a message, by its dynamic type. *)
Inductive MessageData :=
  | DataTransaction (tx : TransactionMessage)
  | DataStatus (st : StatusMessage).

Record WebSocketMessage := { Type_ : string; Data : MessageData }.

(** A client is known by its address; its [send] channel is the part of the
    struct the hub touches. *)
Record WebSocketClient := { send : Chan string }.

Record WebSocketHub := mkHub {
  clients : gmap positive bool;
  broadcast : Chan string;
  heap : gmap positive WebSocketClient
}.

Definition NewWebSocketHub (heap : gmap positive WebSocketClient)
  : WebSocketHub :=
  {| clients := ∅; broadcast := make_chan 256; heap := heap |}.

(** What the hub's [select] receives.  A broadcast comes with the order in
    which [range h.clients] happens to visit the map. *)
Inductive HubEvent :=
  | RecvRegister (client : positive)
  | RecvUnregister (client : positive)
  | RecvBroadcast (order : list positive).

(** The body of [for client := range h.clients] for one client. *)
Definition offer (message : string) (client : positive) (h : WebSocketHub)
  : outcome WebSocketHub :=
  match heap h !! client with
  | None => Panic "nil pointer dereference"
  | Some c =>
    match trySend message (send c) with
    | Panic r => Panic r
    | NotReady => NotReady
    | Ok (Some ch) =>
        Ok (mkHub (clients h) (broadcast h)
              (<[client := {| send := ch |}]> (heap h)))
    | Ok None =>
      match close (send c) with
      | Ok ch =>
          Ok (mkHub (delete client (clients h)) (broadcast h)
                (<[client := {| send := ch |}]> (heap h)))
      | Panic r => Panic r
      | NotReady => NotReady
      end
    end
  end.

(** The [range] loop, visiting the keys in [order]; a key that is no longer
    in the map when its turn comes is not produced. *)
Fixpoint offerAll (message : string) (order : list positive) (h : WebSocketHub)
  : outcome WebSocketHub :=
  match order with
  | [] => Ok h
  | client :: order =>
    match clients h !! client with
    | None => offerAll message order h
    | Some _ =>
      match offer message client h with
      | Ok h => offerAll message order h
      | Panic r => Panic r
      | NotReady => NotReady
      end
    end
  end.

(** One iteration of the [for { select { ... } }] of [Run]. *)
Definition hubStep (ev : HubEvent) (h : WebSocketHub) : outcome WebSocketHub :=
  match ev with
  | RecvRegister client =>
      Ok (mkHub (<[client := true]> (clients h)) (broadcast h) (heap h))
  | RecvUnregister client =>
    match clients h !! client with
    | None => Ok h
    | Some _ =>
      match heap h !! client with
      | None => Panic "nil pointer dereference"
      | Some c =>
        match close (send c) with
        | Ok ch =>
            Ok (mkHub (delete client (clients h)) (broadcast h)
                  (<[client := {| send := ch |}]> (heap h)))
        | Panic r => Panic r
        | NotReady => NotReady
        end
      end
    end
  | RecvBroadcast order =>
    match buf (broadcast h) with
    | [] => NotReady
    | message :: rest =>
        offerAll message order
          (mkHub (clients h)
             (mkChan rest (cap (broadcast h)) (closed (broadcast h)))
             (heap h))
    end
  end.

(** [Run] over the events its [select] receives, in order. *)
Fixpoint Run (evs : list HubEvent) (h : WebSocketHub) : outcome WebSocketHub :=
  match evs with
  | [] => Ok h
  | ev :: evs =>
    match hubStep ev h with
    | Ok h => Run evs h
    | Panic r => Panic r
    | NotReady => NotReady
    end
  end.

(** [BroadcastMessage] on the hub's broadcast channel: the returned error,
    the channel afterwards and whether the message was dropped. *)
Definition BroadcastMessage (json_Marshal : WebSocketMessage → string + error)
    (message : WebSocketMessage) (bc : Chan string)
  : outcome (option error * Chan string * bool) :=
  match json_Marshal message with
  | inr err => Ok (Some err, bc, false)
  | inl data =>
    match trySend data bc with
    | Ok (Some bc') => Ok (None, bc', false)
    | Ok None => Ok (None, bc, true)
    | Panic r => Panic r
    | NotReady => NotReady
    end
  end.

Definition BroadcastTransaction (json_Marshal : WebSocketMessage → string + error)
    (tx : TransactionMessage) (bc : Chan string)
  : outcome (option error * Chan string * bool) :=
  BroadcastMessage json_Marshal
    {| Type_ := "transaction"; Data := DataTransaction tx |} bc.

(** ** liquidity_client.go *)

Record LiquidityCheckResponse := {
  Approved : bool;
  AvailableBalance : float;
  RespErrorCode : string
}.

Record CreditBankResponse := { Success : bool; NewBalance : float }.

(** The gRPC stub: a call acts on the state [R] of the remote service and
    of the network in between, and answers or fails. *)
Record LiquidityClient (R : Type) := {
  grpc_CheckLiquidity :
    string → float → string → R → (LiquidityCheckResponse + error) * R;
  grpc_CreditBank :
    string → float → string → R → (CreditBankResponse + error) * R
}.
Arguments grpc_CheckLiquidity {R}.
Arguments grpc_CreditBank {R}.

Definition LiquidityClient_CheckLiquidity {R} (lc : LiquidityClient R)
    (bankID : string) (amount : float) (currency : string) (r : R)
  : (bool * float * string * option error) * R :=
  match grpc_CheckLiquidity lc bankID amount currency r with
  | (inr err, r) =>
      ((false, 0%float, "", Some (fmt_Errorf "liquidity check failed: " (Some err))), r)
  | (inl resp, r) =>
      ((Approved resp, AvailableBalance resp, RespErrorCode resp, None), r)
  end.

Definition LiquidityClient_CreditBank {R} (lc : LiquidityClient R)
    (bankID : string) (amount : float) (currency : string) (r : R)
  : (bool * float * option error) * R :=
  match grpc_CreditBank lc bankID amount currency r with
  | (inr err, r) =>
      ((false, 0%float, Some (fmt_Errorf "credit bank failed: " (Some err))), r)
  | (inl resp, r) => ((Success resp, NewBalance resp, None), r)
  end.

Definition ExtractBankIDFromBIC (bicMap : gmap string string) (bic : string)
  : string :=
  match bicMap !! bic with
  | Some bankID => bankID
  | None => bic
  end.

(** ** The consumer *)

Inductive ConsumerLog :=
  | LogLiquidityCheckFailed (bank : string) (err : string)
  | LogCreditFailed (bank : string) (err : string)
  | LogCredited (bank : string) (amount : float) (currency : string)
      (newBalance : float)
  | LogBroadcastDropped.

Definition extractCountryFromBIC (bic : string) : string :=
  if len bic >=? 6 then String.substring 4 2 bic else "XX".

Definition mapStatus (valid : bool) : string :=
  if valid then "approved" else "rejected".

Section Consumer.

(** The library functions the consumer calls, and its package-level
    variables: [liquidityClient] ([None] is [nil]) and [bicMap]. *)
Context {R : Type}.
Variable xml_Unmarshal : string → Document + error.
Variable strconv_ParseFloat : string → float + error.
Variable fmt_Sscanf_f : string → option float.
Variable json_Marshal : WebSocketMessage → string + error.
Variable wallclock : nat → Z.
Variable liquidityClient : option (LiquidityClient R).
Variable bicMap : gmap string string.

(** [validateTransaction]; the three arguments are the readings of the two
    calls of [time.Now] and of the final [time.Since]. *)
Definition validateTransaction (startTime stamp endTime : Z) (data : string)
  : ValidationResult :=
  let result :=
    {| Valid := true; ErrorCode := ""; ErrorMsg := ""; ResultMsgId := "";
       Timestamp := stamp; Latency := 0 |} in
  match xml_Unmarshal data with
  | inr err =>
      set_Latency (time_Since endTime startTime)
        (set_invalid "XML_PARSE_ERROR"
           ("Failed to parse XML: " +:+ error_Error err) result)
  | inl doc =>
      set_Latency (time_Since endTime startTime) (validateDocument doc result)
  end.

(** [checkLiquidity]: the four results, the remote state afterwards and the
    lines logged. *)
Definition checkLiquidity (data : string) (r : R)
  : (bool * string * string * float) * R * list ConsumerLog :=
  match xml_Unmarshal data with
  | inr _ =>
      ((false, "LIQUIDITY_CHECK_ERROR",
        "Failed to parse XML for liquidity check", 0%float), r, [])
  | inl doc =>
    match CdtTrfTxInf (FIToFICstmrCdtTrf doc) with
    | [] => ((true, "", "", 0%float), r, [])
    | tx :: _ =>
      let sourceBIC := BICFI (FinInstnId (DbtrAgt tx)) in
      let destBIC := BICFI (FinInstnId (CdtrAgt tx)) in
      let sourceBankID := ExtractBankIDFromBIC bicMap sourceBIC in
      let destBankID := ExtractBankIDFromBIC bicMap destBIC in
      match strconv_ParseFloat (Value (IntrBkSttlmAmt tx)) with
      | inr _ =>
          ((false, "LIQUIDITY_CHECK_ERROR", "Failed to parse amount", 0%float),
           r, [])
      | inl amount =>
        let currency := Ccy (IntrBkSttlmAmt tx) in
        match liquidityClient with
        | None => ((true, "", "", 0%float), r, [])
        | Some lc =>
          match LiquidityClient_CheckLiquidity lc sourceBankID amount currency r
          with
          | ((_, _, _, Some err), r) =>
              ((true, "", "", 0%float), r,
               [LogLiquidityCheckFailed sourceBankID (error_Error err)])
          | ((approved, balance, errorCode, None), r) =>
            if negb approved then
              ((false, errorCode, "Liquidity check rejected: " +:+ errorCode,
                balance), r, [])
            else
              match LiquidityClient_CreditBank lc destBankID amount currency r
              with
              | ((_, _, Some creditErr), r) =>
                  ((true, "", "", 0%float), r,
                   [LogCreditFailed destBankID (error_Error creditErr)])
              | ((success, newBalance, None), r) =>
                  ((true, "", "", 0%float), r,
                   if success
                   then [LogCredited destBankID amount currency newBalance]
                   else [])
              end
          end
        end
      end
    end
  end.

(** The state a worker acts on: the remote service, the number of clock
    readings taken, the two counters of [metrics], the hub's broadcast
    channel, the results sent so far on the results channel, the log. *)
Record Consumer := mkConsumer {
  remote : R;
  clock : nat;
  MessagesValid : Z;
  MessagesInvalid : Z;
  wsBroadcast : Chan string;
  results : list ValidationResult;
  logged : list ConsumerLog
}.

(** [broadcastTransactionToWS]: the hub's broadcast channel afterwards, the
    number of clock readings taken and the lines logged. *)
Definition broadcastTransactionToWS (result : ValidationResult)
    (xmlData : string) (now : Z) (bc : Chan string)
  : outcome (Chan string * nat * list ConsumerLog) :=
  match xml_Unmarshal xmlData with
  | inr _ => Ok (bc, O, [])
  | inl doc =>
    match CdtTrfTxInf (FIToFICstmrCdtTrf doc) with
    | [] => Ok (bc, O, [])
    | tx :: _ =>
      let amount :=
        if negb (String.eqb (Value (IntrBkSttlmAmt tx)) "")
        then match fmt_Sscanf_f (Value (IntrBkSttlmAmt tx)) with
             | Some a => a
             | None => 0%float
             end
        else 0%float in
      let dbtrBIC := BICFI (FinInstnId (DbtrAgt tx)) in
      let cdtrBIC := BICFI (FinInstnId (CdtrAgt tx)) in
      let sourceCountry := Ctry (PstlAdr (Dbtr tx)) in
      let sourceCountry :=
        if String.eqb sourceCountry "" then extractCountryFromBIC dbtrBIC
        else sourceCountry in
      let destCountry := Ctry (PstlAdr (Cdtr tx)) in
      let destCountry :=
        if String.eqb destCountry "" then extractCountryFromBIC cdtrBIC
        else destCountry in
      let sourceBankName := Nm (Dbtr tx) in
      let txMsg :=
        {| tm_ID := "tx-" +:+ itoa now;
           tm_MsgID := MsgId (GrpHdr (FIToFICstmrCdtTrf doc));
           tm_Source := sourceBankName;
           tm_SourceCountry := sourceCountry;
           tm_Destination := Nm (Cdtr tx);
           tm_DestCountry := destCountry;
           tm_Amount := amount;
           tm_Currency := Ccy (IntrBkSttlmAmt tx);
           tm_Status := mapStatus (Valid result);
           tm_ErrorCode := ErrorCode result;
           tm_ErrorMsg := ErrorMsg result;
           tm_Timestamp := Timestamp result;
           tm_XML := xmlData;
           tm_Latency := Latency result `quot` Millisecond |} in
      match BroadcastTransaction json_Marshal txMsg bc with
      | Ok (_, bc', dropped) =>
          Ok (bc', 1%nat, if dropped then [LogBroadcastDropped] else [])
      | Panic r => Panic r
      | NotReady => NotReady
      end
    end
  end.

(** The body of the worker's loop for one received item, up to the final
    [select]: the result built and the state it leaves. *)
Definition processWork (data : string) (st : Consumer)
  : outcome (ValidationResult * Consumer) :=
  let '((liquidityApproved, liquidityErrorCode, liquidityErrorMsg, _), r, l1) :=
    checkLiquidity data (remote st) in
  let '(result, reads, valid, invalid) :=
    if negb liquidityApproved then
      ({| Valid := false; ErrorCode := liquidityErrorCode;
          ErrorMsg := liquidityErrorMsg; ResultMsgId := "";
          Timestamp := wallclock (clock st); Latency := 0 |},
       Datatypes.S (clock st), MessagesValid st,
       wrap64 (MessagesInvalid st + 1))
    else
      let result :=
        validateTransaction (wallclock (clock st))
          (wallclock (Datatypes.S (clock st)))
          (wallclock (Datatypes.S (Datatypes.S (clock st)))) data in
      (result, Datatypes.S (Datatypes.S (Datatypes.S (clock st))),
       if Valid result then wrap64 (MessagesValid st + 1) else MessagesValid st,
       if Valid result then MessagesInvalid st
       else wrap64 (MessagesInvalid st + 1)) in
  match broadcastTransactionToWS result data (wallclock reads) (wsBroadcast st)
  with
  | Ok (bc, n, l2) =>
      Ok (result,
          mkConsumer r (reads + n)%nat valid invalid bc (results st)
            (logged st ++ l1 ++ l2))
  | Panic r => Panic r
  | NotReady => NotReady
  end.

(** What the two [select]s of the worker's loop take. *)
Inductive WorkerStep :=
  | TakeCtxDone
  | TakeClosed
  | TakeWork (data : string) (sendResult : bool).

(** [processMessages] over the choices of its [select]s: [TakeWork data b]
    receives an item, and the [select] after it sends the result when [b]
    holds and takes [<-ctx.Done()] otherwise. *)
Fixpoint processMessages (steps : list WorkerStep) (st : Consumer)
  : outcome Consumer :=
  match steps with
  | [] => Ok st
  | TakeCtxDone :: _ => Ok st
  | TakeClosed :: _ => Ok st
  | TakeWork data sendResult :: steps =>
    match processWork data st with
    | Ok (result, st) =>
      if sendResult then
        processMessages steps
          (mkConsumer (remote st) (clock st) (MessagesValid st)
             (MessagesInvalid st) (wsBroadcast st) (results st ++ [result])
             (logged st))
      else Ok st
    | Panic r => Panic r
    | NotReady => NotReady
    end
  end.

End Consumer.

(** ** Notions used to state the properties *)

(** A call of one of the two recording methods of a breaker. *)
Inductive Recording :=
  | OnFailure (now : Z)
  | OnSuccess.

Definition is_failure (c : Recording) : bool :=
  match c with OnFailure _ => true | OnSuccess => false end.

Definition record (cb : CircuitBreaker) (c : Recording) : CircuitBreaker :=
  match c with
  | OnFailure now => fst (recordFailure now cb)
  | OnSuccess => fst (recordSuccess cb)
  end.

(** The breaker after a sequence of recordings, first call first. *)
Definition recordAll (calls : list Recording) (cb : CircuitBreaker)
  : CircuitBreaker :=
  fold_left record calls cb.

(** The number of failures at the end of a sequence since its last success:
    the count of consecutive failures. *)
Fixpoint trailing_failures (rev_calls : list Recording) : Z :=
  match rev_calls with
  | OnFailure _ :: rest => 1 + trailing_failures rest
  | _ => 0
  end.

Definition consecutive_failures (calls : list Recording) : Z :=
  trailing_failures (rev calls).

(** The attempts of a run, the delays it slept and what it did with the
    breaker, read off its trace. *)
Definition attempts_of (tr : list Event) : list (Z * option error) :=
  omap (λ ev, match ev with EvCall a e => Some (a, e) | _ => None end) tr.

Definition sleeps_of (tr : list Event) : list Z :=
  omap (λ ev, match ev with EvSleep d => Some d | _ => None end) tr.

Definition is_breaker_event (ev : Event) : bool :=
  match ev with
  | EvCanExecute _ | EvRecordSuccess | EvRecordFailure => true
  | EvPrint (LogRetry _ _ _ _) => false
  | EvPrint _ => true
  | _ => false
  end.

Definition denied (tr : list Event) : Prop := EvCanExecute false ∈ tr.

(** The trace with everything the breaker did taken out. *)
Definition without_breaker (tr : list Event) : list Event :=
  filter (λ ev, is_breaker_event ev = false) tr.

(** [delay × Multiplier] as a duration: the product is taken in binary64
    and truncated. *)
Definition scaled (config : RetryConfig) (delay : Z) : Z :=
  int64_of_float64 (float64_of_int64 delay * Multiplier config)%float.

(** The delays of a backoff of [n] sleeps: the first is [delay], each next
    one is [min (delay × Multiplier) MaxDelay]. *)
Fixpoint backoff (config : RetryConfig) (n : nat) (delay : Z) : list Z :=
  match n with
  | O => []
  | Datatypes.S n =>
      delay :: backoff config n (Z.min (scaled config delay) (MaxDelay config))
  end.

(** A breaker probing recovery with one success counted: opened by a
    failure, let through after the timeout, then one success recorded. *)
Definition probing_breaker : CircuitBreaker :=
  let cb := NewCircuitBreaker "liquidity" 1 (30 * Second) 2 in
  let cb := fst (recordFailure (5 * Second) cb) in
  let cb := snd (fst (canExecute (40 * Second) cb)) in
  fst (recordSuccess cb).

(** What the breaker prints is never the retry loop's own line. *)
Definition breaker_line (l : LogLine) : bool :=
  match l with LogRetry _ _ _ _ => false | _ => true end.

(** Events of the breaker: everything but calls, sleeps, cancellations and
    the retry line. *)
Definition breaker_events (evs : list Event) : Prop :=
  Forall (λ ev, is_breaker_event ev = true) evs.

(** The configuration with another value in its [CircuitBreaker] field. *)
Definition with_breaker (cb : option CircuitBreaker) (config : RetryConfig)
  : RetryConfig :=
  mkRetryConfig (MaxAttempts config) (InitialDelay config) (MaxDelay config)
    (Multiplier config) cb.

(** A concrete setting for the executor: an operation that counts its
    invocations and always times out, a clock that advances by a
    millisecond per reading from the sixth second on, a context that is
    never cancelled, and a breaker that a failure at the fifth second has
    opened. *)
Definition failing_op (n : nat) : option error * nat :=
  (Some (ErrForeign "context deadline exceeded"), Datatypes.S n).

Definition steady_clock (k : nat) : Z := 6 * Second + Z.of_nat k * Millisecond.

Definition never_done (k : nat) : bool := false.

Definition ctxCanceled : error := ErrForeign "context canceled".

Definition world0 : @World nat :=
  {| fnState := O; clockReads := O; waits := O; trace := [] |}.

Definition opened_breaker : CircuitBreaker :=
  fst (recordFailure (5 * Second)
         (NewCircuitBreaker "liquidity" 1 (30 * Second) 2)).

(** The validation rules as a list, each with whether the document violates
    it, its classification code and its message, from the general to the
    specific: the group header, the list of transactions, the agents of the
    first transaction, then the fields of each transaction in turn. *)
Record Rule := mkRule {
  violated : bool;
  code : string;
  message : string
}.

Definition header_rules (doc : Document) : list Rule :=
  let hdr := GrpHdr (FIToFICstmrCdtTrf doc) in
  [ mkRule (String.eqb (MsgId hdr) "") "MISSING_MSG_ID" "Message ID is required";
    mkRule (NbOfTxs hdr <=? 0) "INVALID_TX_COUNT"
      "Transaction count must be greater than 0";
    mkRule (negb (set_lookup validSttlmMethods (SttlmMtd (SttlmInf hdr))))
      "INVALID_STTLM_MTD"
      "Settlement Method must be one of: CLRG, INDA, INGA, COVE";
    mkRule (bool_decide (CdtTrfTxInf (FIToFICstmrCdtTrf doc) = []))
      "NO_TRANSACTIONS" "At least one transaction is required" ].

Definition bic_rules (doc : Document) : list Rule :=
  match CdtTrfTxInf (FIToFICstmrCdtTrf doc) with
  | [] => []
  | tx0 :: _ =>
    let dbtrBIC := BICFI (FinInstnId (DbtrAgt tx0)) in
    let cdtrBIC := BICFI (FinInstnId (CdtrAgt tx0)) in
    [ mkRule ((len dbtrBIC <? 8) || (len dbtrBIC >? 11)) "INVALID_DBTR_BIC"
        "Debtor BIC must be 8 or 11 characters";
      mkRule ((len cdtrBIC <? 8) || (len cdtrBIC >? 11)) "INVALID_CDTR_BIC"
        "Creditor BIC must be 8 or 11 characters" ]
  end.

Definition tx_rules (i : Z) (tx : TransactionInfo) : list Rule :=
  [ mkRule (String.eqb (InstrId (PmtId tx)) "") ("MISSING_PMT_ID_TX" +:+ itoa i)
      ("Payment ID (InstrId) is required for transaction " +:+ itoa i);
    mkRule (String.eqb (Ccy (IntrBkSttlmAmt tx)) "")
      ("MISSING_CURRENCY_TX" +:+ itoa i)
      ("Currency is required for transaction " +:+ itoa i);
    mkRule (String.eqb (Value (IntrBkSttlmAmt tx)) "")
      ("MISSING_AMOUNT_TX" +:+ itoa i)
      ("Amount is required for transaction " +:+ itoa i);
    mkRule (String.eqb (IntrBkSttlmDt tx) "") ("MISSING_STTLM_DT_TX" +:+ itoa i)
      ("Interbank Settlement Date is required for transaction " +:+ itoa i);
    mkRule (negb (set_lookup validChrgBr (ChrgBr tx)))
      ("INVALID_CHRG_BR_TX" +:+ itoa i)
      ("Charge Bearer must be one of: DEBT, CRED, SHAR, SLEV for transaction "
         +:+ itoa i) ].

Fixpoint txs_rules (i : Z) (txs : list TransactionInfo) : list Rule :=
  match txs with
  | [] => []
  | tx :: txs => tx_rules i tx ++ txs_rules (i + 1) txs
  end.

Definition all_rules (doc : Document) : list Rule :=
  header_rules doc ++ bic_rules doc
    ++ txs_rules 0 (CdtTrfTxInf (FIToFICstmrCdtTrf doc)).

(** The rules the document violates, in the same order; the last of them is
    the most specific one. *)
Definition failing_rules (doc : Document) : list Rule :=
  filter (λ r, violated r = true) (all_rules doc).

(** Marking a result with a rule. *)
Definition mark (r : ValidationResult) (rule : Rule) : ValidationResult :=
  if violated rule then set_invalid (code rule) (message rule) r else r.

(** Two results with the same verdict: flag, code and message. *)
Definition same_verdict (r1 r2 : ValidationResult) : Prop :=
  Valid r1 = Valid r2 ∧ ErrorCode r1 = ErrorCode r2 ∧
  ErrorMsg r1 = ErrorMsg r2.

(** The result [validateTransaction] starts from. *)
Definition fresh_result (stamp : Z) : ValidationResult :=
  {| Valid := true; ErrorCode := ""; ErrorMsg := ""; ResultMsgId := "";
     Timestamp := stamp; Latency := 0 |}.

(** ** Sample messages

    Stand-ins for [xml.Unmarshal] and [strconv.ParseFloat] that know three
    messages: one well-formed credit transfer, one whose amount is not a
    number, one without transactions.  Everything else is taken not to
    parse, as is the case of [truncated_xml]. *)
Definition sample_tx (amount : string) : TransactionInfo :=
  {| PmtId := {| InstrId := "I1"; EndToEndId := "E1"; UETR := "" |};
     IntrBkSttlmAmt := {| Ccy := "MYR"; Value := amount |};
     IntrBkSttlmDt := "2025-01-15";
     ChrgBr := "SHAR";
     Dbtr := {| Nm := "Maybank"; PstlAdr := {| Ctry := "MY" |} |};
     DbtrAgt := {| FinInstnId := {| BICFI := "MBBEMYKL" |} |};
     CdtrAgt := {| FinInstnId := {| BICFI := "DBSSSGSG" |} |};
     Cdtr := {| Nm := "DBS"; PstlAdr := {| Ctry := "SG" |} |} |}.

Definition sample_doc_with (id : string) (txs : list TransactionInfo)
  : Document :=
  {| FIToFICstmrCdtTrf :=
       {| GrpHdr := {| MsgId := id; NbOfTxs := 1;
                       SttlmInf := {| SttlmMtd := "CLRG" |} |};
          CdtTrfTxInf := txs |} |}.

Definition sample_doc (txs : list TransactionInfo) : Document :=
  sample_doc_with "MSG-1" txs.

Definition xml_head_with (msgId : string) : string :=
  "<Document><FIToFICstmrCdtTrf><GrpHdr>" +:+ msgId +:+
  "<NbOfTxs>1</NbOfTxs><SttlmInf><SttlmMtd>CLRG</SttlmMtd></SttlmInf></GrpHdr>".

Definition xml_head : string := xml_head_with "<MsgId>MSG-1</MsgId>".

Definition xml_tx (amount : string) : string :=
  "<CdtTrfTxInf><PmtId><InstrId>I1</InstrId><EndToEndId>E1</EndToEndId></PmtId><IntrBkSttlmAmt Ccy='MYR'>"
  +:+ amount +:+
  "</IntrBkSttlmAmt><IntrBkSttlmDt>2025-01-15</IntrBkSttlmDt><ChrgBr>SHAR</ChrgBr><Dbtr><Nm>Maybank</Nm><PstlAdr><Ctry>MY</Ctry></PstlAdr></Dbtr><DbtrAgt><FinInstnId><BICFI>MBBEMYKL</BICFI></FinInstnId></DbtrAgt><CdtrAgt><FinInstnId><BICFI>DBSSSGSG</BICFI></FinInstnId></CdtrAgt><Cdtr><Nm>DBS</Nm><PstlAdr><Ctry>SG</Ctry></PstlAdr></Cdtr></CdtTrfTxInf>".

Definition xml_tail : string := "</FIToFICstmrCdtTrf></Document>".

Definition good_xml : string := xml_head +:+ xml_tx "100.50" +:+ xml_tail.
Definition bad_amount_xml : string := xml_head +:+ xml_tx "abc" +:+ xml_tail.
Definition no_tx_xml : string := xml_head +:+ xml_tail.
Definition truncated_xml : string := "<Document><FIToFICstmrCdtTrf>".

(** A message without message identifier whose amount is empty. *)
Definition faulty_xml : string := xml_head_with "" +:+ xml_tx "" +:+ xml_tail.

Definition sample_Unmarshal (data : string) : Document + error :=
  if String.eqb data good_xml then inl (sample_doc [sample_tx "100.50"])
  else if String.eqb data bad_amount_xml then inl (sample_doc [sample_tx "abc"])
  else if String.eqb data no_tx_xml then inl (sample_doc [])
  else if String.eqb data faulty_xml
       then inl (sample_doc_with "" [sample_tx ""])
  else inr (ErrForeign "XML syntax error on line 1: unexpected EOF").

Definition sample_ParseFloat (s : string) : float + error :=
  if String.eqb s "100.50" then inl 100.5%float
  else inr (ErrForeign "strconv.ParseFloat: parsing: invalid syntax").

Definition sample_Sscanf (s : string) : option float :=
  if String.eqb s "100.50" then Some 100.5%float else None.

Definition sample_Marshal (m : WebSocketMessage) : string + error :=
  inl "{...}".

(** A liquidity service that cannot be reached. *)
Definition unreachable_client : LiquidityClient unit :=
  {| grpc_CheckLiquidity := λ _ _ _ r,
       (inr (ErrForeign "rpc error: code = Unavailable"), r);
     grpc_CreditBank := λ _ _ _ r,
       (inr (ErrForeign "rpc error: code = Unavailable"), r) |}.

Definition consumer0 : @Consumer unit :=
  {| remote := tt; clock := O; MessagesValid := 0; MessagesInvalid := 0;
     wsBroadcast := make_chan 256; results := []; logged := [] |}.

(** The hub's invariant: every subscriber in the set is a client whose
    [send] channel is open. *)
Definition hub_ok (h : WebSocketHub) : Prop :=
  ∀ c, is_Some (clients h !! c) →
       ∃ cl, heap h !! c = Some cl ∧ closed (send cl) = false.

(** What the hub's loop can rely on when it receives an event: a client
    that registers comes with an open channel; a broadcast is received when
    a message waits on the broadcast channel, and the [range] visits each
    key of the set once. *)
Definition event_ok (h : WebSocketHub) (ev : HubEvent) : Prop :=
  match ev with
  | RecvRegister c => ∃ cl, heap h !! c = Some cl ∧ closed (send cl) = false
  | RecvUnregister _ => True
  | RecvBroadcast order =>
      buf (broadcast h) ≠ [] ∧ NoDup order ∧
      ∀ c, c ∈ order ↔ is_Some (clients h !! c)
  end.

Fixpoint events_ok (evs : list HubEvent) (h : WebSocketHub) : Prop :=
  match evs with
  | [] => True
  | ev :: evs =>
      event_ok h ev ∧
      match hubStep ev h with
      | Ok h' => events_ok evs h'
      | _ => True
      end
  end.

(** The channel with one more element queued, and the channel closed. *)
Definition queued {A} (x : A) (c : Chan A) : Chan A :=
  mkChan (buf c ++ [x]) (cap c) false.

Definition closed_chan {A} (c : Chan A) : Chan A :=
  mkChan (buf c) (cap c) true.

Definition full {A} (c : Chan A) : bool :=
  negb (length (buf c) <? cap c)%nat.

(** A hub with three subscribers, the second of which has a full buffer,
    and one message waiting on the broadcast channel. *)
Definition sample_hub : WebSocketHub :=
  {| clients := {[ 1%positive := true; 2%positive := true; 3%positive := true ]};
     broadcast := mkChan ["m"] 256 false;
     heap := {[ 1%positive := {| send := mkChan [] 2 false |};
                2%positive := {| send := mkChan ["a"; "b"] 2 false |};
                3%positive := {| send := mkChan ["a"] 2 false |} ]} |}.
(** * Further parts of the services

    - [circuit_breaker.go]: the breaker under all its methods, [Call], every
      run of [RetryWithBackoff];
    - [websocket.go] and the consumer's [main.go]: the hub and the worker
      over many events;
    - [liquidity_client.go] and the startup utilities of the consumer;
    - the producer: configuration, message generation, the producing loop
      and the health endpoints. *)

From Stdlib Require Import DecimalZ DecimalPos.


(** ** The breaker under all three of its methods *)

(** A call of one of the methods of a breaker, with the reading of the
    clock the method takes. *)
Inductive BreakerOp :=
  | OpCanExecute (now : Z)
  | OpRecordFailure (now : Z)
  | OpRecordSuccess.

Definition breakerStep (cb : CircuitBreaker) (op : BreakerOp) : CircuitBreaker :=
  match op with
  | OpCanExecute now => snd (fst (canExecute now cb))
  | OpRecordFailure now => fst (recordFailure now cb)
  | OpRecordSuccess => fst (recordSuccess cb)
  end.

(** The breaker after a sequence of calls, first call first. *)
Definition breakerAll (ops : list BreakerOp) (cb : CircuitBreaker)
  : CircuitBreaker :=
  fold_left breakerStep ops cb.

(** The edges of the state machine: no move, closed to open, open to
    half-open, half-open to open, half-open to closed. *)
Definition breaker_edge (s s' : Z) : Prop :=
  s' = s ∨
  (s = StateClosed ∧ s' = StateOpen) ∨
  (s = StateOpen ∧ s' = StateHalfOpen) ∨
  (s = StateHalfOpen ∧ s' = StateOpen) ∨
  (s = StateHalfOpen ∧ s' = StateClosed).

Definition valid_state (s : Z) : Prop :=
  s = StateClosed ∨ s = StateHalfOpen ∨ s = StateOpen.

(** What holds of the counters of a breaker used by one goroutine: while
    closed, the failure counter is below the threshold (or zero); while
    half-open, the probe-success counter is below its threshold (or
    zero). *)
Definition counters_ok (cb : CircuitBreaker) : Prop :=
  valid_state (state cb) ∧
  (state cb = StateClosed →
     0 ≤ failures cb ∧ (failures cb < maxFailures cb ∨ failures cb = 0)) ∧
  (state cb = StateHalfOpen →
     0 ≤ halfOpenSuccesses cb ∧
     (halfOpenSuccesses cb < halfOpenSuccess cb ∨ halfOpenSuccesses cb = 0)).

(** [n] successes recorded in a row. *)
Definition recordSuccesses (n : nat) (cb : CircuitBreaker) : CircuitBreaker :=
  Nat.iter n (λ cb, fst (recordSuccess cb)) cb.

Section Calls.

Context {S : Type}.
Variable fn : S → option error * S.
Variable wallclock : nat → Z.

(** [n] calls of [CircuitBreaker.Call] in a row on the same operation: the
    errors returned (first call first), the breaker and the world. *)
Fixpoint CallN (n : nat) (cb : CircuitBreaker) (w : @World S)
  : list (option error) * CircuitBreaker * @World S :=
  match n with
  | O => ([], cb, w)
  | Datatypes.S n =>
      let '(err, cb, w) := Call fn wallclock cb w in
      let '(errs, cb, w) := CallN n cb w in
      (err :: errs, cb, w)
  end.

(** The state of the operation after [n] invocations. *)
Definition invoked (n : nat) (s : S) : S := Nat.iter n (λ s, snd (fn s)) s.

End Calls.

(** ** The shape of a run of the retry executor

    [RunShape config ctxErr attempt delay lastErr tr r]: a run of the loop
    entered at [attempt] with [delay] and [lastErr] may leave the trace [tr]
    and return [r].  In each case [pre] and [post] are what the breaker
    check and the breaker recording add to the trace. *)
Inductive RunShape (config : RetryConfig) (ctxErr : error)
  : Z → Z → option error → list Event → option error → Prop :=
  | RunExhausted attempt delay lastErr :
      MaxAttempts config < attempt →
      RunShape config ctxErr attempt delay lastErr []
        (Some (exceeded config lastErr))
  | RunDenied attempt delay lastErr :
      attempt ≤ MaxAttempts config →
      RunShape config ctxErr attempt delay lastErr [EvCanExecute false]
        (Some errBreakerOpen)
  | RunSuccess attempt delay lastErr pre post :
      attempt ≤ MaxAttempts config →
      breaker_events pre → ¬ denied pre →
      breaker_events post → ¬ denied post →
      RunShape config ctxErr attempt delay lastErr
        (pre ++ [EvCall attempt None] ++ post) None
  | RunLast attempt delay lastErr pre post e :
      attempt = MaxAttempts config →
      breaker_events pre → ¬ denied pre →
      breaker_events post → ¬ denied post →
      RunShape config ctxErr attempt delay lastErr
        (pre ++ [EvCall attempt (Some e)] ++ post)
        (Some (exceeded config (Some e)))
  | RunCancelled attempt delay lastErr pre post e :
      attempt < MaxAttempts config →
      breaker_events pre → ¬ denied pre →
      breaker_events post → ¬ denied post →
      RunShape config ctxErr attempt delay lastErr
        (pre ++ [EvCall attempt (Some e)] ++ post ++
         [EvPrint (LogRetry attempt (MaxAttempts config) (error_Error e) delay);
          EvCancelled delay])
        (Some (errCancelled ctxErr))
  | RunRetry attempt delay lastErr pre post e tr r :
      attempt < MaxAttempts config →
      breaker_events pre → ¬ denied pre →
      breaker_events post → ¬ denied post →
      RunShape config ctxErr (attempt + 1) (nextDelay config delay) (Some e)
        tr r →
      RunShape config ctxErr attempt delay lastErr
        (pre ++ [EvCall attempt (Some e)] ++ post ++
         [EvPrint (LogRetry attempt (MaxAttempts config) (error_Error e) delay);
          EvSleep delay] ++ tr)
        r.

Definition cancelled (tr : list Event) : Prop := ∃ d, EvCancelled d ∈ tr.

(** An operation that fails twice and then succeeds, and a context that is
    cancelled during the second wait. *)
Definition flaky_op (n : nat) : option error * nat :=
  if (n <? 2)%nat
  then (Some (ErrForeign "connection refused"), Datatypes.S n)
  else (None, Datatypes.S n).

Definition done_at_second_wait (k : nat) : bool := (k =? 1)%nat.

(** ** The run of the retry executor against its surroundings

    What decides a run is outside the loop: the answers of the breaker, the
    errors of the operation and the context.  The definitions below follow
    these three along the iterations of a run whose earlier attempts were
    let through, failed and were followed by a completed sleep. *)

Section Rounds.

Variable wallclock : nat → Z.

(** The check made on entering an iteration with the breaker [cb], the
    clock having been read [c] times: whether the attempt may go ahead, the
    breaker after the check and the number of readings after it.  With a
    breaker bound the answer is the one of [canExecute], which reads the
    clock when it finds the breaker open; with none the attempt goes
    ahead. *)
Definition gate (cb : option CircuitBreaker) (c : nat)
  : bool * option CircuitBreaker * nat :=
  match cb with
  | None => (true, None, c)
  | Some b =>
      (fst (fst (canExecute (wallclock c) b)),
       Some (snd (fst (canExecute (wallclock c) b))),
       if state b =? StateOpen then Datatypes.S c else c)
  end.

(** The breaker and the number of readings after a failure has been
    recorded by [recordFailure], which reads the clock. *)
Definition afterFailure (cb : option CircuitBreaker) (c : nat)
  : option CircuitBreaker * nat :=
  match cb with
  | None => (None, c)
  | Some b => (Some (fst (recordFailure (wallclock c) b)), Datatypes.S c)
  end.

(** The breaker and the number of readings on entering iteration [i]
    (counted from 0), each earlier iteration having checked the breaker and
    recorded a failure. *)
Fixpoint entering (i : nat) (cb : option CircuitBreaker) (c : nat)
  : option CircuitBreaker * nat :=
  match i with
  | O => (cb, c)
  | Datatypes.S i =>
      let '(_, cb, c) := gate cb c in
      let '(cb, c) := afterFailure cb c in
      entering i cb c
  end.

(** Whether the breaker lets attempt [i] go ahead. *)
Definition allowed_at (cb : option CircuitBreaker) (c : nat) (i : nat) : bool :=
  fst (fst (gate (fst (entering i cb c)) (snd (entering i cb c)))).

End Rounds.

(** How an iteration ends a run: the breaker refuses the attempt, the
    operation succeeds, the operation fails and no attempt is left, or the
    operation fails and the wait before the next attempt is cut short. *)
Inductive Ending := EndRefused | EndSucceeded | EndExhausted | EndCancelled.

Section Endings.

Context {S : Type}.
Variable fn : S → option error * S.
Variable wallclock : nat → Z.
Variable ctxDone : nat → bool.
Variable ctxErr : error.
Variable config : RetryConfig.

(** What the operation returns at its invocation number [i] (from 0), from
    the state [s]. *)
Definition err_at (s : S) (i : nat) : option error :=
  fst (fn (invoked fn i s)).

(** How iteration [i] ends the run of a loop entered at [attempt] with the
    breaker [cb], [c] readings of the clock, the operation in state [s] and
    [k] waits done; [None] when the iteration is followed by another. *)
Definition ending_at (attempt : Z) (cb : option CircuitBreaker) (c : nat)
    (s : S) (k : nat) (i : nat) : option Ending :=
  if negb (allowed_at wallclock cb c i) then Some EndRefused
  else match err_at s i with
       | None => Some EndSucceeded
       | Some _ =>
           if attempt + Z.of_nat i >=? MaxAttempts config then Some EndExhausted
           else if ctxDone (k + i) then Some EndCancelled
           else None
       end.

(** Iteration [i] is the first that ends the run, and ends it by [e]. *)
Definition first_ending (f : nat → option Ending) (i : nat) (e : Ending)
  : Prop :=
  (∀ j, (j < i)%nat → f j = None) ∧ f i = Some e.

(** What a run ended by [e] at iteration [i] returns, how often it has
    invoked the operation and how many waits it has made. *)
Definition result_of (e : Ending) (s : S) (i : nat) : option error :=
  match e with
  | EndRefused => Some errBreakerOpen
  | EndSucceeded => None
  | EndExhausted => Some (exceeded config (err_at s i))
  | EndCancelled => Some (errCancelled ctxErr)
  end.

Definition calls_of (e : Ending) (i : nat) : nat :=
  match e with EndRefused => i | _ => Datatypes.S i end.

Definition waits_of (e : Ending) (i : nat) : nat :=
  match e with EndCancelled => Datatypes.S i | _ => i end.

(** The first [n] invocations from [s], numbered from [attempt], each with
    what the operation returned. *)
Definition rounds (attempt : Z) (s : S) (n : nat) : list (Z * option error) :=
  (λ j, (attempt + Z.of_nat j, err_at s j)) <$> seq 0 n.

(** The endings of [RetryWithBackoff] started in the world [w]. *)
Definition ending_of (w : @World S) (i : nat) : option Ending :=
  ending_at 1 (CircuitBreaker_ config) (clockReads w) (fnState w) (waits w) i.

End Endings.

(** A breaker that one failure opens, for thirty seconds. *)
Definition fragile_breaker : CircuitBreaker :=
  NewCircuitBreaker "liquidity" 1 (30 * Second) 2.

(** ** The hub over many events *)

(** The message the hub offers to client [c] when it receives [ev]: the
    head of the broadcast channel, when [ev] is a broadcast and [c] is in
    the set. *)
Definition offered_at (c : positive) (ev : HubEvent) (h : WebSocketHub)
  : list string :=
  match ev, buf (broadcast h) with
  | RecvBroadcast _, message :: _ =>
      match clients h !! c with Some _ => [message] | None => [] end
  | _, _ => []
  end.

(** The messages the hub offers to [c] over the events [evs], in order. *)
Fixpoint offered (c : positive) (evs : list HubEvent) (h : WebSocketHub)
  : list string :=
  match evs with
  | [] => []
  | ev :: evs =>
      offered_at c ev h ++
      match hubStep ev h with
      | Ok h' => offered c evs h'
      | _ => []
      end
  end.

(** [BroadcastMessage] called for each message of a list in turn, the hub
    receiving nothing in between: for each call the error returned and
    whether the message was dropped, and the channel at the end. *)
Fixpoint BroadcastMessages (json_Marshal : WebSocketMessage → string + error)
    (messages : list WebSocketMessage) (bc : Chan string)
  : outcome (list (option error * bool) * Chan string) :=
  match messages with
  | [] => Ok ([], bc)
  | message :: messages =>
    match BroadcastMessage json_Marshal message bc with
    | Ok (err, bc, dropped) =>
      match BroadcastMessages json_Marshal messages bc with
      | Ok (outs, bc) => Ok ((err, dropped) :: outs, bc)
      | Panic r => Panic r
      | NotReady => NotReady
      end
    | Panic r => Panic r
    | NotReady => NotReady
    end
  end.

(** The encodings of the messages that [json.Marshal] accepts, and the
    error it returns for a message. *)
Definition marshalled (json_Marshal : WebSocketMessage → string + error)
    (messages : list WebSocketMessage) : list string :=
  omap (λ m, match json_Marshal m with inl d => Some d | inr _ => None end)
    messages.

Definition marshal_error (json_Marshal : WebSocketMessage → string + error)
    (m : WebSocketMessage) : option error :=
  match json_Marshal m with inl _ => None | inr e => Some e end.

(** A marshaller that refuses status messages. *)
Definition picky_Marshal (m : WebSocketMessage) : string + error :=
  match Data m with
  | DataTransaction tx => inl (tm_ID tx)
  | DataStatus _ => inr (ErrForeign "json: unsupported type")
  end.

Definition tx_message (id : string) : WebSocketMessage :=
  {| Type_ := "transaction";
     Data := DataTransaction
       {| tm_ID := id; tm_MsgID := ""; tm_Source := ""; tm_SourceCountry := "";
          tm_Destination := ""; tm_DestCountry := ""; tm_Amount := 0%float;
          tm_Currency := ""; tm_Status := ""; tm_ErrorCode := "";
          tm_ErrorMsg := ""; tm_Timestamp := 0; tm_XML := "";
          tm_Latency := 0 |} |}.

Definition status_message : WebSocketMessage :=
  {| Type_ := "status";
     Data := DataStatus {| sm_Status := "connected"; sm_Message := "" |} |}.

(** ** The worker over many items *)




(** A liquidity service that keeps the list of the calls it receives and
    approves or rejects every check. *)
Definition recording_client (approve : bool) : LiquidityClient (list string) :=
  {| grpc_CheckLiquidity := λ bank _ _ calls,
       (inl {| Approved := approve; AvailableBalance := 0%float;
               RespErrorCode := if approve then "" else "AM04" |},
        calls ++ ["check " +:+ bank]);
     grpc_CreditBank := λ bank _ _ calls,
       (inl {| Success := true; NewBalance := 0%float |},
        calls ++ ["credit " +:+ bank]) |}.

Definition recording_consumer : @Consumer (list string) :=
  {| remote := []; clock := O; MessagesValid := 0; MessagesInvalid := 0;
     wsBroadcast := make_chan 256; results := []; logged := [] |}.

(** A message that the liquidity gate lets through and the validation
    rejects: its transaction has no settlement date element and no country
    elements, and the BIC of its creditor agent has three characters.  The
    decoder leaves the fields of absent elements empty. *)
Definition undated_xml_tx : string :=
  "<CdtTrfTxInf><PmtId><InstrId>I1</InstrId><EndToEndId>E1</EndToEndId></PmtId><IntrBkSttlmAmt Ccy='MYR'>100.50</IntrBkSttlmAmt><ChrgBr>SHAR</ChrgBr><Dbtr><Nm>Maybank</Nm></Dbtr><DbtrAgt><FinInstnId><BICFI>MBBEMYKL</BICFI></FinInstnId></DbtrAgt><CdtrAgt><FinInstnId><BICFI>DBS</BICFI></FinInstnId></CdtrAgt><Cdtr><Nm>DBS</Nm></Cdtr></CdtTrfTxInf>".

Definition undated_xml : string := xml_head +:+ undated_xml_tx +:+ xml_tail.

Definition undated_tx : TransactionInfo :=
  {| PmtId := {| InstrId := "I1"; EndToEndId := "E1"; UETR := "" |};
     IntrBkSttlmAmt := {| Ccy := "MYR"; Value := "100.50" |};
     IntrBkSttlmDt := "";
     ChrgBr := "SHAR";
     Dbtr := {| Nm := "Maybank"; PstlAdr := {| Ctry := "" |} |};
     DbtrAgt := {| FinInstnId := {| BICFI := "MBBEMYKL" |} |};
     CdtrAgt := {| FinInstnId := {| BICFI := "DBS" |} |};
     Cdtr := {| Nm := "DBS"; PstlAdr := {| Ctry := "" |} |} |}.

Definition undated_Unmarshal (data : string) : Document + error :=
  if String.eqb data undated_xml then inl (sample_doc [undated_tx])
  else sample_Unmarshal data.

(** A marshaller that writes the two countries and the status. *)
Definition country_Marshal (m : WebSocketMessage) : string + error :=
  match Data m with
  | DataTransaction tx =>
      inl (tm_SourceCountry tx +:+ ">" +:+ tm_DestCountry tx +:+ " "
           +:+ tm_Status tx)
  | DataStatus _ => inl ""
  end.

(** ** liquidity_client.go: the BIC mapping *)

Module liquidity.

Record Bank := mkBank {
  ID : string;
  Name : string;
  BIC : string
}.

Record NetworkConfig := { Banks : list Bank }.

(** The two package-level maps. *)
Record Maps := mkMaps {
  bicMap : gmap string string;
  bankInfoMap : gmap string Bank
}.

(** The body of [for _, bank := range config.Banks]. *)
Definition addBank (m : Maps) (bank : Bank) : Maps :=
  {| bicMap := <[BIC bank := ID bank]> (bicMap m);
     bankInfoMap := <[ID bank := bank]> (bankInfoMap m) |}.

End liquidity.

Section LoadBICMapping.

(** [os.Open], [io.ReadAll] and [json.Unmarshal]. *)
Context {File : Type}.
Variable os_Open : string → File + error.
Variable io_ReadAll : File → string + error.
Variable json_Unmarshal : string → liquidity.NetworkConfig + error.

(** [LoadBICMapping]: the error returned and the two maps afterwards. *)
Definition LoadBICMapping (path : string) (m : liquidity.Maps)
  : option error * liquidity.Maps :=
  match os_Open path with
  | inr err => (Some err, m)
  | inl file =>
    match io_ReadAll file with
    | inr err => (Some err, m)
    | inl bytes =>
      match json_Unmarshal bytes with
      | inr err => (Some err, m)
      | inl config =>
          (None,
           fold_left liquidity.addBank (liquidity.Banks config)
             (liquidity.mkMaps ∅ ∅))
      end
    end
  end.

End LoadBICMapping.

(** The last bank of a list with a given BIC, and with a given identifier. *)
Definition last_with_BIC (bic : string) (banks : list liquidity.Bank)
  : option liquidity.Bank :=
  last (filter (λ b, liquidity.BIC b = bic) banks).

Definition last_with_ID (id : string) (banks : list liquidity.Bank)
  : option liquidity.Bank :=
  last (filter (λ b, liquidity.ID b = id) banks).

(** A configuration file system with one file. *)
Definition sample_banks : list liquidity.Bank :=
  [ liquidity.mkBank "maybank" "Maybank" "MBBEMYKLXXX";
    liquidity.mkBank "dbs" "DBS Bank" "DBSSSGSGXXX";
    liquidity.mkBank "maybank-2" "Maybank Islamic" "MBBEMYKLXXX" ].

Definition sample_Open (path : string) : string + error :=
  if String.eqb path "network.json" then inl "{banks}"
  else inr (ErrForeign "open: no such file or directory").

Definition sample_ReadAll (file : string) : string + error := inl file.

Definition sample_json_Unmarshal (bytes : string)
  : liquidity.NetworkConfig + error :=
  if String.eqb bytes "{banks}" then inl {| liquidity.Banks := sample_banks |}
  else inr (ErrForeign "unexpected end of JSON input").

(** ** Startup utilities of the consumer *)

(** An error made by [fmt.Errorf] that wraps nothing. *)
Definition errorf (text : string) : error := ErrForeign text.

(** The two readiness flags, the number of dials and of HTTP requests made
    so far, and the durations slept. *)
Record Deps := mkDeps {
  kafkaReady : Z;
  liquidityReady : Z;
  dials : nat;
  requests : nat;
  slept : list Z
}.

Definition set_kafkaReady (v : Z) (d : Deps) : Deps :=
  mkDeps v (liquidityReady d) (dials d) (requests d) (slept d).

Definition set_liquidityReady (v : Z) (d : Deps) : Deps :=
  mkDeps (kafkaReady d) v (dials d) (requests d) (slept d).

Definition dialled (d : Deps) : Deps :=
  mkDeps (kafkaReady d) (liquidityReady d) (Datatypes.S (dials d)) (requests d)
    (slept d).

Definition requested (d : Deps) : Deps :=
  mkDeps (kafkaReady d) (liquidityReady d) (dials d)
    (Datatypes.S (requests d)) (slept d).

Definition time_Sleep (t : Z) (d : Deps) : Deps :=
  mkDeps (kafkaReady d) (liquidityReady d) (dials d) (requests d)
    (slept d ++ [t]).

(** [time.Duration(attempt) * 2 * time.Second]. *)
Definition waitTime (attempt : Z) : Z := wrap64 (wrap64 (attempt * 2) * Second).

(** The host the readiness endpoint of the liquidity service is looked for
    at, and its URL. *)
Definition healthHost (serviceAddr : string) : string :=
  if (len serviceAddr >? 6) &&
     String.eqb
       (String.substring (String.length serviceAddr - 6) 6 serviceAddr)
       ":50051"
  then String.substring 0 (String.length serviceAddr - 6) serviceAddr
       +:+ ":8080"
  else serviceAddr.

Definition healthURL (serviceAddr : string) : string :=
  "http://" +:+ healthHost serviceAddr +:+ "/ready".

Definition StatusOK : Z := 200.
Definition StatusServiceUnavailable : Z := 503.

Section Startup.

(** [kafka.Dial] and [conn.Controller] at the n-th dial: whether they
    return no error.  [http.NewRequestWithContext] for a URL, and
    [http.DefaultClient.Do] at the n-th request: the status code of the
    response, or [None] for an error. *)
Variable kafka_Dial : string → nat → bool.
Variable conn_Controller : string → nat → bool.
Variable http_NewRequest : string → bool.
Variable http_Do : string → nat → option Z.

(** The [for] loop of [waitForKafka], entered at [attempt]. *)
Fixpoint waitForKafka_loop (brokerAddr : string) (maxAttempts : Z)
    (fuel : nat) (attempt : Z) (d : Deps) : option (option error * Deps) :=
  match fuel with
  | O => None
  | Datatypes.S fuel =>
    if attempt <=? maxAttempts then
      let ready :=
        if kafka_Dial brokerAddr (dials d)
        then conn_Controller brokerAddr (dials d)
        else false in
      let d := dialled d in
      if ready then Some (None, set_kafkaReady 1 d)
      else
        let d :=
          if attempt <? maxAttempts then time_Sleep (waitTime attempt) d
          else d in
        waitForKafka_loop brokerAddr maxAttempts fuel (wrap64 (attempt + 1)) d
    else
      Some (Some (errorf ("kafka not ready after " +:+ itoa maxAttempts
                          +:+ " attempts")), d)
  end.

Definition waitForKafka (brokerAddr : string) (maxAttempts : Z) (d : Deps)
  : option (option error * Deps) :=
  waitForKafka_loop brokerAddr maxAttempts
    (Datatypes.S (Z.to_nat maxAttempts)) 1 d.

(** The [for] loop of [waitForLiquidityService]. *)
Fixpoint waitForLiquidityService_loop (url : string) (maxAttempts : Z)
    (fuel : nat) (attempt : Z) (d : Deps) : option (option error * Deps) :=
  match fuel with
  | O => None
  | Datatypes.S fuel =>
    if attempt <=? maxAttempts then
      let '(ready, d) :=
        if http_NewRequest url
        then (match http_Do url (requests d) with
              | Some code => code =? StatusOK
              | None => false
              end, requested d)
        else (false, d) in
      if ready then Some (None, set_liquidityReady 1 d)
      else
        let d :=
          if attempt <? maxAttempts then time_Sleep (waitTime attempt) d
          else d in
        waitForLiquidityService_loop url maxAttempts fuel
          (wrap64 (attempt + 1)) d
    else
      Some (Some (errorf ("liquidity service not ready after "
                          +:+ itoa maxAttempts +:+ " attempts")), d)
  end.

Definition waitForLiquidityService (serviceAddr : string) (maxAttempts : Z)
    (d : Deps) : option (option error * Deps) :=
  waitForLiquidityService_loop (healthURL serviceAddr) maxAttempts
    (Datatypes.S (Z.to_nat maxAttempts)) 1 d.

(** What the [select] of [monitorDependencies] takes. *)
Inductive MonitorStep :=
  | MonCtxDone
  | MonTick.

(** The body of the ticker's case. *)
Definition monitorTick (brokerAddr liquidityAddr : string) (d : Deps)
  : option Deps :=
  match waitForKafka brokerAddr 1 d with
  | None => None
  | Some (err, d) =>
    let d := match err with Some _ => set_kafkaReady 0 d | None => d end in
    match waitForLiquidityService liquidityAddr 1 d with
    | None => None
    | Some (err, d) =>
      Some (match err with Some _ => set_liquidityReady 0 d | None => d end)
    end
  end.

Fixpoint monitorDependencies (brokerAddr liquidityAddr : string)
    (steps : list MonitorStep) (d : Deps) : option Deps :=
  match steps with
  | [] => Some d
  | MonCtxDone :: _ => Some d
  | MonTick :: steps =>
    match monitorTick brokerAddr liquidityAddr d with
    | None => None
    | Some d => monitorDependencies brokerAddr liquidityAddr steps d
    end
  end.

End Startup.

(** The readiness endpoint of the consumer. *)
Record ReadinessStatus := {
  Ready : bool;
  KafkaReady : bool;
  LiquidityReady : bool;
  Message : string
}.

(** What a handler writes: the status code and the encoded body. *)
Record Response (A : Type) := mkResponse {
  StatusCode : Z;
  Body : option A
}.
Arguments mkResponse {A}.
Arguments StatusCode {A}.
Arguments Body {A}.

Definition handleReady (method : string) (d : Deps)
  : Response ReadinessStatus :=
  if String.eqb method "OPTIONS" then mkResponse StatusOK None
  else
    let kafkaOk := kafkaReady d =? 1 in
    let liquidityOk := liquidityReady d =? 1 in
    let ready := kafkaOk && liquidityOk in
    let status :=
      {| Ready := ready; KafkaReady := kafkaOk; LiquidityReady := liquidityOk;
         Message := if negb ready then "Waiting for dependencies" else "" |} in
    mkResponse (if ready then StatusOK else StatusServiceUnavailable)
      (Some status).

(** Whether the n-th dial finds the broker and its controller. *)
Definition kafka_answers (kafka_Dial conn_Controller : string → nat → bool)
    (addr : string) (n : nat) : bool :=
  if kafka_Dial addr n then conn_Controller addr n else false.

(** The sleeps of [n] failed attempts that are not the last: 2s, 4s, ... *)
Definition linear_waits (n : nat) : list Z :=
  (λ i, 2 * Z.of_nat i * Second) <$> seq 1 n.

(** A broker that answers from the third dial on, and a liquidity service
    that never answers. *)
Definition third_dial (addr : string) (n : nat) : bool := (2 <=? n)%nat.
Definition always (addr : string) (n : nat) : bool := true.
Definition no_response (url : string) (n : nat) : option Z := None.
Definition any_url (url : string) : bool := true.

Definition deps0 : Deps := mkDeps 0 0 0 0 [].

(** What one probe of the liquidity service finds: 1 for a response with
    status 200, 0 otherwise. *)
Definition liquidity_answers (http_NewRequest : string → bool)
    (http_Do : string → nat → option Z) (url : string) (n : nat) : bool :=
  if http_NewRequest url
  then match http_Do url n with
       | Some code => code =? StatusOK
       | None => false
       end
  else false.

Definition flag (b : bool) : Z := if b then 1 else 0.

(** A liquidity service that answers 200 on the second request. *)
Definition second_request (url : string) (n : nat) : option Z :=
  if (n =? 1)%nat then Some 200 else Some 503.

(** ** The producer *)

Module producer.

Record Bank := mkBank {
  ID : string;
  Name : string;
  BIC : string;
  Country : string;
  Currency : string;
  InitialBalance : float;
  Roles : list string
}.

Record NetworkConfig := { Banks : list Bank }.

(** The message structs.  Two structs with a field of the same name have
    it prefixed here in the second one. *)
Record ClearingSystem := { Prtry : string }.
Record SettlementInfo := { SttlmMtd : string; ClrSys : ClearingSystem }.
Record FinancialInstitution := { BICFI : string }.
Record Agent := { FinInstnId : FinancialInstitution }.

Record GroupHeader := {
  MsgId : string;
  CreDtTm : Z;
  NbOfTxs : Z;
  SttlmInf : SettlementInfo;
  InstgAgt : Agent;
  InstdAgt : Agent
}.

Record Scheme := { Scheme_Prtry : string }.
Record OtherID := { Id : string; SchmeNm : Scheme }.
Record AccountID := { Othr : OtherID }.
Record Account := { Account_Id : AccountID }.
Record PostalAddr := { Ctry : string }.
Record Party := { Nm : string; PstlAdr : PostalAddr }.
Record PaymentID := { InstrId : string; EndToEndId : string; UETR : string }.
Record Amount := { Ccy : string; Value : string }.

Record TransactionInfo := {
  PmtId : PaymentID;
  IntrBkSttlmAmt : Amount;
  IntrBkSttlmDt : string;
  ChrgBr : string;
  Tx_InstgAgt : Agent;
  Tx_InstdAgt : Agent;
  Dbtr : Party;
  DbtrAcct : Account;
  DbtrAgt : Agent;
  CdtrAgt : Agent;
  Cdtr : Party;
  CdtrAcct : Account
}.

Record CreditTransfer := {
  GrpHdr : GroupHeader;
  CdtTrfTxInf : list TransactionInfo
}.

Record Document := {
  Xmlns : string;
  XmlnsXsi : string;
  FIToFICstmrCdtTrf : CreditTransfer
}.

(** The inner loop of [loadConfig] over the roles of a bank: the two
    flags. *)
Definition scanRoles (roles : list string) : bool * bool :=
  fold_left
    (λ '(hasSourceRole, hasDestRole) role,
       (if String.eqb role "source" then true else hasSourceRole,
        if String.eqb role "dest" then true else hasDestRole))
    roles (false, false).

(** The body of the outer loop. *)
Definition keepBank (allBanks : list Bank) (bank : Bank) : list Bank :=
  let '(hasSourceRole, hasDestRole) := scanRoles (Roles bank) in
  if hasSourceRole || hasDestRole then allBanks ++ [bank] else allBanks.

Section LoadConfig.

Context {File : Type}.
Variable os_Open : string → File + error.
Variable io_ReadAll : File → string + error.
Variable json_Unmarshal : string → NetworkConfig + error.

(** [loadConfig]: the error returned and [allBanks] afterwards. *)
Definition loadConfig (path : string) (allBanks : list Bank)
  : option error * list Bank :=
  match os_Open path with
  | inr err => (Some err, allBanks)
  | inl file =>
    match io_ReadAll file with
    | inr err => (Some err, allBanks)
    | inl bytes =>
      match json_Unmarshal bytes with
      | inr err => (Some err, allBanks)
      | inl config =>
        let allBanks := fold_left keepBank (Banks config) [] in
        if Z.of_nat (length allBanks) <? 2
        then (Some (errorf "configuration must have at least two banks for transactions"),
              allBanks)
        else (None, allBanks)
      end
    end
  end.

End LoadConfig.

Definition normalizeBIC (bic : string) : string :=
  if len bic =? 8 then bic +:+ "XXX" else bic.

(** How many values [generateTransaction] has drawn from each of its
    sources: random integers, random floats, readings of the clock,
    UUIDs. *)
Record Gen := mkGen {
  ints : nat;
  floats : nat;
  clock : nat;
  uuids : nat
}.

Section Generate.

(** [rand.Intn] at the k-th draw of an integer, [rand.Float64] at the k-th
    draw of a float, [time.Now] at the k-th reading (the instant, its Unix
    seconds and its rendering as a date), [uuid.New().String()], the verbs
    [%.2f] and [%08d] of [fmt.Sprintf], and [xml.MarshalIndent]. *)
Variable rand_Intn : nat → Z → Z.
Variable rand_Float64 : nat → float.
Variable time_Now : nat → Z.
Variable time_Unix : nat → Z.
Variable time_Format : nat → string.
Variable uuid_New : nat → string.
Variable fmt_2f : float → string.
Variable fmt_08d : Z → string.
Variable xml_MarshalIndent : Document → string + error.

(** [for destIdx == sourceIdx { destIdx = rand.Intn(len(allBanks)) }]: the
    index the loop ends with and the number of integers drawn; [None] when
    [fuel] iterations were not enough. *)
Fixpoint redraw (fuel : nat) (n sourceIdx destIdx : Z) (drawn : nat)
  : option (Z * nat) :=
  match fuel with
  | O => None
  | Datatypes.S fuel =>
    if destIdx =? sourceIdx
    then redraw fuel n sourceIdx (rand_Intn drawn n) (Datatypes.S drawn)
    else Some (destIdx, drawn)
  end.

(** The amount, in the source bank's currency. *)
Definition drawAmount (currency : string) (g : Gen) : float :=
  let amount := (rand_Float64 (floats g) * 9999 + 1)%float in
  if String.eqb currency "IDR" || String.eqb currency "VND"
  then (amount * 1000)%float else amount.

(** The composite literal of [generateTransaction]: [drawn] integers have
    been drawn before it is evaluated, and its operands are evaluated in
    the order of the source text. *)
Definition buildDocument (msgID : Z) (sourceBank destBank : Bank)
    (amount : float) (drawn : nat) (g : Gen) : Document :=
  let currency := Currency sourceBank in
  let sourceBIC := normalizeBIC (BIC sourceBank) in
  let destBIC := normalizeBIC (BIC destBank) in
  let dbtrName := Name sourceBank +:+ " Treasury Services" in
  let cdtrName := Name destBank +:+ " Corporate Client" in
  let agent := λ bic, {| FinInstnId := {| BICFI := bic |} |} in
  let account := λ id,
    {| Account_Id :=
         {| Othr := {| Id := id; SchmeNm := {| Scheme_Prtry := "BBAN" |} |} |} |} in
  {| Xmlns := "urn:iso:std:iso:20022:tech:xsd:pacs.008.001.08";
     XmlnsXsi := "http://www.w3.org/2001/XMLSchema-instance";
     FIToFICstmrCdtTrf :=
       {| GrpHdr :=
            {| MsgId := "PAYNET-NEXUS-" +:+ itoa (time_Unix (clock g)) +:+ "-"
                        +:+ itoa msgID;
               CreDtTm := time_Now (Datatypes.S (clock g));
               NbOfTxs := 1;
               SttlmInf := {| SttlmMtd := "CLRG";
                              ClrSys := {| Prtry := "NEXUS" |} |};
               InstgAgt := agent sourceBIC;
               InstdAgt := agent destBIC |};
          CdtTrfTxInf :=
            [ {| PmtId :=
                   {| InstrId := "TXN-" +:+ itoa (time_Unix (2 + clock g)%nat)
                                 +:+ "-" +:+ itoa msgID;
                      EndToEndId := "E2E-" +:+ itoa (time_Unix (3 + clock g)%nat)
                                    +:+ "-" +:+ itoa msgID;
                      UETR := uuid_New (uuids g) |};
                 IntrBkSttlmAmt := {| Ccy := currency; Value := fmt_2f amount |};
                 IntrBkSttlmDt := time_Format (4 + clock g)%nat;
                 ChrgBr := "SHAR";
                 Tx_InstgAgt := agent sourceBIC;
                 Tx_InstdAgt := agent destBIC;
                 Dbtr := {| Nm := dbtrName;
                            PstlAdr := {| Ctry := Country sourceBank |} |};
                 DbtrAcct :=
                   account (Country sourceBank
                            +:+ fmt_08d (rand_Intn drawn 99999999));
                 DbtrAgt := agent sourceBIC;
                 CdtrAgt := agent destBIC;
                 Cdtr := {| Nm := cdtrName;
                            PstlAdr := {| Ctry := Country destBank |} |};
                 CdtrAcct :=
                   account (Country destBank
                            +:+ fmt_08d (rand_Intn (Datatypes.S drawn) 99999999))
              |} ] |} |}.

(** [generateTransaction]: [None] when [fuel] draws were not enough to find
    a destination; a panic for an index out of range; otherwise what
    [xml.MarshalIndent] returns, or the error for fewer than two banks. *)
Definition generateTransaction (fuel : nat) (allBanks : list Bank) (msgID : Z)
    (g : Gen) : option (outcome (string + error) * Gen) :=
  let n := Z.of_nat (length allBanks) in
  if n <? 2 then Some (Ok (inr (errorf "need at least 2 banks configured")), g)
  else
    let sourceIdx := rand_Intn (ints g) n in
    match (if sourceIdx <? 0 then None else allBanks !! Z.to_nat sourceIdx) with
    | None => Some (Panic "index out of range", g)
    | Some sourceBank =>
      match redraw fuel n sourceIdx (rand_Intn (Datatypes.S (ints g)) n)
              (2 + ints g)%nat with
      | None => None
      | Some (destIdx, drawn) =>
        match (if destIdx <? 0 then None else allBanks !! Z.to_nat destIdx) with
        | None => Some (Panic "index out of range", g)
        | Some destBank =>
          let amount := drawAmount (Currency sourceBank) g in
          let doc := buildDocument msgID sourceBank destBank amount drawn g in
          Some (Ok (xml_MarshalIndent doc),
                {| ints := 2 + drawn; floats := Datatypes.S (floats g);
                   clock := 5 + clock g; uuids := Datatypes.S (uuids g) |})
        end
      end
    end.

End Generate.

End producer.

(** The document of the producer as the consumer's structs read it: the
    elements the two sides name alike. *)
Definition wire_agent (a : producer.Agent) : Agent :=
  {| FinInstnId := {| BICFI := producer.BICFI (producer.FinInstnId a) |} |}.

Definition wire_party (p : producer.Party) : Party :=
  {| Nm := producer.Nm p;
     PstlAdr := {| Ctry := producer.Ctry (producer.PstlAdr p) |} |}.

Definition wire_tx (tx : producer.TransactionInfo) : TransactionInfo :=
  {| PmtId := {| InstrId := producer.InstrId (producer.PmtId tx);
                 EndToEndId := producer.EndToEndId (producer.PmtId tx);
                 UETR := producer.UETR (producer.PmtId tx) |};
     IntrBkSttlmAmt :=
       {| Ccy := producer.Ccy (producer.IntrBkSttlmAmt tx);
          Value := producer.Value (producer.IntrBkSttlmAmt tx) |};
     IntrBkSttlmDt := producer.IntrBkSttlmDt tx;
     ChrgBr := producer.ChrgBr tx;
     Dbtr := wire_party (producer.Dbtr tx);
     DbtrAgt := wire_agent (producer.DbtrAgt tx);
     CdtrAgt := wire_agent (producer.CdtrAgt tx);
     Cdtr := wire_party (producer.Cdtr tx) |}.

Definition wire (doc : producer.Document) : Document :=
  let ct := producer.FIToFICstmrCdtTrf doc in
  {| FIToFICstmrCdtTrf :=
       {| GrpHdr :=
            {| MsgId := producer.MsgId (producer.GrpHdr ct);
               NbOfTxs := producer.NbOfTxs (producer.GrpHdr ct);
               SttlmInf :=
                 {| SttlmMtd :=
                      producer.SttlmMtd
                        (producer.SttlmInf (producer.GrpHdr ct)) |} |};
          CdtTrfTxInf := wire_tx <$> producer.CdtTrfTxInf ct |} |}.

(** Whether a bank takes part: it has the role of a source or of a
    destination. *)
Definition participates (bank : producer.Bank) : Prop :=
  "source" ∈ producer.Roles bank ∨ "dest" ∈ producer.Roles bank.

#[global] Instance participates_dec (bank : producer.Bank)
  : Decision (participates bank).
Proof. unfold participates. apply _. Defined.

(** A bank of the producer's configuration as the consumer's configuration
    structs read it. *)
Definition as_liquidity (bank : producer.Bank) : liquidity.Bank :=
  liquidity.mkBank (producer.ID bank) (producer.Name bank) (producer.BIC bank).

(** A network of three banks, one of which takes no part, and sources of
    randomness, time and text for [generateTransaction]. *)
Definition maybank : producer.Bank :=
  producer.mkBank "maybank" "Maybank" "MBBEMYKL" "MY" "MYR" 1000000%float
    ["source"; "dest"].

Definition dbs : producer.Bank :=
  producer.mkBank "dbs" "DBS Bank" "DBSSSGSGXXX" "SG" "SGD" 1000000%float
    ["dest"].

Definition observer : producer.Bank :=
  producer.mkBank "obs" "Observer" "OBSVTHBK" "TH" "THB" 0%float ["audit"].

Definition sample_network (bytes : string) : producer.NetworkConfig + error :=
  if String.eqb bytes "{banks}"
  then inl {| producer.Banks := [maybank; observer; dbs] |}
  else inr (ErrForeign "unexpected end of JSON input").

(** The integers drawn are 0, 0, 0, 1, 1, ...: the destination is found at
    the second redraw. *)
Definition sample_Intn (k : nat) (n : Z) : Z := if (k <? 3)%nat then 0 else 1.
Definition sample_Float64 (k : nat) : float := 0.5%float.
Definition sample_Now (k : nat) : Z := 1700000000 * Second.
Definition sample_Unix (k : nat) : Z := 1700000000.
Definition sample_Format (k : nat) : string := "2023-11-14".
Definition sample_uuid (k : nat) : string := "6ba7b810-9dad-11d1-80b4-00c04fd430c8".
Definition sample_2f (a : float) : string := "5000.50".
Definition sample_08d (i : Z) : string := "00000001".
Definition sample_MarshalIndent (doc : producer.Document) : string + error :=
  inl (producer.MsgId (producer.GrpHdr (producer.FIToFICstmrCdtTrf doc))).

Definition gen0 : producer.Gen := producer.mkGen 0 0 0 0.

(** The configuration file as the consumer decodes it. *)
Definition sample_mapping (bytes : string) : liquidity.NetworkConfig + error :=
  if String.eqb bytes "{banks}"
  then inl {| liquidity.Banks := as_liquidity <$> [maybank; observer; dbs] |}
  else inr (ErrForeign "unexpected end of JSON input").

(** ** The producing loop *)

(** The local variables of [produceMessages], the two counters of
    [metrics], the state of the generator and the messages the writer has
    accepted (key and value). *)
Record Producer (G : Type) := mkProducer {
  msgID : Z;
  batchCount : Z;
  MessagesProduced : Z;
  Errors : Z;
  generator : G;
  written : list (string * string)
}.
Arguments mkProducer {G}.
Arguments msgID {G}.
Arguments batchCount {G}.
Arguments MessagesProduced {G}.
Arguments Errors {G}.
Arguments generator {G}.
Arguments written {G}.

(** What the [select] of [produceMessages] takes; a tick of the message
    ticker comes with the error [writer.WriteMessages] will return. *)
Inductive ProducerStep :=
  | ProdCtxDone
  | ProdBatchTick
  | ProdTick (writeErr : option error).

(** [time.NewTicker] panics for an interval that is not positive. *)
Definition time_NewTicker (d : Z) : outcome unit :=
  if d <=? 0 then Panic "non-positive interval for NewTicker" else Ok tt.

Section Produce.

Context {G : Type}.
Variable generateTransaction : Z → G → (string + error) * G.

(** The [for { select { ... } }] of [produceMessages]. *)
Fixpoint produceLoop (steps : list ProducerStep) (p : Producer G)
  : Producer G :=
  match steps with
  | [] => p
  | ProdCtxDone :: _ => p
  | ProdBatchTick :: steps =>
      produceLoop steps
        (mkProducer (msgID p) 0 (MessagesProduced p) (Errors p) (generator p)
           (written p))
  | ProdTick writeErr :: steps =>
    match generateTransaction (msgID p) (generator p) with
    | (inr _, g) =>
        produceLoop steps
          (mkProducer (msgID p) (batchCount p) (MessagesProduced p)
             (wrap64 (Errors p + 1)) g (written p))
    | (inl data, g) =>
      let key := "txn-" +:+ itoa (msgID p) in
      match writeErr with
      | Some _ =>
          produceLoop steps
            (mkProducer (wrap64 (msgID p + 1)) (batchCount p)
               (MessagesProduced p) (wrap64 (Errors p + 1)) g (written p))
      | None =>
          produceLoop steps
            (mkProducer (wrap64 (msgID p + 1)) (wrap64 (batchCount p + 1))
               (wrap64 (MessagesProduced p + 1)) (Errors p) g
               (written p ++ [(key, data)]))
      end
    end
  end.

(** [produceMessages]: the two tickers are made first, the interval of the
    first being [time.Second / time.Duration(messagesPerSecond)]. *)
Definition produceMessages (messagesPerSecond : Z) (steps : list ProducerStep)
    (p : Producer G) : outcome (Producer G) :=
  if messagesPerSecond =? 0 then Panic "integer divide by zero"
  else
    match time_NewTicker (Second `quot` messagesPerSecond) with
    | Panic r => Panic r
    | NotReady => NotReady
    | Ok _ =>
      match time_NewTicker (10 * Second) with
      | Panic r => Panic r
      | NotReady => NotReady
      | Ok _ => Ok (produceLoop steps p)
      end
    end.

End Produce.

(** The ticks of the message ticker that the loop handles: those before
    the context is done. *)
Fixpoint ticks (steps : list ProducerStep) : nat :=
  match steps with
  | [] => 0
  | ProdCtxDone :: _ => 0
  | ProdBatchTick :: steps => ticks steps
  | ProdTick _ :: steps => Datatypes.S (ticks steps)
  end.

(** The ticks of the message ticker, among those the loop handles, at
    which [generateTransaction] returned a message.  The loop is followed
    one step at a time; at each tick the generator is asked with the
    identifier and the state the loop has reached. *)
Fixpoint generated {G : Type}
    (generateTransaction : Z → G → (string + error) * G)
    (steps : list ProducerStep) (p : Producer G) : nat :=
  match steps with
  | [] => 0
  | ProdCtxDone :: _ => 0
  | ProdBatchTick :: steps =>
      generated generateTransaction steps
        (produceLoop generateTransaction [ProdBatchTick] p)
  | ProdTick writeErr :: steps =>
      (match fst (generateTransaction (msgID p) (generator p)) with
       | inl _ => 1
       | inr _ => 0
       end
       + generated generateTransaction steps
           (produceLoop generateTransaction [ProdTick writeErr] p))%nat
  end.

(** A generator that fails at its third call. *)
Definition sample_generate (msgID : Z) (g : nat) : (string + error) * nat :=
  if (g =? 2)%nat
  then (inr (ErrForeign "xml: unsupported type"), Datatypes.S g)
  else (inl ("<Document>" +:+ itoa msgID), Datatypes.S g).

Definition producer0 : Producer nat := mkProducer 0 0 0 0 0%nat [].

(** ** The health endpoints of the producer *)

Module producer_health.

Record HealthStatus := {
  Status : string;
  Service : string;
  Timestamp : Z;
  MessagesProduced : Z;
  Uptime : string;
  KafkaConnected : bool
}.

Record ReadinessStatus := {
  Ready : bool;
  Ready_Service : string;
  Ready_Timestamp : Z;
  KafkaReady : bool;
  ConfigLoaded : bool
}.

(** The two flags and the number of dials made. *)
Record Flags := mkFlags {
  kafkaHealthy : Z;
  configLoaded : Z;
  dials : nat
}.

Section Handlers.

(** [time.Now], [time.Since(healthStartTime).String()] and the counter of
    [metrics] when the handler runs. *)
Variable now : Z.
Variable uptime : string.
Variable messagesProduced : Z.

Definition handleHealth (f : Flags) : Response HealthStatus :=
  let connected := atomic.LoadInt32 (kafkaHealthy f) =? 1 in
  let status :=
    {| Status := "healthy"; Service := "producer"; Timestamp := now;
       MessagesProduced := atomic.LoadInt64 messagesProduced;
       Uptime := uptime; KafkaConnected := connected |} in
  if negb (KafkaConnected status)
  then mkResponse StatusServiceUnavailable
         (Some {| Status := "degraded"; Service := Service status;
                  Timestamp := Timestamp status;
                  MessagesProduced := MessagesProduced status;
                  Uptime := Uptime status;
                  KafkaConnected := KafkaConnected status |})
  else mkResponse StatusOK (Some status).

Definition handleReady (f : Flags) : Response ReadinessStatus :=
  let kafkaReady := atomic.LoadInt32 (kafkaHealthy f) =? 1 in
  let configReady := atomic.LoadInt32 (configLoaded f) =? 1 in
  let ready := kafkaReady && configReady in
  let status :=
    {| Ready := ready; Ready_Service := "producer"; Ready_Timestamp := now;
       KafkaReady := kafkaReady; ConfigLoaded := configReady |} in
  mkResponse (if ready then StatusOK else StatusServiceUnavailable)
    (Some status).

End Handlers.

Section Monitor.

(** [kafka.Dial] and [conn.Controller] at the n-th dial: the error
    returned. *)
Variable kafka_Dial : string → nat → option error.
Variable conn_Controller : string → nat → option error.

Definition checkKafkaHealth (brokerAddr : string) (n : nat) : option error :=
  match kafka_Dial brokerAddr n with
  | Some err => Some (fmt_Errorf "failed to connect: " (Some err))
  | None =>
    match conn_Controller brokerAddr n with
    | Some err => Some (fmt_Errorf "failed to get controller: " (Some err))
    | None => None
    end
  end.

(** [monitorKafkaHealth] over what its [select] takes. *)
Fixpoint monitorKafkaHealth (brokerAddr : string) (steps : list MonitorStep)
    (f : Flags) : Flags :=
  match steps with
  | [] => f
  | MonCtxDone :: _ => f
  | MonTick :: steps =>
    let err := checkKafkaHealth brokerAddr (dials f) in
    monitorKafkaHealth brokerAddr steps
      (mkFlags (match err with Some _ => 0 | None => 1 end) (configLoaded f)
         (Datatypes.S (dials f)))
  end.

End Monitor.

End producer_health.

(** A broker whose controller cannot be found at the second dial. *)
Definition dial_ok (addr : string) (n : nat) : option error := None.
Definition controller_lost (addr : string) (n : nat) : option error :=
  if (n =? 1)%nat then Some (ErrForeign "not controller") else None.

(** A list of integers each smaller than all that follow. *)
Fixpoint increasing (l : list Z) : Prop :=
  match l with
  | [] => True
  | x :: l => Forall (λ y, x < y) l ∧ increasing l
  end.

(** ** What the validation reads *)

(** Two transactions that agree on the fields the validation checks in
    every transaction. *)
Definition checked_alike (tx1 tx2 : TransactionInfo) : Prop :=
  InstrId (PmtId tx1) = InstrId (PmtId tx2) ∧
  Ccy (IntrBkSttlmAmt tx1) = Ccy (IntrBkSttlmAmt tx2) ∧
  Value (IntrBkSttlmAmt tx1) = Value (IntrBkSttlmAmt tx2) ∧
  IntrBkSttlmDt tx1 = IntrBkSttlmDt tx2 ∧
  ChrgBr tx1 = ChrgBr tx2.

(** Two transactions whose agents have BICs of the same lengths. *)
Definition agents_alike (tx1 tx2 : TransactionInfo) : Prop :=
  len (BICFI (FinInstnId (DbtrAgt tx1))) = len (BICFI (FinInstnId (DbtrAgt tx2))) ∧
  len (BICFI (FinInstnId (CdtrAgt tx1))) = len (BICFI (FinInstnId (CdtrAgt tx2))).

(** A transaction like [sample_tx] between other parties, with agents whose
    BICs are too short, and a message that announces seven transactions. *)
Definition stray_tx : TransactionInfo :=
  {| PmtId := {| InstrId := "I1"; EndToEndId := "E9"; UETR := "u" |};
     IntrBkSttlmAmt := {| Ccy := "MYR"; Value := "100.50" |};
     IntrBkSttlmDt := "2025-01-15";
     ChrgBr := "SHAR";
     Dbtr := {| Nm := "X"; PstlAdr := {| Ctry := "" |} |};
     DbtrAgt := {| FinInstnId := {| BICFI := "X" |} |};
     CdtrAgt := {| FinInstnId := {| BICFI := "" |} |};
     Cdtr := {| Nm := "Y"; PstlAdr := {| Ctry := "" |} |} |}.

Definition seven_doc (txs : list TransactionInfo) : Document :=
  {| FIToFICstmrCdtTrf :=
       {| GrpHdr := {| MsgId := "MSG-1"; NbOfTxs := 7;
                       SttlmInf := {| SttlmMtd := "CLRG" |} |};
          CdtTrfTxInf := txs |} |}.

(** ** The Kafka reader of the consumer *)

Module kafka_reader.

(** What [reader.ReadMessage] returns: a message, or an error, of which
    the loop asks whether the context is done by then and whether the
    error is a deadline that was exceeded. *)
Inductive ReadResult :=
  | ReadOk (value : string)
  | ReadErr (ctxDone : bool) (deadlineExceeded : bool).

(** What one iteration meets: the context done at the first [select], or
    a read, after which the second [select] sends the item ([true]) or
    finds the context done. *)
Inductive Step :=
  | CtxDone
  | Read (r : ReadResult) (sent : bool).





Fixpoint failures (steps : list Step) : nat :=
  match steps with
  | [] => 0
  | CtxDone :: _ => 0
  | Read (ReadErr ctxDone deadlineExceeded) _ :: steps =>
      if ctxDone then 0
      else if deadlineExceeded then failures steps
      else Datatypes.S (failures steps)
  | Read (ReadOk _) sent :: steps => if sent then failures steps else 0
  end.

End kafka_reader.

(** * Properties *)

(** ** Machine integers *)

Lemma wrap32_id (x : Z) : min_int32 ≤ x ≤ max_int32 → wrap32 x = x.
Proof.
  unfold wrap32, wrap, min_int32, max_int32. intros Hx.
  rewrite Z.mod_small by lia. lia.
Qed.

Lemma wrap64_id (x : Z) : min_int64 ≤ x ≤ max_int64 → wrap64 x = x.
Proof.
  unfold wrap64, wrap, min_int64, max_int64. intros Hx.
  rewrite Z.mod_small by lia. lia.
Qed.

(** ** The circuit breaker under recordings *)

Lemma recordAll_snoc calls c cb :
  recordAll (calls ++ [c]) cb = record (recordAll calls cb) c.
Proof. unfold recordAll. by rewrite fold_left_app. Qed.

Lemma consecutive_failures_snoc_failure calls now :
  consecutive_failures (calls ++ [OnFailure now])
  = 1 + consecutive_failures calls.
Proof. unfold consecutive_failures. by rewrite rev_unit. Qed.

Lemma consecutive_failures_snoc_success calls :
  consecutive_failures (calls ++ [OnSuccess]) = 0.
Proof. unfold consecutive_failures. by rewrite rev_unit. Qed.

Lemma consecutive_failures_nonneg calls : 0 ≤ consecutive_failures calls.
Proof.
  unfold consecutive_failures. induction (rev calls) as [|[] ? IH]; simpl; lia.
Qed.

Lemma record_maxFailures cb c : maxFailures (record cb c) = maxFailures cb.
Proof.
  destruct c; simpl; unfold recordFailure, recordSuccess, atomic.LoadInt32;
    repeat (case_match; simpl; try done).
Qed.

Lemma recordAll_maxFailures calls cb :
  maxFailures (recordAll calls cb) = maxFailures cb.
Proof.
  induction calls as [|c calls IH] using rev_ind; [done|].
  by rewrite recordAll_snoc, record_maxFailures.
Qed.

(** A failure recorded on a closed breaker: the counter goes up by one and
    the breaker opens when the counter is at the threshold or above. *)
Lemma recordFailure_closed now cb :
  state cb = StateClosed →
  min_int32 ≤ failures cb + 1 ≤ max_int32 →
  let cb' := fst (recordFailure now cb) in
  failures cb' = failures cb + 1 ∧
  state cb' = (if failures cb + 1 >=? maxFailures cb
               then StateOpen else StateClosed).
Proof.
  intros Hst Hr. unfold recordFailure, atomic.LoadInt32, atomic.AddInt32.
  rewrite Hst, wrap32_id by done. simpl.
  destruct (failures cb + 1 >=? maxFailures cb); simpl; [|done].
  unfold atomic.CompareAndSwapInt32. simpl. by rewrite Hst.
Qed.

Lemma recordSuccess_closed cb :
  state cb = StateClosed →
  let cb' := fst (recordSuccess cb) in
  failures cb' = 0 ∧ state cb' = StateClosed.
Proof.
  intros Hst. unfold recordSuccess, atomic.LoadInt32. by rewrite Hst.
Qed.

Lemma record_open cb c : state cb = StateOpen → state (record cb c) = StateOpen.
Proof.
  intros Hst.
  destruct c; simpl; unfold recordFailure, recordSuccess, atomic.LoadInt32;
    rewrite ?Hst; simpl; done.
Qed.

(** Recordings alone leave a breaker that starts closed either open or
    closed, and while it is closed its counter is the count of consecutive
    failures, which is below the threshold (or still zero, for a threshold
    that is not positive). *)
Lemma closed_counts_consecutive_failures cb0 calls :
  state cb0 = StateClosed → failures cb0 = 0 →
  maxFailures cb0 ≤ max_int32 →
  state (recordAll calls cb0) = StateOpen ∨
  (state (recordAll calls cb0) = StateClosed ∧
   failures (recordAll calls cb0) = consecutive_failures calls ∧
   (consecutive_failures calls < maxFailures cb0 ∨
    consecutive_failures calls = 0)).
Proof.
  intros H0 Hf Hmax.
  induction calls as [|c calls IH] using rev_ind.
  { right. simpl. unfold consecutive_failures. simpl. lia. }
  rewrite recordAll_snoc.
  destruct IH as [Hopen | (Hprev & IHf & IHlt)].
  { left. by apply record_open. }
  pose proof (consecutive_failures_nonneg calls) as Hnn.
  pose proof (recordAll_maxFailures calls cb0) as Hmf.
  destruct c as [now|]; simpl in *.
  - destruct (recordFailure_closed now _ Hprev) as [Hf' Hs'].
    { unfold min_int32, max_int32 in *. lia. }
    rewrite consecutive_failures_snoc_failure, Hf', Hs', Hmf, IHf.
    destruct (Z.geb_spec (consecutive_failures calls + 1) (maxFailures cb0));
      [by left | right; lia].
  - destruct (recordSuccess_closed _ Hprev) as [Hf' Hs'].
    rewrite consecutive_failures_snoc_success, Hf', Hs'. right. lia.
Qed.

(** C1.  A breaker that is closed with its counter at zero (as
    [NewCircuitBreaker] makes it and as the transition from half-open leaves
    it) receives any sequence of [recordFailure] and [recordSuccess] calls.
    At every call that finds it closed, it opens exactly when the call is a
    failure that brings the count of consecutive failures to the threshold
    [maxFailures]; otherwise it stays closed, so it never opens on fewer.
    For a positive threshold the count at the opening is the threshold
    itself. *)
Theorem breaker_opens_exactly_at_threshold
    (cb0 : CircuitBreaker) (calls : list Recording) (c : Recording) :
  state cb0 = StateClosed → failures cb0 = 0 →
  maxFailures cb0 ≤ max_int32 →
  state (recordAll calls cb0) = StateClosed →
  let after := recordAll (calls ++ [c]) cb0 in
  let count := consecutive_failures (calls ++ [c]) in
  (state after = StateOpen ↔ is_failure c = true ∧ maxFailures cb0 ≤ count) ∧
  (count < maxFailures cb0 → state after = StateClosed) ∧
  (state after = StateOpen ∨ state after = StateClosed) ∧
  (1 ≤ maxFailures cb0 → state after = StateOpen → count = maxFailures cb0).
Proof.
  intros H0 Hf Hmax Hc after count. subst after count.
  destruct (closed_counts_consecutive_failures cb0 calls H0 Hf Hmax)
    as [Hopen | (_ & Hcnt & Hlt)].
  { rewrite Hopen in Hc. discriminate Hc. }
  pose proof (consecutive_failures_nonneg calls) as Hnn.
  pose proof (recordAll_maxFailures calls cb0) as Hmf.
  rewrite recordAll_snoc. destruct c as [now|]; simpl.
  - destruct (recordFailure_closed now _ Hc) as [_ Hs'].
    { unfold min_int32, max_int32 in *. lia. }
    rewrite Hs', Hmf, Hcnt, consecutive_failures_snoc_failure.
    destruct (Z.geb_spec (consecutive_failures calls + 1) (maxFailures cb0));
      unfold StateOpen, StateClosed; intuition lia.
  - destruct (recordSuccess_closed _ Hc) as [_ Hs'].
    rewrite Hs', consecutive_failures_snoc_success.
    unfold StateOpen, StateClosed. intuition (try discriminate; try lia).
Qed.

Lemma breaker_opens_exactly_at_threshold_witness :
  let cb0 := NewCircuitBreaker "liquidity" 3 (30 * Second) 2 in
  let calls := [OnFailure 10; OnSuccess; OnFailure 20; OnFailure 30] in
  state (recordAll calls cb0) = StateClosed ∧
  consecutive_failures (calls ++ [OnFailure 40]) = 3 ∧
  state (recordAll (calls ++ [OnFailure 40]) cb0) = StateOpen.
Proof.
  intros cb0 calls.
  assert (Hc : state (recordAll calls cb0) = StateClosed) by reflexivity.
  assert (Hm : maxFailures cb0 ≤ max_int32) by (vm_compute; discriminate).
  destruct (breaker_opens_exactly_at_threshold cb0 calls (OnFailure 40)
              eq_refl eq_refl Hm Hc) as (Hopen & _).
  split; [exact Hc|]. split; [reflexivity|].
  apply Hopen. split; [reflexivity | vm_compute; discriminate].
Defined.

(** A threshold that is not positive is reached by the first failure. *)
Lemma nonpositive_threshold_opens_on_first_failure cb now :
  state cb = StateClosed → failures cb = 0 → maxFailures cb ≤ 0 →
  state (fst (recordFailure now cb)) = StateOpen.
Proof.
  intros Hst Hf Hm.
  destruct (recordFailure_closed now cb Hst) as [_ Hs].
  { rewrite Hf. unfold min_int32, max_int32. lia. }
  rewrite Hs, Hf. destruct (Z.geb_spec (0 + 1) (maxFailures cb)); [done | lia].
Qed.

(** ** The open breaker *)

Lemma canExecute_open_denied now cb :
  state cb = StateOpen →
  time_Since now (lastFailureTime cb) ≤ resetTimeout cb →
  canExecute now cb = (false, cb, []).
Proof.
  intros Hst Ht. unfold canExecute, canExecute_loaded, atomic.LoadInt32,
    atomic.LoadInt64. rewrite Hst. simpl.
  destruct (Z.gtb_spec (time_Since now (lastFailureTime cb)) (resetTimeout cb));
    [lia | done].
Qed.

Lemma canExecute_open_elapsed now cb :
  state cb = StateOpen →
  resetTimeout cb < time_Since now (lastFailureTime cb) →
  canExecute now cb
  = (true, set_halfOpenSuccesses 0 (set_state StateHalfOpen cb),
     [LogToHalfOpen (name cb)]).
Proof.
  intros Hst Ht. unfold canExecute, canExecute_loaded, atomic.LoadInt32,
    atomic.LoadInt64, atomic.CompareAndSwapInt32. rewrite Hst. simpl.
  destruct (Z.gtb_spec (time_Since now (lastFailureTime cb)) (resetTimeout cb));
    [done | lia].
Qed.

(** C3.  On an open breaker [canExecute] answers no, and changes nothing,
    as long as the time since the last recorded failure has not exceeded
    [resetTimeout]; so does every further call, whatever their number.  The
    first call after the timeout has elapsed answers yes, moves the state
    from open to half-open and sets the probe-success counter to zero.  The
    move is made by the compare-and-swap, so it is made once: a caller that
    had loaded the open state before the move finds the swap refused and
    leaves the breaker as it is, and any later caller is let through
    without a second transition and without touching the counter. *)
Theorem canExecute_open_until_timeout (cb : CircuitBreaker) (now : Z) :
  state cb = StateOpen →
  (time_Since now (lastFailureTime cb) ≤ resetTimeout cb →
     canExecute now cb = (false, cb, []) ∧
     ∀ nows : list Z,
       Forall (λ t, time_Since t (lastFailureTime cb) ≤ resetTimeout cb) nows →
       Forall (λ t, canExecute t cb = (false, cb, [])) nows) ∧
  (resetTimeout cb < time_Since now (lastFailureTime cb) →
     ∃ cb',
       canExecute now cb = (true, cb', [LogToHalfOpen (name cb)]) ∧
       state cb' = StateHalfOpen ∧
       halfOpenSuccesses cb' = 0 ∧
       failures cb' = failures cb ∧
       lastFailureTime cb' = lastFailureTime cb ∧
       (∀ later, ∃ ok, canExecute_loaded StateOpen later cb' = (ok, cb', [])) ∧
       (∀ later, canExecute later cb' = (true, cb', []))).
Proof.
  intros Hst. split.
  - intros Ht. split; [by apply canExecute_open_denied|].
    intros nows Hall. eapply Forall_impl; [exact Hall|].
    intros t Hle. by apply canExecute_open_denied.
  - intros Ht. eexists. split; [by apply canExecute_open_elapsed|].
    do 4 (split; [done|]).
    unfold canExecute, canExecute_loaded, atomic.LoadInt64,
      atomic.CompareAndSwapInt32. simpl.
    split; intros later; [|done].
    destruct (time_Since later (lastFailureTime cb) >? resetTimeout cb);
      by eexists.
Qed.

Lemma canExecute_open_until_timeout_witness :
  let cb := fst (recordFailure (5 * Second)
                   (NewCircuitBreaker "liquidity" 1 (30 * Second) 2)) in
  state cb = StateOpen ∧
  canExecute (35 * Second) cb = (false, cb, []) ∧
  fst (fst (canExecute (35 * Second + 1) cb)) = true ∧
  state (snd (fst (canExecute (35 * Second + 1) cb))) = StateHalfOpen.
Proof.
  intros cb.
  assert (Hst : state cb = StateOpen) by reflexivity.
  destruct (canExecute_open_until_timeout cb (35 * Second) Hst) as [Hd _].
  destruct (canExecute_open_until_timeout cb (35 * Second + 1) Hst) as [_ He].
  split; [exact Hst|]. split.
  - apply Hd. vm_compute. discriminate.
  - destruct He as (cb' & Heq & Hs & _); [reflexivity|].
    rewrite Heq. simpl. by split.
Defined.

(** ** The half-open breaker *)

(** C4, as stated, fails: a failure recorded on a half-open breaker that
    has counted one probe success reopens it and leaves that count at one. *)
Lemma halfopen_failure_keeps_probe_successes :
  state probing_breaker = StateHalfOpen ∧
  halfOpenSuccesses probing_breaker = 1 ∧
  state (fst (recordFailure (41 * Second) probing_breaker)) = StateOpen ∧
  halfOpenSuccesses (fst (recordFailure (41 * Second) probing_breaker)) ≠ 0.
Proof. vm_compute. repeat split; discriminate. Qed.

(** C4, amended.  A single failure recorded on a half-open breaker moves it
    back to open and clears the failure counter; the probe-success counter
    keeps its value, and is set to zero by the next transition from open to
    half-open. *)
Theorem halfopen_failure_reopens (cb : CircuitBreaker) (now : Z) :
  state cb = StateHalfOpen →
  let cb' := fst (recordFailure now cb) in
  state cb' = StateOpen ∧
  failures cb' = 0 ∧
  lastFailureTime cb' = now ∧
  halfOpenSuccesses cb' = halfOpenSuccesses cb ∧
  ∀ later, resetTimeout cb' < time_Since later (lastFailureTime cb') →
    state (snd (fst (canExecute later cb'))) = StateHalfOpen ∧
    halfOpenSuccesses (snd (fst (canExecute later cb'))) = 0.
Proof.
  intros Hst cb'. subst cb'.
  unfold recordFailure, atomic.LoadInt32, atomic.CompareAndSwapInt32.
  rewrite Hst. simpl. rewrite Hst. simpl.
  do 4 (split; [done|]).
  intros later Ht. rewrite canExecute_open_elapsed; done.
Qed.

Lemma halfopen_failure_reopens_witness :
  state probing_breaker = StateHalfOpen ∧
  state (fst (recordFailure (41 * Second) probing_breaker)) = StateOpen ∧
  failures (fst (recordFailure (41 * Second) probing_breaker)) = 0 ∧
  halfOpenSuccesses (fst (recordFailure (41 * Second) probing_breaker)) = 1.
Proof.
  assert (Hst : state probing_breaker = StateHalfOpen) by reflexivity.
  destruct (halfopen_failure_reopens probing_breaker (41 * Second) Hst)
    as (Ho & Hf & _ & Hp & _).
  split; [exact Hst|]. split; [exact Ho|]. split; [exact Hf|].
  rewrite Hp. reflexivity.
Defined.

(** ** The retry executor *)


Lemma canExecute_lines now cb :
  Forall (λ l, breaker_line l = true) (snd (canExecute now cb)).
Proof.
  unfold canExecute, canExecute_loaded, atomic.CompareAndSwapInt32.
  repeat (case_match; simpl; try done); by repeat constructor.
Qed.

Lemma recordFailure_lines now cb :
  Forall (λ l, breaker_line l = true) (snd (recordFailure now cb)).
Proof.
  unfold recordFailure, atomic.CompareAndSwapInt32.
  repeat (case_match; simpl; try done); by repeat constructor.
Qed.

Lemma recordSuccess_lines cb :
  Forall (λ l, breaker_line l = true) (snd (recordSuccess cb)).
Proof.
  unfold recordSuccess, atomic.CompareAndSwapInt32.
  repeat (case_match; simpl; try done); by repeat constructor.
Qed.

(** A denied check prints nothing and leaves the breaker as it was. *)
Lemma canExecute_denied now cb cb' out :
  canExecute now cb = (false, cb', out) → cb' = cb ∧ out = [].
Proof.
  unfold canExecute, canExecute_loaded, atomic.CompareAndSwapInt32.
  repeat (case_match; simpl; try done); intros [= <- <-]; done.
Qed.


Lemma breaker_events_prints out :
  Forall (λ l, breaker_line l = true) out → breaker_events (map EvPrint out).
Proof.
  unfold breaker_events. induction 1 as [|l out Hl _ IH]; simpl; [constructor|].
  constructor; [by destruct l | done].
Qed.

Lemma breaker_events_attempts evs : breaker_events evs → attempts_of evs = [].
Proof.
  unfold attempts_of. induction 1 as [|ev evs Hev _ IH]; [done|].
  destruct ev; simpl in *; done.
Qed.

Lemma breaker_events_sleeps evs : breaker_events evs → sleeps_of evs = [].
Proof.
  unfold sleeps_of. induction 1 as [|ev evs Hev _ IH]; [done|].
  destruct ev; simpl in *; done.
Qed.

Lemma breaker_events_without evs : breaker_events evs → without_breaker evs = [].
Proof.
  unfold without_breaker. induction 1 as [|ev evs Hev _ IH]; [done|].
  rewrite filter_cons, IH. case_decide; [congruence | done].
Qed.

Lemma not_denied_prints out : ¬ denied (map EvPrint out).
Proof.
  unfold denied. intros Hin. apply list_elem_of_In, in_map_iff in Hin.
  by destruct Hin as (? & ? & _).
Qed.

Lemma denied_app tr1 tr2 : denied (tr1 ++ tr2) ↔ denied tr1 ∨ denied tr2.
Proof. unfold denied. apply elem_of_app. Qed.

Lemma attempts_of_app tr1 tr2 :
  attempts_of (tr1 ++ tr2) = attempts_of tr1 ++ attempts_of tr2.
Proof. apply omap_app. Qed.

Lemma sleeps_of_app tr1 tr2 :
  sleeps_of (tr1 ++ tr2) = sleeps_of tr1 ++ sleeps_of tr2.
Proof. apply omap_app. Qed.

Lemma without_breaker_app tr1 tr2 :
  without_breaker (tr1 ++ tr2) = without_breaker tr1 ++ without_breaker tr2.
Proof. apply filter_app. Qed.

Lemma denied_cons ev tr : denied (ev :: tr) ↔ EvCanExecute false = ev ∨ denied tr.
Proof. unfold denied. apply elem_of_cons. Qed.

Lemma denied_nil : denied [] ↔ False.
Proof. unfold denied. apply elem_of_nil. Qed.

Lemma not_denied_nil : ¬ denied [].
Proof. by intros ?%denied_nil. Qed.

Ltac undeny :=
  repeat (rewrite denied_app || rewrite denied_cons || rewrite denied_nil);
  intuition discriminate.

Lemma attempts_of_without tr : attempts_of (without_breaker tr) = attempts_of tr.
Proof.
  unfold attempts_of, without_breaker.
  induction tr as [|ev tr IH]; [done|].
  rewrite filter_cons. case_decide as Hev.
  - destruct ev as [| | | |[]| |]; simpl in *;
      first [done | exact IH | f_equal; exact IH].
  - destruct ev as [| | | |[]| |]; simpl in *; first [done | exact IH].
Qed.

Lemma sleeps_of_without tr : sleeps_of (without_breaker tr) = sleeps_of tr.
Proof.
  unfold sleeps_of, without_breaker.
  induction tr as [|ev tr IH]; [done|].
  rewrite filter_cons. case_decide as Hev.
  - destruct ev as [| | | |[]| |]; simpl in *;
      first [done | exact IH | f_equal; exact IH].
  - destruct ev as [| | | |[]| |]; simpl in *; first [done | exact IH].
Qed.

Section RetryFacts.

Context {S : Type}.
Variable fn : S → option error * S.
Variable wallclock : nat → Z.
Variable ctxDone : nat → bool.
Variable ctxErr : error.

(** The breaker check: it touches neither the operation nor the waits, and
    what it adds to the trace are events of the breaker; a refusal adds the
    refusal alone. *)
Lemma checkBreaker_spec (cb : option CircuitBreaker) (w : @World S) ok cb' w' :
  checkBreaker wallclock cb w = (ok, cb', w') →
  fnState w' = fnState w ∧ waits w' = waits w ∧
  (cb = None → cb' = None) ∧
  ∃ evs, trace w' = trace w ++ evs ∧ breaker_events evs ∧
         (cb = None → evs = [] ∧ ok = true) ∧
         (ok = false → evs = [EvCanExecute false]) ∧
         (ok = true → ¬ denied evs).
Proof.
  destruct cb as [b|]; simpl.
  - unfold do_canExecute.
    destruct (canExecute (wallclock (clockReads w)) b) as [[ok1 b1] out] eqn:Hc.
    intros [= <- <- <-].
    pose proof (canExecute_lines (wallclock (clockReads w)) b) as Hl.
    rewrite Hc in Hl. simpl in Hl.
    split; [by destruct (state b =? StateOpen)|].
    split; [by destruct (state b =? StateOpen)|].
    split; [done|].
    exists (EvCanExecute ok1 :: map EvPrint out).
    split; [by destruct (state b =? StateOpen)|].
    split; [constructor; [done | by apply breaker_events_prints]|].
    split; [done|]. split.
    + intros ->. apply canExecute_denied in Hc as [_ ->]. done.
    + intros ->. unfold denied. rewrite elem_of_cons.
      intros [? | Hin]; [done | by apply not_denied_prints in Hin].
  - intros [= <- <- <-]. do 3 (split; [done|]).
    exists []. rewrite app_nil_r.
    split; [done|]. split; [constructor|]. do 2 (split; [done|]).
    unfold denied. by intros _ ?%elem_of_nil.
Qed.

Lemma noteSuccess_spec (cb : option CircuitBreaker) (w : @World S) cb' w' :
  noteSuccess cb w = (cb', w') →
  fnState w' = fnState w ∧ waits w' = waits w ∧
  (cb = None → cb' = None) ∧
  ∃ evs, trace w' = trace w ++ evs ∧ breaker_events evs ∧
         (cb = None → evs = []) ∧ ¬ denied evs.
Proof.
  destruct cb as [b|]; simpl.
  - unfold do_recordSuccess.
    destruct (recordSuccess b) as [b1 out] eqn:Hc. intros [= <- <-].
    pose proof (recordSuccess_lines b) as Hl. rewrite Hc in Hl. simpl in Hl.
    do 3 (split; [done|]).
    exists (EvRecordSuccess :: map EvPrint out).
    split; [done|].
    split; [constructor; [done | by apply breaker_events_prints]|].
    split; [done|]. unfold denied. rewrite elem_of_cons.
    intros [? | Hin]; [done | by apply not_denied_prints in Hin].
  - intros [= <- <-]. do 3 (split; [done|]).
    exists []. rewrite app_nil_r.
    split; [done|]. split; [constructor|]. split; [done|].
    unfold denied. by intros ?%elem_of_nil.
Qed.

Lemma noteFailure_spec (cb : option CircuitBreaker) (w : @World S) cb' w' :
  noteFailure wallclock cb w = (cb', w') →
  fnState w' = fnState w ∧ waits w' = waits w ∧
  (cb = None → cb' = None) ∧
  ∃ evs, trace w' = trace w ++ evs ∧ breaker_events evs ∧
         (cb = None → evs = []) ∧ ¬ denied evs.
Proof.
  destruct cb as [b|]; simpl.
  - unfold do_recordFailure.
    destruct (recordFailure (wallclock (clockReads w)) b) as [b1 out] eqn:Hc.
    intros [= <- <-].
    pose proof (recordFailure_lines (wallclock (clockReads w)) b) as Hl.
    rewrite Hc in Hl. simpl in Hl.
    do 3 (split; [done|]).
    exists (EvRecordFailure :: map EvPrint out).
    split; [done|].
    split; [constructor; [done | by apply breaker_events_prints]|].
    split; [done|]. unfold denied. rewrite elem_of_cons.
    intros [? | Hin]; [done | by apply not_denied_prints in Hin].
  - intros [= <- <-]. do 3 (split; [done|]).
    exists []. rewrite app_nil_r.
    split; [done|]. split; [constructor|]. split; [done|].
    unfold denied. by intros ?%elem_of_nil.
Qed.

(** The loop returns when it has fuel for the attempts that are left; what
    it adds to the trace has no event of the breaker when none is bound; and
    a refusal by the breaker is the last thing that happens in a run, which
    then returns the open-circuit error. *)
Lemma retryLoop_runs config :
  MaxAttempts config ≤ max_int64 →
  ∀ fuel attempt delay lastErr cb (w : @World S),
    min_int64 ≤ attempt →
    MaxAttempts config - attempt < Z.of_nat fuel → (0 < fuel)%nat →
    ∃ r cb' w' tr,
      retryLoop fn wallclock ctxDone ctxErr config fuel attempt delay lastErr
        cb w = Some (r, cb', w') ∧
      trace w' = trace w ++ tr ∧
      (cb = None → cb' = None ∧ Forall (λ ev, is_breaker_event ev = false) tr) ∧
      (denied tr →
         r = Some errBreakerOpen ∧
         ∃ pre, tr = pre ++ [EvCanExecute false] ∧ ¬ denied pre) ∧
      (r = Some errBreakerOpen → denied tr).
Proof.
  intros Hmax. induction fuel as [|fuel IH]; intros attempt delay lastErr cb w
    Hmin Hfuel Hpos; [lia|].
  cbn [retryLoop].
  destruct (Z.leb_spec attempt (MaxAttempts config)) as [Hle|Hgt]; cycle 1.
  { eexists _, _, _, []. rewrite app_nil_r. split; [done|]. split; [done|].
    split; [by split; [|constructor]|].
    split; [by intros ?%not_denied_nil|]. discriminate. }
  destruct (checkBreaker wallclock cb w) as [[ok cb1] w1] eqn:Hchk.
  destruct (checkBreaker_spec _ _ _ _ _ Hchk)
    as (Hs1 & Hw1 & Hn1 & evs1 & Ht1 & Hb1 & Hnone1 & Hdeny1 & Hok1).
  destruct ok; simpl; cycle 1.
  { specialize (Hdeny1 eq_refl). subst evs1.
    eexists _, _, _, _. split; [done|]. split; [exact Ht1|].
    split; [intros Hc; by destruct (Hnone1 Hc)|].
    split; [|intros _; apply denied_cons; by left].
    intros _. split; [done|]. exists []. split; [done | apply not_denied_nil]. }
  specialize (Hok1 eq_refl).
  destruct (fn (fnState w1)) as [err s] eqn:Hfn.
  destruct err as [e|].
  - destruct (noteFailure wallclock cb1 _) as [cb2 w2] eqn:Hnf.
    destruct (noteFailure_spec _ _ _ _ Hnf)
      as (Hs2 & Hw2 & Hn2 & evs2 & Ht2 & Hb2 & Hnone2 & Hnd2).
    simpl in Ht2, Hs2, Hw2.
    destruct (Z.geb_spec attempt (MaxAttempts config)) as [Hge|Hlt].
    { eexists _, _, _, (evs1 ++ [EvCall attempt (Some e)] ++ evs2).
      split; [done|]. split; [rewrite Ht2, Ht1, <- !app_assoc; done|].
      split.
      { intros Hc. destruct (Hnone1 Hc) as [-> _].
        rewrite (Hnone2 (Hn1 Hc)). split; [by apply Hn2, Hn1|].
        by repeat constructor. }
      split; [|discriminate]. undeny. }
    destruct (ctxDone _) eqn:Hctx.
    { eexists _, _, _,
        (evs1 ++ [EvCall attempt (Some e)] ++ evs2 ++
         [EvPrint (LogRetry attempt (MaxAttempts config) (error_Error e) delay);
          EvCancelled delay]).
      split; [done|]. split; [simpl; rewrite Ht2, Ht1, <- !app_assoc; done|].
      split.
      { intros Hc. destruct (Hnone1 Hc) as [-> _].
        rewrite (Hnone2 (Hn1 Hc)). split; [by apply Hn2, Hn1|].
        by repeat constructor. }
      split; [|discriminate]. undeny. }
    rewrite wrap64_id by (unfold min_int64, max_int64 in *; lia).
    edestruct (IH (attempt + 1) (nextDelay config delay) (Some e) cb2)
      as (r & cb' & w' & tr & Hrun & Htr & Hnone & Hden & Hopen);
      [lia | lia | lia | rewrite Hrun].
    simpl in Htr.
    set (pre := evs1 ++ [EvCall attempt (Some e)] ++ evs2 ++
         [EvPrint (LogRetry attempt (MaxAttempts config) (error_Error e) delay);
          EvSleep delay]).
    assert (Hpre : ¬ denied pre).
    { unfold pre. undeny. }
    exists r, cb', w', (pre ++ tr).
    split; [done|].
    split; [rewrite Htr, Ht2, Ht1; unfold pre; rewrite <- !app_assoc; done|].
    split.
    { intros Hc. destruct (Hnone1 Hc) as [He1 _].
      destruct (Hnone (Hn2 (Hn1 Hc))) as [-> Hall]. split; [done|].
      unfold pre. rewrite He1, (Hnone2 (Hn1 Hc)). simpl.
      by repeat constructor. }
    split.
    + rewrite denied_app. intros [?|Hd]; [done|].
      destruct (Hden Hd) as (-> & pre' & -> & Hnd). split; [done|].
      exists (pre ++ pre'). rewrite app_assoc. split; [done|].
      rewrite denied_app. tauto.
    + intros Hr. rewrite denied_app. right. by apply Hopen.
  - destruct (noteSuccess cb1 _) as [cb2 w2] eqn:Hns.
    destruct (noteSuccess_spec _ _ _ _ Hns)
      as (Hs2 & Hw2 & Hn2 & evs2 & Ht2 & Hb2 & Hnone2 & Hnd2).
    simpl in Ht2.
    eexists _, _, _, (evs1 ++ [EvCall attempt None] ++ evs2).
    split; [done|]. split; [rewrite Ht2, Ht1, <- !app_assoc; done|].
    split.
    { intros Hc. destruct (Hnone1 Hc) as [-> _].
      rewrite (Hnone2 (Hn1 Hc)). split; [by apply Hn2, Hn1|].
      by repeat constructor. }
    split; [|discriminate]. undeny.
Qed.

(** The two statements of the source that update the delay compute the
    minimum of the scaled delay and [MaxDelay]. *)
Lemma nextDelay_min config delay :
  nextDelay config delay = Z.min (scaled config delay) (MaxDelay config).
Proof.
  unfold nextDelay, scaled.
  destruct (Z.gtb_spec
    (int64_of_float64 (float64_of_int64 delay * Multiplier config)%float)
    (MaxDelay config)); lia.
Qed.

Lemma backoff_nextDelay config n delay :
  backoff config (Datatypes.S n) delay
  = delay :: backoff config n (nextDelay config delay).
Proof. by rewrite nextDelay_min. Qed.

(** When every attempt fails, no wait is cancelled and the breaker never
    refuses, the loop entered at [attempt] makes the attempts from there to
    [MaxAttempts], sleeps between them for the delays of the backoff, and
    returns the aggregate failure around the error of the last attempt. *)
Lemma retryLoop_all_fail config :
  MaxAttempts config ≤ max_int64 →
  (∀ s, fst (fn s) ≠ None) → (∀ k, ctxDone k = false) →
  ∀ fuel attempt delay lastErr cb (w : @World S) r cb' w' tr,
    min_int64 ≤ attempt ≤ MaxAttempts config →
    MaxAttempts config - attempt < Z.of_nat fuel →
    retryLoop fn wallclock ctxDone ctxErr config fuel attempt delay lastErr
      cb w = Some (r, cb', w') →
    trace w' = trace w ++ tr →
    ¬ denied tr →
    (attempts_of tr).*1
      = seqZ attempt (MaxAttempts config - attempt + 1) ∧
    sleeps_of tr
      = backoff config (Z.to_nat (MaxAttempts config - attempt)) delay ∧
    ∃ e, last (attempts_of tr) = Some (MaxAttempts config, Some e) ∧
         r = Some (exceeded config (Some e)).
Proof.
  intros Hmax Hfail Hctx.
  induction fuel as [|fuel IH]; intros attempt delay lastErr cb w r cb' w' tr
    [Hmin Hle] Hfuel Hrun Htr Hnd; [done|].
  cbn [retryLoop] in Hrun.
  destruct (Z.leb_spec attempt (MaxAttempts config)) as [_|?]; [|lia].
  destruct (checkBreaker wallclock cb w) as [[ok cb1] w1] eqn:Hchk.
  destruct (checkBreaker_spec _ _ _ _ _ Hchk)
    as (Hs1 & Hw1 & Hn1 & evs1 & Ht1 & Hb1 & Hnone1 & Hdeny1 & Hok1).
  destruct ok; simpl in Hrun; cycle 1.
  { injection Hrun as <- <- <-. rewrite Ht1 in Htr.
    apply app_inv_head in Htr. subst tr. rewrite (Hdeny1 eq_refl) in Hnd.
    exfalso. apply Hnd, denied_cons. by left. }
  destruct (fn (fnState w1)) as [err s] eqn:Hfn.
  destruct err as [e|]; [|by specialize (Hfail (fnState w1)); rewrite Hfn in Hfail].
  destruct (noteFailure wallclock cb1 _) as [cb2 w2] eqn:Hnf.
  destruct (noteFailure_spec _ _ _ _ Hnf)
    as (Hs2 & Hw2 & Hn2 & evs2 & Ht2 & Hb2 & Hnone2 & Hnd2).
  simpl in Ht2, Hs2, Hw2.
  destruct (Z.geb_spec attempt (MaxAttempts config)) as [Hge|Hlt].
  { injection Hrun as <- <- <-. rewrite Ht2, Ht1, <- !app_assoc in Htr.
    apply app_inv_head in Htr. subst tr.
    rewrite !attempts_of_app, !sleeps_of_app.
    rewrite (breaker_events_attempts _ Hb1), (breaker_events_attempts _ Hb2).
    rewrite (breaker_events_sleeps _ Hb1), (breaker_events_sleeps _ Hb2).
    replace (MaxAttempts config - attempt) with 0 by lia.
    replace attempt with (MaxAttempts config) by lia. simpl.
    split; [done|]. split; [done|]. by exists e. }
  rewrite Hctx in Hrun.
  rewrite wrap64_id in Hrun by (unfold min_int64, max_int64 in *; lia).
  destruct (retryLoop_runs config Hmax fuel (attempt + 1)
              (nextDelay config delay) (Some e) cb2
              (emit [EvSleep delay]
                 (waited (emit [EvPrint (LogRetry attempt (MaxAttempts config)
                                    (error_Error e) delay)] w2))))
    as (r0 & cb0 & w0 & tr' & Hrun' & Htr' & _); [lia | lia | lia |].
  assert (Hsame : Some (r0, cb0, w0) = Some (r, cb', w')) by (by rewrite <- Hrun', <- Hrun).
  injection Hsame as -> -> ->.
  simpl in Htr'. rewrite Htr', Ht2, Ht1, <- !app_assoc in Htr.
  apply app_inv_head in Htr. subst tr.
  assert (Hnd' : ¬ denied tr') by (intros ?; apply Hnd; undeny).
  assert (Hrange : min_int64 ≤ attempt + 1 ≤ MaxAttempts config) by lia.
  assert (Hfuel' : MaxAttempts config - (attempt + 1) < Z.of_nat fuel) by lia.
  destruct (IH (attempt + 1) _ _ _ _ _ _ _ _ Hrange Hfuel' Hrun' Htr' Hnd')
    as (Hatt & Hsl & e' & Hlast & Hr).
  rewrite !attempts_of_app, !sleeps_of_app.
  rewrite (breaker_events_attempts _ Hb1), (breaker_events_attempts _ Hb2).
  rewrite (breaker_events_sleeps _ Hb1), (breaker_events_sleeps _ Hb2).
  simpl.
  split.
  { rewrite (seqZ_cons attempt) by lia. f_equal.
    etransitivity; [exact Hatt|]. f_equal; lia. }
  split.
  { rewrite Hsl.
    replace (Z.to_nat (MaxAttempts config - attempt))
      with (Datatypes.S (Z.to_nat (MaxAttempts config - (attempt + 1)))) by lia.
    by rewrite backoff_nextDelay. }
  exists e'. split; [|done].
  destruct (attempts_of tr') as [|a l] eqn:Ha; [done|].
  exact Hlast.
Qed.

(** *** The run against the breaker, the operation and the context *)

(** The check of the loop gives the answer of [gate], and the recording of
    a failure leaves what [afterFailure] says. *)
Lemma checkBreaker_gate (cb : option CircuitBreaker) (w : @World S) ok cb' w' :
  checkBreaker wallclock cb w = (ok, cb', w') →
  gate wallclock cb (clockReads w) = (ok, cb', clockReads w').
Proof.
  destruct cb as [b|]; simpl.
  - unfold do_canExecute.
    destruct (canExecute (wallclock (clockReads w)) b) as [[ok1 b1] out] eqn:Hc.
    intros [= <- <- <-]. simpl. by destruct (state b =? StateOpen).
  - by intros [= <- <- <-].
Qed.

Lemma noteFailure_afterFailure (cb : option CircuitBreaker) (w : @World S)
    cb' w' :
  noteFailure wallclock cb w = (cb', w') →
  afterFailure wallclock cb (clockReads w) = (cb', clockReads w').
Proof.
  destruct cb as [b|]; simpl.
  - unfold do_recordFailure.
    destruct (recordFailure (wallclock (clockReads w)) b) as [b1 out] eqn:Hc.
    by intros [= <- <-].
  - by intros [= <- <-].
Qed.

Lemma invoked_shift n (s : S) :
  invoked fn (Datatypes.S n) s = invoked fn n (fn s).2.
Proof. unfold invoked. by rewrite Nat.iter_succ_r. Qed.

Lemma err_at_shift (s : S) j :
  err_at fn s (Datatypes.S j) = err_at fn (fn s).2 j.
Proof. unfold err_at. by rewrite invoked_shift. Qed.

Lemma allowed_at_shift cb c ok cb1 c1 cb2 c2 j :
  gate wallclock cb c = (ok, cb1, c1) →
  afterFailure wallclock cb1 c1 = (cb2, c2) →
  allowed_at wallclock cb c (Datatypes.S j) = allowed_at wallclock cb2 c2 j.
Proof. intros Hg Ha. unfold allowed_at. cbn [entering]. by rewrite Hg, Ha. Qed.

Lemma allowed_at_nil c i : allowed_at wallclock None c i = true.
Proof.
  unfold allowed_at.
  assert (H : entering wallclock i None c = (None, c)) by (by induction i).
  by rewrite H.
Qed.

Lemma ending_at_shift config attempt cb c (s : S) k ok cb1 c1 cb2 c2 j :
  gate wallclock cb c = (ok, cb1, c1) →
  afterFailure wallclock cb1 c1 = (cb2, c2) →
  ending_at fn wallclock ctxDone config attempt cb c s k (Datatypes.S j)
  = ending_at fn wallclock ctxDone config (attempt + 1) cb2 c2 (fn s).2
      (Datatypes.S k) j.
Proof.
  intros Hg Ha. unfold ending_at.
  rewrite (allowed_at_shift _ _ _ _ _ _ _ j Hg Ha), err_at_shift.
  replace (attempt + Z.of_nat (Datatypes.S j)) with (attempt + 1 + Z.of_nat j)
    by lia.
  by replace (k + Datatypes.S j)%nat with (Datatypes.S k + j)%nat by lia.
Qed.

Lemma rounds_shift attempt (s : S) n :
  rounds fn attempt s (Datatypes.S n)
  = (attempt, (fn s).1) :: rounds fn (attempt + 1) (fn s).2 n.
Proof.
  unfold rounds. cbn [seq fmap list_fmap]. f_equal.
  - f_equal. lia.
  - rewrite <- fmap_S_seq, <- list_fmap_compose.
    apply list_fmap_ext. intros _ j _. simpl.
    rewrite err_at_shift. f_equal. lia.
Qed.

Lemma rounds_length attempt (s : S) n : length (rounds fn attempt s n) = n.
Proof. unfold rounds. by rewrite length_fmap, length_seq. Qed.

Lemma rounds_numbers attempt (s : S) n :
  (rounds fn attempt s n).*1 = seqZ attempt (Z.of_nat n).
Proof.
  revert attempt s. induction n as [|n IH]; intros attempt s; [done|].
  rewrite rounds_shift, fmap_cons, IH, (seqZ_cons attempt) by lia.
  simpl. do 2 f_equal. lia.
Qed.

Lemma rounds_last attempt (s : S) n :
  last (rounds fn attempt s (Datatypes.S n))
  = Some (attempt + Z.of_nat n, err_at fn s n).
Proof. unfold rounds. rewrite seq_S, fmap_app. apply last_snoc. Qed.

(** What the endings say of the breaker, the operation and the context. *)
Lemma ending_at_None config attempt cb c (s : S) k j :
  ending_at fn wallclock ctxDone config attempt cb c s k j = None ↔
  allowed_at wallclock cb c j = true ∧ err_at fn s j ≠ None ∧
  attempt + Z.of_nat j < MaxAttempts config ∧ ctxDone (k + j) = false.
Proof.
  unfold ending_at.
  destruct (allowed_at wallclock cb c j), (err_at fn s j),
    (Z.geb_spec (attempt + Z.of_nat j) (MaxAttempts config)),
    (ctxDone (k + j)); simpl; split; try done; try (intros (?&?&?&?); done || lia).
Qed.

Lemma ending_at_refused config attempt cb c (s : S) k j :
  ending_at fn wallclock ctxDone config attempt cb c s k j = Some EndRefused ↔
  allowed_at wallclock cb c j = false.
Proof.
  unfold ending_at.
  destruct (allowed_at wallclock cb c j), (err_at fn s j),
    (Z.geb_spec (attempt + Z.of_nat j) (MaxAttempts config)),
    (ctxDone (k + j)); simpl; split; done.
Qed.

Lemma ending_at_succeeded config attempt cb c (s : S) k j :
  ending_at fn wallclock ctxDone config attempt cb c s k j = Some EndSucceeded ↔
  allowed_at wallclock cb c j = true ∧ err_at fn s j = None.
Proof.
  unfold ending_at.
  destruct (allowed_at wallclock cb c j), (err_at fn s j),
    (Z.geb_spec (attempt + Z.of_nat j) (MaxAttempts config)),
    (ctxDone (k + j)); simpl; split; try done; intros [? ?]; done.
Qed.

Lemma ending_at_exhausted config attempt cb c (s : S) k j :
  ending_at fn wallclock ctxDone config attempt cb c s k j = Some EndExhausted ↔
  allowed_at wallclock cb c j = true ∧ err_at fn s j ≠ None ∧
  MaxAttempts config ≤ attempt + Z.of_nat j.
Proof.
  unfold ending_at.
  destruct (allowed_at wallclock cb c j), (err_at fn s j),
    (Z.geb_spec (attempt + Z.of_nat j) (MaxAttempts config)),
    (ctxDone (k + j)); simpl; split; try done;
    try (intros (?&?&?); done || lia).
Qed.

Lemma ending_at_cancelled config attempt cb c (s : S) k j :
  ending_at fn wallclock ctxDone config attempt cb c s k j = Some EndCancelled ↔
  allowed_at wallclock cb c j = true ∧ err_at fn s j ≠ None ∧
  attempt + Z.of_nat j < MaxAttempts config ∧ ctxDone (k + j) = true.
Proof.
  unfold ending_at.
  destruct (allowed_at wallclock cb c j), (err_at fn s j),
    (Z.geb_spec (attempt + Z.of_nat j) (MaxAttempts config)),
    (ctxDone (k + j)); simpl; split; try done;
    try (intros (?&?&?&?); done || lia).
Qed.

(** A run has one first ending. *)
Lemma first_ending_unique f i e i' e' :
  first_ending f i e → first_ending f i' e' → i = i' ∧ e = e'.
Proof.
  intros [H1 H2] [H1' H2'].
  destruct (lt_eq_lt_dec i i') as [[Hlt| ->]|Hlt].
  - by rewrite (H1' _ Hlt) in H2.
  - rewrite H2 in H2'. by injection H2' as ->.
  - by rewrite (H1 _ Hlt) in H2'.
Qed.

(** The loop entered at [attempt] returns, and its run is the one that the
    breaker, the operation and the context decide: it ends at the first
    iteration that has an ending, by that ending, having invoked the
    operation once in each iteration but one that the breaker refused, and
    having waited once after each iteration but the last, and after the
    last as well when that wait was cut short. *)
Lemma retryLoop_trajectory config :
  MaxAttempts config ≤ max_int64 →
  ∀ fuel attempt delay lastErr cb (w : @World S),
    min_int64 ≤ attempt ≤ MaxAttempts config →
    MaxAttempts config - attempt < Z.of_nat fuel →
    ∃ i e r cb' w' tr,
      retryLoop fn wallclock ctxDone ctxErr config fuel attempt delay lastErr
        cb w = Some (r, cb', w') ∧
      trace w' = trace w ++ tr ∧
      first_ending
        (ending_at fn wallclock ctxDone config attempt cb (clockReads w)
           (fnState w) (waits w)) i e ∧
      attempt + Z.of_nat i ≤ MaxAttempts config ∧
      r = result_of fn ctxErr config e (fnState w) i ∧
      fnState w' = invoked fn (calls_of e i) (fnState w) ∧
      waits w' = (waits w + waits_of e i)%nat ∧
      attempts_of tr = rounds fn attempt (fnState w) (calls_of e i) ∧
      sleeps_of tr = backoff config i delay ∧
      (e = EndRefused → last tr = Some (EvCanExecute false)) ∧
      (e ≠ EndRefused → ¬ denied tr).
Proof.
  intros Hmax. induction fuel as [|fuel IH];
    intros attempt delay lastErr cb w [Hmin Hle] Hfuel; [lia|].
  cbn [retryLoop].
  destruct (Z.leb_spec attempt (MaxAttempts config)) as [_|?]; [|lia].
  destruct (checkBreaker wallclock cb w) as [[ok cb1] w1] eqn:Hchk.
  pose proof (checkBreaker_gate _ _ _ _ _ Hchk) as Hg.
  destruct (checkBreaker_spec _ _ _ _ _ Hchk)
    as (Hs1 & Hw1 & Hn1 & evs1 & Ht1 & Hb1 & Hnone1 & Hdeny1 & Hok1).
  assert (Hall0 : allowed_at wallclock cb (clockReads w) 0 = ok).
  { unfold allowed_at. cbn [entering fst snd]. by rewrite Hg. }
  destruct ok; simpl; cycle 1.
  { specialize (Hdeny1 eq_refl). subst evs1.
    exists 0%nat, EndRefused. eexists _, _, _, _.
    split; [done|]. split; [exact Ht1|].
    split. { split; [intros j ?; lia | by apply ending_at_refused]. }
    split; [lia|]. split; [done|]. split; [done|].
    split; [simpl; lia|]. do 3 (split; [done|]). done. }
  specialize (Hok1 eq_refl).
  destruct (fn (fnState w1)) as [err s] eqn:Hfn. rewrite Hs1 in Hfn.
  assert (Herr0 : err_at fn (fnState w) 0 = err).
  { unfold err_at. simpl. by rewrite Hfn. }
  assert (Hinv1 : invoked fn 1 (fnState w) = s).
  { unfold invoked. simpl. by rewrite Hfn. }
  assert (Hround1 : rounds fn attempt (fnState w) 1 = [(attempt, err)]).
  { rewrite rounds_shift, Hfn. done. }
  destruct err as [e|].
  - destruct (noteFailure wallclock cb1 _) as [cb2 w2] eqn:Hnf.
    pose proof (noteFailure_afterFailure _ _ _ _ Hnf) as Ha. simpl in Ha.
    destruct (noteFailure_spec _ _ _ _ Hnf)
      as (Hs2 & Hw2 & Hn2 & evs2 & Ht2 & Hb2 & Hnone2 & Hnd2).
    simpl in Ht2, Hs2, Hw2.
    destruct (Z.geb_spec attempt (MaxAttempts config)) as [Hge|Hlt].
    { exists 0%nat, EndExhausted.
      eexists _, _, _, (evs1 ++ [EvCall attempt (Some e)] ++ evs2).
      split; [done|]. split; [rewrite Ht2, Ht1, <- !app_assoc; done|].
      split.
      { split; [intros j ?; lia|]. apply ending_at_exhausted.
        rewrite Hall0, Herr0. split; [done|]. split; [done | lia]. }
      split; [lia|]. split; [simpl; by rewrite Herr0|].
      split; [simpl calls_of; by rewrite Hinv1|].
      split; [simpl; lia|].
      rewrite !attempts_of_app, !sleeps_of_app.
      rewrite (breaker_events_attempts _ Hb1), (breaker_events_attempts _ Hb2).
      rewrite (breaker_events_sleeps _ Hb1), (breaker_events_sleeps _ Hb2).
      split; [simpl calls_of; by rewrite Hround1|]. split; [done|].
      split; [done|]. intros _. undeny. }
    rewrite Hw2, Hw1.
    destruct (ctxDone (waits w)) eqn:Hctx.
    { exists 0%nat, EndCancelled.
      eexists _, _, _,
        (evs1 ++ [EvCall attempt (Some e)] ++ evs2 ++
         [EvPrint (LogRetry attempt (MaxAttempts config) (error_Error e) delay);
          EvCancelled delay]).
      split; [done|]. split; [simpl; rewrite Ht2, Ht1, <- !app_assoc; done|].
      split.
      { split; [intros j ?; lia|]. apply ending_at_cancelled.
        rewrite Hall0, Herr0, Nat.add_0_r. split; [done|].
        split; [done|]. split; [lia | done]. }
      split; [lia|]. split; [done|].
      split; [simpl; by rewrite Hs2, <- Hinv1|].
      split; [simpl; lia|].
      rewrite !attempts_of_app, !sleeps_of_app.
      rewrite (breaker_events_attempts _ Hb1), (breaker_events_attempts _ Hb2).
      rewrite (breaker_events_sleeps _ Hb1), (breaker_events_sleeps _ Hb2).
      split; [simpl calls_of; by rewrite Hround1|]. split; [done|].
      split; [done|]. intros _. undeny. }
    rewrite wrap64_id by (unfold min_int64, max_int64 in *; lia).
    edestruct (IH (attempt + 1) (nextDelay config delay) (Some e) cb2)
      as (i & e' & r & cb' & w' & tr & Hrun & Htr & [Hpre Hend] & Hi & Hr &
          Hfs & Hws & Hatt & Hsl & Hlast & Hnd);
      [split; lia | lia | rewrite Hrun].
    simpl in Htr, Hpre, Hend, Hr, Hfs, Hws, Hatt.
    rewrite Hs2 in Hpre, Hend, Hr, Hfs, Hatt.
    rewrite Hw2, Hw1 in Hpre, Hend, Hws.
    assert (Hs : s = (fn (fnState w)).2) by (by rewrite Hfn).
    set (pre := evs1 ++ [EvCall attempt (Some e)] ++ evs2 ++
         [EvPrint (LogRetry attempt (MaxAttempts config) (error_Error e) delay);
          EvSleep delay]).
    exists (Datatypes.S i), e', r, cb', w', (pre ++ tr).
    split; [done|].
    split; [rewrite Htr, Ht2, Ht1; unfold pre; rewrite <- !app_assoc; done|].
    split.
    { split.
      - intros [|j] Hj.
        + apply ending_at_None. rewrite Hall0, Herr0, Nat.add_0_r.
          split; [done|]. split; [done|]. split; [lia | done].
        + rewrite (ending_at_shift _ _ _ _ _ _ _ _ _ _ _ j Hg Ha), <- Hs.
          apply Hpre. lia.
      - by rewrite (ending_at_shift _ _ _ _ _ _ _ _ _ _ _ i Hg Ha), <- Hs. }
    split; [lia|].
    split.
    { rewrite Hr. destruct e'; try done. simpl.
      by rewrite (err_at_shift (fnState w)), <- Hs. }
    split.
    { rewrite Hfs. destruct e'; simpl calls_of;
        by rewrite (invoked_shift _ (fnState w)), <- Hs. }
    split; [rewrite Hws; destruct e'; simpl; lia|].
    rewrite !attempts_of_app, !sleeps_of_app. unfold pre.
    rewrite !attempts_of_app, !sleeps_of_app.
    rewrite (breaker_events_attempts _ Hb1), (breaker_events_attempts _ Hb2).
    rewrite (breaker_events_sleeps _ Hb1), (breaker_events_sleeps _ Hb2).
    split.
    { rewrite Hatt. destruct e'; simpl calls_of;
        by rewrite (rounds_shift attempt), Hfn. }
    split; [by rewrite backoff_nextDelay, Hsl|].
    split.
    { intros He. specialize (Hlast He).
      destruct tr as [|ev tr] using rev_ind; [done|].
      rewrite last_snoc in Hlast. rewrite app_assoc, last_snoc. done. }
    intros He. specialize (Hnd He). undeny.
  - destruct (noteSuccess cb1 _) as [cb2 w2] eqn:Hns.
    destruct (noteSuccess_spec _ _ _ _ Hns)
      as (Hs2 & Hw2 & Hn2 & evs2 & Ht2 & Hb2 & Hnone2 & Hnd2).
    simpl in Ht2, Hs2, Hw2.
    exists 0%nat, EndSucceeded.
    eexists _, _, _, (evs1 ++ [EvCall attempt None] ++ evs2).
    split; [done|]. split; [rewrite Ht2, Ht1, <- !app_assoc; done|].
    split.
    { split; [intros j ?; lia|]. apply ending_at_succeeded.
      by rewrite Hall0, Herr0. }
    split; [lia|]. split; [done|].
    split; [simpl calls_of; by rewrite Hinv1|].
    split; [simpl; lia|].
    rewrite !attempts_of_app, !sleeps_of_app.
    rewrite (breaker_events_attempts _ Hb1), (breaker_events_attempts _ Hb2).
    rewrite (breaker_events_sleeps _ Hb1), (breaker_events_sleeps _ Hb2).
    split; [simpl calls_of; by rewrite Hround1|]. split; [done|].
    split; [done|]. intros _. undeny.
Qed.

(** With no attempt to make, the loop is left at once. *)
Lemma RetryWithBackoff_no_attempt config (w : @World S) :
  MaxAttempts config ≤ 0 →
  RetryWithBackoff fn wallclock ctxDone ctxErr config w
  = Some (Some (exceeded config None), CircuitBreaker_ config, w).
Proof.
  intros Hle. unfold RetryWithBackoff. cbn [retryLoop].
  by destruct (Z.leb_spec 1 (MaxAttempts config)); [lia|].
Qed.

(** The run of [RetryWithBackoff] with at least one attempt to make. *)
Lemma RetryWithBackoff_trajectory config (w : @World S) :
  1 ≤ MaxAttempts config ≤ max_int64 →
  ∃ i e r cb' w' tr,
    RetryWithBackoff fn wallclock ctxDone ctxErr config w = Some (r, cb', w') ∧
    trace w' = trace w ++ tr ∧
    first_ending (ending_of fn wallclock ctxDone config w) i e ∧
    Z.of_nat i < MaxAttempts config ∧
    r = result_of fn ctxErr config e (fnState w) i ∧
    fnState w' = invoked fn (calls_of e i) (fnState w) ∧
    waits w' = (waits w + waits_of e i)%nat ∧
    attempts_of tr = rounds fn 1 (fnState w) (calls_of e i) ∧
    sleeps_of tr = backoff config i (InitialDelay config) ∧
    (e = EndRefused → last tr = Some (EvCanExecute false)) ∧
    (e ≠ EndRefused → ¬ denied tr).
Proof.
  intros [Hpos Hmax]. unfold RetryWithBackoff, ending_of.
  destruct (retryLoop_trajectory config Hmax
              (Datatypes.S (Z.to_nat (MaxAttempts config))) 1
              (InitialDelay config) None (CircuitBreaker_ config) w)
    as (i & e & r & cb' & w' & tr & Hrun & Htr & Hend & Hi & Hrest);
    [unfold min_int64; lia | lia |].
  exists i, e, r, cb', w', tr. do 3 (split; [done|]). split; [lia | done].
Qed.

(** A run of [RetryWithBackoff] with at least one attempt to make is the
    one its trajectory describes. *)
Lemma RetryWithBackoff_tied config (w : @World S) r cb' w' tr :
  1 ≤ MaxAttempts config ≤ max_int64 →
  RetryWithBackoff fn wallclock ctxDone ctxErr config w = Some (r, cb', w') →
  trace w' = trace w ++ tr →
  ∃ i e,
    first_ending (ending_of fn wallclock ctxDone config w) i e ∧
    Z.of_nat i < MaxAttempts config ∧
    r = result_of fn ctxErr config e (fnState w) i ∧
    fnState w' = invoked fn (calls_of e i) (fnState w) ∧
    waits w' = (waits w + waits_of e i)%nat ∧
    attempts_of tr = rounds fn 1 (fnState w) (calls_of e i) ∧
    sleeps_of tr = backoff config i (InitialDelay config) ∧
    (e = EndRefused → last tr = Some (EvCanExecute false)) ∧
    (e ≠ EndRefused → ¬ denied tr).
Proof.
  intros Hrange Hrun Htr.
  destruct (RetryWithBackoff_trajectory config w Hrange)
    as (i & e & r0 & cb0 & w0 & tr0 & Hrun0 & Htr0 & Hrest).
  rewrite Hrun in Hrun0. injection Hrun0 as <- <- <-.
  rewrite Htr in Htr0. apply app_inv_head in Htr0. subst tr0.
  by exists i, e.
Qed.

(** C2.  The operation fails on every invocation, the caller's context is
    not cancelled during a wait, [MaxAttempts] is at least one, and either
    no breaker is bound or the bound breaker, asked through [canExecute]
    before each attempt, lets every attempt go ahead.  Then
    [RetryWithBackoff] returns, no check has refused, and the operation has
    been invoked exactly [MaxAttempts] times: its state is the one after
    that many invocations, and the attempts of the run are those
    invocations, numbered 1, 2, ..., [MaxAttempts], each with the error the
    operation returned.  The run has waited once between consecutive
    attempts; the sleeps are [InitialDelay] and then, each time, the minimum
    of the previous delay times [Multiplier] and [MaxDelay]; and the result
    is the aggregate failure that wraps the error the operation returned at
    its last invocation.  With 3 attempts, 50ms, factor 2.0 and a maximum of
    500ms the sleeps are 50ms and 100ms. *)
Theorem RetryWithBackoff_exhausts_attempts (config : RetryConfig) (w : @World S) :
  1 ≤ MaxAttempts config ≤ max_int64 →
  (∀ s, fst (fn s) ≠ None) →
  (∀ k, ctxDone k = false) →
  (CircuitBreaker_ config = None ∨
   ∀ i, Z.of_nat i < MaxAttempts config →
        allowed_at wallclock (CircuitBreaker_ config) (clockReads w) i = true) →
  ∃ r cb' w' tr,
    RetryWithBackoff fn wallclock ctxDone ctxErr config w = Some (r, cb', w') ∧
    trace w' = trace w ++ tr ∧
    ¬ denied tr ∧
    fnState w' = invoked fn (Z.to_nat (MaxAttempts config)) (fnState w) ∧
    attempts_of tr
      = rounds fn 1 (fnState w) (Z.to_nat (MaxAttempts config)) ∧
    Z.of_nat (length (attempts_of tr)) = MaxAttempts config ∧
    (attempts_of tr).*1 = seqZ 1 (MaxAttempts config) ∧
    waits w' = (waits w + Z.to_nat (MaxAttempts config - 1))%nat ∧
    sleeps_of tr
      = backoff config (Z.to_nat (MaxAttempts config - 1))
          (InitialDelay config) ∧
    (∃ e,
       fst (fn (invoked fn (Z.to_nat (MaxAttempts config - 1)) (fnState w)))
         = Some e ∧
       last (attempts_of tr) = Some (MaxAttempts config, Some e) ∧
       r = Some (exceeded config (Some e)) ∧
       errors_Unwrap (exceeded config (Some e)) = Some e) ∧
    (MaxAttempts config = 3 → InitialDelay config = 50 * Millisecond →
     Multiplier config = 2.0%float → MaxDelay config = 500 * Millisecond →
     sleeps_of tr = [50 * Millisecond; 100 * Millisecond]).
Proof.
  intros [Hpos Hmax] Hfail Hctx Hallow.
  assert (Hall : ∀ i, Z.of_nat i < MaxAttempts config →
            allowed_at wallclock (CircuitBreaker_ config) (clockReads w) i
            = true).
  { destruct Hallow as [-> | H]; [|done]. intros i _. apply allowed_at_nil. }
  destruct (RetryWithBackoff_trajectory config w (conj Hpos Hmax))
    as (i & e & r & cb' & w' & tr & Hrun & Htr & Hend & Hi & Hr & Hfs & Hws &
        Hatt & Hsl & _ & Hnd).
  set (n := Z.to_nat (MaxAttempts config - 1)).
  assert (Hn : Datatypes.S n = Z.to_nat (MaxAttempts config)) by lia.
  assert (Hlast : first_ending (ending_of fn wallclock ctxDone config w) n
                    EndExhausted).
  { split.
    - intros j Hj. apply ending_at_None.
      split; [apply Hall; lia|]. split; [apply Hfail|]. split; [lia | apply Hctx].
    - apply ending_at_exhausted.
      split; [apply Hall; lia|]. split; [apply Hfail | lia]. }
  destruct (first_ending_unique _ _ _ _ _ Hend Hlast) as [-> ->].
  simpl calls_of in Hfs, Hatt. simpl waits_of in Hws. rewrite Hn in Hfs, Hatt.
  exists r, cb', w', tr. split; [done|]. split; [done|].
  split; [by apply Hnd|]. split; [done|]. split; [done|].
  split; [rewrite Hatt, rounds_length; lia|].
  split; [rewrite Hatt, rounds_numbers; f_equal; lia|].
  split; [done|]. split; [done|]. split.
  - destruct (fn (invoked fn n (fnState w))) as [[e|] s'] eqn:Hfn;
      [|by specialize (Hfail (invoked fn n (fnState w))); rewrite Hfn in Hfail].
    exists e. split; [done|].
    split.
    { rewrite Hatt, <- Hn, rounds_last. unfold err_at. rewrite Hfn.
      simpl. do 2 f_equal. lia. }
    split; [|done]. rewrite Hr. simpl. unfold err_at. by rewrite Hfn.
  - intros H3 Hi' Hm Hd. rewrite Hsl. unfold n. rewrite H3, Hi'. simpl.
    unfold scaled. rewrite Hm, Hd. vm_compute. done.
Qed.

(** A run with a breaker bound that never refuses and a run with none, from
    worlds that agree on the operation and on the waits, return the same
    error and differ in the trace by the events of the breaker only. *)
Lemma retryLoop_breaker_transparent config :
  MaxAttempts config ≤ max_int64 →
  ∀ fuel attempt delay lastErr cb (w1 w2 : @World S)
    r1 c1 w1' tr1 r2 c2 w2' tr2,
    min_int64 ≤ attempt →
    MaxAttempts config - attempt < Z.of_nat fuel →
    fnState w1 = fnState w2 → waits w1 = waits w2 →
    retryLoop fn wallclock ctxDone ctxErr config fuel attempt delay lastErr
      None w1 = Some (r1, c1, w1') →
    trace w1' = trace w1 ++ tr1 →
    retryLoop fn wallclock ctxDone ctxErr config fuel attempt delay lastErr
      cb w2 = Some (r2, c2, w2') →
    trace w2' = trace w2 ++ tr2 →
    ¬ denied tr2 →
    r1 = r2 ∧ tr1 = without_breaker tr2 ∧
    fnState w1' = fnState w2' ∧ waits w1' = waits w2'.
Proof.
  intros Hmax.
  induction fuel as [|fuel IH]; intros attempt delay lastErr cb w1 w2
    r1 c1 w1' tr1 r2 c2 w2' tr2 Hmin Hfuel Hfs Hws Hrun1 Htr1 Hrun2 Htr2 Hnd;
    [done|].
  cbn [retryLoop] in Hrun1, Hrun2.
  destruct (Z.leb_spec attempt (MaxAttempts config)) as [Hle|Hgt]; cycle 1.
  { injection Hrun1 as <- <- <-. injection Hrun2 as <- <- <-.
    rewrite <- (app_nil_r (trace w1)) in Htr1 at 1.
    rewrite <- (app_nil_r (trace w2)) in Htr2 at 1.
    apply app_inv_head in Htr1, Htr2. by subst. }
  destruct (checkBreaker wallclock cb w2) as [[ok cb1] w2a] eqn:Hchk.
  destruct (checkBreaker_spec _ _ _ _ _ Hchk)
    as (Hs1 & Hw1 & Hn1 & evs1 & Ht1 & Hb1 & Hnone1 & Hdeny1 & Hok1).
  destruct ok; simpl in Hrun2; cycle 1.
  { injection Hrun2 as <- <- <-. rewrite Ht1 in Htr2.
    apply app_inv_head in Htr2. subst tr2. rewrite (Hdeny1 eq_refl) in Hnd.
    exfalso. apply Hnd, denied_cons. by left. }
  simpl in Hrun1. rewrite Hs1, <- Hfs in Hrun2.
  destruct (fn (fnState w1)) as [err s] eqn:Hfn.
  destruct err as [e|]; cycle 1.
  { destruct (noteSuccess cb1 _) as [cb2 w2b] eqn:Hns.
    destruct (noteSuccess_spec _ _ _ _ Hns)
      as (Hs2 & Hw2 & Hn2 & evs2 & Ht2 & Hb2 & Hnone2 & Hnd2).
    simpl in Hrun1, Ht2, Hs2, Hw2.
    injection Hrun1 as <- <- <-. injection Hrun2 as <- <- <-.
    simpl in Htr1. apply app_inv_head in Htr1. subst tr1.
    rewrite Ht2, Ht1, <- !app_assoc in Htr2.
    apply app_inv_head in Htr2. subst tr2.
    rewrite !without_breaker_app, (breaker_events_without _ Hb1),
      (breaker_events_without _ Hb2).
    split; [done|]. split; [done|]. simpl. split; congruence. }
  destruct (noteFailure wallclock cb1 _) as [cb2 w2b] eqn:Hnf.
  destruct (noteFailure_spec _ _ _ _ Hnf)
    as (Hs2 & Hw2 & Hn2 & evs2 & Ht2 & Hb2 & Hnone2 & Hnd2).
  simpl in Hrun1, Ht2, Hs2, Hw2.
  destruct (Z.geb_spec attempt (MaxAttempts config)) as [Hge|Hlt].
  { injection Hrun1 as <- <- <-. injection Hrun2 as <- <- <-.
    simpl in Htr1. apply app_inv_head in Htr1. subst tr1.
    rewrite Ht2, Ht1, <- !app_assoc in Htr2.
    apply app_inv_head in Htr2. subst tr2.
    rewrite !without_breaker_app, (breaker_events_without _ Hb1),
      (breaker_events_without _ Hb2).
    split; [done|]. split; [done|]. simpl. split; congruence. }
  rewrite Hw2, Hw1, <- Hws in Hrun2.
  destruct (ctxDone (waits w1)) eqn:Hctx.
  { injection Hrun1 as <- <- <-. injection Hrun2 as <- <- <-.
    simpl in Htr1, Htr2. rewrite <- !app_assoc in Htr1.
    apply app_inv_head in Htr1. subst tr1.
    rewrite Ht2, Ht1, <- !app_assoc in Htr2.
    apply app_inv_head in Htr2. subst tr2.
    rewrite !without_breaker_app, (breaker_events_without _ Hb1),
      (breaker_events_without _ Hb2).
    split; [done|]. split; [done|]. simpl. split; congruence. }
  rewrite wrap64_id in Hrun1, Hrun2 by (unfold min_int64, max_int64 in *; lia).
  assert (Hmin' : min_int64 ≤ attempt + 1) by lia.
  assert (Hfuel' : MaxAttempts config - (attempt + 1) < Z.of_nat fuel) by lia.
  assert (Hpos' : (0 < fuel)%nat) by lia.
  match type of Hrun1 with
  | retryLoop _ _ _ _ _ _ _ ?d ?l ?c ?w = _ =>
      destruct (retryLoop_runs config Hmax fuel (attempt + 1) d l c w
                  Hmin' Hfuel' Hpos')
        as (ra & ca & wa & tra & Hruna & Htra & _)
  end.
  match type of Hrun2 with
  | retryLoop _ _ _ _ _ _ _ ?d ?l ?c ?w = _ =>
      destruct (retryLoop_runs config Hmax fuel (attempt + 1) d l c w
                  Hmin' Hfuel' Hpos')
        as (rb & cb' & wb & trb & Hrunb & Htrb & _)
  end.
  assert (Ha : Some (ra, ca, wa) = Some (r1, c1, w1'))
    by (by rewrite <- Hruna, <- Hrun1).
  assert (Hb : Some (rb, cb', wb) = Some (r2, c2, w2'))
    by (by rewrite <- Hrunb, <- Hrun2).
  injection Ha as -> -> ->. injection Hb as -> -> ->.
  simpl in Htra, Htrb.
  rewrite Htra, <- !app_assoc in Htr1. apply app_inv_head in Htr1. subst tr1.
  rewrite Htrb, Ht2, Ht1, <- !app_assoc in Htr2.
  apply app_inv_head in Htr2. subst tr2.
  assert (Hnd' : ¬ denied trb) by (intros ?; apply Hnd; undeny).
  pose proof (λ Hf Hw, IH _ _ _ _ _ _ _ _ _ _ _ _ _ _ Hmin' Hfuel' Hf Hw
                         Hruna Htra Hrunb Htrb Hnd') as IH'.
  destruct IH' as (-> & -> & Hfs' & Hws'); [simpl; congruence..|].
  rewrite !without_breaker_app, (breaker_events_without _ Hb1),
    (breaker_events_without _ Hb2).
  done.
Qed.

(** The loop reads the breaker it is given, not the configuration's field. *)
Lemma retryLoop_with_breaker c config fuel attempt delay lastErr cb
    (w : @World S) :
  retryLoop fn wallclock ctxDone ctxErr (with_breaker c config) fuel attempt
    delay lastErr cb w
  = retryLoop fn wallclock ctxDone ctxErr config fuel attempt delay lastErr
      cb w.
Proof.
  revert attempt delay lastErr cb w.
  induction fuel as [|fuel IH]; intros attempt delay lastErr cb w; [done|].
  cbn [retryLoop].
  change (MaxAttempts (with_breaker c config)) with (MaxAttempts config).
  change (exceeded (with_breaker c config)) with (exceeded config).
  change (nextDelay (with_breaker c config)) with (nextDelay config).
  destruct (attempt <=? MaxAttempts config); [|done].
  destruct (checkBreaker wallclock cb w) as [[ok cb1] w1].
  destruct (negb ok); [done|].
  destruct (fn (fnState w1)) as [[e|] s]; [|done].
  destruct (noteFailure wallclock cb1 _) as [cb2 w2].
  destruct (attempt >=? MaxAttempts config); [done|].
  destruct (ctxDone _); [done|]. apply IH.
Qed.

(** C5.  [RetryWithBackoff] returns.  Before each attempt the bound
    breaker is asked through [canExecute], in the state in which the checks
    and the recorded failures of the earlier attempts have left it.  When
    its answer before an attempt is a refusal (the earlier attempts having
    been let through, having failed and having been followed by a completed
    sleep), the run returns the open-circuit failure, which wraps
    [ErrCircuitOpen]: the operation has been invoked for the earlier
    attempts only, no wait and no sleep follows the earlier ones, and the
    refusal is the last event of the run.  Conversely a run returns the
    open-circuit failure only when [canExecute] has answered with a refusal
    before one of its attempts.  When the configuration's breaker is [nil]
    the run never returns the open-circuit failure, has no event of a
    breaker, and is the run with any breaker bound that lets every attempt
    go ahead, less that breaker's events: same result, same attempts and
    sleeps, same effect on the operation and on the waits. *)
Theorem RetryWithBackoff_breaker_gate (config : RetryConfig) (w : @World S) :
  MaxAttempts config ≤ max_int64 →
  ∃ r cb' w' tr,
    RetryWithBackoff fn wallclock ctxDone ctxErr config w = Some (r, cb', w') ∧
    trace w' = trace w ++ tr ∧
    (∀ i, Z.of_nat i < MaxAttempts config →
          (∀ j, (j < i)%nat →
                ending_of fn wallclock ctxDone config w j = None) →
          allowed_at wallclock (CircuitBreaker_ config) (clockReads w) i
            = false →
          r = Some errBreakerOpen ∧
          errors_Unwrap errBreakerOpen = Some ErrCircuitOpen ∧
          fnState w' = invoked fn i (fnState w) ∧
          attempts_of tr = rounds fn 1 (fnState w) i ∧
          waits w' = (waits w + i)%nat ∧
          sleeps_of tr = backoff config i (InitialDelay config) ∧
          last tr = Some (EvCanExecute false)) ∧
    (r = Some errBreakerOpen →
       ∃ i b c,
         Z.of_nat i < MaxAttempts config ∧
         (∀ j, (j < i)%nat →
               ending_of fn wallclock ctxDone config w j = None) ∧
         entering wallclock i (CircuitBreaker_ config) (clockReads w)
           = (Some b, c) ∧
         (canExecute (wallclock c) b).1.1 = false ∧
         fnState w' = invoked fn i (fnState w) ∧
         waits w' = (waits w + i)%nat) ∧
    (denied tr →
       is_Some (CircuitBreaker_ config) ∧
       r = Some errBreakerOpen ∧
       errors_Unwrap errBreakerOpen = Some ErrCircuitOpen ∧
       ∃ pre, tr = pre ++ [EvCanExecute false] ∧ ¬ denied pre) ∧
    (∀ b, CircuitBreaker_ config = Some b → 1 ≤ MaxAttempts config →
          (canExecute (wallclock (clockReads w)) b).1.1 = false →
          tr = [EvCanExecute false] ∧ r = Some errBreakerOpen ∧
          cb' = Some b ∧ fnState w' = fnState w ∧ waits w' = waits w) ∧
    (CircuitBreaker_ config = None →
       cb' = None ∧
       r ≠ Some errBreakerOpen ∧
       Forall (λ ev, is_breaker_event ev = false) tr ∧
       ∀ b, ∃ r2 cb2 w2 tr2,
         RetryWithBackoff fn wallclock ctxDone ctxErr
           (with_breaker (Some b) config) w = Some (r2, cb2, w2) ∧
         trace w2 = trace w ++ tr2 ∧
         ((∀ i, Z.of_nat i < MaxAttempts config →
                allowed_at wallclock (Some b) (clockReads w) i = true) →
          ¬ denied tr2) ∧
         (¬ denied tr2 →
            r2 = r ∧ without_breaker tr2 = tr ∧
            attempts_of tr2 = attempts_of tr ∧ sleeps_of tr2 = sleeps_of tr ∧
            fnState w2 = fnState w' ∧ waits w2 = waits w')).
Proof.
  intros Hmax.
  assert (Hmin : min_int64 ≤ 1) by (unfold min_int64; lia).
  assert (Hfuel : MaxAttempts config - 1
                  < Z.of_nat (Datatypes.S (Z.to_nat (MaxAttempts config))))
    by lia.
  assert (Hpos : (0 < Datatypes.S (Z.to_nat (MaxAttempts config)))%nat) by lia.
  destruct (retryLoop_runs config Hmax _ 1 (InitialDelay config) None
              (CircuitBreaker_ config) w Hmin Hfuel Hpos)
    as (r & cb' & w' & tr & Hrun & Htr & Hnone & Hden & Hopen).
  fold (RetryWithBackoff fn wallclock ctxDone ctxErr config w) in Hrun.
  exists r, cb', w', tr. split; [done|]. split; [done|].
  assert (Hrefused : r = Some errBreakerOpen →
            ∃ i, Z.of_nat i < MaxAttempts config ∧
                 first_ending (ending_of fn wallclock ctxDone config w) i
                   EndRefused ∧
                 fnState w' = invoked fn i (fnState w) ∧
                 waits w' = (waits w + i)%nat).
  { intros Hr. specialize (Hopen Hr).
    destruct (Z.le_gt_cases 1 (MaxAttempts config)) as [Hone|Hzero].
    - destruct (RetryWithBackoff_tied config w r cb' w' tr (conj Hone Hmax)
                  Hrun Htr)
        as (i & e & Hend & Hi & _ & Hfs & Hws & _ & _ & _ & Hnd).
      destruct e; try (by destruct Hnd). exists i.
      split; [done|]. split; [done|]. split; [done|]. simpl in Hws. lia.
    - rewrite RetryWithBackoff_no_attempt in Hrun by lia.
      injection Hrun as <- <- <-.
      rewrite <- (app_nil_r (trace w)) in Htr at 1.
      apply app_inv_head in Htr. subst tr. by apply not_denied_nil in Hopen. }
  split; [|split; [|split; [|split]]].
  - intros i Hi Hpre Hno.
    assert (Hone : 1 ≤ MaxAttempts config) by lia.
    destruct (RetryWithBackoff_tied config w r cb' w' tr (conj Hone Hmax)
                Hrun Htr)
      as (i0 & e & Hend & _ & Hr & Hfs & Hws & Hatt & Hsl & Hlast & _).
    assert (Hend' : first_ending (ending_of fn wallclock ctxDone config w) i
                      EndRefused)
      by (split; [done | by apply ending_at_refused]).
    destruct (first_ending_unique _ _ _ _ _ Hend Hend') as [-> ->].
    simpl in Hr, Hfs, Hws, Hatt.
    split; [done|]. split; [done|]. split; [done|]. split; [done|].
    split; [lia|]. split; [done|]. by apply Hlast.
  - intros Hr. destruct (Hrefused Hr) as (i & Hi & [Hpre Hend] & Hfs & Hws).
    apply ending_at_refused in Hend. unfold allowed_at in Hend.
    destruct (entering wallclock i (CircuitBreaker_ config) (clockReads w))
      as [[b|] c] eqn:He; [|done].
    exists i, b, c. by repeat split.
  - intros Hd. destruct (Hden Hd) as (-> & pre & -> & Hpre).
    split; [|by eauto].
    destruct (CircuitBreaker_ config) as [b|]; [by eexists|].
    destruct (Hnone eq_refl) as [_ Hall]. rewrite Forall_forall in Hall.
    by specialize (Hall _ Hd).
  - intros b Hb Hone Hno. unfold RetryWithBackoff in Hrun.
    rewrite Hb in Hrun. cbn [retryLoop] in Hrun.
    destruct (Z.leb_spec 1 (MaxAttempts config)) as [_|?]; [|lia].
    unfold checkBreaker, do_canExecute in Hrun.
    destruct (canExecute (wallclock (clockReads w)) b) as [[ok b'] out] eqn:Hc.
    simpl in Hno. subst ok. apply canExecute_denied in Hc as [-> ->].
    simpl in Hrun. injection Hrun as <- <- <-.
    destruct (state b =? StateOpen); simpl in Htr |- *;
      apply app_inv_head in Htr; by subst tr.
  - intros Hc. destruct (Hnone Hc) as [-> Hall]. split; [done|].
    split.
    { intros Hr. specialize (Hopen Hr). rewrite Forall_forall in Hall.
      by specialize (Hall _ Hopen). }
    split; [done|]. intros b.
    destruct (retryLoop_runs config Hmax _ 1 (InitialDelay config) None
                (Some b) w Hmin Hfuel Hpos)
      as (r2 & cb2 & w2 & tr2 & Hrun2 & Htr2 & _ & Hden2 & _).
    assert (Hrun2' : RetryWithBackoff fn wallclock ctxDone ctxErr
                       (with_breaker (Some b) config) w = Some (r2, cb2, w2)).
    { unfold RetryWithBackoff.
      change (MaxAttempts (with_breaker (Some b) config))
        with (MaxAttempts config).
      change (InitialDelay (with_breaker (Some b) config))
        with (InitialDelay config).
      change (CircuitBreaker_ (with_breaker (Some b) config)) with (Some b).
      by rewrite retryLoop_with_breaker. }
    exists r2, cb2, w2, tr2. split; [done|]. split; [done|]. split.
    + intros Hallow Hd.
      destruct (Z.le_gt_cases 1 (MaxAttempts config)) as [Hone|Hzero].
      * destruct (RetryWithBackoff_tied (with_breaker (Some b) config) w
                    r2 cb2 w2 tr2 (conj Hone Hmax) Hrun2' Htr2)
          as (i & e & [_ Hend] & Hi & _ & _ & _ & _ & _ & _ & Hnd).
        destruct e; try (by destruct Hnd).
        apply ending_at_refused in Hend.
        change (MaxAttempts (with_breaker (Some b) config))
          with (MaxAttempts config) in Hi.
        change (CircuitBreaker_ (with_breaker (Some b) config))
          with (Some b) in Hend.
        by rewrite (Hallow i Hi) in Hend.
      * rewrite RetryWithBackoff_no_attempt in Hrun2' by (simpl; lia).
        injection Hrun2' as <- <- <-.
        rewrite <- (app_nil_r (trace w)) in Htr2 at 1.
        apply app_inv_head in Htr2. subst tr2.
        by apply not_denied_nil in Hd.
    + intros Hnd. unfold RetryWithBackoff in Hrun. rewrite Hc in Hrun.
      destruct (retryLoop_breaker_transparent config Hmax _ _ _ _ _ _ _
                  _ _ _ _ _ _ _ _ Hmin Hfuel eq_refl eq_refl
                  Hrun Htr Hrun2 Htr2 Hnd) as (-> & -> & Hf & Hw).
      split; [done|]. split; [done|].
      by rewrite attempts_of_without, sleeps_of_without.
Qed.

End RetryFacts.

Lemma RetryWithBackoff_exhausts_attempts_witness :
  let config := DefaultRetryConfig "liquidity" in
  ∃ r cb' w',
    RetryWithBackoff failing_op steady_clock never_done ctxCanceled config
      world0 = Some (r, cb', w') ∧
    fnState w' = 3%nat ∧
    length (attempts_of (trace w')) = 3%nat ∧
    waits w' = 2%nat ∧
    sleeps_of (trace w') = [50 * Millisecond; 100 * Millisecond] ∧
    r = Some (exceeded config
                (Some (ErrForeign "context deadline exceeded"))).
Proof.
  intros config.
  assert (Hrange : 1 ≤ MaxAttempts config ≤ max_int64)
    by (vm_compute; split; discriminate).
  assert (Hfail : ∀ s, (failing_op s).1 ≠ None) by (intros s; discriminate).
  assert (Hctx : ∀ k, never_done k = false) by reflexivity.
  assert (Hallow : CircuitBreaker_ config = None ∨
            ∀ i, Z.of_nat i < MaxAttempts config →
                 allowed_at steady_clock (CircuitBreaker_ config)
                   (clockReads world0) i = true).
  { right. intros [|[|[|i]]] Hi; [reflexivity..|].
    exfalso. revert Hi. change (MaxAttempts config) with 3. lia. }
  destruct (RetryWithBackoff_exhausts_attempts failing_op steady_clock
              never_done ctxCanceled config world0 Hrange Hfail Hctx Hallow)
    as (r & cb' & w' & tr & Hrun & Htr & _ & Hfs & _ & Hlen & _ & Hws & _ &
        (e & He & _ & Hr & _) & Hinst).
  exists r, cb', w'. split; [exact Hrun|].
  simpl in Htr. rewrite Htr.
  split; [exact Hfs|]. split; [apply Nat2Z.inj; exact Hlen|].
  split; [exact Hws|]. split; [by apply Hinst|].
  vm_compute in He. injection He as <-. exact Hr.
Defined.

Lemma RetryWithBackoff_breaker_gate_witness :
  let config :=
    with_breaker (Some fragile_breaker) (DefaultRetryConfig "liquidity") in
  ∃ r cb' w',
    RetryWithBackoff failing_op steady_clock never_done ctxCanceled config
      world0 = Some (r, cb', w') ∧
    r = Some errBreakerOpen ∧
    fnState w' = 1%nat ∧
    attempts_of (trace w')
      = [(1, Some (ErrForeign "context deadline exceeded"))] ∧
    waits w' = 1%nat ∧
    sleeps_of (trace w') = [50 * Millisecond] ∧
    last (trace w') = Some (EvCanExecute false).
Proof.
  intros config.
  assert (Hmax : MaxAttempts config ≤ max_int64) by (vm_compute; discriminate).
  destruct (RetryWithBackoff_breaker_gate failing_op steady_clock never_done
              ctxCanceled config world0 Hmax)
    as (r & cb' & w' & tr & Hrun & Htr & Hgate & _).
  destruct (Hgate 1%nat) as (Hr & _ & Hfs & Hatt & Hws & Hsl & Hlast).
  { vm_compute. reflexivity. }
  { intros j Hj. assert (j = 0%nat) as -> by lia. reflexivity. }
  { reflexivity. }
  exists r, cb', w'. split; [exact Hrun|]. split; [exact Hr|].
  simpl in Htr. rewrite Htr.
  split; [exact Hfs|]. split; [exact Hatt|]. split; [exact Hws|].
  split; [|exact Hlast]. rewrite Hsl. reflexivity.
Defined.

(** ** The liquidity gate *)

Section ConsumerFacts.

Context {R : Type}.
Variable xml_Unmarshal : string → Document + error.
Variable strconv_ParseFloat : string → float + error.
Variable fmt_Sscanf_f : string → option float.
Variable json_Marshal : WebSocketMessage → string + error.
Variable wallclock : nat → Z.
Variable liquidityClient : option (LiquidityClient R).
Variable bicMap : gmap string string.

(** C9.  Whatever the liquidity client, absent or present, a message whose
    XML does not unmarshal and a message whose first transaction carries an
    amount that does not parse are rejected with the code
    [LIQUIDITY_CHECK_ERROR]; the remote service is not called and nothing is
    logged.  A failure of the remote call, in contrast, approves. *)
Theorem checkLiquidity_rejects_local_parse_failures (data : string) (r : R) :
  (∀ err, xml_Unmarshal data = inr err →
     checkLiquidity xml_Unmarshal strconv_ParseFloat liquidityClient bicMap
       data r
     = ((false, "LIQUIDITY_CHECK_ERROR",
         "Failed to parse XML for liquidity check", 0%float), r, [])) ∧
  (∀ doc tx txs err,
     xml_Unmarshal data = inl doc →
     CdtTrfTxInf (FIToFICstmrCdtTrf doc) = tx :: txs →
     strconv_ParseFloat (Value (IntrBkSttlmAmt tx)) = inr err →
     checkLiquidity xml_Unmarshal strconv_ParseFloat liquidityClient bicMap
       data r
     = ((false, "LIQUIDITY_CHECK_ERROR", "Failed to parse amount", 0%float),
        r, [])) ∧
  (∀ doc tx txs amount lc err r',
     xml_Unmarshal data = inl doc →
     CdtTrfTxInf (FIToFICstmrCdtTrf doc) = tx :: txs →
     strconv_ParseFloat (Value (IntrBkSttlmAmt tx)) = inl amount →
     liquidityClient = Some lc →
     grpc_CheckLiquidity lc
       (ExtractBankIDFromBIC bicMap (BICFI (FinInstnId (DbtrAgt tx))))
       amount (Ccy (IntrBkSttlmAmt tx)) r = (inr err, r') →
     (checkLiquidity xml_Unmarshal strconv_ParseFloat liquidityClient bicMap
        data r).1.1 = (true, "", "", 0%float)).
Proof.
  unfold checkLiquidity. repeat split.
  - intros err ->. done.
  - intros doc tx txs err -> -> ->. done.
  - intros doc tx txs amount lc err r' -> -> -> -> .
    unfold LiquidityClient_CheckLiquidity. intros ->. done.
Qed.

(** C6, amended.  For every message that unmarshals and whose first
    transaction, if there is one, carries an amount that parses: when the
    liquidity client is absent, or the remote [CheckLiquidity] call fails,
    [checkLiquidity] approves with an empty error code, and the result of
    the worker for the item is the result of the local validation. *)
Theorem checkLiquidity_fails_open (data : string) (doc : Document) (r : R) :
  xml_Unmarshal data = inl doc →
  (CdtTrfTxInf (FIToFICstmrCdtTrf doc) = [] ∨
   ∃ tx txs amount,
     CdtTrfTxInf (FIToFICstmrCdtTrf doc) = tx :: txs ∧
     strconv_ParseFloat (Value (IntrBkSttlmAmt tx)) = inl amount ∧
     (liquidityClient = None ∨
      ∃ lc err r',
        liquidityClient = Some lc ∧
        grpc_CheckLiquidity lc
          (ExtractBankIDFromBIC bicMap (BICFI (FinInstnId (DbtrAgt tx))))
          amount (Ccy (IntrBkSttlmAmt tx)) r = (inr err, r'))) →
  (checkLiquidity xml_Unmarshal strconv_ParseFloat liquidityClient bicMap
     data r).1.1 = (true, "", "", 0%float) ∧
  ∀ st result st',
    remote st = r →
    processWork xml_Unmarshal strconv_ParseFloat fmt_Sscanf_f json_Marshal
      wallclock liquidityClient bicMap data st = Ok (result, st') →
    result = validateTransaction xml_Unmarshal (wallclock (clock st))
               (wallclock (Datatypes.S (clock st)))
               (wallclock (Datatypes.S (Datatypes.S (clock st)))) data.
Proof.
  intros Hdoc Hcase.
  assert (Hopen :
    (checkLiquidity xml_Unmarshal strconv_ParseFloat liquidityClient bicMap
       data r).1.1 = (true, "", "", 0%float)).
  { unfold checkLiquidity. rewrite Hdoc.
    destruct Hcase as [-> | (tx & txs & amount & -> & -> & Hclient)]; [done|].
    destruct Hclient as [-> | (lc & err & r' & -> & Hrpc)]; [done|].
    unfold LiquidityClient_CheckLiquidity. by rewrite Hrpc. }
  split; [exact Hopen|].
  intros st result st' Hr. unfold processWork. rewrite Hr.
  destruct (checkLiquidity _ _ _ _ data r) as [[[[[ok c] m] bal] r1] l1].
  simpl in Hopen. injection Hopen as -> -> -> ->. simpl.
  destruct (broadcastTransactionToWS _ _ _ _ _ _ _)
    as [[[bc n] l2]| |]; [|done..].
  by intros [= <- _].
Qed.

(** C10.  For a work item whose XML does not unmarshal, and for one whose
    document has no transaction, [broadcastTransactionToWS] returns without
    touching the hub's broadcast channel, whatever the result it is given;
    the worker still builds a result for the item (a rejection, with the
    code of the liquidity gate in the first case and of the validation in
    the second), leaves the broadcast channel as it was, and the [select]
    that follows sends that result on the results channel. *)
Theorem broadcast_skipped_without_transaction (data : string) (st : Consumer) :
  ((∃ err, xml_Unmarshal data = inr err) ∨
   (∃ doc, xml_Unmarshal data = inl doc ∧
           CdtTrfTxInf (FIToFICstmrCdtTrf doc) = [])) →
  (∀ result now bc,
     broadcastTransactionToWS xml_Unmarshal fmt_Sscanf_f json_Marshal result
       data now bc = Ok (bc, O, [])) ∧
  ∃ result st',
    processWork xml_Unmarshal strconv_ParseFloat fmt_Sscanf_f json_Marshal
      wallclock liquidityClient bicMap data st = Ok (result, st') ∧
    Valid result = false ∧
    ErrorCode result
      = match xml_Unmarshal data with
        | inr _ => "LIQUIDITY_CHECK_ERROR"
        | inl _ => "NO_TRANSACTIONS"
        end ∧
    wsBroadcast st' = wsBroadcast st ∧
    results st' = results st ∧
    ∃ st'',
      processMessages xml_Unmarshal strconv_ParseFloat fmt_Sscanf_f
        json_Marshal wallclock liquidityClient bicMap [TakeWork data true] st
      = Ok st'' ∧
      results st'' = results st ++ [result] ∧
      wsBroadcast st'' = wsBroadcast st.
Proof.
  intros Hcase.
  assert (Hskip : ∀ result now bc,
     broadcastTransactionToWS xml_Unmarshal fmt_Sscanf_f json_Marshal result
       data now bc = Ok (bc, O, [])).
  { intros result now bc. unfold broadcastTransactionToWS.
    destruct Hcase as [[err ->] | (doc & -> & ->)]; done. }
  split; [exact Hskip|].
  unfold processMessages, processWork, checkLiquidity.
  destruct Hcase as [[err Herr] | (doc & Hdoc & Hno)].
  - rewrite Herr. simpl. rewrite Hskip.
    eexists _, _. split; [done|]. simpl.
    do 4 (split; [done|]). eexists. by split.
  - rewrite Hdoc, Hno. simpl. rewrite Hskip.
    eexists _, _. split; [done|].
    assert (Hres :
      Valid (validateTransaction xml_Unmarshal (wallclock (clock st))
               (wallclock (Datatypes.S (clock st)))
               (wallclock (Datatypes.S (Datatypes.S (clock st)))) data) = false
      ∧ ErrorCode (validateTransaction xml_Unmarshal (wallclock (clock st))
               (wallclock (Datatypes.S (clock st)))
               (wallclock (Datatypes.S (Datatypes.S (clock st)))) data)
        = "NO_TRANSACTIONS").
    { unfold validateTransaction. rewrite Hdoc.
      unfold validateDocument, validateBICs, validateHeader.
      rewrite Hno. simpl. done. }
    destruct Hres as [Hv Hc].
    split; [exact Hv|]. split; [exact Hc|].
    simpl. do 2 (split; [done|]). eexists. by split.
Qed.

End ConsumerFacts.

Lemma checkLiquidity_rejects_local_parse_failures_witness :
  checkLiquidity sample_Unmarshal sample_ParseFloat (Some unreachable_client) ∅
    truncated_xml tt
  = ((false, "LIQUIDITY_CHECK_ERROR",
      "Failed to parse XML for liquidity check", 0%float), tt, []) ∧
  checkLiquidity sample_Unmarshal sample_ParseFloat (Some unreachable_client) ∅
    bad_amount_xml tt
  = ((false, "LIQUIDITY_CHECK_ERROR", "Failed to parse amount", 0%float),
     tt, []).
Proof.
  split.
  - destruct (checkLiquidity_rejects_local_parse_failures sample_Unmarshal
                sample_ParseFloat (Some unreachable_client) ∅ truncated_xml tt)
      as (Hxml & _).
    eapply Hxml. reflexivity.
  - destruct (checkLiquidity_rejects_local_parse_failures sample_Unmarshal
                sample_ParseFloat (Some unreachable_client) ∅ bad_amount_xml tt)
      as (_ & Hamount & _).
    eapply Hamount; reflexivity.
Defined.

(** C6, as stated, fails: with no liquidity client, a message that does not
    unmarshal and a message whose amount is not a number are rejected. *)
Lemma checkLiquidity_absent_client_rejects :
  checkLiquidity (R := unit) sample_Unmarshal sample_ParseFloat None ∅
    truncated_xml tt
  = ((false, "LIQUIDITY_CHECK_ERROR",
      "Failed to parse XML for liquidity check", 0%float), tt, []) ∧
  checkLiquidity (R := unit) sample_Unmarshal sample_ParseFloat None ∅
    bad_amount_xml tt
  = ((false, "LIQUIDITY_CHECK_ERROR", "Failed to parse amount", 0%float),
     tt, []).
Proof. split; reflexivity. Qed.

Lemma checkLiquidity_fails_open_witness :
  (checkLiquidity sample_Unmarshal sample_ParseFloat (Some unreachable_client) ∅
     good_xml tt).1.1 = (true, "", "", 0%float) ∧
  (checkLiquidity (R := unit) sample_Unmarshal sample_ParseFloat None ∅
     good_xml tt).1.1 = (true, "", "", 0%float).
Proof.
  split.
  - eapply (checkLiquidity_fails_open sample_Unmarshal sample_ParseFloat
              sample_Sscanf sample_Marshal steady_clock
              (Some unreachable_client) ∅ good_xml); [reflexivity|].
    right. eexists _, _, _. split; [reflexivity|]. split; [reflexivity|].
    right. eexists _, _, _. split; reflexivity.
  - eapply (checkLiquidity_fails_open sample_Unmarshal sample_ParseFloat
              sample_Sscanf sample_Marshal steady_clock None ∅ good_xml);
      [reflexivity|].
    right. eexists _, _, _. split; [reflexivity|]. split; [reflexivity|].
    by left.
Defined.

Lemma broadcast_skipped_without_transaction_witness :
  ∃ result st',
    processWork sample_Unmarshal sample_ParseFloat sample_Sscanf sample_Marshal
      steady_clock (Some unreachable_client) ∅ no_tx_xml consumer0
    = Ok (result, st') ∧
    Valid result = false ∧
    ErrorCode result = "NO_TRANSACTIONS" ∧
    wsBroadcast st' = wsBroadcast consumer0.
Proof.
  destruct (broadcast_skipped_without_transaction sample_Unmarshal
              sample_ParseFloat sample_Sscanf sample_Marshal steady_clock
              (Some unreachable_client) ∅ no_tx_xml consumer0)
    as (_ & result & st' & Hrun & Hv & Hc & Hbc & _).
  { right. eexists. split; reflexivity. }
  exists result, st'. by repeat split.
Defined.

(** ** Validation *)

Lemma same_verdict_refl r : same_verdict r r.
Proof. by repeat split. Qed.

Lemma mark_same_verdict r1 r2 rule :
  same_verdict r1 r2 → same_verdict (mark r1 rule) (mark r2 rule).
Proof. unfold mark. by destruct (violated rule). Qed.

Lemma validateHeader_marks doc r1 r2 :
  same_verdict r1 r2 →
  same_verdict (validateHeader doc r1) (fold_left mark (header_rules doc) r2).
Proof.
  intros (Hv & Hc & Hm). unfold validateHeader, header_rules, mark. simpl.
  destruct (CdtTrfTxInf (FIToFICstmrCdtTrf doc)) as [|tx txs]; simpl;
    destruct (String.eqb _ ""), (_ <=? 0), (negb _); simpl; by repeat split.
Qed.

Lemma validateBICs_marks doc r1 r2 :
  same_verdict r1 r2 →
  same_verdict (validateBICs doc r1) (fold_left mark (bic_rules doc) r2).
Proof.
  intros (Hv & Hc & Hm). unfold validateBICs, bic_rules, mark.
  destruct (CdtTrfTxInf (FIToFICstmrCdtTrf doc)) as [|tx txs]; simpl;
    [by repeat split|].
  destruct (_ || _), (_ || _); simpl; by repeat split.
Qed.

Lemma validateTx_marks i tx r1 r2 :
  same_verdict r1 r2 →
  same_verdict (validateTx i tx r1) (fold_left mark (tx_rules i tx) r2).
Proof.
  intros (Hv & Hc & Hm). unfold validateTx, tx_rules, mark. simpl.
  destruct (String.eqb (InstrId _) ""), (String.eqb (Ccy _) ""),
    (String.eqb (Value _) ""), (String.eqb (IntrBkSttlmDt _) ""), (negb _);
    simpl; by repeat split.
Qed.

Lemma validateTxs_marks txs : ∀ i r1 r2,
  same_verdict r1 r2 →
  same_verdict (validateTxs i txs r1) (fold_left mark (txs_rules i txs) r2).
Proof.
  induction txs as [|tx txs IH]; intros i r1 r2 Hs; [done|].
  cbn [validateTxs txs_rules]. rewrite fold_left_app.
  by apply IH, validateTx_marks.
Qed.

(** No short-circuit: the verdict of the validation is the verdict of
    marking the result with every rule, in order. *)
Lemma validateDocument_marks doc r :
  same_verdict (validateDocument doc r) (fold_left mark (all_rules doc) r).
Proof.
  unfold validateDocument, all_rules. rewrite !fold_left_app.
  apply validateTxs_marks, validateBICs_marks, validateHeader_marks,
    same_verdict_refl.
Qed.

(** Marking with a list of rules: the flag falls when one rule is
    violated, and code and message are those of the last violated rule. *)
Lemma fold_mark_verdict rules r :
  let m := fold_left mark rules r in
  let failing := filter (λ ru, violated ru = true) rules in
  (failing = [] → same_verdict m r) ∧
  (∀ ru, last failing = Some ru →
     Valid m = false ∧ ErrorCode m = code ru ∧ ErrorMsg m = message ru).
Proof.
  induction rules as [|ru rules IH] using rev_ind; simpl.
  { split; [intros _; apply same_verdict_refl | done]. }
  rewrite fold_left_app, filter_app. simpl. rewrite filter_cons, filter_nil.
  destruct IH as [IHnone IHlast]. unfold mark at 1 3 5 7.
  destruct (violated ru) eqn:Hv.
  - rewrite decide_True by done. split.
    + intros Habs. by apply app_eq_nil in Habs as [_ ?].
    + intros ru'. rewrite last_snoc. by intros [= <-].
  - rewrite decide_False by done. rewrite app_nil_r. by split.
Qed.

(** C7.  For every document that unmarshals, the verdict of
    [validateTransaction] is the one obtained by evaluating every rule in
    order, a violated rule overwriting what an earlier one had set: there is
    no short-circuit between rules.  So the result is valid exactly when no
    rule is violated; and when rules are violated the result is invalid and
    carries the code (and message) of the most specific one, which is the
    last of the violated rules in the order from header to transaction
    fields. *)
Theorem validateTransaction_reports_most_specific_failure
    (xml_Unmarshal : string → Document + error)
    (startTime stamp endTime : Z) (data : string) (doc : Document) :
  xml_Unmarshal data = inl doc →
  let result := validateTransaction xml_Unmarshal startTime stamp endTime data in
  same_verdict result (fold_left mark (all_rules doc) (fresh_result stamp)) ∧
  (Valid result = true ↔ failing_rules doc = []) ∧
  (failing_rules doc = [] → ErrorCode result = "" ∧ ErrorMsg result = "") ∧
  (∀ rule, last (failing_rules doc) = Some rule →
     Valid result = false ∧ ErrorCode result = code rule ∧
     ErrorMsg result = message rule).
Proof.
  intros Hdoc result. subst result. unfold validateTransaction.
  rewrite Hdoc. fold (fresh_result stamp).
  pose proof (validateDocument_marks doc (fresh_result stamp)) as Hm.
  destruct (fold_mark_verdict (all_rules doc) (fresh_result stamp))
    as [Hnone Hlast].
  fold (failing_rules doc) in Hnone, Hlast.
  assert (Hs : same_verdict
            (set_Latency (time_Since endTime startTime)
               (validateDocument doc (fresh_result stamp)))
            (fold_left mark (all_rules doc) (fresh_result stamp))) by exact Hm.
  split; [exact Hs|].
  destruct Hs as (Hv & Hc & Hmsg). rewrite Hv, Hc, Hmsg.
  split; [|split].
  - split.
    + intros Hvalid. destruct (failing_rules doc) as [|ru l] eqn:Hf; [done|].
      destruct (last (ru :: l)) as [ru'|] eqn:Hl.
      * destruct (Hlast ru' eq_refl) as (Hfalse & _). congruence.
      * by apply last_None in Hl.
    + intros Hf. by destruct (Hnone Hf) as (-> & _).
  - intros Hf. by destruct (Hnone Hf) as (_ & -> & ->).
  - intros rule Hl. by apply Hlast.
Qed.

Lemma validateTransaction_reports_most_specific_failure_witness :
  let result := validateTransaction sample_Unmarshal 0 0 0 faulty_xml in
  (code <$> failing_rules (sample_doc_with "" [sample_tx ""]))
    = ["MISSING_MSG_ID"; "MISSING_AMOUNT_TX0"] ∧
  Valid result = false ∧ ErrorCode result = "MISSING_AMOUNT_TX0".
Proof.
  intros result.
  destruct (validateTransaction_reports_most_specific_failure sample_Unmarshal
              0 0 0 faulty_xml (sample_doc_with "" [sample_tx ""]) eq_refl)
    as (_ & _ & _ & Hlast).
  split; [reflexivity|].
  destruct (Hlast (mkRule true "MISSING_AMOUNT_TX0"
                     "Amount is required for transaction 0") eq_refl)
    as (Hv & Hc & _).
  by split.
Defined.

(** ** The broadcast hub *)

(** One offer to a subscriber whose channel is open: the message is queued
    when there is room, and the subscriber is evicted, its channel closed,
    when there is none.  Nobody else is touched. *)
Lemma offer_spec message c cl h :
  heap h !! c = Some cl → closed (send cl) = false →
  ∃ h', offer message c h = Ok h' ∧
        broadcast h' = broadcast h ∧
        (∀ c', c' ≠ c → clients h' !! c' = clients h !! c' ∧
                        heap h' !! c' = heap h !! c') ∧
        (if full (send cl)
         then clients h' !! c = None ∧
              heap h' !! c = Some {| send := closed_chan (send cl) |}
         else clients h' !! c = clients h !! c ∧
              heap h' !! c = Some {| send := queued message (send cl) |}).
Proof.
  intros Hcl Hopen. unfold offer, trySend, close, full. rewrite Hcl, Hopen.
  destruct (length (buf (send cl)) <? cap (send cl))%nat; simpl.
  - eexists. split; [done|]. split; [done|]. simpl. split.
    + intros c' Hne. by rewrite lookup_insert_ne.
    + by rewrite lookup_insert_eq.
  - eexists. split; [done|]. split; [done|]. simpl. split.
    + intros c' Hne. by rewrite lookup_insert_ne, lookup_delete_ne.
    + by rewrite lookup_insert_eq, lookup_delete_eq.
Qed.

(** The [range] loop over distinct keys whose channels are open. *)
Lemma offerAll_spec message : ∀ order h,
  NoDup order →
  (∀ c, c ∈ order → is_Some (clients h !! c) →
        ∃ cl, heap h !! c = Some cl ∧ closed (send cl) = false) →
  ∃ h', offerAll message order h = Ok h' ∧
        broadcast h' = broadcast h ∧
        (∀ c, c ∉ order → clients h' !! c = clients h !! c ∧
                          heap h' !! c = heap h !! c) ∧
        (∀ c, c ∈ order → clients h !! c = None →
              clients h' !! c = None ∧ heap h' !! c = heap h !! c) ∧
        (∀ c cl, c ∈ order → is_Some (clients h !! c) →
           heap h !! c = Some cl →
           if full (send cl)
           then clients h' !! c = None ∧
                heap h' !! c = Some {| send := closed_chan (send cl) |}
           else clients h' !! c = clients h !! c ∧
                heap h' !! c = Some {| send := queued message (send cl) |}).
Proof.
  induction order as [|c0 order IH]; intros h Hnd Hopen.
  { exists h. split; [done|]. split; [done|]. split; [done|].
    split; intros; by decompose_list_elem_of. }
  apply NoDup_cons in Hnd as [Hc0 Hnd]. cbn [offerAll].
  destruct (clients h !! c0) as [v|] eqn:Hin.
  - destruct (Hopen c0) as (cl0 & Hcl0 & Hop0); [by left | by rewrite Hin |].
    destruct (offer_spec message c0 cl0 h Hcl0 Hop0)
      as (h1 & -> & Hb1 & Hother & Hc).
    destruct (IH h1 Hnd) as (h' & Hrun & Hb & Hout & Hnone & Hin').
    { intros c Hc' Hs. assert (c ≠ c0) as Hne by (by intros ->).
      destruct (Hother c Hne) as [Hcl Hhp]. rewrite Hhp.
      apply Hopen; [by right | by rewrite <- Hcl]. }
    exists h'. split; [done|]. split; [congruence|]. split; [|split].
    + intros c Hc'. apply not_elem_of_cons in Hc' as [Hne Hc'].
      destruct (Hout c Hc') as [-> ->]. by apply Hother.
    + intros c Hc' Hn. apply elem_of_cons in Hc' as [-> | Hc']; [congruence|].
      assert (c ≠ c0) as Hne by (by intros ->).
      destruct (Hother c Hne) as [Hcl Hhp].
      destruct (Hnone c Hc') as [-> ->]; [congruence | done].
    + intros c cl Hc' Hs Hcl. apply elem_of_cons in Hc' as [-> | Hc'].
      * destruct (Hout c0 Hc0) as [-> ->].
        assert (cl = cl0) as -> by congruence. done.
      * assert (c ≠ c0) as Hne by (by intros ->).
        destruct (Hother c Hne) as [Hcl' Hhp].
        specialize (Hin' c cl Hc'). rewrite Hcl', Hhp in Hin'.
        by apply Hin'.
  - destruct (IH h Hnd) as (h' & Hrun & Hb & Hout & Hnone & Hin').
    { intros c Hc' Hs. apply Hopen; [by right | done]. }
    exists h'. split; [done|]. split; [done|]. split; [|split].
    + intros c Hc'. apply not_elem_of_cons in Hc' as [Hne Hc']. by apply Hout.
    + intros c Hc' Hn. apply elem_of_cons in Hc' as [-> | Hc'].
      * destruct (Hout c0 Hc0) as [-> ->]. by rewrite Hin.
      * by apply Hnone.
    + intros c cl Hc' Hs Hcl. apply elem_of_cons in Hc' as [-> | Hc'].
      * rewrite Hin in Hs. by destruct Hs.
      * by apply Hin'.
Qed.

(** Registering a client whose channel is open, and unregistering any
    client, keep the hub's invariant. *)
Lemma register_keeps_hub_ok c cl h :
  hub_ok h → heap h !! c = Some cl → closed (send cl) = false →
  ∃ h', hubStep (RecvRegister c) h = Ok h' ∧ hub_ok h'.
Proof.
  intros Hok Hcl Hopen. eexists. split; [done|].
  intros c' Hs. simpl in *. destruct (decide (c' = c)) as [->|Hne]; [by eauto|].
  rewrite lookup_insert_ne in Hs by done. by apply Hok.
Qed.

Lemma unregister_keeps_hub_ok c h :
  hub_ok h → ∃ h', hubStep (RecvUnregister c) h = Ok h' ∧ hub_ok h'.
Proof.
  intros Hok. simpl. destruct (clients h !! c) as [v|] eqn:Hin; [|by eauto].
  destruct (Hok c) as (cl & Hcl & Hopen); [by rewrite Hin|].
  rewrite Hcl. unfold close. rewrite Hopen. eexists. split; [done|].
  intros c' Hs. simpl in *. destruct (decide (c' = c)) as [->|Hne].
  - rewrite lookup_delete_eq in Hs. by destruct Hs.
  - rewrite lookup_delete_ne in Hs by done. rewrite lookup_insert_ne by done.
    by apply Hok.
Qed.

(** C8.  The hub takes a message off its broadcast channel and ranges over
    the subscriber set in any order.  The step completes, and for every
    subscriber of the set: when its buffer has room the message is queued
    at the end of it and the subscriber stays; when its buffer is full the
    subscriber is removed from the set and its channel closed, and the
    others are served all the same.  Clients outside the set are not
    touched.  So every subscriber left in the set has the message as the
    last element of its buffer. *)
Theorem broadcast_queues_or_evicts
    (h : WebSocketHub) (order : list positive) (message : string)
    (rest : list string) :
  hub_ok h →
  buf (broadcast h) = message :: rest →
  NoDup order →
  (∀ c, c ∈ order ↔ is_Some (clients h !! c)) →
  ∃ h',
    hubStep (RecvBroadcast order) h = Ok h' ∧
    buf (broadcast h') = rest ∧
    hub_ok h' ∧
    (∀ c cl, is_Some (clients h !! c) → heap h !! c = Some cl →
       if full (send cl)
       then clients h' !! c = None ∧
            heap h' !! c = Some {| send := closed_chan (send cl) |}
       else clients h' !! c = clients h !! c ∧
            heap h' !! c = Some {| send := queued message (send cl) |}) ∧
    (∀ c, clients h !! c = None →
          clients h' !! c = None ∧ heap h' !! c = heap h !! c) ∧
    (∀ c, is_Some (clients h' !! c) →
          is_Some (clients h !! c) ∧
          ∃ cl', heap h' !! c = Some cl' ∧ closed (send cl') = false ∧
                 last (buf (send cl')) = Some message).
Proof.
  intros Hok Hmsg Hnd Horder. simpl. rewrite Hmsg.
  set (h0 := mkHub (clients h)
               (mkChan rest (cap (broadcast h)) (closed (broadcast h)))
               (heap h)).
  destruct (offerAll_spec message order h0 Hnd)
    as (h' & Hrun & Hb & Hout & Hnone & Hin).
  { intros c _ Hs. by apply Hok. }
  exists h'. split; [done|]. split; [by rewrite Hb|].
  assert (Hsub : ∀ c cl, is_Some (clients h !! c) → heap h !! c = Some cl →
       if full (send cl)
       then clients h' !! c = None ∧
            heap h' !! c = Some {| send := closed_chan (send cl) |}
       else clients h' !! c = clients h !! c ∧
            heap h' !! c = Some {| send := queued message (send cl) |}).
  { intros c cl Hs Hcl. apply (Hin c cl); [by apply Horder | done | done]. }
  assert (Hno : ∀ c, clients h !! c = None →
          clients h' !! c = None ∧ heap h' !! c = heap h !! c).
  { intros c Hn. destruct (Hout c) as [Hc Hh].
    - rewrite Horder, Hn. by intros [].
    - by rewrite Hc, Hh. }
  assert (Hleft : ∀ c, is_Some (clients h' !! c) →
          is_Some (clients h !! c) ∧
          ∃ cl', heap h' !! c = Some cl' ∧ closed (send cl') = false ∧
                 last (buf (send cl')) = Some message).
  { intros c Hs. destruct (clients h !! c) as [v|] eqn:Hc; cycle 1.
    { destruct (Hno c Hc) as [Hn _]. rewrite Hn in Hs. by destruct Hs. }
    split; [done|].
    destruct (Hok c) as (cl & Hcl & Hopen); [by rewrite Hc|].
    specialize (Hsub c cl ltac:(by rewrite Hc) Hcl).
    destruct (full (send cl)).
    - destruct Hsub as [Hn _]. rewrite Hn in Hs. by destruct Hs.
    - destruct Hsub as [_ Hq]. eexists. split; [exact Hq|]. simpl.
      split; [done | apply last_snoc]. }
  split; [|by split; [|split]].
  intros c Hs. destruct (Hleft c Hs) as (_ & cl' & Hcl' & Hopen & _). eauto.
Qed.

Lemma broadcast_queues_or_evicts_witness :
  ∃ h',
    hubStep (RecvBroadcast [3; 1; 2]%positive) sample_hub = Ok h' ∧
    clients h' !! 2%positive = None ∧
    heap h' !! 2%positive = Some {| send := mkChan ["a"; "b"] 2 true |} ∧
    heap h' !! 1%positive = Some {| send := mkChan ["m"] 2 false |} ∧
    heap h' !! 3%positive = Some {| send := mkChan ["a"; "m"] 2 false |}.
Proof.
  destruct (broadcast_queues_or_evicts sample_hub [3; 1; 2]%positive "m" [])
    as (h' & Hrun & _ & _ & Hsub & _).
  - intros c Hs. simpl in *.
    destruct (decide (c = 1%positive)) as [->|?]; [by eexists|].
    destruct (decide (c = 2%positive)) as [->|?]; [by eexists|].
    destruct (decide (c = 3%positive)) as [->|?]; [by eexists|].
    rewrite !lookup_insert_ne, lookup_singleton_ne in Hs by done. by destruct Hs.
  - reflexivity.
  - by apply (bool_decide_unpack _).
  - intros c. simpl. rewrite !elem_of_cons, elem_of_nil.
    split.
    + intros [->|[->|[->|[]]]]; by eexists.
    + intros Hs.
      destruct (decide (c = 1%positive)) as [->|?]; [tauto|].
      destruct (decide (c = 2%positive)) as [->|?]; [tauto|].
      destruct (decide (c = 3%positive)) as [->|?]; [tauto|].
      rewrite !lookup_insert_ne, lookup_singleton_ne in Hs by done. by destruct Hs.
  - exists h'. split; [exact Hrun|].
    pose proof (Hsub 1%positive _ ltac:(by eexists) eq_refl) as H1.
    pose proof (Hsub 2%positive _ ltac:(by eexists) eq_refl) as H2.
    pose proof (Hsub 3%positive _ ltac:(by eexists) eq_refl) as H3.
    simpl in H1, H2, H3. destruct H1 as [_ H1], H2 as [H2 H2'], H3 as [_ H3].
    by repeat split.
Defined.

(** The invariant holds when the hub is made and is kept by every
    iteration of [Run], which therefore never panics. *)
Lemma NewWebSocketHub_ok heap : hub_ok (NewWebSocketHub heap).
Proof. intros c Hs. simpl in Hs. rewrite lookup_empty in Hs. by destruct Hs. Qed.

Lemma hubStep_keeps_hub_ok ev h :
  hub_ok h → event_ok h ev → ∃ h', hubStep ev h = Ok h' ∧ hub_ok h'.
Proof.
  intros Hok Hev. destruct ev as [c|c|order].
  - destruct Hev as (cl & Hcl & Hopen). by eapply register_keeps_hub_ok.
  - by apply unregister_keeps_hub_ok.
  - destruct Hev as (Hbuf & Hnd & Horder).
    destruct (buf (broadcast h)) as [|message rest] eqn:Hb; [done|].
    pose proof (offerAll_spec message order
                  (mkHub (clients h)
                     (mkChan rest (cap (broadcast h)) (closed (broadcast h)))
                     (heap h)) Hnd) as Hrun.
    destruct Hrun as (h' & Hrun & _ & Hout & _ & Hin).
    { intros c _ Hs. by apply Hok. }
    exists h'. simpl. rewrite Hb. split; [done|].
    intros c Hs. destruct (clients h !! c) as [v|] eqn:Hc; cycle 1.
    { destruct (Hout c) as [Hn _].
      - rewrite Horder, Hc. by intros [].
      - simpl in Hn. rewrite Hn, Hc in Hs. by destruct Hs. }
    destruct (Hok c) as (cl & Hcl & Hopen); [by rewrite Hc|].
    assert (Hc' : is_Some (clients h !! c)) by (by rewrite Hc).
    pose proof (Hin c cl (proj2 (Horder c) Hc') Hc' Hcl) as Hres.
    destruct (full (send cl)); destruct Hres as [Hn Hq].
    + rewrite Hn in Hs. by destruct Hs.
    + eauto.
Qed.

Lemma Run_keeps_hub_ok evs : ∀ h,
  hub_ok h → events_ok evs h → ∃ h', Run evs h = Ok h' ∧ hub_ok h'.
Proof.
  induction evs as [|ev evs IH]; intros h Hok Hevs; [by exists h|].
  destruct Hevs as [Hev Hrest]. cbn [Run].
  destruct (hubStep_keeps_hub_ok ev h Hok Hev) as (h1 & Hstep & Hok1).
  rewrite Hstep in Hrest |- *. by apply IH.
Qed.

(** * Further properties *)

(** ** The breaker's state machine *)

Lemma breakerStep_config cb op :
  name (breakerStep cb op) = name cb ∧
  maxFailures (breakerStep cb op) = maxFailures cb ∧
  resetTimeout (breakerStep cb op) = resetTimeout cb ∧
  halfOpenSuccess (breakerStep cb op) = halfOpenSuccess cb.
Proof.
  destruct op; simpl;
    unfold canExecute, canExecute_loaded, recordFailure, recordSuccess,
      atomic.LoadInt32, atomic.CompareAndSwapInt32;
    repeat (case_match; simpl; try done).
Qed.

(** One method call moves the state along an edge of the machine, and each
    method along its own edges only. *)
Lemma breakerStep_edge cb op :
  valid_state (state cb) →
  valid_state (state (breakerStep cb op)) ∧
  breaker_edge (state cb) (state (breakerStep cb op)) ∧
  match op with
  | OpCanExecute _ =>
      state (breakerStep cb op) = state cb ∨
      (state cb = StateOpen ∧ state (breakerStep cb op) = StateHalfOpen)
  | OpRecordFailure _ =>
      state (breakerStep cb op) = state cb ∨
      state (breakerStep cb op) = StateOpen
  | OpRecordSuccess =>
      state (breakerStep cb op) = state cb ∨
      (state cb = StateHalfOpen ∧ state (breakerStep cb op) = StateClosed)
  end.
Proof.
  unfold valid_state, breaker_edge.
  intros [Hs | [Hs | Hs]]; destruct op; simpl;
    unfold canExecute, canExecute_loaded, recordFailure, recordSuccess,
      atomic.LoadInt32, atomic.CompareAndSwapInt32;
    rewrite Hs; simpl; repeat (case_match; simpl); simplify_eq;
    rewrite ?Hs; unfold StateClosed, StateHalfOpen, StateOpen; intuition lia.
Qed.

Lemma breakerAll_snoc ops op cb :
  breakerAll (ops ++ [op]) cb = breakerStep (breakerAll ops cb) op.
Proof. unfold breakerAll. by rewrite fold_left_app. Qed.

Lemma breakerAll_valid ops cb :
  valid_state (state cb) → valid_state (state (breakerAll ops cb)).
Proof.
  intros Hv. induction ops as [|op ops IH] using rev_ind; [done|].
  rewrite breakerAll_snoc. by apply breakerStep_edge.
Qed.

(** X1.  A breaker made by [NewCircuitBreaker] and used through any
    sequence of [canExecute], [recordFailure] and [recordSuccess] calls
    keeps its configuration, is always closed, half-open or open, and every
    call moves it along an edge of the state machine: [canExecute] only
    from open to half-open, [recordFailure] only to open, [recordSuccess]
    only from half-open to closed.  So it never goes from open to closed
    without probing, nor from closed to half-open. *)
Theorem breaker_moves_along_edges
    (nm : string) (mf rt hs : Z) (ops : list BreakerOp) (op : BreakerOp) :
  let before := breakerAll ops (NewCircuitBreaker nm mf rt hs) in
  let after := breakerAll (ops ++ [op]) (NewCircuitBreaker nm mf rt hs) in
  (maxFailures after = mf ∧ resetTimeout after = rt ∧
   halfOpenSuccess after = hs ∧ name after = nm) ∧
  valid_state (state after) ∧
  breaker_edge (state before) (state after) ∧
  ¬ (state before = StateOpen ∧ state after = StateClosed) ∧
  ¬ (state before = StateClosed ∧ state after = StateHalfOpen) ∧
  match op with
  | OpCanExecute _ =>
      state after = state before ∨
      (state before = StateOpen ∧ state after = StateHalfOpen)
  | OpRecordFailure _ => state after = state before ∨ state after = StateOpen
  | OpRecordSuccess =>
      state after = state before ∨
      (state before = StateHalfOpen ∧ state after = StateClosed)
  end.
Proof.
  intros before after. subst before after. rewrite breakerAll_snoc.
  set (cb0 := NewCircuitBreaker nm mf rt hs).
  assert (Hv : valid_state (state (breakerAll ops cb0)))
    by (apply breakerAll_valid; by left).
  destruct (breakerStep_edge (breakerAll ops cb0) op Hv) as (Hv' & He & Hop).
  split; [|split; [done|]; split; [done|]; split; [|split; [|done]]].
  - assert (Hcfg : ∀ l, maxFailures (breakerAll l cb0) = mf ∧
                        resetTimeout (breakerAll l cb0) = rt ∧
                        halfOpenSuccess (breakerAll l cb0) = hs ∧
                        name (breakerAll l cb0) = nm).
    { induction l as [|o l IH] using rev_ind; [done|].
      rewrite breakerAll_snoc.
      destruct (breakerStep_config (breakerAll l cb0) o) as (-> & -> & -> & ->).
      tauto. }
    specialize (Hcfg (ops ++ [op])). by rewrite breakerAll_snoc in Hcfg.
  - intros [H1 H2]. unfold breaker_edge in He. rewrite H1, H2 in He.
    unfold StateClosed, StateHalfOpen, StateOpen in He. lia.
  - intros [H1 H2]. unfold breaker_edge in He. rewrite H1, H2 in He.
    unfold StateClosed, StateHalfOpen, StateOpen in He. lia.
Qed.

(** One call keeps the counters within their bounds. *)
Lemma breakerStep_counters_ok cb op :
  maxFailures cb ≤ max_int32 → halfOpenSuccess cb ≤ max_int32 →
  counters_ok cb → counters_ok (breakerStep cb op).
Proof.
  intros Hmf Hhs (Hv & Hc & Hh).
  split; [by apply breakerStep_edge|].
  destruct (breakerStep_config cb op) as (_ & -> & _ & ->).
  unfold valid_state in Hv.
  destruct Hv as [Hs | [Hs | Hs]].
  - destruct (Hc Hs) as [H0 Hlt]. clear Hc Hh.
    destruct op as [now|now|]; simpl.
    + unfold canExecute, canExecute_loaded, atomic.LoadInt32. rewrite Hs.
      simpl. rewrite Hs. split; [done|]. unfold StateClosed, StateHalfOpen.
      by intros.
    + destruct (recordFailure_closed now cb Hs) as [Hf' Hs'].
      { unfold min_int32, max_int32 in *. lia. }
      rewrite Hf', Hs'.
      destruct (Z.geb_spec (failures cb + 1) (maxFailures cb));
        unfold StateClosed, StateHalfOpen, StateOpen; split; intros; lia.
    + destruct (recordSuccess_closed cb Hs) as [Hf' Hs'].
      rewrite Hf', Hs'.
      unfold StateClosed, StateHalfOpen, StateOpen; split; intros; lia.
  - destruct (Hh Hs) as [H0 Hlt]. clear Hc Hh.
    destruct op as [now|now|]; simpl.
    + unfold canExecute, canExecute_loaded, atomic.LoadInt32. rewrite Hs.
      simpl. rewrite Hs. unfold StateClosed, StateHalfOpen.
      split; intros; [lia | done].
    + unfold recordFailure, atomic.LoadInt32, atomic.CompareAndSwapInt32.
      rewrite Hs. simpl. rewrite Hs. simpl.
      unfold StateClosed, StateHalfOpen, StateOpen; split; intros; lia.
    + unfold recordSuccess, atomic.LoadInt32, atomic.AddInt32,
        atomic.CompareAndSwapInt32.
      rewrite Hs. simpl.
      rewrite wrap32_id by (unfold min_int32, max_int32 in *; lia).
      destruct (Z.geb_spec (halfOpenSuccesses cb + 1) (halfOpenSuccess cb));
        simpl; rewrite ?Hs; simpl;
        unfold StateClosed, StateHalfOpen, StateOpen; split; intros; lia.
  - clear Hc Hh. destruct op as [now|now|]; simpl.
    + unfold canExecute, canExecute_loaded, atomic.LoadInt32,
        atomic.CompareAndSwapInt32. rewrite Hs. simpl.
      destruct (_ >? _); simpl; rewrite ?Hs; simpl;
        unfold StateClosed, StateHalfOpen, StateOpen; split; intros; lia.
    + unfold recordFailure, atomic.LoadInt32. rewrite Hs. simpl. rewrite Hs.
      unfold StateClosed, StateHalfOpen, StateOpen; split; intros; lia.
    + unfold recordSuccess, atomic.LoadInt32. rewrite Hs. simpl. rewrite Hs.
      unfold StateClosed, StateHalfOpen, StateOpen; split; intros; lia.
Qed.

(** X2.  For a breaker made by [NewCircuitBreaker] and used by one
    goroutine through any sequence of calls: while it is closed its failure
    counter is non-negative and below a positive threshold, so
    [GetFailureCount] of a closed breaker never reaches [maxFailures]; while
    it is half-open its probe-success counter is non-negative and below a
    positive [halfOpenSuccess].  The 32-bit counters do not wrap in these
    states. *)
Theorem breaker_counters_stay_below_thresholds
    (nm : string) (mf rt hs : Z) (ops : list BreakerOp) :
  mf ≤ max_int32 → hs ≤ max_int32 →
  let cb := breakerAll ops (NewCircuitBreaker nm mf rt hs) in
  counters_ok cb ∧
  (1 ≤ mf → GetState cb = StateClosed → 0 ≤ GetFailureCount cb < mf) ∧
  (1 ≤ hs → GetState cb = StateHalfOpen → 0 ≤ halfOpenSuccesses cb < hs).
Proof.
  intros Hmf Hhs cb. subst cb. set (cb0 := NewCircuitBreaker nm mf rt hs).
  assert (Hcfg : ∀ l, maxFailures (breakerAll l cb0) = mf ∧
                      halfOpenSuccess (breakerAll l cb0) = hs).
  { induction l as [|o l IH] using rev_ind; [done|].
    rewrite breakerAll_snoc.
    destruct (breakerStep_config (breakerAll l cb0) o) as (_ & -> & _ & ->).
    done. }
  assert (Hok : counters_ok (breakerAll ops cb0)).
  { induction ops as [|op ops IH] using rev_ind.
    - split; [by left|]. simpl. split; intros; lia.
    - rewrite breakerAll_snoc. destruct (Hcfg ops) as [Hm Hh].
      apply breakerStep_counters_ok; [by rewrite Hm | by rewrite Hh | done]. }
  split; [done|]. destruct Hok as (_ & Hc & Hh).
  destruct (Hcfg ops) as [Hm Hh']. unfold GetState, GetFailureCount,
    atomic.LoadInt32. rewrite Hm in Hc. rewrite Hh' in Hh.
  split; intros Hpos Hs; [specialize (Hc Hs) | specialize (Hh Hs)]; lia.
Qed.

Lemma breaker_counters_stay_below_thresholds_witness :
  let cb := breakerAll [OpRecordFailure 1; OpRecordFailure 2; OpRecordSuccess;
                        OpRecordFailure 3]
              (NewCircuitBreaker "liquidity" 5 (30 * Second) 2) in
  GetState cb = StateClosed ∧ 0 ≤ GetFailureCount cb < 5.
Proof.
  intros cb.
  destruct (breaker_counters_stay_below_thresholds "liquidity" 5 (30 * Second)
              2 [OpRecordFailure 1; OpRecordFailure 2; OpRecordSuccess;
                 OpRecordFailure 3]) as (_ & Hc & _).
  - vm_compute. discriminate.
  - vm_compute. discriminate.
  - split; [reflexivity|]. apply Hc; [lia | reflexivity].
Defined.

(** ** Probing *)

Lemma recordSuccess_halfopen cb :
  state cb = StateHalfOpen →
  min_int32 ≤ halfOpenSuccesses cb + 1 ≤ max_int32 →
  let cb' := fst (recordSuccess cb) in
  halfOpenSuccess cb' = halfOpenSuccess cb ∧
  if halfOpenSuccesses cb + 1 >=? halfOpenSuccess cb
  then state cb' = StateClosed ∧ failures cb' = 0 ∧ halfOpenSuccesses cb' = 0
  else state cb' = StateHalfOpen ∧ failures cb' = failures cb ∧
       halfOpenSuccesses cb' = halfOpenSuccesses cb + 1.
Proof.
  intros Hs Hr. unfold recordSuccess, atomic.LoadInt32, atomic.AddInt32,
    atomic.CompareAndSwapInt32.
  rewrite Hs. simpl. rewrite wrap32_id by done.
  destruct (halfOpenSuccesses cb + 1 >=? halfOpenSuccess cb); simpl;
    rewrite ?Hs; simpl; done.
Qed.

(** X3.  A half-open breaker whose probe-success counter is zero, as
    [canExecute] leaves it, stays half-open while fewer than
    [halfOpenSuccess] successes have been recorded, counting them, and the
    success that reaches [halfOpenSuccess] closes it and sets both counters
    to zero. *)
Theorem probe_successes_close_breaker (cb : CircuitBreaker) :
  state cb = StateHalfOpen → halfOpenSuccesses cb = 0 →
  1 ≤ halfOpenSuccess cb ≤ max_int32 →
  (∀ k : nat, Z.of_nat k < halfOpenSuccess cb →
     state (recordSuccesses k cb) = StateHalfOpen ∧
     halfOpenSuccesses (recordSuccesses k cb) = Z.of_nat k ∧
     failures (recordSuccesses k cb) = failures cb) ∧
  let closed := recordSuccesses (Z.to_nat (halfOpenSuccess cb)) cb in
  state closed = StateClosed ∧ failures closed = 0 ∧
  halfOpenSuccesses closed = 0.
Proof.
  intros Hs H0 [Hpos Hmax].
  assert (Hk : ∀ k : nat, Z.of_nat k < halfOpenSuccess cb →
     halfOpenSuccess (recordSuccesses k cb) = halfOpenSuccess cb ∧
     state (recordSuccesses k cb) = StateHalfOpen ∧
     halfOpenSuccesses (recordSuccesses k cb) = Z.of_nat k ∧
     failures (recordSuccesses k cb) = failures cb).
  { induction k as [|k IH]; intros Hlt; [by simpl|].
    destruct IH as (Hhs & Hst & Hcnt & Hf); [lia|].
    unfold recordSuccesses in *. simpl.
    destruct (recordSuccess_halfopen _ Hst) as [Hhs' Hstep].
    { rewrite Hcnt. unfold min_int32, max_int32 in *. lia. }
    rewrite Hhs, Hcnt in Hstep.
    destruct (Z.geb_spec (Z.of_nat k + 1) (halfOpenSuccess cb)); [lia|].
    destruct Hstep as (-> & -> & ->). rewrite Hhs', Hhs. repeat split; lia. }
  split; [intros k Hlt; by destruct (Hk k Hlt) as (_ & ? & ? & ?)|].
  destruct (Z.to_nat (halfOpenSuccess cb)) as [|n] eqn:Hn; [lia|].
  destruct (Hk n) as (Hhs & Hst & Hcnt & Hf); [lia|].
  unfold recordSuccesses in *. simpl.
  destruct (recordSuccess_halfopen _ Hst) as [_ Hstep].
  { rewrite Hcnt. unfold min_int32, max_int32 in *. lia. }
  rewrite Hhs, Hcnt in Hstep.
  destruct (Z.geb_spec (Z.of_nat n + 1) (halfOpenSuccess cb)); [done | lia].
Qed.

Lemma probe_successes_close_breaker_witness :
  let cb := snd (fst (canExecute (40 * Second) opened_breaker)) in
  state cb = StateHalfOpen ∧
  state (recordSuccesses 1 cb) = StateHalfOpen ∧
  state (recordSuccesses 2 cb) = StateClosed ∧
  failures (recordSuccesses 2 cb) = 0.
Proof.
  intros cb.
  assert (Hs : state cb = StateHalfOpen) by reflexivity.
  assert (H0 : halfOpenSuccesses cb = 0) by reflexivity.
  assert (Hr : 1 ≤ halfOpenSuccess cb ≤ max_int32)
    by (vm_compute; split; discriminate).
  destruct (probe_successes_close_breaker cb Hs H0 Hr) as (Hk & Hc & Hf & _).
  split; [exact Hs|]. split; [apply (Hk 1%nat); reflexivity|].
  split; [exact Hc | exact Hf].
Defined.

(** ** Calls through the breaker *)

(** Every recorded failure, in whatever state, stamps the breaker with the
    time of the failure. *)
Lemma recordFailure_lastFailureTime now cb :
  lastFailureTime (fst (recordFailure now cb)) = now.
Proof.
  unfold recordFailure, atomic.LoadInt32, atomic.CompareAndSwapInt32.
  repeat (case_match; simpl; simplify_eq; try done).
Qed.

Section CallFacts.

Context {S : Type}.
Variable fn : S → option error * S.
Variable wallclock : nat → Z.

Lemma invoked_succ n (s : S) :
  invoked fn (Datatypes.S n) s = invoked fn n (snd (fn s)).
Proof. unfold invoked. exact (Nat.iter_succ_r n (λ s, snd (fn s)) s). Qed.

Lemma errs_shift (s : S) (k : nat) :
  (fn s).1 :: ((λ i, (fn (invoked fn i (fn s).2)).1) <$> seq 0 k)
  = (λ i, (fn (invoked fn i s)).1) <$> seq 0 (Datatypes.S k).
Proof.
  cbn [seq]. rewrite fmap_cons. f_equal.
  rewrite <- fmap_S_seq, <- list_fmap_compose. apply list_fmap_ext.
  intros i j _. unfold compose. by rewrite invoked_succ.
Qed.

(** A call on a closed breaker of an operation that fails: the operation
    is invoked, its error is returned as it is, and the failure is
    recorded at the current reading of the clock. *)
Lemma Call_closed_failure cb (w : @World S) e s :
  state cb = StateClosed → fn (fnState w) = (Some e, s) →
  ∃ w',
    Call fn wallclock cb w
    = (Some e, fst (recordFailure (wallclock (clockReads w)) cb), w') ∧
    fnState w' = s ∧ clockReads w' = Datatypes.S (clockReads w).
Proof.
  intros Hs Hfn. unfold Call, do_canExecute, canExecute, canExecute_loaded,
    atomic.LoadInt32.
  rewrite Hs. simpl. rewrite Hfn. unfold do_recordFailure. simpl.
  destruct (recordFailure (wallclock (clockReads w)) cb) as [cb' out].
  by eexists.
Qed.

Lemma CallN_closed_failures : ∀ (k : nat) cb (w : @World S),
  (∀ s, (fn s).1 ≠ None) →
  state cb = StateClosed → 0 ≤ failures cb →
  (1 ≤ k)%nat →
  failures cb + Z.of_nat k ≤ maxFailures cb → maxFailures cb ≤ max_int32 →
  ∃ errs cb' w',
    CallN fn wallclock k cb w = (errs, cb', w') ∧
    errs = (λ i, (fn (invoked fn i (fnState w))).1) <$> seq 0 k ∧
    fnState w' = invoked fn k (fnState w) ∧
    clockReads w' = (clockReads w + k)%nat ∧
    maxFailures cb' = maxFailures cb ∧ resetTimeout cb' = resetTimeout cb ∧
    failures cb' = failures cb + Z.of_nat k ∧
    lastFailureTime cb' = wallclock (clockReads w + k - 1)%nat ∧
    state cb' = (if failures cb + Z.of_nat k >=? maxFailures cb
                 then StateOpen else StateClosed).
Proof.
  induction k as [|k IH]; intros cb w Hfail Hs H0 Hk Hle Hmax; [lia|].
  cbn [CallN].
  destruct (fn (fnState w)) as [[e|] s] eqn:Hfn;
    [|by specialize (Hfail (fnState w)); rewrite Hfn in Hfail].
  destruct (Call_closed_failure cb w e s Hs Hfn) as (w1 & -> & Hs1 & Hc1).
  destruct (recordFailure_closed (wallclock (clockReads w)) cb Hs)
    as [Hf1 Hst1].
  { unfold min_int32, max_int32 in *. lia. }
  set (cb1 := fst (recordFailure (wallclock (clockReads w)) cb)) in *.
  assert (Hmf1 : maxFailures cb1 = maxFailures cb).
  { apply (record_maxFailures cb (OnFailure (wallclock (clockReads w)))). }
  assert (Hrt1 : resetTimeout cb1 = resetTimeout cb).
  { apply (breakerStep_config cb (OpRecordFailure (wallclock (clockReads w)))). }
  assert (Hlf1 : lastFailureTime cb1 = wallclock (clockReads w)).
  { apply recordFailure_lastFailureTime. }
  destruct k as [|k].
  - simpl. eexists _, _, _. split; [done|]. simpl. rewrite Hfn. simpl.
    split; [done|]. split; [by rewrite Hs1|].
    split; [rewrite Hc1; lia|]. split; [done|]. split; [done|].
    split; [done|]. split; [by rewrite Hlf1, Nat.add_sub|]. done.
  - destruct (Z.geb_spec (failures cb + 1) (maxFailures cb)); [lia|].
    destruct (IH cb1 w1 Hfail Hst1) as
      (errs & cb' & w' & -> & -> & Hfs & Hcr & Hmf & Hrt & Hf & Hlf & Hst);
      [rewrite Hf1; lia | lia | rewrite Hf1, Hmf1; lia | by rewrite Hmf1 |].
    eexists _, _, _. split; [done|].
    * split.
      { rewrite Hs1, <- (errs_shift (fnState w)), Hfn. done. }
      split; [by rewrite Hfs, Hs1, (invoked_succ _ (fnState w)), Hfn|].
      split; [rewrite Hcr, Hc1; lia|].
      split; [congruence|]. split; [congruence|].
      split; [rewrite Hf, Hf1; lia|].
      split; [rewrite Hlf, Hc1; f_equal; lia|].
      rewrite Hst, Hf1, Hmf1.
      replace (failures cb + 1 + Z.of_nat (Datatypes.S k))
        with (failures cb + Z.of_nat (Datatypes.S (Datatypes.S k))) by lia.
      done.
Qed.

(** X4.  [Call] on a breaker as [NewCircuitBreaker] makes it, with an
    operation that always fails: each of the first [maxFailures] calls
    invokes the operation and returns its error unwrapped, after which the
    breaker is open; a further call made before [resetTimeout] has passed
    since the last failure returns [ErrCircuitOpen] and does not invoke the
    operation. *)
Theorem Call_rejects_after_maxFailures (cb : CircuitBreaker) (w : @World S) :
  state cb = StateClosed → failures cb = 0 →
  1 ≤ maxFailures cb ≤ max_int32 →
  (∀ s, (fn s).1 ≠ None) →
  let n := Z.to_nat (maxFailures cb) in
  ∃ errs cb' w',
    CallN fn wallclock n cb w = (errs, cb', w') ∧
    errs = (λ i, (fn (invoked fn i (fnState w))).1) <$> seq 0 n ∧
    fnState w' = invoked fn n (fnState w) ∧
    state cb' = StateOpen ∧
    (time_Since (wallclock (clockReads w')) (lastFailureTime cb')
       ≤ resetTimeout cb' →
     ∃ w'', Call fn wallclock cb' w' = (Some ErrCircuitOpen, cb', w'') ∧
            fnState w'' = fnState w').
Proof.
  intros Hs Hf [Hpos Hmax] Hfail n. subst n.
  destruct (CallN_closed_failures (Z.to_nat (maxFailures cb)) cb w Hfail Hs)
    as (errs & cb' & w' & Hrun & Herrs & Hfs & _ & Hmf & _ & Hf' & _ & Hst);
    [lia | lia | lia | done |].
  exists errs, cb', w'. do 3 (split; [done|]).
  assert (Hopen : state cb' = StateOpen).
  { rewrite Hst. destruct (Z.geb_spec
      (failures cb + Z.of_nat (Z.to_nat (maxFailures cb))) (maxFailures cb));
      [done | lia]. }
  split; [done|]. intros Ht.
  unfold Call, do_canExecute. rewrite (canExecute_open_denied _ _ Hopen Ht).
  simpl. eexists. split; [done|]. by rewrite Hopen.
Qed.

End CallFacts.

Lemma Call_rejects_after_maxFailures_witness :
  let cb := NewCircuitBreaker "liquidity" 2 (30 * Second) 2 in
  ∃ errs cb' w',
    CallN failing_op steady_clock 2 cb world0 = (errs, cb', w') ∧
    fnState w' = 2%nat ∧ state cb' = StateOpen ∧
    (Call failing_op steady_clock cb' w').1.1 = Some ErrCircuitOpen.
Proof.
  intros cb.
  assert (Hr : 1 ≤ maxFailures cb ≤ max_int32)
    by (vm_compute; split; discriminate).
  assert (Hfail : ∀ s, (failing_op s).1 ≠ None) by (intros s; discriminate).
  destruct (Call_rejects_after_maxFailures failing_op steady_clock cb world0
              eq_refl eq_refl Hr Hfail)
    as (errs & cb' & w' & Hrun & _ & Hfs & Hst & Hnext).
  exists errs, cb', w'. split; [exact Hrun|]. split; [exact Hfs|].
  split; [exact Hst|].
  destruct Hnext as (w'' & -> & _); [|done].
  vm_compute in Hrun. injection Hrun as <- <- <-. vm_compute. discriminate.
Defined.

(** ** Every run of the retry executor *)

Section RunFacts.

Context {S : Type}.
Variable fn : S → option error * S.
Variable wallclock : nat → Z.
Variable ctxDone : nat → bool.
Variable ctxErr : error.

(** What the loop returns has one of the shapes of [RunShape]. *)
Lemma retryLoop_shape config :
  MaxAttempts config ≤ max_int64 →
  ∀ fuel attempt delay lastErr cb (w : @World S) r cb' w',
    min_int64 ≤ attempt →
    retryLoop fn wallclock ctxDone ctxErr config fuel attempt delay lastErr
      cb w = Some (r, cb', w') →
    ∃ tr, trace w' = trace w ++ tr ∧
          RunShape config ctxErr attempt delay lastErr tr r.
Proof.
  intros Hmax. induction fuel as [|fuel IH];
    intros attempt delay lastErr cb w r cb' w' Hmin Hrun; [done|].
  cbn [retryLoop] in Hrun.
  destruct (Z.leb_spec attempt (MaxAttempts config)) as [Hle|Hgt]; cycle 1.
  { injection Hrun as <- <- <-. exists []. rewrite app_nil_r.
    split; [done|]. by constructor. }
  destruct (checkBreaker wallclock cb w) as [[ok cb1] w1] eqn:Hchk.
  destruct (checkBreaker_spec _ _ _ _ _ _ Hchk)
    as (Hs1 & Hw1 & Hn1 & evs1 & Ht1 & Hb1 & Hnone1 & Hdeny1 & Hok1).
  destruct ok; simpl in Hrun; cycle 1.
  { injection Hrun as <- <- <-. rewrite (Hdeny1 eq_refl) in Ht1.
    eexists. split; [exact Ht1|]. by constructor. }
  specialize (Hok1 eq_refl).
  destruct (fn (fnState w1)) as [err s] eqn:Hfn.
  destruct err as [e|]; cycle 1.
  { destruct (noteSuccess cb1 _) as [cb2 w2] eqn:Hns.
    destruct (noteSuccess_spec _ _ _ _ Hns)
      as (Hs2 & Hw2 & Hn2 & evs2 & Ht2 & Hb2 & Hnone2 & Hnd2).
    simpl in Ht2. injection Hrun as <- <- <-.
    exists (evs1 ++ [EvCall attempt None] ++ evs2).
    split; [rewrite Ht2, Ht1, <- !app_assoc; done|]. by constructor. }
  destruct (noteFailure wallclock cb1 _) as [cb2 w2] eqn:Hnf.
  destruct (noteFailure_spec _ _ _ _ _ Hnf)
    as (Hs2 & Hw2 & Hn2 & evs2 & Ht2 & Hb2 & Hnone2 & Hnd2).
  simpl in Ht2, Hs2, Hw2.
  destruct (Z.geb_spec attempt (MaxAttempts config)) as [Hge|Hlt].
  { injection Hrun as <- <- <-.
    exists (evs1 ++ [EvCall attempt (Some e)] ++ evs2).
    split; [rewrite Ht2, Ht1, <- !app_assoc; done|].
    constructor; [lia | done..]. }
  destruct (ctxDone _) eqn:Hctx.
  { injection Hrun as <- <- <-. eexists. split; cycle 1.
    - by apply (RunCancelled config ctxErr attempt delay lastErr evs1 evs2 e).
    - simpl. rewrite Ht2, Ht1, <- !app_assoc. done. }
  rewrite wrap64_id in Hrun by (unfold min_int64, max_int64 in *; lia).
  apply IH in Hrun as (tr & Htr & Hshape); [|lia].
  simpl in Htr. eexists. split; cycle 1.
  - by apply (RunRetry config ctxErr attempt delay lastErr evs1 evs2 e tr r).
  - rewrite Htr, Ht2, Ht1, <- !app_assoc. done.
Qed.

End RunFacts.

Lemma breaker_events_not_cancelled evs : breaker_events evs → ¬ cancelled evs.
Proof.
  intros Hb [d Hin]. unfold breaker_events in Hb. rewrite Forall_forall in Hb.
  by specialize (Hb _ Hin).
Qed.

Lemma cancelled_app tr1 tr2 : cancelled (tr1 ++ tr2) ↔ cancelled tr1 ∨ cancelled tr2.
Proof.
  unfold cancelled. split.
  - intros [d [?|?]%elem_of_app]; eauto.
  - intros [[d ?]|[d ?]]; exists d; apply elem_of_app; eauto.
Qed.

Lemma cancelled_cons ev tr :
  cancelled (ev :: tr) ↔ (∃ d, ev = EvCancelled d) ∨ cancelled tr.
Proof.
  unfold cancelled. split.
  - intros [d [?|?]%elem_of_cons]; eauto.
  - intros [[d ->]|[d ?]]; exists d; apply elem_of_cons; eauto.
Qed.

Lemma cancelled_nil : cancelled [] ↔ False.
Proof. unfold cancelled. split; [|done]. by intros [d ?%elem_of_nil]. Qed.

(** The attempts of a trace made of a breaker check, one call, a breaker
    recording and a rest. *)
Lemma attempts_of_round pre post a err rest :
  breaker_events pre → breaker_events post →
  attempts_of (pre ++ [EvCall a err] ++ post ++ rest)
  = (a, err) :: attempts_of rest.
Proof.
  intros Hpre Hpost. rewrite !attempts_of_app.
  by rewrite (breaker_events_attempts _ Hpre), (breaker_events_attempts _ Hpost).
Qed.

Lemma sleeps_of_round pre post a err rest :
  breaker_events pre → breaker_events post →
  sleeps_of (pre ++ [EvCall a err] ++ post ++ rest) = sleeps_of rest.
Proof.
  intros Hpre Hpost. rewrite !sleeps_of_app.
  by rewrite (breaker_events_sleeps _ Hpre), (breaker_events_sleeps _ Hpost).
Qed.

(** The attempts of a run: numbered from the attempt the loop is entered
    at, no more than the attempts that are left, all failed but perhaps the
    last; and the run returns [nil] exactly when the last one succeeded. *)
Lemma shape_attempts config ctxErr a d l tr r :
  RunShape config ctxErr a d l tr r →
  (attempts_of tr).*1 = seqZ a (Z.of_nat (length (attempts_of tr))) ∧
  Z.of_nat (length (attempts_of tr)) ≤ Z.max 0 (MaxAttempts config - a + 1) ∧
  (∀ pre x post, attempts_of tr = pre ++ x :: post → post ≠ [] →
                 x.2 ≠ None) ∧
  (r = None ↔ ∃ a', last (attempts_of tr) = Some (a', None)).
Proof.
  induction 1 as [a d l Hgt | a d l Hle | a d l pre post Hle Hpre _ Hpost _
                 | a d l pre post e Heq Hpre _ Hpost _
                 | a d l pre post e Hlt Hpre _ Hpost _
                 | a d l pre post e tr r Hlt Hpre _ Hpost _ Hrun IH].
  - simpl. split; [done|]. split; [lia|]. split; [by intros [] |].
    split; [done | by intros [? ?]].
  - simpl. split; [done|]. split; [lia|]. split; [by intros [] |].
    split; [done | by intros [? ?]].
  - rewrite <- (app_nil_r post), attempts_of_round by done. simpl.
    split; [done|]. split; [lia|]. split.
    + intros [|? [|]] x post' Heq Hne; by simplify_eq/=.
    + split; [by eauto | done].
  - rewrite <- (app_nil_r post), attempts_of_round by done. simpl.
    split; [done|]. split; [lia|]. split.
    + intros [|? [|]] x post' Heq' Hne; by simplify_eq/=.
    + split; [done | by intros [? ?]].
  - rewrite attempts_of_round by done. simpl.
    split; [done|]. split; [lia|]. split.
    + intros [|? [|]] x post' Heq' Hne; by simplify_eq/=.
    + split; [done | by intros [? ?]].
  - destruct IH as (Hnum & Hlen & Hfail & Hnil).
    rewrite attempts_of_round by done.
    change (attempts_of
              ([EvPrint (LogRetry a (MaxAttempts config) (error_Error e) d);
                EvSleep d] ++ tr)) with (attempts_of tr).
    split.
    { cbn [length fmap list_fmap fst]. rewrite (seqZ_cons a) by lia.
      f_equal. etransitivity; [exact Hnum|]. f_equal; lia. }
    split; [cbn [length]; lia|]. split.
    + intros [|p pre'] x post' Heq Hne; simplify_eq/=; [done|].
      by eapply Hfail.
    + rewrite Hnil. destruct (attempts_of tr) as [|y ys] eqn:Hatt; [|done].
      simpl. split; intros [? ?]; done.
Qed.

Lemma backoff_bounded config n d :
  d ≤ MaxDelay config → Forall (λ x, x ≤ MaxDelay config) (backoff config n d).
Proof.
  revert d. induction n as [|n IH]; intros d Hd; [constructor|].
  cbn [backoff]. constructor; [done|]. apply IH. lia.
Qed.

Lemma backoff_tail_bounded config n d :
  Forall (λ x, x ≤ MaxDelay config) (tail (backoff config n d)).
Proof.
  destruct n as [|n]; [constructor|]. cbn [backoff tail].
  apply backoff_bounded. lia.
Qed.

(** The sleeps of a run are the delays of the backoff, one per retried
    attempt. *)
Lemma shape_sleeps config ctxErr a d l tr r :
  RunShape config ctxErr a d l tr r →
  sleeps_of tr = backoff config (length (sleeps_of tr)) d ∧
  (length (sleeps_of tr) ≤ length (attempts_of tr))%nat ∧
  Z.of_nat (length (sleeps_of tr)) ≤ Z.max 0 (MaxAttempts config - a).
Proof.
  induction 1 as [a d l Hgt | a d l Hle | a d l pre post Hle Hpre _ Hpost _
                 | a d l pre post e Heq Hpre _ Hpost _
                 | a d l pre post e Hlt Hpre _ Hpost _
                 | a d l pre post e tr r Hlt Hpre _ Hpost _ Hrun IH].
  - simpl. split; [done|]. split; lia.
  - simpl. split; [done|]. split; lia.
  - rewrite <- (app_nil_r post), sleeps_of_round, attempts_of_round by done.
    simpl. split; [done|]. split; lia.
  - rewrite <- (app_nil_r post), sleeps_of_round, attempts_of_round by done.
    simpl. split; [done|]. split; lia.
  - rewrite sleeps_of_round, attempts_of_round by done.
    simpl. split; [done|]. split; lia.
  - destruct IH as (Hsl & Hlen & Hmax).
    rewrite sleeps_of_round, attempts_of_round by done.
    change (sleeps_of
              ([EvPrint (LogRetry a (MaxAttempts config) (error_Error e) d);
                EvSleep d] ++ tr)) with (d :: sleeps_of tr).
    change (attempts_of
              ([EvPrint (LogRetry a (MaxAttempts config) (error_Error e) d);
                EvSleep d] ++ tr)) with (attempts_of tr).
    cbn [length]. split; [|split; lia].
    rewrite nextDelay_min in Hsl. cbn [backoff]. by rewrite <- Hsl.
Qed.

Lemma length_backoff config n d : length (backoff config n d) = n.
Proof. revert d. induction n as [|n IH]; intros d; simpl; [done | by rewrite IH]. Qed.

Lemma exceeded_not_cancelled config ctxErr l :
  exceeded config l ≠ errCancelled ctxErr.
Proof. unfold exceeded, errCancelled. simpl. discriminate. Qed.

Lemma exceeded_not_open config l : exceeded config l ≠ errBreakerOpen.
Proof. unfold exceeded, errBreakerOpen. simpl. discriminate. Qed.

Lemma exceeded_inj config l1 l2 : exceeded config l1 = exceeded config l2 → l1 = l2.
Proof. unfold exceeded. by intros [= ->]. Qed.

Ltac uncancel :=
  repeat (rewrite cancelled_app || rewrite cancelled_cons
          || rewrite cancelled_nil);
  repeat match goal with
         | H : breaker_events ?evs |- _ =>
             apply breaker_events_not_cancelled in H
         end;
  intuition (try discriminate);
  repeat match goal with H : ∃ _, _ = _ |- _ => destruct H end;
  try discriminate.

Lemma errBreakerOpen_not_cancelled ctxErr : errBreakerOpen ≠ errCancelled ctxErr.
Proof. discriminate. Qed.

(** A cancellation is the last thing that happens in a run, and the runs
    that return the cancellation error are those that were cancelled.  The
    wait that was cancelled was for the next delay of the backoff, after an
    attempt that failed. *)
Lemma shape_cancelled config ctxErr a d l tr r :
  RunShape config ctxErr a d l tr r →
  (cancelled tr ↔ r = Some (errCancelled ctxErr)) ∧
  (cancelled tr →
     ¬ denied tr ∧
     ∃ pre d', tr = pre ++ [EvCancelled d'] ∧ ¬ cancelled pre ∧
               sleeps_of tr ++ [d']
               = backoff config (Datatypes.S (length (sleeps_of tr))) d ∧
               ∃ a' e, last (attempts_of tr) = Some (a', Some e)).
Proof.
  induction 1 as [a d l Hgt | a d l Hle | a d l pre post Hle Hpre Hnp Hpost Hnq
                 | a d l pre post e Heq Hpre Hnp Hpost Hnq
                 | a d l pre post e Hlt Hpre Hnp Hpost Hnq
                 | a d l pre post e tr r Hlt Hpre Hnp Hpost Hnq Hrun IH].
  - assert (Hn : ¬ cancelled []) by uncancel.
    split; [split; [done|] | done].
    intros Heq. exfalso. apply (exceeded_not_cancelled config ctxErr l).
    congruence.
  - assert (Hn : ¬ cancelled [EvCanExecute false]) by uncancel.
    split; [split; [done|] | done]. discriminate.
  - assert (Hn : ¬ cancelled (pre ++ [EvCall a None] ++ post)) by uncancel.
    split; [split; [done|] | done]. discriminate.
  - assert (Hn : ¬ cancelled (pre ++ [EvCall a (Some e)] ++ post)) by uncancel.
    split; [split; [done|] | done].
    intros Heq'. exfalso.
    apply (exceeded_not_cancelled config ctxErr (Some e)). congruence.
  - split.
    { split; [done|]. intros _. apply cancelled_app. right.
      apply cancelled_cons. right. apply cancelled_app. right.
      apply cancelled_cons. right. apply cancelled_cons. left. by eexists. }
    intros _. split; [undeny|].
    exists (pre ++ [EvCall a (Some e)] ++ post ++
            [EvPrint (LogRetry a (MaxAttempts config) (error_Error e) d)]), d.
    split; [by rewrite <- !app_assoc|]. split; [uncancel|].
    rewrite sleeps_of_round, attempts_of_round by done. simpl. by eauto.
  - destruct IH as [Hiff Hlast].
    assert (Hc : cancelled
              (pre ++ [EvCall a (Some e)] ++ post ++
               [EvPrint (LogRetry a (MaxAttempts config) (error_Error e) d);
                EvSleep d] ++ tr) ↔ cancelled tr) by uncancel.
    rewrite Hc. split; [done|]. intros Hct.
    destruct (Hlast Hct) as (Hnd & pre' & d' & -> & Hnc & Hsl & a' & e' & Hl).
    split; [revert Hnd; undeny|].
    exists (pre ++ [EvCall a (Some e)] ++ post ++
            [EvPrint (LogRetry a (MaxAttempts config) (error_Error e) d);
             EvSleep d] ++ pre'), d'.
    split; [by rewrite <- !app_assoc|].
    split; [uncancel|].
    rewrite sleeps_of_round, attempts_of_round by done.
    change (sleeps_of
              ([EvPrint (LogRetry a (MaxAttempts config) (error_Error e) d);
                EvSleep d] ++ pre' ++ [EvCancelled d']))
      with (d :: sleeps_of (pre' ++ [EvCancelled d'])).
    change (attempts_of
              ([EvPrint (LogRetry a (MaxAttempts config) (error_Error e) d);
                EvSleep d] ++ pre' ++ [EvCancelled d']))
      with (attempts_of (pre' ++ [EvCancelled d'])).
    split.
    + rewrite nextDelay_min in Hsl. cbn [length app].
      rewrite Hsl. done.
    + exists a', e'.
      destruct (attempts_of (pre' ++ [EvCancelled d'])); [done | exact Hl].
Qed.

(** The aggregate failure is returned exactly by the runs that are neither
    refused nor cancelled and do not succeed; such a run has made every
    attempt that was left, all of them failed, and the error it wraps is the
    one of the last attempt. *)
Lemma shape_exhausted config ctxErr a d l tr r :
  RunShape config ctxErr a d l tr r →
  (∀ l', r = Some (exceeded config l') →
     ¬ denied tr ∧ ¬ cancelled tr ∧
     Z.of_nat (length (attempts_of tr)) = Z.max 0 (MaxAttempts config - a + 1) ∧
     Forall (λ x, x.2 ≠ None) (attempts_of tr) ∧
     l' = match last (attempts_of tr) with Some x => x.2 | None => l end) ∧
  (¬ denied tr → ¬ cancelled tr → r ≠ None →
   ∃ l', r = Some (exceeded config l')).
Proof.
  induction 1 as [a d l Hgt | a d l Hle | a d l pre post Hle Hpre Hnp Hpost Hnq
                 | a d l pre post e Heq Hpre Hnp Hpost Hnq
                 | a d l pre post e Hlt Hpre Hnp Hpost Hnq
                 | a d l pre post e tr r Hlt Hpre Hnp Hpost Hnq Hrun IH].
  - split; [|by eauto]. intros l' Heq.
    assert (l = l') as <- by (apply (exceeded_inj config); congruence).
    split; [undeny|]. split; [uncancel|]. simpl. split; [lia|].
    split; [constructor | done].
  - split.
    + intros l' Heq. exfalso. apply (exceeded_not_open config l'). congruence.
    + intros Hnd. exfalso. apply Hnd, denied_cons. by left.
  - split; [discriminate | done].
  - split; [|by eauto]. intros l' Heq'.
    assert (Some e = l') as <- by (apply (exceeded_inj config); congruence).
    split; [undeny|]. split; [uncancel|].
    rewrite <- (app_nil_r post), attempts_of_round by done. simpl.
    split; [lia|]. split; [by repeat constructor | done].
  - split.
    + intros l' Heq. exfalso.
      apply (exceeded_not_cancelled config ctxErr l'). congruence.
    + intros _ Hnc. exfalso. apply Hnc. apply cancelled_app. right.
      apply cancelled_cons. right. apply cancelled_app. right.
      apply cancelled_cons. right. apply cancelled_cons. left. by eexists.
  - destruct IH as [IHex IHconv]. split.
    + intros l' Hr. destruct (IHex l' Hr) as (Hnd & Hnc & Hlen & Hall & Hl).
      split; [revert Hnd; undeny|]. split; [revert Hnc; uncancel|].
      rewrite attempts_of_round by done.
      change (attempts_of
                ([EvPrint (LogRetry a (MaxAttempts config) (error_Error e) d);
                  EvSleep d] ++ tr)) with (attempts_of tr).
      cbn [length]. split; [lia|]. split; [by constructor|].
      subst l'. destruct (attempts_of tr) as [|p ps]; [reflexivity|].
      change (last ((a, Some e) :: p :: ps)) with (last (p :: ps)).
      destruct (last (p :: ps)) eqn:Hlast; [reflexivity|].
      by apply last_None in Hlast.
    + intros Hnd Hnc Hr. apply IHconv; [| |done].
      * intros Hd. apply Hnd. revert Hd. undeny.
      * intros Hc. apply Hnc. revert Hc. uncancel.
Qed.

Section RunTheorems.

Context {S : Type}.
Variable fn : S → option error * S.
Variable wallclock : nat → Z.
Variable ctxDone : nat → bool.
Variable ctxErr : error.

(** [RetryWithBackoff] returns, and its run has one of the shapes. *)
Lemma RetryWithBackoff_shape config (w : @World S) :
  MaxAttempts config ≤ max_int64 →
  ∃ r cb' w' tr,
    RetryWithBackoff fn wallclock ctxDone ctxErr config w = Some (r, cb', w') ∧
    trace w' = trace w ++ tr ∧
    RunShape config ctxErr 1 (InitialDelay config) None tr r.
Proof.
  intros Hmax. unfold RetryWithBackoff.
  assert (Hmin : min_int64 ≤ 1) by (unfold min_int64; lia).
  destruct (retryLoop_runs fn wallclock ctxDone ctxErr config Hmax
              (Datatypes.S (Z.to_nat (MaxAttempts config))) 1
              (InitialDelay config) None (CircuitBreaker_ config) w Hmin)
    as (r & cb' & w' & tr & Hrun & Htr & _); [lia | lia |].
  destruct (retryLoop_shape fn wallclock ctxDone ctxErr config Hmax _ _ _ _ _
              _ _ _ _ Hmin Hrun) as (tr' & Htr' & Hshape).
  rewrite Htr in Htr'. apply app_inv_head in Htr'. subst tr'.
  by exists r, cb', w', tr.
Qed.

(** What a run returns tells how it ended. *)
Lemma result_of_ending config e (s : S) i r :
  r = result_of fn ctxErr config e s i →
  (r = None ↔ e = EndSucceeded) ∧
  (r = Some errBreakerOpen ↔ e = EndRefused) ∧
  (r = Some (errCancelled ctxErr) ↔ e = EndCancelled) ∧
  ((∃ l, r = Some (exceeded config l)) ↔ e = EndExhausted).
Proof.
  intros ->.
  pose proof (exceeded_not_open config) as Ho.
  pose proof (exceeded_not_cancelled config ctxErr) as Hc.
  destruct e; simpl; (split; [|split; [|split]]); split; try done;
    try (intros [= H]; first [by apply Ho in H | by apply Hc in H
                             | by symmetry in H; apply Ho in H
                             | by symmetry in H; apply Hc in H]);
    try (intros [l [= H]]; first [by apply Ho in H | by apply Hc in H
                             | by symmetry in H; apply Ho in H
                             | by symmetry in H; apply Hc in H]);
    try (intros _; by eexists).
Qed.

(** X5.  Whatever the operation, the breaker and the context do,
    [RetryWithBackoff] returns, having invoked the operation some number
    [n] of times, at most [MaxAttempts]: the state of the operation is the
    one after [n] invocations, and the attempts of the run are these
    invocations, numbered 1, 2, ..., each with what the operation returned.
    It never invokes the operation again after a success: every invocation
    but the last returned an error.  It returns [nil] exactly when the last
    invocation returned [nil]; and when the operation returns [nil] at an
    invocation that the run reaches (the breaker lets it go ahead, and the
    earlier attempts were let through, failed and were followed by a
    completed sleep), this invocation is the last and the run returns
    [nil]. *)
Theorem RetryWithBackoff_stops_at_first_success
    (config : RetryConfig) (w : @World S) :
  MaxAttempts config ≤ max_int64 →
  ∃ r cb' w' tr n,
    RetryWithBackoff fn wallclock ctxDone ctxErr config w = Some (r, cb', w') ∧
    trace w' = trace w ++ tr ∧
    fnState w' = invoked fn n (fnState w) ∧
    attempts_of tr = rounds fn 1 (fnState w) n ∧
    Z.of_nat n ≤ Z.max 0 (MaxAttempts config) ∧
    (∀ j, (Datatypes.S j < n)%nat → err_at fn (fnState w) j ≠ None) ∧
    (r = None ↔ ∃ m, n = Datatypes.S m ∧ err_at fn (fnState w) m = None) ∧
    (∀ m, Z.of_nat m < MaxAttempts config →
          (∀ j, (j < m)%nat →
                ending_of fn wallclock ctxDone config w j = None) →
          allowed_at wallclock (CircuitBreaker_ config) (clockReads w) m
            = true →
          err_at fn (fnState w) m = None →
          r = None ∧ n = Datatypes.S m) ∧
    (attempts_of tr).*1 = seqZ 1 (Z.of_nat (length (attempts_of tr))) ∧
    Z.of_nat (length (attempts_of tr)) ≤ Z.max 0 (MaxAttempts config) ∧
    (∀ pre x post, attempts_of tr = pre ++ x :: post → post ≠ [] →
                   x.2 ≠ None) ∧
    (r = None ↔ ∃ a, last (attempts_of tr) = Some (a, None)).
Proof.
  intros Hmax.
  destruct (RetryWithBackoff_shape config w Hmax)
    as (r & cb' & w' & tr & Hrun & Htr & Hshape).
  destruct (shape_attempts _ _ _ _ _ _ _ Hshape) as (Hnum & Hlen & Hfail & Hnil).
  exists r, cb', w', tr.
  destruct (Z.le_gt_cases 1 (MaxAttempts config)) as [Hone|Hzero].
  - destruct (RetryWithBackoff_tied fn wallclock ctxDone ctxErr config w
                r cb' w' tr (conj Hone Hmax) Hrun Htr)
      as (i & e & Hend & Hi & Hr & Hfs & Hws & Hatt & Hsl & _ & _).
    destruct (result_of_ending _ _ _ _ _ Hr) as (Hnone & _).
    exists (calls_of e i). do 4 (split; [done|]).
    split; [destruct e; simpl; lia|].
    split.
    { intros j Hj. destruct Hend as [Hpre _].
      assert (Hlt : (j < i)%nat) by (destruct e; simpl in Hj; lia).
      specialize (Hpre j Hlt). apply ending_at_None in Hpre. tauto. }
    split.
    { rewrite Hnone. split.
      - intros ->. exists i. split; [done|]. destruct Hend as [_ Hend].
        apply ending_at_succeeded in Hend. tauto.
      - intros (m & Hm & Herr). destruct Hend as [Hpre Hend].
        destruct e; simpl in Hm; [| done | |].
        + subst i. specialize (Hpre m (Nat.lt_succ_diag_r m)).
          apply ending_at_None in Hpre. tauto.
        + injection Hm as <-. apply ending_at_exhausted in Hend. tauto.
        + injection Hm as <-. apply ending_at_cancelled in Hend. tauto. }
    split.
    { intros m Hm Hpre Hallow Herr.
      assert (Hend' : first_ending (ending_of fn wallclock ctxDone config w) m
                        EndSucceeded)
        by (split; [done | by apply ending_at_succeeded]).
      destruct (first_ending_unique _ _ _ _ _ Hend Hend') as [-> ->].
      split; [by apply Hnone | done]. }
    split; [done|]. split; [lia|]. by split.
  - assert (Hle : MaxAttempts config ≤ 0) by lia.
    pose proof (RetryWithBackoff_no_attempt fn wallclock ctxDone ctxErr config
                  w Hle) as Hrun0.
    rewrite Hrun0 in Hrun. injection Hrun as <- <- <-.
    exists 0%nat. do 3 (split; [done|]).
    split.
    { rewrite <- (app_nil_r (trace w)) in Htr at 1.
      apply app_inv_head in Htr. by subst tr. }
    split; [lia|]. split; [intros j ?; lia|].
    split; [split; [done | by intros (m & ? & _)]|].
    split; [intros m ?; lia|].
    split; [done|]. split; [lia|]. by split.
Qed.

(** X6.  In every run of [RetryWithBackoff] the sleeps are the first
    delays of the backoff: [InitialDelay] as it is given, then each time the
    minimum of the scaled delay and [MaxDelay]; so every sleep after the
    first is at most [MaxDelay].  There is at most one sleep per attempt
    and there are fewer sleeps than [MaxAttempts]. *)
Theorem RetryWithBackoff_sleeps_follow_backoff
    (config : RetryConfig) (w : @World S) :
  MaxAttempts config ≤ max_int64 →
  ∃ r cb' w' tr,
    RetryWithBackoff fn wallclock ctxDone ctxErr config w = Some (r, cb', w') ∧
    trace w' = trace w ++ tr ∧
    sleeps_of tr
      = backoff config (length (sleeps_of tr)) (InitialDelay config) ∧
    (sleeps_of tr ≠ [] → head (sleeps_of tr) = Some (InitialDelay config)) ∧
    Forall (λ d, d ≤ MaxDelay config) (tail (sleeps_of tr)) ∧
    (length (sleeps_of tr) ≤ length (attempts_of tr))%nat ∧
    Z.of_nat (length (sleeps_of tr)) ≤ Z.max 0 (MaxAttempts config - 1).
Proof.
  intros Hmax.
  destruct (RetryWithBackoff_shape config w Hmax)
    as (r & cb' & w' & tr & Hrun & Htr & Hshape).
  exists r, cb', w', tr. do 2 (split; [done|]).
  destruct (shape_sleeps _ _ _ _ _ _ _ Hshape) as (Hsl & Hle & Hlt).
  split; [done|]. split.
  { rewrite Hsl. by destruct (length (sleeps_of tr)). }
  split; [rewrite Hsl; apply backoff_tail_bounded|]. by split.
Qed.

(** X7.  A run of [RetryWithBackoff] returns the cancellation error, which
    wraps [ctx.Err()], exactly when the caller's context is done during one
    of its waits: the earlier attempts were let through by the breaker,
    failed and were followed by a sleep during which the context was not
    done, a further attempt is let through and fails, attempts are left,
    and the context is done during the wait that follows.  The run has then
    invoked the operation for these attempts and no more, and the
    cancellation is its last event, after the sleeps of the backoff so far;
    the wait it cut short was for the next delay of the backoff.  In a run
    that returns anything else the context was done during no wait. *)
Theorem RetryWithBackoff_cancelled_wait_ends_run
    (config : RetryConfig) (w : @World S) :
  MaxAttempts config ≤ max_int64 →
  ∃ r cb' w' tr,
    RetryWithBackoff fn wallclock ctxDone ctxErr config w = Some (r, cb', w') ∧
    trace w' = trace w ++ tr ∧
    errors_Unwrap (errCancelled ctxErr) = Some ctxErr ∧
    (r = Some (errCancelled ctxErr) ↔
     ∃ i, Z.of_nat i < MaxAttempts config ∧
          first_ending (ending_of fn wallclock ctxDone config w) i
            EndCancelled) ∧
    (∀ i, Z.of_nat i < MaxAttempts config →
          first_ending (ending_of fn wallclock ctxDone config w) i
            EndCancelled →
          ctxDone (waits w + i) = true ∧
          (∀ j, (j < i)%nat → ctxDone (waits w + j) = false) ∧
          (∀ j, (j ≤ i)%nat →
                allowed_at wallclock (CircuitBreaker_ config) (clockReads w) j
                  = true ∧
                err_at fn (fnState w) j ≠ None) ∧
          Z.of_nat i + 1 < MaxAttempts config ∧
          r = Some (errCancelled ctxErr) ∧
          fnState w' = invoked fn (Datatypes.S i) (fnState w) ∧
          attempts_of tr = rounds fn 1 (fnState w) (Datatypes.S i) ∧
          waits w' = (waits w + Datatypes.S i)%nat ∧
          sleeps_of tr = backoff config i (InitialDelay config)) ∧
    (r ≠ Some (errCancelled ctxErr) →
       (waits w' = waits w + length (sleeps_of tr))%nat ∧
       ∀ j, (j < length (sleeps_of tr))%nat → ctxDone (waits w + j) = false) ∧
    (cancelled tr ↔ r = Some (errCancelled ctxErr)) ∧
    (cancelled tr →
       ¬ denied tr ∧
       ∃ pre d, tr = pre ++ [EvCancelled d] ∧ ¬ cancelled pre ∧
                sleeps_of tr ++ [d]
                = backoff config (Datatypes.S (length (sleeps_of tr)))
                    (InitialDelay config) ∧
                ∃ a e, last (attempts_of tr) = Some (a, Some e)).
Proof.
  intros Hmax.
  destruct (RetryWithBackoff_shape config w Hmax)
    as (r & cb' & w' & tr & Hrun & Htr & Hshape).
  exists r, cb', w', tr. do 3 (split; [done|]).
  destruct (shape_cancelled _ _ _ _ _ _ _ Hshape) as [Hiff Hlast].
  destruct (Z.le_gt_cases 1 (MaxAttempts config)) as [Hone|Hzero].
  - destruct (RetryWithBackoff_tied fn wallclock ctxDone ctxErr config w
                r cb' w' tr (conj Hone Hmax) Hrun Htr)
      as (i & e & Hend & Hi & Hr & Hfs & Hws & Hatt & Hsl & _ & _).
    destruct (result_of_ending _ _ _ _ _ Hr) as (_ & _ & Hcan & _).
    split.
    { rewrite Hcan. split.
      - intros ->. by exists i.
      - intros (i' & _ & Hend').
        by destruct (first_ending_unique _ _ _ _ _ Hend Hend'). }
    split.
    { intros i' _ Hend'.
      destruct (first_ending_unique _ _ _ _ _ Hend Hend') as [-> ->].
      destruct Hend as [Hpre Hend]. apply ending_at_cancelled in Hend.
      destruct Hend as (Hallow & Herr & Hleft & Hdone).
      split; [done|].
      split.
      { intros j Hj. specialize (Hpre j Hj). apply ending_at_None in Hpre.
        tauto. }
      split.
      { intros j Hj. destruct (decide (j = i')) as [->|Hne]; [done|].
        assert (Hlt : (j < i')%nat) by lia.
        specialize (Hpre j Hlt). apply ending_at_None in Hpre. tauto. }
      split; [lia|]. by rewrite Hr. }
    split; [|done].
    intros Hnot.
    assert (He : e ≠ EndCancelled) by (intros He; by apply Hcan in He).
    rewrite Hsl, length_backoff. destruct Hend as [Hpre _].
    split; [rewrite Hws; destruct e; simpl; done || lia|].
    intros j Hj. specialize (Hpre j Hj). apply ending_at_None in Hpre. tauto.
  - assert (Hle : MaxAttempts config ≤ 0) by lia.
    rewrite (RetryWithBackoff_no_attempt fn wallclock ctxDone ctxErr config w Hle)
      in Hrun.
    injection Hrun as <- <- <-.
    rewrite <- (app_nil_r (trace w)) in Htr at 1.
    apply app_inv_head in Htr. subst tr.
    split.
    { split; [intros [= H]; by apply exceeded_not_cancelled in H|].
      intros (i & ? & _). lia. }
    split; [intros i ?; lia|].
    split; [|done]. intros _. split; [simpl; lia|]. intros j Hj. simpl in Hj. lia.
Qed.

(** X8.  A run of [RetryWithBackoff] returns the aggregate failure exactly
    when there is no attempt to make ([MaxAttempts] is not positive) or
    every one of the [MaxAttempts] attempts was let through by the breaker
    and failed, the context not being done during the waits between them.
    The operation has then been invoked [MaxAttempts] times, the attempts of
    the run are these invocations with the errors the operation returned,
    and the error the aggregate failure wraps is the one the operation
    returned at its last invocation, or [nil] when there was no attempt.
    Such a run was neither refused nor cancelled. *)
Theorem RetryWithBackoff_aggregate_failure
    (config : RetryConfig) (w : @World S) :
  MaxAttempts config ≤ max_int64 →
  ∃ r cb' w' tr,
    RetryWithBackoff fn wallclock ctxDone ctxErr config w = Some (r, cb', w') ∧
    trace w' = trace w ++ tr ∧
    ((∃ l, r = Some (exceeded config l)) ↔
     MaxAttempts config ≤ 0 ∨
     ∃ i, first_ending (ending_of fn wallclock ctxDone config w) i
            EndExhausted) ∧
    (∀ i, 1 ≤ MaxAttempts config →
          first_ending (ending_of fn wallclock ctxDone config w) i
            EndExhausted →
          Z.of_nat i + 1 = MaxAttempts config ∧
          (∀ j, (j ≤ i)%nat →
                allowed_at wallclock (CircuitBreaker_ config) (clockReads w) j
                  = true ∧
                err_at fn (fnState w) j ≠ None) ∧
          (∀ j, (j < i)%nat → ctxDone (waits w + j) = false) ∧
          r = Some (exceeded config (err_at fn (fnState w) i)) ∧
          fnState w'
            = invoked fn (Z.to_nat (MaxAttempts config)) (fnState w) ∧
          attempts_of tr
            = rounds fn 1 (fnState w) (Z.to_nat (MaxAttempts config)) ∧
          waits w' = (waits w + i)%nat ∧
          sleeps_of tr = backoff config i (InitialDelay config)) ∧
    ((∃ l, r = Some (exceeded config l)) ↔
     ¬ denied tr ∧ ¬ cancelled tr ∧ r ≠ None) ∧
    (∀ l, r = Some (exceeded config l) →
       Z.of_nat (length (attempts_of tr)) = Z.max 0 (MaxAttempts config) ∧
       Forall (λ x, x.2 ≠ None) (attempts_of tr) ∧
       errors_Unwrap (exceeded config l) = l ∧
       l = match last (attempts_of tr) with Some x => x.2 | None => None end) ∧
    (MaxAttempts config ≤ 0 →
       tr = [] ∧ w' = w ∧ cb' = CircuitBreaker_ config ∧
       r = Some (exceeded config None)).
Proof.
  intros Hmax.
  destruct (RetryWithBackoff_shape config w Hmax)
    as (r & cb' & w' & tr & Hrun & Htr & Hshape).
  exists r, cb', w', tr. do 2 (split; [done|]).
  destruct (shape_exhausted _ _ _ _ _ _ _ Hshape) as [Hex Hconv].
  assert (Hties :
    ((∃ l, r = Some (exceeded config l)) ↔
     MaxAttempts config ≤ 0 ∨
     ∃ i, first_ending (ending_of fn wallclock ctxDone config w) i
            EndExhausted) ∧
    (∀ i, 1 ≤ MaxAttempts config →
          first_ending (ending_of fn wallclock ctxDone config w) i
            EndExhausted →
          Z.of_nat i + 1 = MaxAttempts config ∧
          (∀ j, (j ≤ i)%nat →
                allowed_at wallclock (CircuitBreaker_ config) (clockReads w) j
                  = true ∧
                err_at fn (fnState w) j ≠ None) ∧
          (∀ j, (j < i)%nat → ctxDone (waits w + j) = false) ∧
          r = Some (exceeded config (err_at fn (fnState w) i)) ∧
          fnState w'
            = invoked fn (Z.to_nat (MaxAttempts config)) (fnState w) ∧
          attempts_of tr
            = rounds fn 1 (fnState w) (Z.to_nat (MaxAttempts config)) ∧
          waits w' = (waits w + i)%nat ∧
          sleeps_of tr = backoff config i (InitialDelay config))).
  { destruct (Z.le_gt_cases 1 (MaxAttempts config)) as [Hone|Hzero].
    - destruct (RetryWithBackoff_tied fn wallclock ctxDone ctxErr config w
                  r cb' w' tr (conj Hone Hmax) Hrun Htr)
        as (i & e & Hend & Hi & Hr & Hfs & Hws & Hatt & Hsl & _ & _).
      destruct (result_of_ending _ _ _ _ _ Hr) as (_ & _ & _ & Hexh).
      split.
      { rewrite Hexh. split.
        - intros ->. right. by exists i.
        - intros [? | (i' & Hend')]; [lia|].
          by destruct (first_ending_unique _ _ _ _ _ Hend Hend'). }
      intros i' _ Hend'.
      destruct (first_ending_unique _ _ _ _ _ Hend Hend') as [-> ->].
      destruct Hend as [Hpre Hend]. apply ending_at_exhausted in Hend.
      destruct Hend as (Hallow & Herr & Hlast).
      assert (Hn : Datatypes.S i' = Z.to_nat (MaxAttempts config)) by lia.
      split; [lia|].
      split.
      { intros j Hj. destruct (decide (j = i')) as [->|Hne]; [done|].
        assert (Hlt : (j < i')%nat) by lia.
        specialize (Hpre j Hlt). apply ending_at_None in Hpre. tauto. }
      split.
      { intros j Hj. specialize (Hpre j Hj). apply ending_at_None in Hpre.
        tauto. }
      split; [by rewrite Hr|]. simpl in Hfs, Hatt, Hws.
      rewrite <- Hn. split; [done|]. split; [done|]. split; [lia | done].
    - split; [|intros i ?; lia]. split; [intros _; left; lia|]. intros _.
      rewrite (RetryWithBackoff_no_attempt fn wallclock ctxDone ctxErr config w)
        in Hrun by lia.
      injection Hrun as <- <- <-. by eexists. }
  destruct Hties as [Hiff Hties].
  split; [done|]. split; [done|].
  split; [|split].
  - split.
    + intros [l Hr]. destruct (Hex l Hr) as (? & ? & _). by rewrite Hr.
    + intros (? & ? & ?). by apply Hconv.
  - intros l Hr. destruct (Hex l Hr) as (_ & _ & Hlen & Hall & Hl).
    split; [lia|]. by split.
  - intros Hle. unfold RetryWithBackoff in Hrun. cbn [retryLoop] in Hrun.
    destruct (Z.leb_spec 1 (MaxAttempts config)); [lia|].
    injection Hrun as <- <- <-.
    rewrite <- (app_nil_r (trace w)) in Htr at 1.
    apply app_inv_head in Htr. by subst tr.
Qed.

End RunTheorems.

Lemma RetryWithBackoff_stops_at_first_success_witness :
  ∃ r cb' w',
    RetryWithBackoff flaky_op steady_clock never_done ctxCanceled
      (DefaultRetryConfig "liquidity") world0 = Some (r, cb', w') ∧
    r = None ∧ fnState w' = 3%nat ∧
    attempts_of (trace w')
      = [(1, Some (ErrForeign "connection refused"));
         (2, Some (ErrForeign "connection refused")); (3, None)].
Proof.
  assert (Hmax : MaxAttempts (DefaultRetryConfig "liquidity") ≤ max_int64)
    by (vm_compute; discriminate).
  destruct (RetryWithBackoff_stops_at_first_success flaky_op steady_clock
              never_done ctxCanceled (DefaultRetryConfig "liquidity") world0
              Hmax)
    as (r & cb' & w' & tr & n & Hrun & Htr & Hfs & Hatt & _ & _ & _ & Hfirst & _).
  destruct (Hfirst 2%nat) as [Hr Hn].
  { vm_compute. reflexivity. }
  { intros [|[|j]] Hj; [reflexivity | reflexivity | lia]. }
  { reflexivity. }
  { reflexivity. }
  exists r, cb', w'. split; [exact Hrun|]. split; [exact Hr|].
  simpl in Htr. rewrite Htr, Hfs, Hatt, Hn. split; reflexivity.
Defined.

Lemma RetryWithBackoff_sleeps_follow_backoff_witness :
  ∃ r cb' w',
    RetryWithBackoff flaky_op steady_clock never_done ctxCanceled
      (DefaultRetryConfig "liquidity") world0 = Some (r, cb', w') ∧
    sleeps_of (trace w') = [50 * Millisecond; 100 * Millisecond].
Proof.
  assert (Hmax : MaxAttempts (DefaultRetryConfig "liquidity") ≤ max_int64)
    by (vm_compute; discriminate).
  destruct (RetryWithBackoff_sleeps_follow_backoff flaky_op steady_clock
              never_done ctxCanceled (DefaultRetryConfig "liquidity") world0
              Hmax) as (r & cb' & w' & tr & Hrun & _).
  exists r, cb', w'. split; [exact Hrun|].
  vm_compute in Hrun. injection Hrun as <- <- <-.
  reflexivity.
Defined.

Lemma RetryWithBackoff_cancelled_wait_ends_run_witness :
  ∃ r cb' w',
    RetryWithBackoff failing_op steady_clock done_at_second_wait ctxCanceled
      (DefaultRetryConfig "liquidity") world0 = Some (r, cb', w') ∧
    r = Some (errCancelled ctxCanceled) ∧
    fnState w' = 2%nat ∧ waits w' = 2%nat ∧
    sleeps_of (trace w') = [50 * Millisecond].
Proof.
  assert (Hmax : MaxAttempts (DefaultRetryConfig "liquidity") ≤ max_int64)
    by (vm_compute; discriminate).
  destruct (RetryWithBackoff_cancelled_wait_ends_run failing_op steady_clock
              done_at_second_wait ctxCanceled (DefaultRetryConfig "liquidity")
              world0 Hmax)
    as (r & cb' & w' & tr & Hrun & Htr & _ & _ & Hcut & _).
  destruct (Hcut 1%nat) as (_ & _ & _ & _ & Hr & Hfs & _ & Hws & Hsl).
  { vm_compute. reflexivity. }
  { split; [|reflexivity].
    intros j Hj. assert (j = 0%nat) as -> by lia. reflexivity. }
  exists r, cb', w'. split; [exact Hrun|]. split; [exact Hr|].
  simpl in Htr. rewrite Htr, Hsl. split; [exact Hfs|]. split; [exact Hws|].
  reflexivity.
Defined.

Lemma RetryWithBackoff_aggregate_failure_witness :
  let config := DefaultRetryConfig "liquidity" in
  ∃ r cb' w',
    RetryWithBackoff failing_op steady_clock never_done ctxCanceled config
      world0 = Some (r, cb', w') ∧
    r = Some (exceeded config
                (Some (ErrForeign "context deadline exceeded"))) ∧
    fnState w' = 3%nat ∧ waits w' = 2%nat.
Proof.
  intros config.
  assert (Hmax : MaxAttempts config ≤ max_int64) by (vm_compute; discriminate).
  destruct (RetryWithBackoff_aggregate_failure failing_op steady_clock
              never_done ctxCanceled config world0 Hmax)
    as (r & cb' & w' & tr & Hrun & _ & _ & Hties & _).
  destruct (Hties 2%nat) as (_ & _ & _ & Hr & Hfs & _ & Hws & _).
  { vm_compute. discriminate. }
  { split; [|reflexivity].
    intros [|[|j]] Hj; [reflexivity | reflexivity | lia]. }
  exists r, cb', w'. split; [exact Hrun|]. split; [exact Hr|].
  split; [exact Hfs | exact Hws].
Defined.

(** ** The broadcast channel and the hub's loop *)

(** X9.  Calls of [BroadcastMessage] in a row on the open broadcast
    channel, with nothing received in between, never block nor panic and
    leave the channel open; the only error a call returns is the one of
    [json.Marshal], and a message that does not marshal takes no room.
    The encodings are queued in order behind what the channel held, as far
    as its capacity allows; the ones that come once it is full are dropped,
    so it is the oldest messages that are kept. *)
Theorem BroadcastMessages_keep_oldest
    (json_Marshal : WebSocketMessage → string + error)
    (messages : list WebSocketMessage) (bc : Chan string) :
  closed bc = false → (length (buf bc) ≤ cap bc)%nat →
  ∃ outs bc',
    BroadcastMessages json_Marshal messages bc = Ok (outs, bc') ∧
    closed bc' = false ∧ cap bc' = cap bc ∧
    (length (buf bc') ≤ cap bc')%nat ∧
    buf bc' = buf bc ++ take (cap bc - length (buf bc))
                          (marshalled json_Marshal messages) ∧
    outs.*1 = marshal_error json_Marshal <$> messages ∧
    length (filter (λ o, o.2 = true) outs)
    = (length (marshalled json_Marshal messages)
       - (cap bc - length (buf bc)))%nat.
Proof.
  revert bc. induction messages as [|m messages IH]; intros bc Hopen Hlen.
  { exists [], bc. simpl. rewrite take_nil, app_nil_r. by repeat split. }
  cbn [BroadcastMessages]. unfold BroadcastMessage.
  assert (Hms : marshalled json_Marshal (m :: messages)
                = match json_Marshal m with
                  | inl d => d :: marshalled json_Marshal messages
                  | inr _ => marshalled json_Marshal messages
                  end).
  { unfold marshalled. cbn [omap list_omap]. by destruct (json_Marshal m). }
  rewrite Hms, fmap_cons. unfold marshal_error at 1.
  destruct (json_Marshal m) as [d|e] eqn:Hm.
  - unfold trySend. rewrite Hopen.
    destruct (Nat.ltb_spec (length (buf bc)) (cap bc)) as [Hroom|Hfull].
    + destruct (IH (mkChan (buf bc ++ [d]) (cap bc) false))
        as (outs & bc' & -> & Hc & Hcap & Hle & Hbuf & Herr & Hdrop);
        [done | cbn [buf cap]; rewrite length_app; cbn [length]; lia |].
      exists ((None, false) :: outs), bc'. cbn [buf cap] in *.
      rewrite length_app in Hbuf, Hdrop. cbn [length] in Hbuf, Hdrop.
      split; [done|]. split; [done|]. split; [done|]. split; [done|].
      split; [|split].
      * rewrite Hbuf, <- app_assoc.
        replace (cap bc - length (buf bc))%nat
          with (Datatypes.S (cap bc - (length (buf bc) + 1)))%nat by lia.
        done.
      * rewrite fmap_cons, Herr. done.
      * rewrite filter_cons_False by (cbn; discriminate).
        rewrite Hdrop. cbn [length]. lia.
    + destruct (IH bc) as (outs & bc' & -> & Hc & Hcap & Hle & Hbuf & Herr & Hdrop);
        [done | done |].
      exists ((None, true) :: outs), bc'.
      split; [done|]. split; [done|]. split; [done|]. split; [done|].
      split; [|split].
      * rewrite Hbuf.
        replace (cap bc - length (buf bc))%nat with 0%nat by lia. done.
      * rewrite fmap_cons, Herr. done.
      * rewrite filter_cons_True by done. cbn [length].
        rewrite Hdrop. lia.
  - destruct (IH bc) as (outs & bc' & -> & Hc & Hcap & Hle & Hbuf & Herr & Hdrop);
      [done | done |].
    exists ((Some e, false) :: outs), bc'.
    split; [done|]. split; [done|]. split; [done|]. split; [done|].
    split; [done|]. split.
    + rewrite fmap_cons, Herr. done.
    + rewrite filter_cons_False by (cbn; discriminate). done.
Qed.

Lemma BroadcastMessages_keep_oldest_witness :
  ∃ outs bc',
    BroadcastMessages picky_Marshal
      [tx_message "a"; status_message; tx_message "b"; tx_message "c"]
      (mkChan ["z"] 3 false) = Ok (outs, bc') ∧
    buf bc' = ["z"; "a"; "b"] ∧
    outs.*2 = [false; false; false; true].
Proof.
  destruct (BroadcastMessages_keep_oldest picky_Marshal
              [tx_message "a"; status_message; tx_message "b"; tx_message "c"]
              (mkChan ["z"] 3 false))
    as (outs & bc' & Hrun & _ & _ & _ & Hbuf & _); [reflexivity | simpl; lia |].
  exists outs, bc'. split; [exact Hrun|]. split; [exact Hbuf|].
  vm_compute in Hrun. by injection Hrun as <- <-.
Defined.

(** A client whose channel is open after an iteration of the hub's loop had
    it open before, and its buffer has grown by what it was offered. *)
Lemma hubStep_open_channel ev h h1 c cl1 :
  hub_ok h → event_ok h ev → hubStep ev h = Ok h1 →
  heap h1 !! c = Some cl1 → closed (send cl1) = false →
  ∃ cl, heap h !! c = Some cl ∧ closed (send cl) = false ∧
        cap (send cl1) = cap (send cl) ∧
        buf (send cl1) = buf (send cl) ++ offered_at c ev h ∧
        ((length (buf (send cl)) ≤ cap (send cl))%nat →
         (length (buf (send cl1)) ≤ cap (send cl1))%nat).
Proof.
  intros Hok Hev Hstep Hcl1 Hopen1. destruct ev as [c0|c0|order].
  - injection Hstep as <-. simpl in *. exists cl1.
    rewrite app_nil_r. by repeat split.
  - simpl in Hstep. unfold offered_at.
    destruct (clients h !! c0) as [v|] eqn:Hin; cycle 1.
    { injection Hstep as <-. exists cl1. rewrite app_nil_r. by repeat split. }
    destruct (Hok c0) as (cl0 & Hcl0 & Hopen0); [by rewrite Hin|].
    rewrite Hcl0 in Hstep. unfold close in Hstep. rewrite Hopen0 in Hstep.
    injection Hstep as <-. simpl in Hcl1.
    destruct (decide (c = c0)) as [->|Hne].
    + rewrite lookup_insert_eq in Hcl1. injection Hcl1 as <-. done.
    + rewrite lookup_insert_ne in Hcl1 by done. exists cl1.
      rewrite app_nil_r. by repeat split.
  - destruct Hev as (Hbuf & Hnd & Horder). simpl in Hstep. unfold offered_at.
    destruct (buf (broadcast h)) as [|message rest] eqn:Hb; [done|].
    destruct (offerAll_spec message order
                (mkHub (clients h)
                   (mkChan rest (cap (broadcast h)) (closed (broadcast h)))
                   (heap h)) Hnd) as (h' & Hrun & _ & Hout & _ & Hin).
    { intros c' _ Hs. by apply Hok. }
    rewrite Hrun in Hstep. injection Hstep as ->. simpl in *.
    destruct (clients h !! c) as [v|] eqn:Hc.
    + destruct (Hok c) as (cl & Hcl & Hopen); [by rewrite Hc|].
      assert (Hs : is_Some (clients h !! c)) by (by rewrite Hc).
      pose proof (Hin c cl (proj2 (Horder c) Hs) Hs Hcl) as Hres.
      unfold full in Hres.
      destruct (Nat.ltb_spec (length (buf (send cl))) (cap (send cl)))
        as [Hroom|Hfull]; simpl in Hres; destruct Hres as [_ Hq];
        rewrite Hq in Hcl1; injection Hcl1 as <-; [|done].
      exists cl. simpl. repeat split; try done.
      rewrite length_app. simpl. lia.
    + destruct (Hout c) as [_ Hh].
      { rewrite Horder, Hc. by intros []. }
      rewrite Hh in Hcl1. exists cl1. rewrite app_nil_r. by repeat split.
Qed.

(** X10.  [Run] over any events that respect the hub's assumptions (a
    client registers with an open channel, a broadcast is received when a
    message waits) never panics nor blocks: no channel is closed twice, and
    nothing is sent on a closed channel.  Every client in the set at the end
    has an open channel that holds, behind what it held at the start, every
    message the hub took off the broadcast channel while the client was in
    the set, in that order; and no buffer exceeds its capacity. *)
Theorem Run_delivers_in_order (evs : list HubEvent) (h : WebSocketHub) :
  hub_ok h → events_ok evs h →
  ∃ h',
    Run evs h = Ok h' ∧ hub_ok h' ∧
    ∀ c, is_Some (clients h' !! c) →
      ∃ cl cl',
        heap h !! c = Some cl ∧ heap h' !! c = Some cl' ∧
        closed (send cl) = false ∧ closed (send cl') = false ∧
        cap (send cl') = cap (send cl) ∧
        buf (send cl') = buf (send cl) ++ offered c evs h ∧
        ((length (buf (send cl)) ≤ cap (send cl))%nat →
         (length (buf (send cl')) ≤ cap (send cl'))%nat).
Proof.
  revert h. induction evs as [|ev evs IH]; intros h Hok Hevs.
  { exists h. split; [done|]. split; [done|]. intros c Hs.
    destruct (Hok c Hs) as (cl & Hcl & Hopen). exists cl, cl.
    simpl. rewrite app_nil_r. by repeat split. }
  destruct Hevs as [Hev Hrest]. cbn [Run offered].
  destruct (hubStep_keeps_hub_ok ev h Hok Hev) as (h1 & Hstep & Hok1).
  rewrite Hstep in Hrest |- *.
  destruct (IH h1 Hok1 Hrest) as (h' & Hrun & Hok' & Hcl).
  exists h'. split; [done|]. split; [done|]. intros c Hs.
  destruct (Hcl c Hs) as (cl1 & cl' & Hcl1 & Hcl' & Hopen1 & Hopen' & Hcap
                          & Hbuf & Hle).
  destruct (hubStep_open_channel ev h h1 c cl1 Hok Hev Hstep Hcl1 Hopen1)
    as (cl & Hcl0 & Hopen0 & Hcap0 & Hbuf0 & Hle0).
  exists cl, cl'. split; [done|]. split; [done|]. split; [done|].
  split; [done|]. split; [congruence|]. split.
  - rewrite Hbuf, Hbuf0. by rewrite app_assoc.
  - intros Hl. by apply Hle, Hle0.
Qed.

Lemma sample_hub_ok : hub_ok sample_hub.
Proof.
  intros c Hs. simpl in *.
  destruct (decide (c = 1%positive)) as [->|?]; [by eexists|].
  destruct (decide (c = 2%positive)) as [->|?]; [by eexists|].
  destruct (decide (c = 3%positive)) as [->|?]; [by eexists|].
  rewrite !lookup_insert_ne, lookup_singleton_ne in Hs by done. by destruct Hs.
Defined.

Lemma sample_hub_order c :
  c ∈ [3; 1; 2]%positive ↔ is_Some (clients sample_hub !! c).
Proof.
  simpl. rewrite !elem_of_cons, elem_of_nil. split.
  - intros [->|[->|[->|[]]]]; by eexists.
  - intros Hs.
    destruct (decide (c = 1%positive)) as [->|?]; [tauto|].
    destruct (decide (c = 2%positive)) as [->|?]; [tauto|].
    destruct (decide (c = 3%positive)) as [->|?]; [tauto|].
    rewrite !lookup_insert_ne, lookup_singleton_ne in Hs by done. by destruct Hs.
Defined.

Lemma Run_delivers_in_order_witness :
  ∃ h' cl',
    Run [RecvBroadcast [3; 1; 2]%positive; RecvUnregister 2%positive;
         RecvUnregister 1%positive] sample_hub = Ok h' ∧
    clients h' !! 3%positive = Some true ∧
    heap h' !! 3%positive = Some cl' ∧
    buf (send cl') = ["a"; "m"] ∧ closed (send cl') = false.
Proof.
  destruct (Run_delivers_in_order
              [RecvBroadcast [3; 1; 2]%positive; RecvUnregister 2%positive;
               RecvUnregister 1%positive] sample_hub sample_hub_ok)
    as (h' & Hrun & _ & Hcl).
  - split; [|vm_compute; done].
    split; [discriminate|]. split; [by apply (bool_decide_unpack _)|].
    exact sample_hub_order.
  - assert (H3 : clients h' !! 3%positive = Some true).
    { vm_compute in Hrun. injection Hrun as <-. reflexivity. }
    destruct (Hcl 3%positive) as (cl & cl' & Hh & Hh' & _ & Hopen & _ & Hbuf & _);
      [by rewrite H3|].
    exists h', cl'. split; [exact Hrun|]. split; [exact H3|].
    split; [exact Hh'|]. split; [|exact Hopen].
    rewrite Hbuf. injection Hh as <-. reflexivity.
Defined.

(** ** The consumer's worker *)

Lemma substring_length (s : string) : ∀ n m : nat,
  (n + m ≤ String.length s)%nat →
  String.length (String.substring n m s) = m.
Proof.
  induction s as [|a s IH]; intros n m Hle; simpl in *.
  - destruct n, m; simpl in *; try done; lia.
  - destruct n as [|n].
    + destruct m as [|m]; [done|]. simpl. f_equal. apply (IH 0%nat). lia.
    + apply IH. lia.
Qed.

(** [extractCountryFromBIC] always returns two bytes. *)
Lemma extractCountryFromBIC_length bic :
  String.length (extractCountryFromBIC bic) = 2%nat.
Proof.
  unfold extractCountryFromBIC, len.
  destruct (Z.geb_spec (Z.of_nat (String.length bic)) 6); [|done].
  apply substring_length. lia.
Qed.

Section WorkerFacts.

Context {R : Type}.
Variable xml_Unmarshal : string → Document + error.
Variable strconv_ParseFloat : string → float + error.
Variable fmt_Sscanf_f : string → option float.
Variable json_Marshal : WebSocketMessage → string + error.
Variable wallclock : nat → Z.
Variable liquidityClient : option (LiquidityClient R).
Variable bicMap : gmap string string.

(** X11.  For a message that carries a transaction, on the open broadcast
    channel, [broadcastTransactionToWS] builds exactly one transaction
    message and never blocks: its status is approved or rejected after the
    verdict, it carries the error code and message of the result and the
    raw XML, its latency is in whole milliseconds, and its two countries
    are never empty: the party's country when the message names one,
    otherwise the two bytes 4-5 of the agent's BIC, or XX when the BIC is
    shorter than six bytes.  The encoding is queued when the channel has
    room and dropped, with a log line, when it is full; an error of
    [json.Marshal] is swallowed. *)
Theorem broadcastTransactionToWS_sends_one_message
    (result : ValidationResult) (data : string) (doc : Document)
    (tx : TransactionInfo) (txs : list TransactionInfo) (now : Z)
    (bc : Chan string) :
  xml_Unmarshal data = inl doc →
  CdtTrfTxInf (FIToFICstmrCdtTrf doc) = tx :: txs →
  closed bc = false →
  ∃ txMsg bc' l,
    broadcastTransactionToWS xml_Unmarshal fmt_Sscanf_f json_Marshal result
      data now bc = Ok (bc', 1%nat, l) ∧
    match json_Marshal {| Type_ := "transaction"; Data := DataTransaction txMsg |}
    with
    | inr _ => bc' = bc ∧ l = []
    | inl d => if full bc then bc' = bc ∧ l = [LogBroadcastDropped]
               else bc' = queued d bc ∧ l = []
    end ∧
    tm_Status txMsg = (if Valid result then "approved" else "rejected") ∧
    tm_ErrorCode txMsg = ErrorCode result ∧
    tm_ErrorMsg txMsg = ErrorMsg result ∧
    tm_XML txMsg = data ∧
    tm_MsgID txMsg = MsgId (GrpHdr (FIToFICstmrCdtTrf doc)) ∧
    tm_Latency txMsg = Latency result `quot` Millisecond ∧
    tm_SourceCountry txMsg ≠ "" ∧ tm_DestCountry txMsg ≠ "" ∧
    (Ctry (PstlAdr (Dbtr tx)) ≠ "" →
     tm_SourceCountry txMsg = Ctry (PstlAdr (Dbtr tx))) ∧
    (Ctry (PstlAdr (Dbtr tx)) = "" →
     tm_SourceCountry txMsg
     = extractCountryFromBIC (BICFI (FinInstnId (DbtrAgt tx))) ∧
     String.length (tm_SourceCountry txMsg) = 2%nat) ∧
    (Ctry (PstlAdr (Cdtr tx)) ≠ "" →
     tm_DestCountry txMsg = Ctry (PstlAdr (Cdtr tx))) ∧
    (Ctry (PstlAdr (Cdtr tx)) = "" →
     tm_DestCountry txMsg
     = extractCountryFromBIC (BICFI (FinInstnId (CdtrAgt tx))) ∧
     String.length (tm_DestCountry txMsg) = 2%nat).
Proof.
  intros Hdoc Htx Hopen. unfold broadcastTransactionToWS.
  rewrite Hdoc, Htx. cbv zeta.
  match goal with
  | |- context [BroadcastTransaction _ ?m _] => set (txMsg := m)
  end.
  exists txMsg.
  unfold BroadcastTransaction, BroadcastMessage.
  assert (Hcountry : ∀ c bic,
    (if String.eqb c "" then extractCountryFromBIC bic else c) ≠ "" ∧
    (c ≠ "" → (if String.eqb c "" then extractCountryFromBIC bic else c) = c) ∧
    (c = "" →
     (if String.eqb c "" then extractCountryFromBIC bic else c)
     = extractCountryFromBIC bic ∧
     String.length (if String.eqb c "" then extractCountryFromBIC bic else c)
     = 2%nat)).
  { intros c bic. destruct (String.eqb_spec c "") as [->|Hne].
    - split; [|split; [done|]].
      + intros Heq. pose proof (extractCountryFromBIC_length bic) as Hl.
        rewrite Heq in Hl. done.
      + intros _. split; [done | apply extractCountryFromBIC_length].
    - split; [done|]. split; [done|]. done. }
  destruct (Hcountry (Ctry (PstlAdr (Dbtr tx)))
              (BICFI (FinInstnId (DbtrAgt tx)))) as (Hs1 & Hs2 & Hs3).
  destruct (Hcountry (Ctry (PstlAdr (Cdtr tx)))
              (BICFI (FinInstnId (CdtrAgt tx)))) as (Hd1 & Hd2 & Hd3).
  assert (Hfields :
    tm_Status txMsg = (if Valid result then "approved" else "rejected") ∧
    tm_ErrorCode txMsg = ErrorCode result ∧
    tm_ErrorMsg txMsg = ErrorMsg result ∧
    tm_XML txMsg = data ∧
    tm_MsgID txMsg = MsgId (GrpHdr (FIToFICstmrCdtTrf doc)) ∧
    tm_Latency txMsg = Latency result `quot` Millisecond) by done.
  destruct Hfields as (? & ? & ? & ? & ? & ?).
  destruct (json_Marshal _) as [d|e].
  - unfold trySend, full. rewrite Hopen.
    destruct (length (buf bc) <? cap bc)%nat; simpl.
    + eexists _, _. split; [done|]. split; [done|].
      do 6 (split; [assumption|]). subst txMsg.
      split; [exact Hs1|]. split; [exact Hd1|]. split; [exact Hs2|].
      split; [exact Hs3|]. split; [exact Hd2 | exact Hd3].
    + eexists _, _. split; [done|]. split; [done|].
      do 6 (split; [assumption|]). subst txMsg.
      split; [exact Hs1|]. split; [exact Hd1|]. split; [exact Hs2|].
      split; [exact Hs3|]. split; [exact Hd2 | exact Hd3].
  - eexists _, _. split; [done|]. split; [done|].
    do 6 (split; [assumption|]). subst txMsg.
    split; [exact Hs1|]. split; [exact Hd1|]. split; [exact Hs2|].
    split; [exact Hs3|]. split; [exact Hd2 | exact Hd3].
Qed.

(** What [broadcastTransactionToWS] leaves of an open broadcast channel. *)
Lemma broadcastTransactionToWS_open result data now (bc : Chan string) :
  closed bc = false →
  ∃ bc' n l,
    broadcastTransactionToWS xml_Unmarshal fmt_Sscanf_f json_Marshal result
      data now bc = Ok (bc', n, l) ∧
    closed bc' = false ∧ cap bc' = cap bc ∧
    ((length (buf bc) ≤ cap bc)%nat → (length (buf bc') ≤ cap bc')%nat).
Proof.
  intros Hopen. unfold broadcastTransactionToWS.
  destruct (xml_Unmarshal data) as [doc|e]; [|by eexists _, _, _].
  destruct (CdtTrfTxInf (FIToFICstmrCdtTrf doc)) as [|tx txs];
    [by eexists _, _, _|].
  cbv zeta. unfold BroadcastTransaction, BroadcastMessage.
  destruct (json_Marshal _) as [d|e]; [|by eexists _, _, _].
  unfold trySend. rewrite Hopen.
  destruct (Nat.ltb_spec (length (buf bc)) (cap bc)); simpl.
  - eexists _, _, _. split; [done|]. simpl. split; [done|]. split; [done|].
    rewrite length_app. simpl. lia.
  - by eexists _, _, _.
Qed.

(** The worker's treatment of one item, on an open broadcast channel. *)
Lemma processWork_runs data (st : @Consumer R) :
  closed (wsBroadcast st) = false →
  ∃ result st',
    processWork xml_Unmarshal strconv_ParseFloat fmt_Sscanf_f json_Marshal
      wallclock liquidityClient bicMap data st = Ok (result, st') ∧
    closed (wsBroadcast st') = false ∧
    cap (wsBroadcast st') = cap (wsBroadcast st) ∧
    results st' = results st ∧
    (clock st < clock st')%nat ∧
    remote st'
    = (checkLiquidity xml_Unmarshal strconv_ParseFloat liquidityClient bicMap
         data (remote st)).1.2 ∧
    MessagesValid st'
    = (if Valid result then wrap64 (MessagesValid st + 1)
       else MessagesValid st) ∧
    MessagesInvalid st'
    = (if Valid result then MessagesInvalid st
       else wrap64 (MessagesInvalid st + 1)) ∧
    result
    = let '(approved, code, msg, _) :=
        (checkLiquidity xml_Unmarshal strconv_ParseFloat liquidityClient
           bicMap data (remote st)).1.1 in
      if approved
      then validateTransaction xml_Unmarshal (wallclock (clock st))
             (wallclock (Datatypes.S (clock st)))
             (wallclock (Datatypes.S (Datatypes.S (clock st)))) data
      else {| Valid := false; ErrorCode := code; ErrorMsg := msg;
              ResultMsgId := ""; Timestamp := wallclock (clock st);
              Latency := 0 |}.
Proof.
  intros Hopen. unfold processWork.
  destruct (checkLiquidity _ _ _ _ data (remote st))
    as [[[[[approved c] m] bal] r1] l1].
  destruct approved; cbn [negb].
  - match goal with
    | |- context [broadcastTransactionToWS _ _ _ ?res _ ?t _] =>
        destruct (broadcastTransactionToWS_open res data t (wsBroadcast st)
                    Hopen) as (bc' & n & l & -> & Hc & Hcap & _)
    end.
    eexists _, _. split; [done|]. cbn. split; [done|]. split; [done|].
    split; [done|]. split; [lia|]. split; [done|].
    split; [by destruct (Valid _)|]. split; [by destruct (Valid _)|]. done.
  - match goal with
    | |- context [broadcastTransactionToWS _ _ _ ?res _ ?t _] =>
        destruct (broadcastTransactionToWS_open res data t (wsBroadcast st)
                    Hopen) as (bc' & n & l & -> & Hc & Hcap & _)
    end.
    eexists _, _. split; [done|]. cbn. split; [done|]. split; [done|].
    split; [done|]. split; [lia|]. by repeat split.
Qed.

End WorkerFacts.


Section WorkerTheorems.

Context {R : Type}.
Variable xml_Unmarshal : string → Document + error.
Variable strconv_ParseFloat : string → float + error.
Variable fmt_Sscanf_f : string → option float.
Variable json_Marshal : WebSocketMessage → string + error.
Variable wallclock : nat → Z.
Variable liquidityClient : option (LiquidityClient R).
Variable bicMap : gmap string string.

(** X12.  When the liquidity service answers the check for the first
    transaction with a refusal, the worker's result for the item is the
    refusal: invalid, with the service's error code, no message identifier
    and no latency.  [validateTransaction] is not consulted, so the item is
    counted invalid whether or not it is well-formed; the destination bank
    is not credited (the service has seen the check only); the balance the
    service reported is dropped. *)
Theorem liquidity_rejection_preempts_validation
    (data : string) (doc : Document) (tx : TransactionInfo)
    (txs : list TransactionInfo) (amount : float) (lc : LiquidityClient R)
    (resp : LiquidityCheckResponse) (r1 : R) (st : @Consumer R) :
  xml_Unmarshal data = inl doc →
  CdtTrfTxInf (FIToFICstmrCdtTrf doc) = tx :: txs →
  strconv_ParseFloat (Value (IntrBkSttlmAmt tx)) = inl amount →
  liquidityClient = Some lc →
  grpc_CheckLiquidity lc
    (ExtractBankIDFromBIC bicMap (BICFI (FinInstnId (DbtrAgt tx))))
    amount (Ccy (IntrBkSttlmAmt tx)) (remote st) = (inl resp, r1) →
  Approved resp = false →
  closed (wsBroadcast st) = false →
  checkLiquidity xml_Unmarshal strconv_ParseFloat liquidityClient bicMap data
    (remote st)
  = ((false, RespErrorCode resp,
      "Liquidity check rejected: " +:+ RespErrorCode resp,
      AvailableBalance resp), r1, []) ∧
  ∃ st',
    processWork xml_Unmarshal strconv_ParseFloat fmt_Sscanf_f json_Marshal
      wallclock liquidityClient bicMap data st
    = Ok ({| Valid := false; ErrorCode := RespErrorCode resp;
             ErrorMsg := "Liquidity check rejected: " +:+ RespErrorCode resp;
             ResultMsgId := ""; Timestamp := wallclock (clock st);
             Latency := 0 |}, st') ∧
    remote st' = r1 ∧
    MessagesValid st' = MessagesValid st ∧
    MessagesInvalid st' = wrap64 (MessagesInvalid st + 1).
Proof.
  intros Hdoc Htx Hamt Hlc Hrpc Hno Hopen.
  assert (Hcheck :
    checkLiquidity xml_Unmarshal strconv_ParseFloat liquidityClient bicMap data
      (remote st)
    = ((false, RespErrorCode resp,
        "Liquidity check rejected: " +:+ RespErrorCode resp,
        AvailableBalance resp), r1, [])).
  { unfold checkLiquidity, LiquidityClient_CheckLiquidity.
    rewrite Hdoc, Htx, Hamt, Hlc. cbv zeta. rewrite Hrpc, Hno. done. }
  split; [exact Hcheck|].
  destruct (processWork_runs xml_Unmarshal strconv_ParseFloat fmt_Sscanf_f
              json_Marshal wallclock liquidityClient bicMap data st Hopen)
    as (result & st' & Hrun & _ & _ & _ & _ & Hrem & Hv & Hi & Hres).
  rewrite Hcheck in Hrem, Hres. cbn in Hrem, Hres. subst result.
  exists st'. by repeat split.
Qed.

(** X13.  When the liquidity service approves the check for the first
    transaction, [checkLiquidity] credits the destination bank with the
    same amount and currency, once, and approves whatever the credit call
    returns (an error, a failure or a success).  The worker validates the
    message only afterwards: its result is the one of
    [validateTransaction], and when that result is invalid the item is
    counted invalid although the service has already been asked to debit
    and to credit. *)
Theorem liquidity_approval_settles_before_validation
    (data : string) (doc : Document) (tx : TransactionInfo)
    (txs : list TransactionInfo) (amount : float) (lc : LiquidityClient R)
    (resp : LiquidityCheckResponse) (r1 r2 : R)
    (credited : CreditBankResponse + error) (st : @Consumer R) :
  xml_Unmarshal data = inl doc →
  CdtTrfTxInf (FIToFICstmrCdtTrf doc) = tx :: txs →
  strconv_ParseFloat (Value (IntrBkSttlmAmt tx)) = inl amount →
  liquidityClient = Some lc →
  grpc_CheckLiquidity lc
    (ExtractBankIDFromBIC bicMap (BICFI (FinInstnId (DbtrAgt tx))))
    amount (Ccy (IntrBkSttlmAmt tx)) (remote st) = (inl resp, r1) →
  Approved resp = true →
  grpc_CreditBank lc
    (ExtractBankIDFromBIC bicMap (BICFI (FinInstnId (CdtrAgt tx))))
    amount (Ccy (IntrBkSttlmAmt tx)) r1 = (credited, r2) →
  closed (wsBroadcast st) = false →
  (checkLiquidity xml_Unmarshal strconv_ParseFloat liquidityClient bicMap data
     (remote st)).1 = ((true, "", "", 0%float), r2) ∧
  ∃ result st',
    processWork xml_Unmarshal strconv_ParseFloat fmt_Sscanf_f json_Marshal
      wallclock liquidityClient bicMap data st = Ok (result, st') ∧
    result = validateTransaction xml_Unmarshal (wallclock (clock st))
               (wallclock (Datatypes.S (clock st)))
               (wallclock (Datatypes.S (Datatypes.S (clock st)))) data ∧
    remote st' = r2 ∧
    (Valid result = false →
     MessagesValid st' = MessagesValid st ∧
     MessagesInvalid st' = wrap64 (MessagesInvalid st + 1)) ∧
    (Valid result = true →
     MessagesValid st' = wrap64 (MessagesValid st + 1) ∧
     MessagesInvalid st' = MessagesInvalid st).
Proof.
  intros Hdoc Htx Hamt Hlc Hrpc Hyes Hcredit Hopen.
  assert (Hcheck :
    (checkLiquidity xml_Unmarshal strconv_ParseFloat liquidityClient bicMap
       data (remote st)).1 = ((true, "", "", 0%float), r2)).
  { unfold checkLiquidity, LiquidityClient_CheckLiquidity,
      LiquidityClient_CreditBank.
    rewrite Hdoc, Htx, Hamt, Hlc. cbv zeta. rewrite Hrpc, Hyes. cbn [negb].
    rewrite Hcredit. by destruct credited. }
  split; [exact Hcheck|].
  destruct (processWork_runs xml_Unmarshal strconv_ParseFloat fmt_Sscanf_f
              json_Marshal wallclock liquidityClient bicMap data st Hopen)
    as (result & st' & Hrun & _ & _ & _ & _ & Hrem & Hv & Hi & Hres).
  destruct (checkLiquidity _ _ _ _ data (remote st)) as [[out r'] l].
  simpl in Hcheck. injection Hcheck as -> ->. cbn in Hrem, Hres.
  exists result, st'. split; [done|]. split; [done|]. split; [done|].
  split; intros Hvalid; rewrite Hvalid in Hv, Hi; done.
Qed.


End WorkerTheorems.

Lemma broadcastTransactionToWS_sends_one_message_witness :
  ∃ bc' l,
    broadcastTransactionToWS undated_Unmarshal sample_Sscanf country_Marshal
      (set_invalid "MISSING_STTLM_DT_TX0" "" (fresh_result 0)) undated_xml 0
      (make_chan 256) = Ok (bc', 1%nat, l) ∧
    buf bc' = ["MY>XX rejected"] ∧ l = [].
Proof.
  destruct (broadcastTransactionToWS_sends_one_message undated_Unmarshal
              sample_Sscanf country_Marshal
              (set_invalid "MISSING_STTLM_DT_TX0" "" (fresh_result 0))
              undated_xml (sample_doc [undated_tx]) undated_tx [] 0
              (make_chan 256) eq_refl eq_refl eq_refl)
    as (txMsg & bc' & l & Hrun & _).
  exists bc', l. split; [exact Hrun|].
  vm_compute in Hrun. injection Hrun as <- <-. split; reflexivity.
Defined.

Lemma liquidity_rejection_preempts_validation_witness :
  ∃ result st',
    processWork sample_Unmarshal sample_ParseFloat sample_Sscanf sample_Marshal
      steady_clock (Some (recording_client false)) ∅ good_xml
      recording_consumer = Ok (result, st') ∧
    Valid result = false ∧ ErrorCode result = "AM04" ∧
    remote st' = ["check MBBEMYKL"] ∧ MessagesInvalid st' = 1.
Proof.
  destruct (liquidity_rejection_preempts_validation sample_Unmarshal
              sample_ParseFloat sample_Sscanf sample_Marshal steady_clock
              (Some (recording_client false)) ∅ good_xml
              (sample_doc [sample_tx "100.50"]) (sample_tx "100.50") []
              100.5%float (recording_client false)
              {| Approved := false; AvailableBalance := 0%float;
                 RespErrorCode := "AM04" |}
              ["check MBBEMYKL"] recording_consumer)
    as (_ & st' & Hrun & Hrem & _ & Hinv); [by vm_compute..|].
  eexists _, st'. split; [exact Hrun|]. split; [reflexivity|].
  split; [reflexivity|]. split; [exact Hrem | exact Hinv].
Defined.

Lemma liquidity_approval_settles_before_validation_witness :
  ∃ result st',
    processWork undated_Unmarshal sample_ParseFloat sample_Sscanf
      sample_Marshal steady_clock (Some (recording_client true)) ∅ undated_xml
      recording_consumer = Ok (result, st') ∧
    Valid result = false ∧ ErrorCode result = "MISSING_STTLM_DT_TX0" ∧
    remote st' = ["check MBBEMYKL"; "credit DBS"] ∧ MessagesInvalid st' = 1.
Proof.
  destruct (liquidity_approval_settles_before_validation undated_Unmarshal
              sample_ParseFloat sample_Sscanf sample_Marshal steady_clock
              (Some (recording_client true)) ∅ undated_xml
              (sample_doc [undated_tx]) undated_tx []
              100.5%float (recording_client true)
              {| Approved := true; AvailableBalance := 0%float;
                 RespErrorCode := "" |}
              ["check MBBEMYKL"] ["check MBBEMYKL"; "credit DBS"]
              (inl {| Success := true; NewBalance := 0%float |})
              recording_consumer)
    as (_ & result & st' & Hrun & Hres & Hrem & Hinv & _);
    [by vm_compute..|].
  exists result, st'. split; [exact Hrun|].
  assert (Hv : Valid result = false) by (rewrite Hres; reflexivity).
  split; [exact Hv|]. split; [rewrite Hres; reflexivity|].
  split; [exact Hrem|]. exact (proj2 (Hinv Hv)).
Defined.


(** ** The BIC mapping *)

Lemma fold_addBank banks : ∀ m0,
  let m' := fold_left liquidity.addBank banks m0 in
  (∀ bic, liquidity.bicMap m' !! bic
          = match last_with_BIC bic banks with
            | Some b => Some (liquidity.ID b)
            | None => liquidity.bicMap m0 !! bic
            end) ∧
  (∀ id, liquidity.bankInfoMap m' !! id
         = match last_with_ID id banks with
           | Some b => Some b
           | None => liquidity.bankInfoMap m0 !! id
           end).
Proof.
  induction banks as [|b banks IH] using rev_ind; intros m0; [done|].
  cbv zeta. rewrite fold_left_app. cbn [fold_left].
  destruct (IH m0) as [Hbic Hid]. unfold last_with_BIC, last_with_ID in *.
  split.
  - intros bic. rewrite filter_app, filter_cons, filter_nil. simpl.
    destruct (decide (liquidity.BIC b = bic)) as [<-|Hne].
    + by rewrite last_snoc, lookup_insert_eq.
    + rewrite app_nil_r, lookup_insert_ne by done. apply Hbic.
  - intros id. rewrite filter_app, filter_cons, filter_nil. simpl.
    destruct (decide (liquidity.ID b = id)) as [<-|Hne].
    + by rewrite last_snoc, lookup_insert_eq.
    + rewrite app_nil_r, lookup_insert_ne by done. apply Hid.
Qed.

Lemma filter_none {A} (P : A → Prop) `{∀ x, Decision (P x)} (l : list A) :
  (∀ x, x ∈ l → ¬ P x) → filter P l = [].
Proof.
  induction l as [|a l IH]; intros Hno; [done|].
  rewrite filter_cons, decide_False by (apply Hno; by left).
  apply IH. intros x Hx. apply Hno. by right.
Qed.

Lemma last_with_BIC_NoDup banks b :
  NoDup (liquidity.BIC <$> banks) → b ∈ banks →
  last_with_BIC (liquidity.BIC b) banks = Some b.
Proof.
  unfold last_with_BIC. induction banks as [|b0 banks IH]; intros Hnd Hin.
  { by apply elem_of_nil in Hin. }
  rewrite fmap_cons in Hnd. apply NoDup_cons in Hnd as [Hfresh Hnd].
  rewrite filter_cons. apply elem_of_cons in Hin as [->|Hin].
  - rewrite decide_True by done.
    assert (Hnone : filter (λ x, liquidity.BIC x = liquidity.BIC b0) banks = []).
    { apply filter_none. intros x Hx Heq.
      apply Hfresh. rewrite <- Heq. by apply list_elem_of_fmap_2. }
    by rewrite Hnone.
  - assert (Hne : liquidity.BIC b0 ≠ liquidity.BIC b).
    { intros Heq. apply Hfresh. rewrite Heq. by apply list_elem_of_fmap_2. }
    rewrite decide_False by done. by apply IH.
Qed.

Section LoadFacts.

Context {File : Type}.
Variable os_Open : string → File + error.
Variable io_ReadAll : File → string + error.
Variable json_Unmarshal : string → liquidity.NetworkConfig + error.

(** X15.  [LoadBICMapping] returns the error of opening, reading or
    decoding the file and then leaves both maps as they were.  Otherwise it
    replaces them: nothing of the old maps remains, and where the file
    lists several banks with one BIC, or one identifier, the last one wins.
    So [ExtractBankIDFromBIC] maps a BIC to the identifier of the last bank
    listed with it and any other string to itself; when the BICs of the
    file are distinct, every bank's BIC is mapped to that bank's
    identifier. *)
Theorem LoadBICMapping_last_entry_wins (path : string) (m : liquidity.Maps) :
  let out := LoadBICMapping os_Open io_ReadAll json_Unmarshal path m in
  match out.1 with
  | Some _ => out.2 = m
  | None =>
    ∃ file bytes config,
      os_Open path = inl file ∧ io_ReadAll file = inl bytes ∧
      json_Unmarshal bytes = inl config ∧
      (∀ bic,
         ExtractBankIDFromBIC (liquidity.bicMap out.2) bic
         = match last_with_BIC bic (liquidity.Banks config) with
           | Some b => liquidity.ID b
           | None => bic
           end) ∧
      (∀ id, liquidity.bankInfoMap out.2 !! id
             = last_with_ID id (liquidity.Banks config)) ∧
      (NoDup (liquidity.BIC <$> liquidity.Banks config) →
       ∀ b, b ∈ liquidity.Banks config →
            ExtractBankIDFromBIC (liquidity.bicMap out.2) (liquidity.BIC b)
            = liquidity.ID b)
  end.
Proof.
  unfold LoadBICMapping.
  destruct (os_Open path) as [file|e] eqn:Hopen; [|done].
  destruct (io_ReadAll file) as [bytes|e] eqn:Hread; [|done].
  destruct (json_Unmarshal bytes) as [config|e] eqn:Hjson; [|done].
  cbn [fst snd]. exists file, bytes, config. do 3 (split; [done|]).
  destruct (fold_addBank (liquidity.Banks config) (liquidity.mkMaps ∅ ∅))
    as [Hbic Hid].
  assert (Hext : ∀ bic,
    ExtractBankIDFromBIC
      (liquidity.bicMap
         (fold_left liquidity.addBank (liquidity.Banks config)
            (liquidity.mkMaps ∅ ∅))) bic
    = match last_with_BIC bic (liquidity.Banks config) with
      | Some b => liquidity.ID b
      | None => bic
      end).
  { intros bic. unfold ExtractBankIDFromBIC. rewrite Hbic.
    destruct (last_with_BIC bic _); [done|]. simpl. by rewrite lookup_empty. }
  split; [exact Hext|]. split.
  - intros id. rewrite Hid. destruct (last_with_ID id _); [done|].
    simpl. by rewrite lookup_empty.
  - intros Hnd b Hb. rewrite Hext. by rewrite last_with_BIC_NoDup.
Qed.

End LoadFacts.

Lemma LoadBICMapping_last_entry_wins_witness :
  let out := LoadBICMapping sample_Open sample_ReadAll sample_json_Unmarshal
               "network.json" (liquidity.mkMaps ∅ ∅) in
  out.1 = None ∧
  ExtractBankIDFromBIC (liquidity.bicMap out.2) "MBBEMYKLXXX" = "maybank-2" ∧
  ExtractBankIDFromBIC (liquidity.bicMap out.2) "CIBBMYKL" = "CIBBMYKL".
Proof.
  intros out.
  pose proof (LoadBICMapping_last_entry_wins sample_Open sample_ReadAll
                sample_json_Unmarshal "network.json" (liquidity.mkMaps ∅ ∅))
    as Hload.
  cbv zeta in Hload. fold out in Hload.
  assert (Hok : out.1 = None) by reflexivity.
  rewrite Hok in Hload.
  destruct Hload as (file & bytes & config & Hopen & Hread & Hjson & Hbic & _).
  injection Hopen as <-. injection Hread as <-. injection Hjson as <-.
  split; [exact Hok|]. split; rewrite Hbic; reflexivity.
Defined.

(** ** Waiting for the dependencies *)

Lemma linear_waits_snoc n :
  linear_waits (Datatypes.S n)
  = linear_waits n ++ [2 * Z.of_nat (Datatypes.S n) * Second].
Proof. unfold linear_waits. by rewrite seq_S, fmap_app. Qed.

Lemma linear_waits_total n :
  foldr Z.add 0 (linear_waits n) = Z.of_nat n * (Z.of_nat n + 1) * Second.
Proof.
  induction n as [|n IH]; [done|].
  rewrite linear_waits_snoc, foldr_app. cbn [foldr].
  assert (Hshift : ∀ l a, foldr Z.add a l = foldr Z.add 0 l + a).
  { induction l as [|x l IHl]; intros a; simpl; [lia|]. rewrite IHl. lia. }
  rewrite Hshift, IH. lia.
Qed.

Lemma waitTime_id attempt :
  0 ≤ attempt ≤ 4000000000 → waitTime attempt = 2 * attempt * Second.
Proof.
  intros Hr. unfold waitTime.
  rewrite (wrap64_id (attempt * 2))
    by (unfold min_int64, max_int64; lia).
  rewrite wrap64_id by (unfold min_int64, max_int64, Second, Millisecond; lia).
  lia.
Qed.

(** In a bounded search either no index succeeds or there is a first one. *)
Lemma first_success (p : nat → bool) (n : nat) :
  (∀ i, (i < n)%nat → p i = false) ∨
  ∃ j, (j < n)%nat ∧ p j = true ∧ ∀ i, (i < j)%nat → p i = false.
Proof.
  induction n as [|n [Hnone | (j & Hj & Hp & Hfirst)]].
  - left. intros i Hi. lia.
  - destruct (p n) eqn:Hn.
    + right. exists n. split; [lia|]. split; [done|]. intros i Hi. by apply Hnone.
    + left. intros i Hi. destruct (decide (i = n)) as [->|Hne]; [done|].
      apply Hnone. lia.
  - right. exists j. split; [lia|]. by split.
Qed.

Section StartupFacts.

Variable kafka_Dial : string → nat → bool.
Variable conn_Controller : string → nat → bool.
Variable http_NewRequest : string → bool.
Variable http_Do : string → nat → option Z.

Local Abbreviation kafka_up := (kafka_answers kafka_Dial conn_Controller).

(** The loop when the first [j] probes fail and the next succeeds. *)
Lemma waitForKafka_loop_success addr maxAttempts : ∀ (j fuel : nat) attempt d,
  1 ≤ attempt → attempt + Z.of_nat j ≤ maxAttempts →
  maxAttempts ≤ 4000000000 → (j < fuel)%nat →
  (∀ i, (i < j)%nat → kafka_up addr (dials d + i) = false) →
  kafka_up addr (dials d + j) = true →
  ∃ d',
    waitForKafka_loop kafka_Dial conn_Controller addr maxAttempts fuel attempt d
    = Some (None, d') ∧
    kafkaReady d' = 1 ∧ liquidityReady d' = liquidityReady d ∧
    requests d' = requests d ∧
    dials d' = (dials d + Datatypes.S j)%nat ∧
    slept d'
    = slept d ++ ((λ i, 2 * (attempt + Z.of_nat i) * Second) <$> seq 0 j).
Proof.
  induction j as [|j IH]; intros fuel attempt d Ha Hle Hmax Hfuel Hfail Hok.
  - destruct fuel as [|fuel]; [lia|]. cbn [waitForKafka_loop].
    destruct (Z.leb_spec attempt maxAttempts); [|lia].
    rewrite Nat.add_0_r in Hok. unfold kafka_answers in Hok. rewrite Hok.
    eexists. split; [done|]. simpl. rewrite app_nil_r.
    repeat split; try done. lia.
  - destruct fuel as [|fuel]; [lia|]. cbn [waitForKafka_loop].
    destruct (Z.leb_spec attempt maxAttempts); [|lia].
    pose proof (Hfail 0%nat ltac:(lia)) as H0. rewrite Nat.add_0_r in H0.
    unfold kafka_answers in H0. rewrite H0.
    destruct (Z.ltb_spec attempt maxAttempts); [|lia].
    rewrite wrap64_id by (unfold min_int64, max_int64; lia).
    rewrite waitTime_id by lia.
    destruct (IH fuel (attempt + 1)
                (time_Sleep (2 * attempt * Second) (dialled d)))
      as (d' & Hrun & Hk & Hl & Hr & Hd & Hs); [lia | lia | lia | lia | | |].
    + intros i Hi. simpl. replace (Datatypes.S (dials d + i))
        with (dials d + Datatypes.S i)%nat by lia. apply Hfail. lia.
    + simpl. replace (Datatypes.S (dials d + j))
        with (dials d + Datatypes.S j)%nat by lia. done.
    + exists d'. split; [done|]. simpl in *. repeat split; try done; [lia|].
      rewrite Hs, <- app_assoc. f_equal. simpl. f_equal; [f_equal; lia|].
      rewrite <- fmap_S_seq, <- list_fmap_compose. apply list_fmap_ext.
      intros _ i _. simpl. lia.
Qed.

(** The loop when every probe that is left fails. *)
Lemma waitForKafka_loop_failure addr maxAttempts : ∀ (n fuel : nat) attempt d,
  1 ≤ attempt → Z.of_nat n = Z.max 0 (maxAttempts + 1 - attempt) →
  maxAttempts ≤ 4000000000 → (n < fuel)%nat →
  (∀ i, (i < n)%nat → kafka_up addr (dials d + i) = false) →
  ∃ d',
    waitForKafka_loop kafka_Dial conn_Controller addr maxAttempts fuel attempt d
    = Some (Some (errorf ("kafka not ready after " +:+ itoa maxAttempts
                          +:+ " attempts")), d') ∧
    kafkaReady d' = kafkaReady d ∧ liquidityReady d' = liquidityReady d ∧
    requests d' = requests d ∧
    dials d' = (dials d + n)%nat ∧
    slept d'
    = slept d ++ ((λ i, 2 * (attempt + Z.of_nat i) * Second)
                    <$> seq 0 (n - 1)).
Proof.
  induction n as [|n IH]; intros fuel attempt d Ha Hle Hmax Hfuel Hfail.
  - destruct fuel as [|fuel]; [lia|]. cbn [waitForKafka_loop].
    destruct (Z.leb_spec attempt maxAttempts); [lia|].
    eexists. split; [done|]. simpl. rewrite app_nil_r.
    repeat split; try done.
  - destruct fuel as [|fuel]; [lia|]. cbn [waitForKafka_loop].
    destruct (Z.leb_spec attempt maxAttempts); [|lia].
    pose proof (Hfail 0%nat ltac:(lia)) as H0. rewrite Nat.add_0_r in H0.
    unfold kafka_answers in H0. rewrite H0.
    rewrite wrap64_id by (unfold min_int64, max_int64; lia).
    destruct (Z.ltb_spec attempt maxAttempts) as [Hlt|Hge].
    + rewrite waitTime_id by lia.
      destruct (IH fuel (attempt + 1)
                  (time_Sleep (2 * attempt * Second) (dialled d)))
        as (d' & Hrun & Hk & Hl & Hr & Hd & Hs); [lia | lia | lia | lia | |].
      { intros i Hi. simpl. replace (Datatypes.S (dials d + i))
          with (dials d + Datatypes.S i)%nat by lia. apply Hfail. lia. }
      exists d'. split; [done|]. simpl in *. repeat split; try done; [lia|].
      rewrite Hs, <- app_assoc. f_equal.
      destruct n as [|n]; [lia|]. simpl. rewrite Nat.sub_0_r.
      f_equal; [f_equal; lia|].
      rewrite <- fmap_S_seq, <- list_fmap_compose. apply list_fmap_ext.
      intros _ i _. simpl. lia.
    + assert (n = 0%nat) as -> by lia.
      destruct (IH fuel (attempt + 1) (dialled d))
        as (d' & Hrun & Hk & Hl & Hr & Hd & Hs); [lia | lia | lia | lia | |].
      { intros i Hi. lia. }
      exists d'. split; [done|]. simpl in *. repeat split; try done. lia.
Qed.

(** X16.  [waitForKafka] dials until the broker and its controller answer
    or [maxAttempts] dials have failed.  It returns nil at the first dial
    that succeeds, having set the readiness flag of Kafka; it returns an
    error after [maxAttempts] failed dials and leaves the flag as it was
    (and with [maxAttempts] not positive it does so without dialling).
    After the k-th failed dial that is not the last it sleeps 2k seconds,
    so the waits grow linearly and [j] of them add up to j(j+1) seconds;
    there is no sleep after the last dial. *)
Theorem waitForKafka_waits_linearly
    (brokerAddr : string) (maxAttempts : Z) (d : Deps) :
  maxAttempts ≤ 4000000000 →
  (∃ r d',
     waitForKafka kafka_Dial conn_Controller brokerAddr maxAttempts d
     = Some (r, d') ∧
     (r = None ↔
      ∃ j : nat, Z.of_nat j < maxAttempts ∧
                 kafka_up brokerAddr (dials d + j) = true)) ∧
  (∀ j : nat,
     Z.of_nat j < maxAttempts →
     (∀ i, (i < j)%nat → kafka_up brokerAddr (dials d + i) = false) →
     kafka_up brokerAddr (dials d + j) = true →
     ∃ d',
       waitForKafka kafka_Dial conn_Controller brokerAddr maxAttempts d
       = Some (None, d') ∧
       kafkaReady d' = 1 ∧ liquidityReady d' = liquidityReady d ∧
       dials d' = (dials d + Datatypes.S j)%nat ∧
       slept d' = slept d ++ linear_waits j ∧
       foldr Z.add 0 (linear_waits j)
       = Z.of_nat j * (Z.of_nat j + 1) * Second) ∧
  ((∀ i : nat, Z.of_nat i < maxAttempts →
               kafka_up brokerAddr (dials d + i) = false) →
   ∃ d',
     waitForKafka kafka_Dial conn_Controller brokerAddr maxAttempts d
     = Some (Some (errorf ("kafka not ready after " +:+ itoa maxAttempts
                           +:+ " attempts")), d') ∧
     kafkaReady d' = kafkaReady d ∧ liquidityReady d' = liquidityReady d ∧
     dials d' = (dials d + Z.to_nat maxAttempts)%nat ∧
     slept d' = slept d ++ linear_waits (Z.to_nat maxAttempts - 1)).
Proof.
  intros Hmax.
  assert (Hshape : ∀ n,
    (λ i, 2 * (1 + Z.of_nat i) * Second) <$> seq 0 n = linear_waits n).
  { intros n. unfold linear_waits. rewrite <- fmap_S_seq, <- list_fmap_compose.
    apply list_fmap_ext. intros _ i _. simpl. f_equal. lia. }
  assert (Hsucc : ∀ j : nat,
     Z.of_nat j < maxAttempts →
     (∀ i, (i < j)%nat → kafka_up brokerAddr (dials d + i) = false) →
     kafka_up brokerAddr (dials d + j) = true →
     ∃ d',
       waitForKafka kafka_Dial conn_Controller brokerAddr maxAttempts d
       = Some (None, d') ∧
       kafkaReady d' = 1 ∧ liquidityReady d' = liquidityReady d ∧
       dials d' = (dials d + Datatypes.S j)%nat ∧
       slept d' = slept d ++ linear_waits j ∧
       foldr Z.add 0 (linear_waits j)
       = Z.of_nat j * (Z.of_nat j + 1) * Second).
  { intros j Hj Hfail Hok. unfold waitForKafka.
    destruct (waitForKafka_loop_success brokerAddr maxAttempts j
                (Datatypes.S (Z.to_nat maxAttempts)) 1 d)
      as (d' & Hrun & Hk & Hl & _ & Hd & Hs); [lia | lia | lia | lia | done..|].
    exists d'. rewrite Hshape in Hs. repeat split; try done.
    apply linear_waits_total. }
  assert (Hfailall :
    (∀ i : nat, Z.of_nat i < maxAttempts →
                kafka_up brokerAddr (dials d + i) = false) →
    ∃ d',
      waitForKafka kafka_Dial conn_Controller brokerAddr maxAttempts d
      = Some (Some (errorf ("kafka not ready after " +:+ itoa maxAttempts
                            +:+ " attempts")), d') ∧
      kafkaReady d' = kafkaReady d ∧ liquidityReady d' = liquidityReady d ∧
      dials d' = (dials d + Z.to_nat maxAttempts)%nat ∧
      slept d' = slept d ++ linear_waits (Z.to_nat maxAttempts - 1)).
  { intros Hfail. unfold waitForKafka.
    destruct (waitForKafka_loop_failure brokerAddr maxAttempts
                (Z.to_nat maxAttempts) (Datatypes.S (Z.to_nat maxAttempts)) 1 d)
      as (d' & Hrun & Hk & Hl & _ & Hd & Hs); [lia | lia | lia | lia | |].
    - intros i Hi. apply Hfail. lia.
    - exists d'. rewrite Hshape in Hs. by repeat split. }
  split; [|by split].
  destruct (first_success (λ i, kafka_up brokerAddr (dials d + i))
              (Z.to_nat maxAttempts)) as [Hnone | (j & Hj & Hp & Hfirst)].
  - destruct Hfailall as (d' & Hrun & _).
    { intros i Hi. apply Hnone. lia. }
    eexists _, d'. split; [exact Hrun|]. split; [done|].
    intros (j & Hj & Hp). rewrite Hnone in Hp by lia. done.
  - destruct (Hsucc j) as (d' & Hrun & _); [lia | done | done |].
    exists None, d'. split; [exact Hrun|]. split; [|done].
    intros _. exists j. split; [lia | done].
Qed.

End StartupFacts.

Lemma waitForKafka_waits_linearly_witness :
  ∃ d',
    waitForKafka third_dial always "kafka:9092" 15 deps0 = Some (None, d') ∧
    kafkaReady d' = 1 ∧ dials d' = 3%nat ∧
    slept d' = [2 * Second; 4 * Second].
Proof.
  destruct (waitForKafka_waits_linearly third_dial always "kafka:9092" 15
              deps0) as (_ & Hsucc & _); [lia|].
  destruct (Hsucc 2%nat) as (d' & Hrun & Hk & _ & Hd & Hs & _).
  - lia.
  - intros i Hi. destruct i as [|[|i]]; [reflexivity | reflexivity | lia].
  - reflexivity.
  - exists d'. split; [exact Hrun|]. split; [exact Hk|]. split; [exact Hd|].
    rewrite Hs. reflexivity.
Defined.

(** ** The address of the readiness endpoint *)

Lemma string_app_cons c (a b : string) :
  String c a +:+ b = String c (a +:+ b).
Proof. reflexivity. Qed.

Lemma string_app_length (a b : string) :
  String.length (a +:+ b) = (String.length a + String.length b)%nat.
Proof. induction a as [|c a IH]; simpl; [done | by rewrite IH]. Qed.

Lemma string_app_assoc (a b c : string) : (a +:+ b) +:+ c = a +:+ (b +:+ c).
Proof.
  induction a as [|x a IH]; [done|].
  change (String x ((a +:+ b) +:+ c) = String x (a +:+ (b +:+ c))).
  by rewrite IH.
Qed.

Lemma substring_all (s : string) : String.substring 0 (String.length s) s = s.
Proof. induction s as [|c s IH]; simpl; [done | by rewrite IH]. Qed.

Lemma substring_app_l (a b : string) :
  String.substring 0 (String.length a) (a +:+ b) = a.
Proof.
  induction a as [|c a IH]; simpl; [by destruct b | by rewrite IH].
Qed.

Lemma substring_app_r (a b : string) :
  String.substring (String.length a) (String.length b) (a +:+ b) = b.
Proof. induction a as [|c a IH]; simpl; [apply substring_all | done]. Qed.

Lemma substring_split (s : string) : ∀ n : nat,
  (n ≤ String.length s)%nat →
  s = String.substring 0 n s
      +:+ String.substring n (String.length s - n) s.
Proof.
  induction s as [|c s IH]; intros n Hn; simpl in *.
  - by destruct n.
  - destruct n as [|n]; simpl.
    + by rewrite substring_all.
    + rewrite string_app_cons. f_equal. apply IH. lia.
Qed.

(** X17.  The readiness endpoint of the liquidity service is looked for on
    the host of the gRPC address: when the address ends in [:50051] behind
    a non-empty host, that port is replaced by [:8080]; any other address,
    the bare [:50051] included, is used as it is. *)
Theorem healthURL_swaps_grpc_port :
  (∀ host, host ≠ "" →
     healthURL (host +:+ ":50051") = "http://" +:+ host +:+ ":8080/ready") ∧
  (∀ addr, ¬ (∃ host, host ≠ "" ∧ addr = host +:+ ":50051") →
     healthURL addr = "http://" +:+ addr +:+ "/ready").
Proof.
  split.
  - intros host Hne. unfold healthURL, healthHost, len.
    rewrite string_app_length. cbn [String.length].
    replace (String.length host + 6 - 6)%nat with (String.length host) by lia.
    pose proof (substring_app_r host ":50051") as Hr.
    cbn [String.length] in Hr. rewrite Hr, substring_app_l.
    destruct (Z.gtb_spec (Z.of_nat (String.length host + 6)) 6) as [_|Hle].
    + cbn [andb String.eqb Ascii.eqb Bool.eqb].
      by rewrite string_app_assoc.
    + destruct host; [done | simpl in Hle; lia].
  - intros addr Hno. unfold healthURL, healthHost, len.
    destruct (Z.gtb_spec (Z.of_nat (String.length addr)) 6) as [Hgt|_];
      [|done].
    destruct (String.eqb_spec
                (String.substring (String.length addr - 6) 6 addr) ":50051")
      as [Heq|_]; [|done].
    exfalso. apply Hno.
    exists (String.substring 0 (String.length addr - 6) addr). split.
    + intros Hempty.
      pose proof (substring_length addr 0 (String.length addr - 6)) as Hl.
      rewrite Hempty in Hl. simpl in Hl. lia.
    + pose proof (substring_split addr (String.length addr - 6)) as Hsplit.
      replace (String.length addr - (String.length addr - 6))%nat
        with 6%nat in Hsplit by lia.
      rewrite Heq in Hsplit. apply Hsplit. lia.
Qed.

Lemma healthURL_swaps_grpc_port_witness :
  healthURL "liquidity:50051" = "http://liquidity:8080/ready" ∧
  healthURL ":50051" = "http://:50051/ready" ∧
  healthURL "localhost:9090" = "http://localhost:9090/ready".
Proof.
  destruct healthURL_swaps_grpc_port as [Hswap Hkeep].
  split; [|split].
  - apply (Hswap "liquidity"). discriminate.
  - apply (Hkeep ":50051"). intros (host & Hne & Heq).
    destruct host as [|c host]; [done|].
    apply (f_equal String.length) in Heq. rewrite string_app_length in Heq.
    simpl in Heq. lia.
  - apply (Hkeep "localhost:9090"). intros (host & Hne & Heq).
    assert (Hl : String.length host = 8%nat).
    { apply (f_equal String.length) in Heq.
      rewrite string_app_length in Heq. simpl in Heq. lia. }
    do 9 (destruct host as [|? host]; try discriminate Hl).
    discriminate Heq.
Defined.

(** ** Monitoring the dependencies *)

Section MonitorFacts.

Variable kafka_Dial : string → nat → bool.
Variable conn_Controller : string → nat → bool.
Variable http_NewRequest : string → bool.
Variable http_Do : string → nat → option Z.

Local Abbreviation kafka_up := (kafka_answers kafka_Dial conn_Controller).
Local Abbreviation liquidity_up := (liquidity_answers http_NewRequest http_Do).

(** One tick of the monitor: one dial and at most one request, no sleep,
    and both flags set after what the probes found. *)
Lemma monitorTick_spec brokerAddr liquidityAddr d :
  ∃ d',
    monitorTick kafka_Dial conn_Controller http_NewRequest http_Do brokerAddr
      liquidityAddr d = Some d' ∧
    dials d' = Datatypes.S (dials d) ∧
    requests d'
    = (if http_NewRequest (healthURL liquidityAddr)
       then Datatypes.S (requests d) else requests d) ∧
    slept d' = slept d ∧
    kafkaReady d' = flag (kafka_up brokerAddr (dials d)) ∧
    liquidityReady d'
    = flag (liquidity_up (healthURL liquidityAddr) (requests d)).
Proof.
  unfold monitorTick, waitForKafka, waitForLiquidityService,
    kafka_answers, liquidity_answers, flag.
  change (Z.to_nat 1) with 1%nat.
  cbn [waitForKafka_loop waitForLiquidityService_loop].
  change (1 <=? 1) with true. change (1 <? 1) with false.
  change (wrap64 (1 + 1)) with 2. change (2 <=? 1) with false. cbv iota.
  destruct (kafka_Dial brokerAddr (dials d)); [destruct (conn_Controller _ _)|];
    destruct (http_NewRequest (healthURL liquidityAddr));
    try destruct (http_Do _ _) as [code|]; try destruct (code =? StatusOK);
    eexists; (split; [reflexivity|]); by repeat split.
Qed.

(** X18.  Every tick of [monitorDependencies] probes Kafka with one dial
    and the liquidity service with at most one request, never sleeps, and
    leaves each readiness flag at 1 when its probe succeeded and at 0 when
    it failed, whatever the flag was.  So after any number of ticks the
    flags tell what the last probes found, and the readiness endpoint
    answers 200 exactly when both of them succeeded and 503 with the
    message that it waits otherwise; a preflight request is answered 200
    without a body whatever the flags. *)
Theorem readiness_follows_last_probe
    (brokerAddr liquidityAddr : string) (n : nat) (d : Deps) :
  ∃ d',
    monitorDependencies kafka_Dial conn_Controller http_NewRequest http_Do
      brokerAddr liquidityAddr (replicate (Datatypes.S n) MonTick) d
    = Some d' ∧
    dials d' = (dials d + Datatypes.S n)%nat ∧
    slept d' = slept d ∧
    kafkaReady d' = flag (kafka_up brokerAddr (dials d + n)) ∧
    (http_NewRequest (healthURL liquidityAddr) = true →
     requests d' = (requests d + Datatypes.S n)%nat ∧
     liquidityReady d'
     = flag (liquidity_up (healthURL liquidityAddr) (requests d + n))) ∧
    (http_NewRequest (healthURL liquidityAddr) = false →
     requests d' = requests d ∧ liquidityReady d' = 0) ∧
    handleReady "OPTIONS" d' = mkResponse StatusOK None ∧
    ∀ method, method ≠ "OPTIONS" →
      let ready := (kafkaReady d' =? 1) && (liquidityReady d' =? 1) in
      handleReady method d'
      = mkResponse (if ready then StatusOK else StatusServiceUnavailable)
          (Some {| Ready := ready;
                   KafkaReady := kafka_up brokerAddr (dials d + n);
                   LiquidityReady := liquidityReady d' =? 1;
                   Message := if ready then ""
                              else "Waiting for dependencies" |}).
Proof.
  revert d. induction n as [|n IH]; intros d.
  - cbn [replicate monitorDependencies].
    destruct (monitorTick_spec brokerAddr liquidityAddr d)
      as (d' & -> & Hd & Hr & Hs & Hk & Hl).
    exists d'. split; [done|]. split; [lia|]. split; [done|].
    rewrite !Nat.add_0_r. split; [done|]. split; [|split; [|split]].
    + intros Hnew. rewrite Hnew in Hr. split; [lia | done].
    + intros Hnew. rewrite Hnew in Hr. split; [done|].
      rewrite Hl. unfold liquidity_answers. by rewrite Hnew.
    + done.
    + intros method Hm. unfold handleReady.
      destruct (String.eqb_spec method "OPTIONS") as [|_]; [done|].
      cbv zeta. rewrite Hk. unfold flag at 1 2 3.
      by destruct (kafka_up brokerAddr (dials d)), (liquidityReady d' =? 1).
  - replace (replicate (Datatypes.S (Datatypes.S n)) MonTick)
      with (MonTick :: replicate (Datatypes.S n) MonTick) by done.
    cbn [monitorDependencies].
    destruct (monitorTick_spec brokerAddr liquidityAddr d)
      as (d1 & -> & Hd1 & Hr1 & Hs1 & _ & _).
    destruct (IH d1) as (d' & Hrun & Hd & Hs & Hk & Hyes & Hno & Hopt & Hget).
    exists d'. split; [done|]. split; [lia|]. split; [congruence|].
    replace (dials d + Datatypes.S n)%nat with (dials d1 + n)%nat by lia.
    split; [done|]. split; [|split; [|split]].
    + intros Hnew. rewrite Hnew in Hr1. destruct (Hyes Hnew) as [Hr Hl].
      replace (requests d + Datatypes.S n)%nat with (requests d1 + n)%nat
        by lia.
      split; [lia | done].
    + intros Hnew. rewrite Hnew in Hr1. destruct (Hno Hnew) as [Hr Hl].
      split; [congruence | done].
    + done.
    + done.
Qed.

End MonitorFacts.

Lemma readiness_follows_last_probe_witness :
  ∃ d',
    monitorDependencies third_dial always any_url second_request "kafka:9092"
      "liquidity:50051" [MonTick; MonTick; MonTick] (mkDeps 1 1 0 0 []) = Some d' ∧
    kafkaReady d' = 1 ∧ liquidityReady d' = 0 ∧
    StatusCode (handleReady "GET" d') = StatusServiceUnavailable.
Proof.
  destruct (readiness_follows_last_probe third_dial always any_url
              second_request "kafka:9092" "liquidity:50051" 2
              (mkDeps 1 1 0 0 []))
    as (d' & Hrun & _ & _ & Hk & Hyes & _ & _ & Hget).
  destruct (Hyes eq_refl) as [_ Hl].
  exists d'. split; [exact Hrun|]. split; [exact Hk|]. split; [exact Hl|].
  rewrite (Hget "GET") by discriminate. rewrite Hk, Hl. reflexivity.
Defined.

(** ** The producer: configuration and BIC normalisation *)

Lemma scanRoles_spec roles :
  producer.scanRoles roles
  = (bool_decide ("source" ∈ roles), bool_decide ("dest" ∈ roles)).
Proof.
  unfold producer.scanRoles.
  assert (Hgen : ∀ a b,
    fold_left
      (λ '(hasSourceRole, hasDestRole) role,
         (if String.eqb role "source" then true else hasSourceRole,
          if String.eqb role "dest" then true else hasDestRole))
      roles (a, b)
    = (a || bool_decide ("source" ∈ roles), b || bool_decide ("dest" ∈ roles))).
  { induction roles as [|r roles IH]; intros a b.
    - simpl. by rewrite !orb_false_r.
    - cbn [fold_left]. rewrite IH. f_equal.
      + destruct (String.eqb_spec r "source") as [->|Hne].
        * rewrite (bool_decide_eq_true_2 ("source" ∈ "source" :: roles))
            by (by left).
          by rewrite orb_true_r.
        * f_equal. apply bool_decide_ext. rewrite elem_of_cons.
          split; [tauto|]. intros [Heq|]; [congruence | done].
      + destruct (String.eqb_spec r "dest") as [->|Hne].
        * rewrite (bool_decide_eq_true_2 ("dest" ∈ "dest" :: roles))
            by (by left).
          by rewrite orb_true_r.
        * f_equal. apply bool_decide_ext. rewrite elem_of_cons.
          split; [tauto|]. intros [Heq|]; [congruence | done]. }
  by rewrite Hgen.
Qed.

Lemma fold_keepBank banks : ∀ acc,
  fold_left producer.keepBank banks acc = acc ++ filter participates banks.
Proof.
  induction banks as [|b banks IH]; intros acc; simpl.
  { by rewrite app_nil_r. }
  rewrite IH. unfold producer.keepBank. rewrite scanRoles_spec.
  rewrite filter_cons.
  destruct (decide (participates b)) as [Hp|Hp].
  - assert (Hb : bool_decide ("source" ∈ producer.Roles b)
                 || bool_decide ("dest" ∈ producer.Roles b) = true).
    { destruct Hp as [Hp|Hp]; rewrite (bool_decide_eq_true_2 _ Hp);
        [done | by rewrite orb_true_r]. }
    rewrite Hb. by rewrite <- app_assoc.
  - assert (Hb : bool_decide ("source" ∈ producer.Roles b)
                 || bool_decide ("dest" ∈ producer.Roles b) = false).
    { apply orb_false_iff. unfold participates in Hp.
      split; apply bool_decide_eq_false_2; tauto. }
    by rewrite Hb.
Qed.

Lemma normalizeBIC_length bic :
  len (producer.normalizeBIC bic) = if len bic =? 8 then 11 else len bic.
Proof.
  unfold producer.normalizeBIC, len.
  destruct (Z.eqb_spec (Z.of_nat (String.length bic)) 8) as [Heq|Hne]; [|done].
  rewrite string_app_length. simpl. lia.
Qed.

Lemma substring_app_within (a b : string) : ∀ n m : nat,
  (n + m ≤ String.length a)%nat →
  String.substring n m (a +:+ b) = String.substring n m a.
Proof.
  induction a as [|c a IH]; intros n m Hle; simpl in Hle.
  - assert (n = 0%nat) as -> by lia. assert (m = 0%nat) as -> by lia.
    by destruct b.
  - rewrite string_app_cons. destruct n as [|n]; simpl.
    + destruct m as [|m]; [done|]. f_equal. apply (IH 0%nat). lia.
    + apply IH. lia.
Qed.

Section ConfigFacts.

Context {File : Type}.
Variable os_Open : string → File + error.
Variable io_ReadAll : File → string + error.
Variable json_Unmarshal : string → producer.NetworkConfig + error.

(** X19.  [loadConfig] returns the error of opening, reading or decoding
    the file and then leaves [allBanks] as it was.  Otherwise [allBanks]
    becomes the banks of the file that have the role of a source or of a
    destination, in the order of the file, also when the call then fails
    because fewer than two such banks are listed; and it succeeds exactly
    when there are at least two. *)
Theorem loadConfig_keeps_participants
    (path : string) (allBanks : list producer.Bank) :
  let out := producer.loadConfig os_Open io_ReadAll json_Unmarshal path
               allBanks in
  match os_Open path with
  | inr err => out = (Some err, allBanks)
  | inl file =>
    match io_ReadAll file with
    | inr err => out = (Some err, allBanks)
    | inl bytes =>
      match json_Unmarshal bytes with
      | inr err => out = (Some err, allBanks)
      | inl config =>
          out.2 = filter participates (producer.Banks config) ∧
          Forall participates out.2 ∧
          (out.1 = None ↔ (2 ≤ length out.2)%nat) ∧
          (out.1 ≠ None →
           out.1 = Some (errorf "configuration must have at least two banks for transactions"))
      end
    end
  end.
Proof.
  unfold producer.loadConfig.
  destruct (os_Open path) as [file|e]; [|done].
  destruct (io_ReadAll file) as [bytes|e]; [|done].
  destruct (json_Unmarshal bytes) as [config|e]; [|done].
  cbv zeta. rewrite fold_keepBank. cbn [app].
  set (kept := filter participates (producer.Banks config)).
  assert (Hall : Forall participates kept).
  { apply Forall_forall. intros b Hb. by apply list_elem_of_filter in Hb as [? _]. }
  destruct (Z.ltb_spec (Z.of_nat (length kept)) 2); cbn [fst snd].
  - split; [done|]. split; [done|]. split; [|done]. split; [done | lia].
  - split; [done|]. split; [done|]. split; [|done]. split; [lia | done].
Qed.

End ConfigFacts.

Lemma loadConfig_keeps_participants_witness :
  producer.loadConfig sample_Open sample_ReadAll sample_network "network.json" []
  = (None, [maybank; dbs]).
Proof.
  pose proof (loadConfig_keeps_participants sample_Open sample_ReadAll
                sample_network "network.json" []) as Hload.
  cbv zeta in Hload.
  change (sample_Open "network.json") with (@inl string error "{banks}")
    in Hload at 1.
  cbv iota beta in Hload.
  change (sample_ReadAll "{banks}") with (@inl string error "{banks}")
    in Hload at 1.
  cbv iota beta in Hload.
  change (sample_network "{banks}")
    with (@inl producer.NetworkConfig error
            {| producer.Banks := [maybank; observer; dbs] |}) in Hload at 1.
  cbv iota beta in Hload.
  destruct Hload as (Hkept & _ & Hok & _).
  destruct (producer.loadConfig sample_Open sample_ReadAll sample_network
              "network.json" []) as [err kept].
  simpl in Hkept, Hok. subst kept. f_equal.
  apply Hok. vm_compute. lia.
Defined.

(** X20.  [normalizeBIC] appends XXX to a BIC of eight bytes and returns
    any other string as it is.  So it is idempotent and never returns eight
    bytes; the consumer's length check accepts the normalised BIC exactly
    when it accepts the original, and the country the consumer extracts
    from the normalised BIC is the one of the original. *)
Theorem normalizeBIC_keeps_validity_and_country (bic : string) :
  producer.normalizeBIC (producer.normalizeBIC bic) = producer.normalizeBIC bic ∧
  len (producer.normalizeBIC bic) ≠ 8 ∧
  (len bic = 8 → len (producer.normalizeBIC bic) = 11) ∧
  (len bic ≠ 8 → producer.normalizeBIC bic = bic) ∧
  ((len (producer.normalizeBIC bic) <? 8) || (len (producer.normalizeBIC bic) >? 11)
   = (len bic <? 8) || (len bic >? 11)) ∧
  extractCountryFromBIC (producer.normalizeBIC bic) = extractCountryFromBIC bic.
Proof.
  pose proof (normalizeBIC_length bic) as Hlen.
  destruct (Z.eqb_spec (len bic) 8) as [H8|Hne].
  - split; [|split; [|split; [|split; [|split]]]].
    + unfold producer.normalizeBIC at 1. rewrite Hlen. done.
    + lia.
    + done.
    + done.
    + rewrite Hlen, H8. done.
    + unfold extractCountryFromBIC. rewrite Hlen, H8. simpl.
      unfold producer.normalizeBIC. rewrite H8. simpl.
      apply substring_app_within. unfold len in H8. lia.
  - assert (Hid : producer.normalizeBIC bic = bic).
    { unfold producer.normalizeBIC.
      by destruct (Z.eqb_spec (len bic) 8). }
    rewrite !Hid. repeat split; try done.
Qed.

(** ** The producer: generated messages *)

(** The flag after marking with a list of rules. *)
Lemma fold_mark_valid rules : ∀ r,
  Valid (fold_left mark rules r)
  = Valid r && forallb (λ ru, negb (violated ru)) rules.
Proof.
  induction rules as [|ru rules IH]; intros r; simpl.
  { by rewrite andb_true_r. }
  rewrite IH. unfold mark. destruct (violated ru); simpl; [|done].
  by rewrite andb_false_r.
Qed.

Lemma BIC_check_normalized bic :
  (len (producer.normalizeBIC bic) <? 8) || (len (producer.normalizeBIC bic) >? 11)
  = (len bic <? 8) || (len bic >? 11).
Proof.
  rewrite normalizeBIC_length.
  destruct (Z.eqb_spec (len bic) 8) as [->|]; done.
Qed.

Section GenerateFacts.

Variable rand_Intn : nat → Z → Z.
Variable rand_Float64 : nat → float.
Variable time_Now : nat → Z.
Variable time_Unix : nat → Z.
Variable time_Format : nat → string.
Variable uuid_New : nat → string.
Variable fmt_2f : float → string.
Variable fmt_08d : Z → string.
Variable xml_MarshalIndent : producer.Document → string + error.

(** The redrawing loop stops at the first candidate that differs from the
    source. *)
Lemma redraw_finds n s : ∀ (j fuel : nat) (c : nat → Z) drawn,
  (j < fuel)%nat →
  (∀ i, c (Datatypes.S i) = rand_Intn (drawn + i)%nat n) →
  (∀ i, (i < j)%nat → c i = s) → c j ≠ s →
  producer.redraw rand_Intn fuel n s (c 0%nat) drawn = Some (c j, (drawn + j)%nat).
Proof.
  induction j as [|j IH]; intros fuel c drawn Hfuel Hc Heq Hne.
  - destruct fuel as [|fuel]; [lia|]. cbn [producer.redraw].
    destruct (Z.eqb_spec (c 0%nat) s); [done|]. by rewrite Nat.add_0_r.
  - destruct fuel as [|fuel]; [lia|]. cbn [producer.redraw].
    rewrite (Heq 0%nat) by lia. rewrite Z.eqb_refl.
    pose proof (Hc 0%nat) as H1. rewrite Nat.add_0_r in H1. rewrite <- H1.
    rewrite (IH fuel (λ i, c (Datatypes.S i)) (Datatypes.S drawn));
      [f_equal; f_equal; lia | lia | | | done].
    + intros i. rewrite Hc. f_equal. lia.
    + intros i Hi. apply Heq. lia.
Qed.

(** The verdict of the consumer's validation on a document built by
    [buildDocument]. *)
Lemma buildDocument_valid msgID sourceBank destBank amount drawn g stamp :
  Valid (validateDocument
           (wire (producer.buildDocument rand_Intn time_Now time_Unix
                    time_Format uuid_New fmt_2f fmt_08d msgID sourceBank
                    destBank amount drawn g))
           (fresh_result stamp)) = true ↔
  producer.Currency sourceBank ≠ "" ∧
  8 ≤ len (producer.BIC sourceBank) ≤ 11 ∧
  8 ≤ len (producer.BIC destBank) ≤ 11 ∧
  fmt_2f amount ≠ "" ∧
  time_Format (4 + producer.clock g)%nat ≠ "".
Proof.
  destruct (validateDocument_marks
              (wire (producer.buildDocument rand_Intn time_Now time_Unix
                       time_Format uuid_New fmt_2f fmt_08d msgID sourceBank
                       destBank amount drawn g)) (fresh_result stamp))
    as (-> & _).
  rewrite fold_mark_valid.
  unfold all_rules, header_rules, bic_rules, producer.buildDocument, wire.
  cbn [producer.FIToFICstmrCdtTrf producer.GrpHdr producer.CdtTrfTxInf
       producer.MsgId producer.NbOfTxs producer.SttlmInf producer.SttlmMtd
       FIToFICstmrCdtTrf GrpHdr CdtTrfTxInf MsgId NbOfTxs SttlmInf SttlmMtd
       fmap list_fmap txs_rules tx_rules wire_tx wire_agent wire_party
       producer.PmtId producer.InstrId producer.IntrBkSttlmAmt producer.Ccy
       producer.Value producer.IntrBkSttlmDt producer.ChrgBr producer.DbtrAgt
       producer.CdtrAgt producer.FinInstnId producer.BICFI
       PmtId InstrId IntrBkSttlmAmt Ccy Value IntrBkSttlmDt ChrgBr DbtrAgt
       CdtrAgt FinInstnId BICFI app forallb violated Valid fresh_result].
  rewrite !BIC_check_normalized.
  change (String.eqb ("PAYNET-NEXUS-" +:+ itoa (time_Unix (producer.clock g))
                      +:+ "-" +:+ itoa msgID) "") with false.
  change (String.eqb ("TXN-" +:+ itoa (time_Unix (2 + producer.clock g)%nat)
                      +:+ "-" +:+ itoa msgID) "") with false.
  change (1 <=? 0) with false.
  change (set_lookup validSttlmMethods "CLRG") with true.
  change (set_lookup validChrgBr "SHAR") with true.
  cbn [negb andb bool_decide decide_rel].
  rewrite bool_decide_eq_false_2 by discriminate. cbn [negb andb].
  destruct (String.eqb_spec (producer.Currency sourceBank) "") as [Hc|Hc];
    destruct (String.eqb_spec (fmt_2f amount) "") as [Hv|Hv];
    destruct (String.eqb_spec (time_Format (4 + producer.clock g)%nat) "")
      as [Hd|Hd];
    destruct (Z.ltb_spec (len (producer.BIC sourceBank)) 8);
    destruct (Z.gtb_spec (len (producer.BIC sourceBank)) 11);
    destruct (Z.ltb_spec (len (producer.BIC destBank)) 8);
    destruct (Z.gtb_spec (len (producer.BIC destBank)) 11);
    cbn [negb andb orb]; split; try done; try (intros (? & ? & ? & ? & ?); lia);
    try (intros (? & ? & ? & ? & ?); done); intros _; repeat split; try done;
    lia.
Qed.

(** X21.  With at least two banks, integers drawn within range and a draw
    that differs from the source among the next [fuel] ones,
    [generateTransaction] returns what [xml.MarshalIndent] makes of one
    document: a single transaction between two banks at different
    positions of [allBanks], the first draw that differs from the source
    being the destination.  Read with the consumer's structs, that
    document passes the consumer's validation exactly when the source
    bank has a currency, both banks have a BIC of 8 to 11 bytes and the
    amount and the date are not rendered as the empty string. *)
Theorem generateTransaction_passes_validation
    (fuel : nat) (allBanks : list producer.Bank) (msgID : Z)
    (g : producer.Gen) :
  (2 ≤ length allBanks)%nat →
  (∀ k, 0 ≤ rand_Intn k (Z.of_nat (length allBanks))
        < Z.of_nat (length allBanks)) →
  (∃ j, (j < fuel)%nat ∧
        rand_Intn (Datatypes.S (producer.ints g) + j)%nat
          (Z.of_nat (length allBanks))
        ≠ rand_Intn (producer.ints g) (Z.of_nat (length allBanks))) →
  ∃ (s t : nat) sourceBank destBank (j : nat),
    allBanks !! s = Some sourceBank ∧ allBanks !! t = Some destBank ∧
    s ≠ t ∧ (j < fuel)%nat ∧
    Z.of_nat s = rand_Intn (producer.ints g) (Z.of_nat (length allBanks)) ∧
    Z.of_nat t = rand_Intn (Datatypes.S (producer.ints g) + j)%nat
                   (Z.of_nat (length allBanks)) ∧
    let amount :=
      producer.drawAmount rand_Float64 (producer.Currency sourceBank) g in
    let doc :=
      producer.buildDocument rand_Intn time_Now time_Unix time_Format uuid_New
        fmt_2f fmt_08d msgID sourceBank destBank amount
        (2 + producer.ints g + j) g in
    producer.generateTransaction rand_Intn rand_Float64 time_Now time_Unix
      time_Format uuid_New fmt_2f fmt_08d xml_MarshalIndent fuel allBanks
      msgID g
    = Some (Ok (xml_MarshalIndent doc),
            producer.mkGen (4 + producer.ints g + j)
              (Datatypes.S (producer.floats g)) (5 + producer.clock g)
              (Datatypes.S (producer.uuids g))) ∧
    length (CdtTrfTxInf (FIToFICstmrCdtTrf (wire doc))) = 1%nat ∧
    NbOfTxs (GrpHdr (FIToFICstmrCdtTrf (wire doc))) = 1 ∧
    ∀ stamp,
      Valid (validateDocument (wire doc) (fresh_result stamp)) = true ↔
      producer.Currency sourceBank ≠ "" ∧
      8 ≤ len (producer.BIC sourceBank) ≤ 11 ∧
      8 ≤ len (producer.BIC destBank) ≤ 11 ∧
      fmt_2f amount ≠ "" ∧
      time_Format (4 + producer.clock g)%nat ≠ "".
Proof.
  intros Hn Hrange Hdiff.
  set (n := Z.of_nat (length allBanks)) in *.
  set (sI := rand_Intn (producer.ints g) n) in *.
  destruct (first_success
              (λ i, negb (rand_Intn (Datatypes.S (producer.ints g) + i)%nat n
                          =? sI))
              fuel) as [Hnone | (j & Hj & Hp & Hfirst)].
  { destruct Hdiff as (j & Hj & Hne). specialize (Hnone j Hj).
    apply negb_false_iff, Z.eqb_eq in Hnone. done. }
  apply negb_true_iff, Z.eqb_neq in Hp.
  assert (Hs : ∃ sourceBank, allBanks !! Z.to_nat sI = Some sourceBank).
  { apply lookup_lt_is_Some. pose proof (Hrange (producer.ints g)). lia. }
  destruct Hs as [sourceBank Hs].
  set (tI := rand_Intn (Datatypes.S (producer.ints g) + j)%nat n) in *.
  assert (Ht : ∃ destBank, allBanks !! Z.to_nat tI = Some destBank).
  { apply lookup_lt_is_Some.
    pose proof (Hrange (Datatypes.S (producer.ints g) + j)%nat). lia. }
  destruct Ht as [destBank Ht].
  pose proof (Hrange (producer.ints g)) as Hrs.
  pose proof (Hrange (Datatypes.S (producer.ints g) + j)%nat) as Hrt.
  fold sI in Hrs. fold tI in Hrt.
  exists (Z.to_nat sI), (Z.to_nat tI), sourceBank, destBank, j.
  split; [done|]. split; [done|]. split; [lia|]. split; [done|].
  split; [lia|]. split; [lia|]. cbv zeta.
  split; [|split; [done|]; split; [done|]; intros stamp;
           apply buildDocument_valid].
  unfold producer.generateTransaction. fold n. fold sI.
  destruct (Z.ltb_spec n 2); [lia|].
  destruct (Z.ltb_spec sI 0); [lia|]. rewrite Hs.
  pose proof (redraw_finds n sI j fuel
                (λ i, rand_Intn (Datatypes.S (producer.ints g) + i)%nat n)
                (2 + producer.ints g)%nat Hj) as Hredraw.
  cbv beta in Hredraw. rewrite Nat.add_0_r in Hredraw.
  rewrite Hredraw; [| | | done].
  - fold tI. destruct (Z.ltb_spec tI 0); [lia|]. rewrite Ht.
    do 3 f_equal.
  - intros i. f_equal. lia.
  - intros i Hi. specialize (Hfirst i Hi).
    by apply negb_false_iff, Z.eqb_eq in Hfirst.
Qed.

End GenerateFacts.

Lemma generateTransaction_passes_validation_witness :
  ∃ data g',
    producer.generateTransaction sample_Intn sample_Float64 sample_Now
      sample_Unix sample_Format sample_uuid sample_2f sample_08d
      sample_MarshalIndent 5 [maybank; dbs] 7 gen0 = Some (Ok (inl data), g') ∧
    data = "PAYNET-NEXUS-1700000000-7" ∧ producer.ints g' = 6%nat.
Proof.
  destruct (generateTransaction_passes_validation sample_Intn sample_Float64
              sample_Now sample_Unix sample_Format sample_uuid sample_2f
              sample_08d sample_MarshalIndent 5 [maybank; dbs] 7 gen0)
    as (s & t & sourceBank & destBank & j & _ & _ & _ & _ & _ & _ & Hrun & _).
  - simpl. lia.
  - intros k. unfold sample_Intn. simpl. destruct (k <? 3)%nat; lia.
  - exists 2%nat. split; [lia | discriminate].
  - eexists _, _. split; [exact Hrun|].
    vm_compute in Hrun. injection Hrun as Hj. subst j. split; reflexivity.
Defined.

(** ** The producer's BICs in the consumer's mapping *)

Section MappingFacts.

Context {File : Type}.
Variable os_Open : string → File + error.
Variable io_ReadAll : File → string + error.
Variable json_Unmarshal : string → liquidity.NetworkConfig + error.

(** X22.  The consumer maps BICs as the configuration spells them, while
    the producer writes them normalised.  When both read the same banks,
    with distinct BICs: the BIC the producer writes for a bank whose
    configured BIC does not have eight bytes is mapped by
    [ExtractBankIDFromBIC] to that bank's identifier; for a bank
    configured with eight bytes the written BIC ends in XXX and, unless
    another bank is configured with exactly that BIC, it is not in the
    mapping, so the liquidity service is asked about the BIC itself. *)
Theorem normalized_BIC_resolves_unless_shortened
    (path : string) (m : liquidity.Maps) (file : File) (bytes : string)
    (banks : list producer.Bank) (bank : producer.Bank) :
  os_Open path = inl file → io_ReadAll file = inl bytes →
  json_Unmarshal bytes = inl {| liquidity.Banks := as_liquidity <$> banks |} →
  NoDup (producer.BIC <$> banks) → bank ∈ banks →
  let maps := (LoadBICMapping os_Open io_ReadAll json_Unmarshal path m).2 in
  let written := producer.normalizeBIC (producer.BIC bank) in
  (len (producer.BIC bank) ≠ 8 →
   ExtractBankIDFromBIC (liquidity.bicMap maps) written = producer.ID bank) ∧
  (len (producer.BIC bank) = 8 →
   (∀ other, other ∈ banks → producer.BIC other ≠ written) →
   written = producer.BIC bank +:+ "XXX" ∧
   ExtractBankIDFromBIC (liquidity.bicMap maps) written = written).
Proof.
  intros Hopen Hread Hjson Hnd Hin maps written. subst maps written.
  unfold LoadBICMapping. rewrite Hopen, Hread, Hjson. cbn [snd liquidity.Banks].
  destruct (fold_addBank (as_liquidity <$> banks) (liquidity.mkMaps ∅ ∅))
    as [Hbic _].
  unfold ExtractBankIDFromBIC. split.
  - intros Hlen. unfold producer.normalizeBIC.
    destruct (Z.eqb_spec (len (producer.BIC bank)) 8); [done|].
    rewrite Hbic.
    change (producer.BIC bank) with (liquidity.BIC (as_liquidity bank)).
    rewrite last_with_BIC_NoDup; [done | | by apply list_elem_of_fmap_2].
    rewrite <- list_fmap_compose. exact Hnd.
  - intros Hlen Hother. unfold producer.normalizeBIC.
    rewrite Hlen. cbn [Z.eqb Pos.eqb]. split; [done|].
    rewrite Hbic. unfold last_with_BIC. rewrite filter_none.
    + simpl. by rewrite lookup_empty.
    + intros x Hx Heq. apply list_elem_of_fmap in Hx as (other & -> & Hother').
      apply (Hother other Hother'). unfold producer.normalizeBIC.
      rewrite Hlen. exact Heq.
Qed.

End MappingFacts.

Lemma normalized_BIC_resolves_unless_shortened_witness :
  let maps := (LoadBICMapping sample_Open sample_ReadAll sample_mapping
                 "network.json" (liquidity.mkMaps ∅ ∅)).2 in
  ExtractBankIDFromBIC (liquidity.bicMap maps)
    (producer.normalizeBIC (producer.BIC dbs)) = "dbs" ∧
  ExtractBankIDFromBIC (liquidity.bicMap maps)
    (producer.normalizeBIC (producer.BIC maybank)) = "MBBEMYKLXXX".
Proof.
  intros maps.
  assert (Hnd : NoDup (producer.BIC <$> [maybank; observer; dbs]))
    by (by apply (bool_decide_unpack _)).
  split.
  - eapply (normalized_BIC_resolves_unless_shortened sample_Open sample_ReadAll
              sample_mapping "network.json" (liquidity.mkMaps ∅ ∅) "{banks}"
              "{banks}" [maybank; observer; dbs] dbs);
      [reflexivity | reflexivity | reflexivity | exact Hnd | | discriminate].
    do 2 right. left.
  - eapply (normalized_BIC_resolves_unless_shortened sample_Open sample_ReadAll
              sample_mapping "network.json" (liquidity.mkMaps ∅ ∅) "{banks}"
              "{banks}" [maybank; observer; dbs] maybank);
      [reflexivity | reflexivity | reflexivity | exact Hnd | | reflexivity |].
    + left.
    + intros other Hother.
      apply elem_of_cons in Hother as [->|Hother]; [discriminate|].
      apply elem_of_cons in Hother as [->|Hother]; [discriminate|].
      apply elem_of_cons in Hother as [->|Hother]; [discriminate|].
      by apply elem_of_nil in Hother.
Defined.

(** ** The producing loop *)

Lemma itoa_inj a b : itoa a = itoa b → a = b.
Proof.
  unfold itoa. intros H.
  apply (f_equal NilZero.int_of_string) in H.
  assert (Hn : ∀ z, NilZero.int_of_string (NilZero.string_of_int (Z.to_int z))
                    = Some (Z.to_int z)).
  { intros z. apply NilZero.isi.
    - destruct z; simpl; try discriminate. intros [= Hp].
      by apply (Unsigned.to_uint_nonnil p).
    - destruct z; simpl; try discriminate. intros [= Hp].
      by apply (Unsigned.to_uint_nonnil p). }
  rewrite !Hn in H. injection H as H. by apply DecimalZ.to_int_inj.
Qed.

Lemma increasing_NoDup (l : list Z) : increasing l → NoDup l.
Proof.
  induction l as [|x l IH]; [constructor|]. intros [Hall Hinc].
  apply NoDup_cons. split; [|by apply IH].
  intros Hin. rewrite Forall_forall in Hall. specialize (Hall x Hin). lia.
Qed.

Lemma ticker_interval (messagesPerSecond : Z) :
  messagesPerSecond ≠ 0 →
  (Second `quot` messagesPerSecond ≤ 0 ↔
   messagesPerSecond < 0 ∨ 1000000000 < messagesPerSecond).
Proof.
  intros Hne. unfold Second, Millisecond.
  change (1000 * 1000000) with 1000000000.
  destruct (Z.lt_trichotomy messagesPerSecond 0) as [Hneg|[H0|Hpos]]; [|done|].
  - split; [by left|]. intros _.
    replace messagesPerSecond with (- - messagesPerSecond) by lia.
    rewrite Z.quot_opp_r by lia.
    pose proof (Z.quot_pos 1000000000 (- messagesPerSecond)). lia.
  - destruct (Z.le_gt_cases messagesPerSecond 1000000000) as [Hle|Hgt].
    + split; [|lia]. intros Hq.
      pose proof (Z.quot_str_pos 1000000000 messagesPerSecond). lia.
    + split; [by right|]. intros _. rewrite Z.quot_small; lia.
Qed.

Section ProduceFacts.

Context {G : Type}.
Variable generateTransaction : Z → G → (string + error) * G.

Lemma produceLoop_spec : ∀ (steps : list ProducerStep) (p : Producer G),
  0 ≤ msgID p → 0 ≤ MessagesProduced p → 0 ≤ Errors p →
  msgID p + Z.of_nat (ticks steps) ≤ max_int64 →
  MessagesProduced p + Z.of_nat (ticks steps) ≤ max_int64 →
  Errors p + Z.of_nat (ticks steps) ≤ max_int64 →
  let p' := produceLoop generateTransaction steps p in
  MessagesProduced p' + Errors p'
  = MessagesProduced p + Errors p + Z.of_nat (ticks steps) ∧
  msgID p ≤ msgID p' ≤ msgID p + Z.of_nat (ticks steps) ∧
  Errors p ≤ Errors p' ∧
  ∃ new ids,
    written p' = written p ++ new ∧
    new.*1 = (λ i, "txn-" +:+ itoa i) <$> ids ∧
    MessagesProduced p' = MessagesProduced p + Z.of_nat (length ids) ∧
    Forall (λ i, msgID p ≤ i < msgID p') ids ∧
    increasing ids.
Proof.
  induction steps as [|step steps IH]; intros p Hm Hp He Hmb Hpb Heb.
  { cbn. repeat split; try lia. exists [], []. rewrite app_nil_r.
    repeat split; try done; cbn; lia. }
  destruct step as [| |writeErr].
  - cbn. repeat split; try lia. exists [], []. rewrite app_nil_r.
    repeat split; try done; cbn; lia.
  - cbn [produceLoop ticks] in *.
    specialize (IH (mkProducer (msgID p) 0 (MessagesProduced p) (Errors p)
                      (generator p) (written p))).
    cbn in IH. by apply IH.
  - cbn [produceLoop ticks] in *.
    destruct (generateTransaction (msgID p) (generator p)) as [[data|err] g].
    + destruct writeErr as [werr|].
      * rewrite !wrap64_id by (unfold min_int64, max_int64 in *; lia).
        specialize (IH (mkProducer (msgID p + 1) (batchCount p)
                          (MessagesProduced p) (Errors p + 1) g (written p))).
        cbn in IH.
        destruct IH as (Hsum & Hid & Herr & new & ids & Hw & Hk & Hmp & Hall
                        & Hsorted); try lia.
        split; [lia|]. split; [lia|]. split; [lia|].
        exists new, ids. split; [done|]. split; [done|]. split; [done|].
        split; [|done]. eapply Forall_impl; [exact Hall|]. cbn. lia.
      * rewrite !(wrap64_id (msgID p + 1)), !(wrap64_id (MessagesProduced p + 1))
          by (unfold min_int64, max_int64 in *; lia).
        specialize (IH (mkProducer (msgID p + 1) (wrap64 (batchCount p + 1))
                          (MessagesProduced p + 1) (Errors p) g
                          (written p ++ [("txn-" +:+ itoa (msgID p), data)]))).
        cbn in IH.
        destruct IH as (Hsum & Hid & Herr & new & ids & Hw & Hk & Hmp & Hall
                        & Hsorted); try lia.
        split; [lia|]. split; [lia|]. split; [lia|].
        exists (("txn-" +:+ itoa (msgID p), data) :: new), (msgID p :: ids).
        split; [by rewrite Hw, <- app_assoc|].
        split; [by rewrite !fmap_cons, Hk|].
        split; [cbn [length]; lia|]. split.
        -- constructor; [lia|]. eapply Forall_impl; [exact Hall|]. cbn. lia.
        -- split; [|done]. eapply Forall_impl; [exact Hall|]. cbn. lia.
    + rewrite !wrap64_id by (unfold min_int64, max_int64 in *; lia).
      specialize (IH (mkProducer (msgID p) (batchCount p) (MessagesProduced p)
                        (Errors p + 1) g (written p))).
      cbn in IH.
      destruct IH as (Hsum & Hid & Herr & new & ids & Hw & Hk & Hmp & Hall
                      & Hsorted); try lia.
      split; [lia|]. split; [lia|]. split; [lia|].
      exists new, ids. by repeat split.
Qed.

(** The identifier advances by one at each tick at which a message was
    generated, and at no other step. *)
Lemma produceLoop_msgID : ∀ (steps : list ProducerStep) (p : Producer G),
  0 ≤ msgID p →
  msgID p + Z.of_nat (ticks steps) ≤ max_int64 →
  msgID (produceLoop generateTransaction steps p)
  = msgID p + Z.of_nat (generated generateTransaction steps p) ∧
  (generated generateTransaction steps p ≤ ticks steps)%nat.
Proof.
  induction steps as [|step steps IH]; intros p Hm Hmb.
  { cbn. lia. }
  destruct step as [| |writeErr].
  - cbn. lia.
  - cbn [produceLoop ticks generated] in *.
    specialize (IH (mkProducer (msgID p) 0 (MessagesProduced p) (Errors p)
                      (generator p) (written p))).
    cbn in IH. by apply IH.
  - cbn [produceLoop ticks generated] in *.
    destruct (generateTransaction (msgID p) (generator p)) as [[data|err] g].
    + destruct writeErr as [werr|]; cbn [fst];
        rewrite !(wrap64_id (msgID p + 1))
          by (unfold min_int64, max_int64 in *; lia).
      * specialize (IH (mkProducer (msgID p + 1) (batchCount p)
                          (MessagesProduced p) (wrap64 (Errors p + 1)) g
                          (written p))).
        cbn in IH. destruct IH as [-> ?]; lia.
      * specialize (IH (mkProducer (msgID p + 1) (wrap64 (batchCount p + 1))
                          (wrap64 (MessagesProduced p + 1)) (Errors p) g
                          (written p ++ [("txn-" +:+ itoa (msgID p), data)]))).
        cbn in IH. destruct IH as [-> ?]; lia.
    + cbn [fst].
      specialize (IH (mkProducer (msgID p) (batchCount p) (MessagesProduced p)
                        (wrap64 (Errors p + 1)) g (written p))).
      cbn in IH. destruct IH as [-> ?]; lia.
Qed.

(** The loop takes its steps one at a time. *)
Lemma produceLoop_app (before rest : list ProducerStep) (p : Producer G) :
  ProdCtxDone ∉ before →
  produceLoop generateTransaction (before ++ rest) p
  = produceLoop generateTransaction rest
      (produceLoop generateTransaction before p).
Proof.
  revert p. induction before as [|step before IH]; intros p Hno; [done|].
  assert (Hno' : ProdCtxDone ∉ before)
    by (intros ?; apply Hno; by apply elem_of_cons; right).
  destruct step as [| |writeErr].
  - exfalso. apply Hno. by apply elem_of_cons; left.
  - cbn [app produceLoop]. by apply IH.
  - cbn [app produceLoop].
    destruct (generateTransaction (msgID p) (generator p)) as [[data|err] g];
      [destruct writeErr|]; by apply IH.
Qed.

(** X23.  [produceMessages] panics before it produces anything when
    [messagesPerSecond] is not between 1 and 1000000000: the interval of
    its ticker would be undefined or not positive.  Otherwise, while the
    counters do not overflow: every tick of the message ticker it handles
    is counted once, as produced or as an error; the message identifier
    advances by one at each tick at which [generateTransaction] returned a
    message, written or not, and at no other step: at the end it has
    advanced by the number of such ticks, and a tick handled at any point
    of the run advances it exactly when the generator, asked with the
    identifier and the state reached at that point, returns a message; and
    the messages the writer accepted carry the keys txn-i for strictly
    increasing identifiers i, so no two of them have the same key. *)
Theorem produceMessages_counts_ticks_and_keys
    (messagesPerSecond : Z) (steps : list ProducerStep) (p : Producer G) :
  ((∃ reason,
      produceMessages generateTransaction messagesPerSecond steps p
      = Panic reason) ↔
   messagesPerSecond ≤ 0 ∨ 1000000000 < messagesPerSecond) ∧
  (1 ≤ messagesPerSecond ≤ 1000000000 →
   0 ≤ msgID p → 0 ≤ MessagesProduced p → 0 ≤ Errors p →
   msgID p + Z.of_nat (ticks steps) ≤ max_int64 →
   MessagesProduced p + Z.of_nat (ticks steps) ≤ max_int64 →
   Errors p + Z.of_nat (ticks steps) ≤ max_int64 →
   ∃ p' new ids,
     produceMessages generateTransaction messagesPerSecond steps p = Ok p' ∧
     MessagesProduced p' + Errors p'
     = MessagesProduced p + Errors p + Z.of_nat (ticks steps) ∧
     msgID p' = msgID p + Z.of_nat (generated generateTransaction steps p) ∧
     (∀ before writeErr after,
        steps = before ++ ProdTick writeErr :: after →
        ProdCtxDone ∉ before →
        let p1 := produceLoop generateTransaction before p in
        let p2 := produceLoop generateTransaction
                    (before ++ [ProdTick writeErr]) p in
        msgID p2
        = msgID p1
          + match fst (generateTransaction (msgID p1) (generator p1)) with
            | inl _ => 1
            | inr _ => 0
            end ∧
        p' = produceLoop generateTransaction after p2) ∧
     (length ids ≤ generated generateTransaction steps p ≤ ticks steps)%nat ∧
     msgID p ≤ msgID p' ≤ msgID p + Z.of_nat (ticks steps) ∧
     written p' = written p ++ new ∧
     new.*1 = (λ i, "txn-" +:+ itoa i) <$> ids ∧
     MessagesProduced p' = MessagesProduced p + Z.of_nat (length ids) ∧
     Forall (λ i, msgID p ≤ i < msgID p') ids ∧
     increasing ids ∧
     NoDup new.*1).
Proof.
  unfold produceMessages, time_NewTicker.
  change (10 * Second <=? 0) with false. cbv iota.
  split.
  - destruct (Z.eqb_spec messagesPerSecond 0) as [->|Hne].
    { split; [intros _; lia | intros _; by eexists]. }
    pose proof (ticker_interval messagesPerSecond Hne) as Hint.
    destruct (Z.leb_spec (Second `quot` messagesPerSecond) 0) as [Hle|Hgt].
    + split; [intros _; lia | intros _; by eexists].
    + split; [by intros [? ?] | intros Hbad; lia].
  - intros Hrange Hm Hp He Hmb Hpb Heb.
    destruct (Z.eqb_spec messagesPerSecond 0) as [->|Hne]; [lia|].
    pose proof (ticker_interval messagesPerSecond Hne) as Hint.
    destruct (Z.leb_spec (Second `quot` messagesPerSecond) 0) as [Hle|Hgt];
      [lia|].
    destruct (produceLoop_spec steps p Hm Hp He Hmb Hpb Heb)
      as (Hsum & Hid & _ & new & ids & Hw & Hk & Hmp & Hall & Hsorted).
    destruct (produceLoop_msgID steps p Hm Hmb) as [Hadv Hgen].
    assert (Hinc : NoDup ids) by (by apply increasing_NoDup).
    eexists _, new, ids. split; [done|]. split; [done|]. split; [done|].
    split.
    { intros before writeErr after -> Hno. cbv zeta.
      set (p1 := produceLoop generateTransaction before p).
      set (p2 := produceLoop generateTransaction
                   (before ++ [ProdTick writeErr]) p).
      assert (Hticks : (ticks before + 1 ≤
                        ticks (before ++ ProdTick writeErr :: after))%nat).
      { clear -Hno. induction before as [|step before IH]; [simpl; lia|].
        assert (Hno' : ProdCtxDone ∉ before)
          by (intros ?; apply Hno; by apply elem_of_cons; right).
        destruct step; cbn [app ticks]; [|by apply IH|specialize (IH Hno'); lia].
        exfalso. apply Hno. by apply elem_of_cons; left. }
      destruct (produceLoop_msgID before p Hm) as [Hadv1 Hgen1]; [lia|].
      fold p1 in Hadv1.
      split.
      - unfold p2. rewrite produceLoop_app by done. fold p1.
        cbn [produceLoop].
        destruct (generateTransaction (msgID p1) (generator p1))
          as [[data|err] g]; [destruct writeErr|]; cbn [fst msgID];
          rewrite ?wrap64_id by (unfold min_int64, max_int64 in *; lia); lia.
      - unfold p2.
        rewrite <- produceLoop_app
          by (intros [?|[?|?%elem_of_nil]%elem_of_cons]%elem_of_app; done).
        by rewrite <- app_assoc. }
    split.
    { split; [|done].
      apply Nat2Z.inj_le. pose proof (Forall_forall (λ i, msgID p ≤ i <
        msgID (produceLoop generateTransaction steps p)) ids) as [Hf _].
      specialize (Hf Hall).
      assert (Hsub : ids ⊆ seqZ (msgID p)
                (Z.of_nat (generated generateTransaction steps p))).
      { intros i Hi. apply elem_of_seqZ. specialize (Hf i Hi). lia. }
      pose proof (submseteq_length _ _ (NoDup_submseteq _ _ Hinc Hsub))
        as Hlen.
      rewrite length_seqZ in Hlen. lia. }
    do 6 (split; [done|]).
    rewrite Hk. apply NoDup_fmap_2; [|done].
    intros i j Heq. apply String.app_inj in Heq. by apply itoa_inj.
Qed.

End ProduceFacts.

Lemma produceMessages_counts_ticks_and_keys_witness :
  ∃ p',
    produceMessages sample_generate 1000
      [ProdTick None; ProdTick (Some (ErrForeign "kafka: timeout"));
       ProdBatchTick; ProdTick None; ProdTick None; ProdCtxDone; ProdTick None]
      producer0 = Ok p' ∧
    MessagesProduced p' + Errors p' = 4 ∧
    msgID p' = 3 ∧
    (written p').*1 = ["txn-0"; "txn-2"] ∧
    ∃ reason,
      produceMessages sample_generate 0 [ProdTick None] producer0
      = Panic reason.
Proof.
  destruct (produceMessages_counts_ticks_and_keys sample_generate 1000
              [ProdTick None; ProdTick (Some (ErrForeign "kafka: timeout"));
               ProdBatchTick; ProdTick None; ProdTick None; ProdCtxDone;
               ProdTick None] producer0) as [_ Hok].
  destruct Hok as (p' & new & ids & Hrun & Hsum & Hadv & _);
    [lia | simpl; lia | simpl; lia | simpl; lia | by vm_compute..|].
  exists p'. split; [exact Hrun|]. split; [exact Hsum|].
  split; [exact Hadv|]. split.
  - vm_compute in Hrun. injection Hrun as <-. reflexivity.
  - apply (produceMessages_counts_ticks_and_keys sample_generate 0
             [ProdTick None] producer0). lia.
Defined.

(** ** The health endpoints of the producer *)

Section HealthFacts.

Variable kafka_Dial : string → nat → option error.
Variable conn_Controller : string → nat → option error.

Local Abbreviation check :=
  (producer_health.checkKafkaHealth kafka_Dial conn_Controller).

Lemma monitorKafkaHealth_ticks brokerAddr : ∀ (n : nat) f,
  let f' := producer_health.monitorKafkaHealth kafka_Dial conn_Controller
              brokerAddr (replicate (Datatypes.S n) MonTick) f in
  producer_health.configLoaded f' = producer_health.configLoaded f ∧
  producer_health.dials f' = (producer_health.dials f + Datatypes.S n)%nat ∧
  producer_health.kafkaHealthy f'
  = match check brokerAddr (producer_health.dials f + n)%nat with
    | Some _ => 0
    | None => 1
    end.
Proof.
  induction n as [|n IH]; intros f.
  - cbn. rewrite Nat.add_0_r. repeat split; lia.
  - replace (replicate (Datatypes.S (Datatypes.S n)) MonTick)
      with (MonTick :: replicate (Datatypes.S n) MonTick) by done.
    cbn [producer_health.monitorKafkaHealth]. cbv zeta.
    match goal with
    | |- context [producer_health.monitorKafkaHealth _ _ _ _ ?f1] =>
        destruct (IH f1) as (Hc & Hd & Hk)
    end.
    cbn [producer_health.configLoaded producer_health.dials
         producer_health.kafkaHealthy] in Hc, Hd, Hk.
    rewrite Hc, Hd, Hk.
    replace (Datatypes.S (producer_health.dials f) + n)%nat
      with (producer_health.dials f + Datatypes.S n)%nat by lia.
    repeat split; lia.
Qed.

(** X24.  Every tick of [monitorKafkaHealth] makes one health check and
    sets the Kafka flag to 1 when broker and controller answered and to 0
    otherwise; the configuration flag is not touched.  The error of a
    failed check wraps the error of the dial or of the controller lookup.
    After any number of ticks the liveness endpoint answers after the last
    check, 200 and healthy or 503 and degraded, and the readiness endpoint
    answers 200 exactly when the last check succeeded and the
    configuration is loaded; so a ready producer is always healthy. *)
Theorem liveness_follows_last_check
    (brokerAddr : string) (n : nat) (f : producer_health.Flags)
    (now : Z) (uptime : string) (messagesProduced : Z) :
  let f' := producer_health.monitorKafkaHealth kafka_Dial conn_Controller
              brokerAddr (replicate (Datatypes.S n) MonTick) f in
  let last := (producer_health.dials f + n)%nat in
  let up := bool_decide (check brokerAddr last = None) in
  producer_health.configLoaded f' = producer_health.configLoaded f ∧
  producer_health.kafkaHealthy f' = flag up ∧
  (up = true ↔
   kafka_Dial brokerAddr last = None ∧ conn_Controller brokerAddr last = None) ∧
  (∀ e, check brokerAddr last = Some e →
     ∃ cause, errors_Unwrap e = Some cause ∧
       (kafka_Dial brokerAddr last = Some cause ∨
        kafka_Dial brokerAddr last = None ∧
        conn_Controller brokerAddr last = Some cause)) ∧
  producer_health.handleHealth now uptime messagesProduced f'
  = mkResponse (if up then StatusOK else StatusServiceUnavailable)
      (Some {| producer_health.Status := if up then "healthy" else "degraded";
               producer_health.Service := "producer";
               producer_health.Timestamp := now;
               producer_health.MessagesProduced := messagesProduced;
               producer_health.Uptime := uptime;
               producer_health.KafkaConnected := up |}) ∧
  StatusCode (producer_health.handleReady now f')
  = (if up && (producer_health.configLoaded f =? 1)
     then StatusOK else StatusServiceUnavailable) ∧
  (StatusCode (producer_health.handleReady now f') = StatusOK →
   StatusCode (producer_health.handleHealth now uptime messagesProduced f')
   = StatusOK).
Proof.
  intros f' last up.
  destruct (monitorKafkaHealth_ticks brokerAddr n f) as (Hc & _ & Hk).
  fold f' in Hc, Hk. fold last in Hk.
  assert (Hflag : producer_health.kafkaHealthy f' = flag up).
  { rewrite Hk. subst up. by destruct (check brokerAddr last). }
  assert (Hhealth :
    producer_health.handleHealth now uptime messagesProduced f'
    = mkResponse (if up then StatusOK else StatusServiceUnavailable)
        (Some {| producer_health.Status := if up then "healthy" else "degraded";
                 producer_health.Service := "producer";
                 producer_health.Timestamp := now;
                 producer_health.MessagesProduced := messagesProduced;
                 producer_health.Uptime := uptime;
                 producer_health.KafkaConnected := up |})).
  { unfold producer_health.handleHealth, atomic.LoadInt32, atomic.LoadInt64.
    rewrite Hflag. by destruct up. }
  assert (Hready :
    StatusCode (producer_health.handleReady now f')
    = (if up && (producer_health.configLoaded f =? 1)
       then StatusOK else StatusServiceUnavailable)).
  { unfold producer_health.handleReady, atomic.LoadInt32.
    rewrite Hflag, Hc. by destruct up. }
  split; [done|]. split; [done|]. split; [|split; [|split; [done|split]]].
  - subst up. rewrite bool_decide_eq_true.
    unfold producer_health.checkKafkaHealth.
    destruct (kafka_Dial brokerAddr last), (conn_Controller brokerAddr last);
      split; try done; by intros [? ?].
  - intros e. unfold producer_health.checkKafkaHealth.
    destruct (kafka_Dial brokerAddr last) as [d|];
      [|destruct (conn_Controller brokerAddr last) as [c|]];
      intros [= <-]; eexists; (split; [done|]); eauto.
  - done.
  - rewrite Hready, Hhealth. destruct up; [done|]. cbn. discriminate.
Qed.

End HealthFacts.

Lemma liveness_follows_last_check_witness :
  let f' := producer_health.monitorKafkaHealth dial_ok controller_lost
              "kafka:9092" [MonTick; MonTick]
              (producer_health.mkFlags 1 1 0) in
  producer_health.kafkaHealthy f' = 0 ∧
  StatusCode (producer_health.handleHealth 0 "1m0s" 42 f')
  = StatusServiceUnavailable.
Proof.
  intros f'.
  destruct (liveness_follows_last_check dial_ok controller_lost "kafka:9092" 1
              (producer_health.mkFlags 1 1 0) 0 "1m0s" 42)
    as (_ & Hk & _ & _ & Hh & _).
  split; [exact Hk|].
  change (StatusCode
            (producer_health.handleHealth 0 "1m0s" 42
               (producer_health.monitorKafkaHealth dial_ok controller_lost
                  "kafka:9092" (replicate 2 MonTick)
                  (producer_health.mkFlags 1 1 0)))
          = StatusServiceUnavailable).
  rewrite Hh. reflexivity.
Defined.

(** ** What the validation keeps and what it reads *)

(** The fields of a result that no check writes once the header has been
    read. *)
Lemma validateBICs_meta doc r :
  ResultMsgId (validateBICs doc r) = ResultMsgId r ∧
  Timestamp (validateBICs doc r) = Timestamp r ∧
  Latency (validateBICs doc r) = Latency r.
Proof.
  unfold validateBICs. destruct (CdtTrfTxInf _) as [|tx txs]; [done|].
  cbv zeta. by destruct (_ || _), (_ || _).
Qed.

Lemma validateTxs_meta txs : ∀ i r,
  ResultMsgId (validateTxs i txs r) = ResultMsgId r ∧
  Timestamp (validateTxs i txs r) = Timestamp r ∧
  Latency (validateTxs i txs r) = Latency r.
Proof.
  induction txs as [|tx txs IH]; intros i r; [done|].
  cbn [validateTxs]. destruct (IH (i + 1) (validateTx i tx r)) as (-> & -> & ->).
  unfold validateTx.
  by destruct (String.eqb (InstrId _) ""), (String.eqb (Ccy _) ""),
    (String.eqb (Value _) ""), (String.eqb (IntrBkSttlmDt _) ""), (negb _).
Qed.

Lemma validateHeader_meta doc r :
  ResultMsgId r = "" →
  ResultMsgId (validateHeader doc r) = MsgId (GrpHdr (FIToFICstmrCdtTrf doc)) ∧
  Timestamp (validateHeader doc r) = Timestamp r ∧
  Latency (validateHeader doc r) = Latency r.
Proof.
  intros Hid. unfold validateHeader. cbv zeta.
  destruct (String.eqb_spec (MsgId (GrpHdr (FIToFICstmrCdtTrf doc))) "")
    as [Heq|Hne];
    destruct (_ <=? 0), (negb _), (_ =? 0); simpl; by rewrite ?Heq, ?Hid.
Qed.

(** X25.  Whatever the checks find, the result of [validateTransaction]
    carries the time stamp taken at the start and, as latency, the time
    elapsed since the start (never negative on a clock that does not go
    back).  For a message that unmarshals it carries the message
    identifier of the document, which no later failure erases; for one
    that does not, the result is invalid with the code XML_PARSE_ERROR, the
    text of the parser's error and no message identifier. *)
Theorem validateTransaction_keeps_identifier_and_times
    (xml_Unmarshal : string → Document + error)
    (startTime stamp endTime : Z) (data : string) :
  let result := validateTransaction xml_Unmarshal startTime stamp endTime data in
  Timestamp result = stamp ∧
  Latency result = time_Since endTime startTime ∧
  (startTime ≤ endTime → 0 ≤ Latency result) ∧
  match xml_Unmarshal data with
  | inl doc => ResultMsgId result = MsgId (GrpHdr (FIToFICstmrCdtTrf doc))
  | inr err =>
      Valid result = false ∧ ErrorCode result = "XML_PARSE_ERROR" ∧
      ErrorMsg result = "Failed to parse XML: " +:+ error_Error err ∧
      ResultMsgId result = ""
  end.
Proof.
  intros result. subst result. unfold validateTransaction.
  assert (Hpos : startTime ≤ endTime → 0 ≤ time_Since endTime startTime).
  { intros Hle. unfold time_Since, saturate64, min_int64, max_int64. lia. }
  destruct (xml_Unmarshal data) as [doc|err]; [|by repeat split].
  unfold validateDocument. cbv zeta.
  match goal with
  | |- context [validateTxs 0 ?txs ?r] =>
      destruct (validateTxs_meta txs 0 r) as (Hid & Hts & _)
  end.
  match type of Hid with
  | context [validateBICs ?d ?r] =>
      destruct (validateBICs_meta d r) as (Hid' & Hts' & _)
  end.
  match type of Hid' with
  | context [validateHeader ?d ?r] =>
      destruct (validateHeader_meta d r eq_refl) as (Hid'' & Hts'' & _)
  end.
  cbn [Timestamp Latency ResultMsgId set_Latency].
  rewrite Hts, Hts', Hts'', Hid, Hid', Hid''. by repeat split.
Qed.

Lemma same_verdict_sym r1 r2 : same_verdict r1 r2 → same_verdict r2 r1.
Proof. unfold same_verdict. intros (H1 & H2 & H3). by repeat split. Qed.

Lemma same_verdict_trans r1 r2 r3 :
  same_verdict r1 r2 → same_verdict r2 r3 → same_verdict r1 r3.
Proof.
  unfold same_verdict. intros (H1 & H2 & H3) (H4 & H5 & H6).
  repeat split; congruence.
Qed.

Lemma txs_rules_alike txs1 txs2 :
  Forall2 checked_alike txs1 txs2 →
  ∀ i, txs_rules i txs1 = txs_rules i txs2.
Proof.
  induction 1 as [|tx1 tx2 txs1 txs2 (Hi & Hc & Hv & Hd & Hb) _ IH]; intros i;
    [done|].
  cbn [txs_rules]. rewrite IH. f_equal. unfold tx_rules.
  by rewrite Hi, Hc, Hv, Hd, Hb.
Qed.

(** X26.  The validation reads nothing but the message identifier, the
    sign of the announced number of transactions, the settlement method,
    the lengths of the two agent BICs of the first transaction and, of
    every transaction, the instruction identifier, currency, amount, date
    and charge bearer.  Two documents that agree on these get the same
    verdict: the announced number of transactions is not compared with
    the number found, and the agents of the transactions after the first
    are not checked. *)
Theorem validation_reads_checked_fields_only
    (doc1 doc2 : Document) (r : ValidationResult) :
  let hdr1 := GrpHdr (FIToFICstmrCdtTrf doc1) in
  let hdr2 := GrpHdr (FIToFICstmrCdtTrf doc2) in
  let txs1 := CdtTrfTxInf (FIToFICstmrCdtTrf doc1) in
  let txs2 := CdtTrfTxInf (FIToFICstmrCdtTrf doc2) in
  MsgId hdr1 = MsgId hdr2 →
  (NbOfTxs hdr1 ≤ 0 ↔ NbOfTxs hdr2 ≤ 0) →
  SttlmMtd (SttlmInf hdr1) = SttlmMtd (SttlmInf hdr2) →
  Forall2 checked_alike txs1 txs2 →
  (∀ tx1 tx2, head txs1 = Some tx1 → head txs2 = Some tx2 →
              agents_alike tx1 tx2) →
  same_verdict (validateDocument doc1 r) (validateDocument doc2 r) ∧
  ResultMsgId (validateDocument doc1 r) = ResultMsgId (validateDocument doc2 r).
Proof.
  intros hdr1 hdr2 txs1 txs2 Hid Hnb Hm Htxs Hagents.
  assert (Hrules : all_rules doc1 = all_rules doc2).
  { unfold all_rules. fold txs1 txs2. rewrite (txs_rules_alike _ _ Htxs).
    f_equal; [|f_equal].
    - unfold header_rules. fold hdr1 hdr2 txs1 txs2. rewrite Hid, Hm.
      assert (Hb : (NbOfTxs hdr1 <=? 0) = (NbOfTxs hdr2 <=? 0)).
      { destruct (Z.leb_spec (NbOfTxs hdr1) 0), (Z.leb_spec (NbOfTxs hdr2) 0);
          try done; lia. }
      rewrite Hb.
      assert (He : bool_decide (txs1 = []) = bool_decide (txs2 = [])).
      { by destruct Htxs. }
      by rewrite He.
    - unfold bic_rules. fold txs1 txs2.
      destruct Htxs as [|tx1 tx2 l1 l2 _ _]; [done|].
      destruct (Hagents tx1 tx2 eq_refl eq_refl) as [Hd Hc].
      by rewrite Hd, Hc. }
  split.
  - eapply same_verdict_trans; [apply validateDocument_marks|].
    rewrite Hrules. apply same_verdict_sym, validateDocument_marks.
  - unfold validateDocument. cbv zeta.
    repeat match goal with
    | |- context [validateTxs 0 ?txs ?r] =>
        destruct (validateTxs_meta txs 0 r) as (-> & _ & _)
    | |- context [validateBICs ?d ?r] =>
        destruct (validateBICs_meta d r) as (-> & _ & _)
    end.
    unfold validateHeader. cbv zeta. fold hdr1 hdr2 txs1 txs2.
    rewrite Hid.
    destruct (String.eqb (MsgId hdr2) "");
      destruct (NbOfTxs hdr1 <=? 0), (NbOfTxs hdr2 <=? 0),
        (negb (set_lookup validSttlmMethods (SttlmMtd (SttlmInf hdr1)))),
        (negb (set_lookup validSttlmMethods (SttlmMtd (SttlmInf hdr2)))),
        (Z.of_nat (length txs1) =? 0), (Z.of_nat (length txs2) =? 0);
      done.
Qed.

Lemma validation_reads_checked_fields_only_witness :
  same_verdict
    (validateDocument (sample_doc [sample_tx "100.50"; sample_tx "100.50"])
       (fresh_result 0))
    (validateDocument (seven_doc [sample_tx "100.50"; stray_tx])
       (fresh_result 0)) ∧
  Valid (validateDocument (seven_doc [sample_tx "100.50"; stray_tx])
           (fresh_result 0)) = true.
Proof.
  split; [|reflexivity].
  apply (validation_reads_checked_fields_only
           (sample_doc [sample_tx "100.50"; sample_tx "100.50"])
           (seven_doc [sample_tx "100.50"; stray_tx]) (fresh_result 0)).
  - reflexivity.
  - simpl. lia.
  - reflexivity.
  - repeat constructor.
  - simpl. intros tx1 tx2 [= <-] [= <-]. by split.
Defined.

(** ** The Kafka reader *)


